(** * Serval DNA: overlay addressing and abbreviation

    A shallow embedding of [overlay_address.c] (subscriber directory, address
    codec, reachability, broadcast duplicate cache) and of the companion
    abbreviation file (address cache and prefix opcodes), followed by the
    properties established about them.

    Conventions.
    - A byte ([unsigned char]) is a [Z] in [0, 256); a byte buffer is a
      [list Z].  C [int] values that the code keeps small are plain [Z];
      arithmetic on an [int] field that may hold any value is written with
      its 32-bit wrap-around ([int_wrap]).
    - Array positions and lengths that the code only counts with are [nat].
    - A pointer to a [struct subscriber] is an index into the arena of
      subscriber records; [NULL] is [None]. *)

From Stdlib Require Import ZArith Lia Bool List.
From stdpp Require Import base numbers option list.

Local Open Scope Z_scope.

(** ** Byte buffers *)

Definition SID_SIZE : nat := 32.

(** [memcmp(a, b, n) == 0] (also [bcmp]): the first [n] bytes agree. *)
Definition memcmp_eq (a b : list Z) (n : nat) : bool :=
  bool_decide (take n a = take n b).

(** [bcopy(src, &dst[ofs], n)] on a destination at least [ofs + n] long. *)
Definition bcopy_at (src dst : list Z) (ofs n : nat) : list Z :=
  take ofs dst ++ take n src ++ drop (ofs + n) dst.

(** [p[i]] for an [unsigned char *p]; reads past the modelled bytes give 0. *)
Definition byte_at (p : list Z) (i : nat) : Z := nth i p 0.

(** A C [int] has 32 bits in two's complement; a result outside
    [INT_MIN, INT_MAX] wraps around. *)
Definition INT_MAX : Z := 0x7fffffff.

Definition int_wrap (z : Z) : Z := (z + 0x80000000) mod 0x100000000 - 0x80000000.

(** What a C function does: return a value, leave through
    [exit()], or touch memory outside what is modelled (a [NULL] pointer that is
    dereferenced, an array slot out of range). *)
Inductive outcome (A : Type) : Type :=
| Ret (a : A)
| Exited
| Fault.
Arguments Ret {A} a.
Arguments Exited {A}.
Arguments Fault {A}.

(** ** Broadcast duplicate cache (overlay_address.c, lines 36-38, 278-313) *)

Definition MAX_BPIS : nat := 1024.
Definition BPI_MASK : Z := 0x3ff.

(** Modelled from the spec: [BROADCAST_LEN] comes from a header that is not
    part of the sources; the spec fixes the broadcast identifier at 8 bytes. *)
Definition BROADCAST_LEN : nat := 8.

(** [struct broadcast { unsigned char id[BROADCAST_LEN]; }] *)
Record broadcast := Broadcast { id : list Z }.

Definition zero_broadcast : broadcast := Broadcast (replicate BROADCAST_LEN 0).

(** [static struct broadcast bpilist[MAX_BPIS]]: static storage, all zero. *)
Definition bpilist_init : list broadcast := replicate MAX_BPIS zero_broadcast.

(** One turn of the loop body of [overlay_broadcast_drop_check]:
    [bpi_index=((bpi_index<<3)&0xfff8)+((bpi_index>>13)&0x7);
     bpi_index^=addr->id[i];] *)
Definition bpi_index_step (bpi_index : Z) (b : Z) : Z :=
  let bpi_index :=
    Z.land (Z.shiftl bpi_index 3) 0xfff8 + Z.land (Z.shiftr bpi_index 13) 0x7 in
  Z.lxor bpi_index b.

(** [for(i=0;i<BROADCAST_LEN;i++)] over [addr->id]: [n] turns left, at [i]. *)
Fixpoint bpi_index_loop (n : nat) (i : nat) (addr : broadcast) (bpi_index : Z) : Z :=
  match n with
  | O => bpi_index
  | S n' => bpi_index_loop n' (S i) addr (bpi_index_step bpi_index (byte_at (id addr) i))
  end.

Definition bpi_index_of (addr : broadcast) : Z :=
  Z.land (bpi_index_loop BROADCAST_LEN 0 addr 0) BPI_MASK.

(** [overlay_broadcast_drop_check]: the returned [int] and the table after. *)
Definition overlay_broadcast_drop_check (bpilist : list broadcast) (addr : broadcast)
  : Z * list broadcast :=
  let bpi_index := Z.to_nat (bpi_index_of addr) in
  let slot := default zero_broadcast (bpilist !! bpi_index) in
  if negb (memcmp_eq (id slot) (id addr) BROADCAST_LEN) then
    (0, <[bpi_index := Broadcast (take BROADCAST_LEN (id addr))]> bpilist)
  else
    (1, bpilist).

(** The hash as the specification words it, with [|] where the code has [+]. *)
Definition spec_hash_step (h : Z) (b : Z) : Z :=
  Z.lxor (Z.lor (Z.land (Z.shiftl h 3) 0xFFF8) (Z.land (Z.shiftr h 13) 0x7)) b.

Definition spec_slot_index (bpi : list Z) : Z :=
  Z.land (fold_left spec_hash_step (take 8 bpi) 0) 0x3FF.

(** A well-formed BPI: eight bytes. *)
Definition is_bpi (addr : broadcast) : Prop :=
  length (id addr) = BROADCAST_LEN ∧ Forall (λ b, 0 <= b < 256) (id addr).

(** ** Abbreviation cache and prefix opcodes of the companion file *)

Module Abbreviate.

(** [typedef struct overlay_address_cache { int size; int shift; sid *sids; }] *)
Record overlay_address_cache := AddressCache {
  size : Z;
  shift : Z;
  sids : list (list Z)
}.

(** The resolution codes come from a header outside the sources; only their
    being distinct matters here. *)
Inductive oa_result := OA_RESOLVED | OA_PLEASEEXPLAIN | OA_UNSUPPORTED.

(** [((sid[0]<<16)|(sid[0]<<8)|sid[2])>>cache->shift], line 165. *)
Definition cache_address_index (c : overlay_address_cache) (sid : list Z) : Z :=
  Z.shiftr
    (Z.lor (Z.lor (Z.shiftl (byte_at sid 0) 16) (Z.shiftl (byte_at sid 0) 8))
           (byte_at sid 2))
    (shift c).

(** [((in[0]<<16)|(in[0]<<8)|in[2])>>cache->shift], line 328. *)
Definition cache_lookup_index (c : overlay_address_cache) (in_ : list Z) : Z :=
  Z.shiftr
    (Z.lor (Z.lor (Z.shiftl (byte_at in_ 0) 16) (Z.shiftl (byte_at in_ 0) 8))
           (byte_at in_ 2))
    (shift c).

(** [cache->sids[index]], when the access stays inside the array. *)
Definition cache_slot (c : overlay_address_cache) (index : Z) : option (list Z) :=
  if (0 <=? shift c) && (shift c <? 32) && (0 <=? index)
  then sids c !! Z.to_nat index else None.

(** [while(cache->size>>cache->shift) cache->shift++;] started at shift 0.
    The size is at most 2^24 here, so 32 turns are more than the loop takes. *)
Fixpoint cache_shift_loop (fuel : nat) (size shift : Z) : Z :=
  match fuel with
  | O => shift
  | S fuel' =>
      if Z.shiftr size shift =? 0 then shift
      else cache_shift_loop fuel' size (shift + 1)
  end.

(** Whether the [calloc] calls a call makes succeed: the one for the cache
    block (line 146), the one for its [sids] array (line 151), and the one
    for the abbreviation table (line 204). *)
Record callocs := Callocs {
  cache_block : bool;
  cache_sids : bool;
  table_block : bool
}.

(** What [cache] names after [free(cache)] at line 152, which leaves the
    pointer set: the block had its [size] written, a zero [shift] and no
    [sids] array.  It has no entry, so every later access to an entry
    through the pointer is a fault. *)
Definition freed_cache (CACHE_SIZE : Z) : overlay_address_cache :=
  AddressCache CACHE_SIZE 0 [].

(** How the allocation branch of [overlay_abbreviate_cache_address] ends,
    when it does not [exit]: with the cache built, or with [return 0] and the
    pointer it leaves. *)
Inductive allocation :=
| Allocated (c : overlay_address_cache)
| Returned (cache : option overlay_address_cache).

(** The allocation branch of [overlay_abbreviate_cache_address]. *)
Definition cache_allocate (CACHE_SIZE : Z) (heap : callocs) : outcome allocation :=
  if CACHE_SIZE >? 0x1000000 then Exited
  else if CACHE_SIZE <? 0 then Exited
  else if negb (cache_block heap) then
    (* if (!cache) return 0; *)
    Ret (Returned None)
  else if negb (cache_sids heap) then
    (* if (!cache->sids) { free(cache); return 0; } *)
    Ret (Returned (Some (freed_cache CACHE_SIZE)))
  else
    let sh := cache_shift_loop 32 CACHE_SIZE 0 in
    let c := AddressCache CACHE_SIZE sh
               (replicate (Z.to_nat CACHE_SIZE) (replicate SID_SIZE 0)) in
    if negb (Z.shiftl 1 sh =? CACHE_SIZE) then Exited else Ret (Allocated c).

(** [overlay_abbreviate_cache_address]: the returned [int] and the cache.
    [CACHE_SIZE] is the configuration macro [OVERLAY_ADDRESS_CACHE_SIZE]. *)
Definition overlay_abbreviate_cache_address (CACHE_SIZE : Z) (heap : callocs)
    (cache : option overlay_address_cache) (sid : list Z)
  : outcome (Z * option overlay_address_cache) :=
  let allocated :=
    match cache with
    | None => if negb (CACHE_SIZE =? 0)
              then cache_allocate CACHE_SIZE heap
              else (* if (!cache) return 0; *) Ret (Returned None)
    | Some c => Ret (Allocated c)
    end in
  match allocated with
  | Exited => Exited
  | Fault => Fault
  | Ret (Returned cache) => Ret (0, cache)
  | Ret (Allocated c) =>
      let index := cache_address_index c sid in
      match cache_slot c index with
      | None => Fault
      | Some stored =>
          if memcmp_eq sid stored SID_SIZE then Ret (1, Some c)
          else
            Ret (0, Some (AddressCache (size c) (shift c)
                            (<[Z.to_nat index := take SID_SIZE sid]> (sids c))))
      end
  end.

(** [overlay_abbreviate_cache_lookup]: the result code, [out] and [*ofs].
    [overlay_abbreviate_remember_index] only prints, so it leaves no trace. *)
Definition overlay_abbreviate_cache_lookup (cache : option overlay_address_cache)
    (in_ : list Z) (out : list Z) (ofs : nat) (prefix_bytes index_bytes : nat)
  : outcome (oa_result * list Z * nat) :=
  match cache with
  | None => Fault
  | Some c =>
      let index := cache_lookup_index c in_ in
      match cache_slot c index with
      | None => Fault
      | Some stored =>
          if negb (memcmp_eq in_ stored prefix_bytes) then
            Ret (OA_PLEASEEXPLAIN, out, ofs)
          else
            Ret (OA_RESOLVED, bcopy_at stored out ofs SID_SIZE, (ofs + SID_SIZE)%nat)
      end
  end.

(** The opcodes, as listed at the head of the companion file. *)
Definition OA_CODE_00 : Z := 0x00.
Definition OA_CODE_INDEX : Z := 0x01.
Definition OA_CODE_02 : Z := 0x02.
Definition OA_CODE_PREVIOUS : Z := 0x03.
Definition OA_CODE_04 : Z := 0x04.
Definition OA_CODE_PREFIX3 : Z := 0x05.
Definition OA_CODE_PREFIX7 : Z := 0x06.
Definition OA_CODE_PREFIX11 : Z := 0x07.
Definition OA_CODE_FULL_INDEX1 : Z := 0x08.
Definition OA_CODE_PREFIX3_INDEX1 : Z := 0x09.
Definition OA_CODE_PREFIX7_INDEX1 : Z := 0x0a.
Definition OA_CODE_PREFIX11_INDEX1 : Z := 0x0b.
Definition OA_CODE_0C : Z := 0x0c.
Definition OA_CODE_PREFIX11_INDEX2 : Z := 0x0d.
Definition OA_CODE_FULL_INDEX2 : Z := 0x0e.
Definition OA_CODE_BROADCAST : Z := 0x0f.

Definition is_code (b code : Z) : bool := b =? code.

(** The state [overlay_abbreviate_expand_address] works on: the cache, the
    remembered previous address, and the caller's [*inofs], [out], [*ofs]. *)
Record expand_state := ExpandState {
  inofs : nat;
  out : list Z;
  ofs : nat
}.

(** [overlay_abbreviate_expand_address(in, inofs, out, ofs)]. *)
Definition overlay_abbreviate_expand_address (cache : option overlay_address_cache)
    (previous_address : list Z) (in_ : list Z) (st : expand_state)
  : outcome (oa_result * expand_state) :=
  let b := byte_at in_ 0 in
  if is_code b OA_CODE_00 || is_code b OA_CODE_02 || is_code b OA_CODE_04
     || is_code b OA_CODE_0C then
    Ret (OA_UNSUPPORTED, ExpandState (inofs st + 1) (out st) (ofs st))
  else if is_code b OA_CODE_INDEX then Exited
  else if is_code b OA_CODE_PREVIOUS then
    Ret (OA_RESOLVED,
         ExpandState (inofs st + 1)
           (bcopy_at previous_address (out st) (ofs st) SID_SIZE)
           (ofs st + SID_SIZE))
  else if is_code b OA_CODE_PREFIX3 || is_code b OA_CODE_PREFIX3_INDEX1 then
    let bytes := if b =? 0x09 then 1%nat else 0%nat in
    match overlay_abbreviate_cache_lookup cache in_ (out st) (ofs st) 3 bytes with
    | Ret (r, out', ofs') => Ret (r, ExpandState (inofs st + (3 + bytes)) out' ofs')
    | Exited => Exited
    | Fault => Fault
    end
  else if is_code b OA_CODE_PREFIX7 || is_code b OA_CODE_PREFIX7_INDEX1 then
    let bytes := if is_code b OA_CODE_PREFIX7_INDEX1 then 1%nat else 0%nat in
    match overlay_abbreviate_cache_lookup cache in_ (out st) (ofs st) 7 bytes with
    | Ret (r, out', ofs') => Ret (r, ExpandState (inofs st + (7 + bytes)) out' ofs')
    | Exited => Exited
    | Fault => Fault
    end
  else if is_code b OA_CODE_PREFIX11 || is_code b OA_CODE_PREFIX11_INDEX1
          || is_code b OA_CODE_PREFIX11_INDEX2 then
    let bytes := if is_code b OA_CODE_PREFIX11_INDEX1 then 1%nat else 0%nat in
    let bytes := if is_code b OA_CODE_PREFIX11_INDEX2 then 2%nat else bytes in
    match overlay_abbreviate_cache_lookup cache in_ (out st) (ofs st) 11 bytes with
    | Ret (r, out', ofs') => Ret (r, ExpandState (inofs st + (11 + bytes)) out' ofs')
    | Exited => Exited
    | Fault => Fault
    end
  else if is_code b OA_CODE_BROADCAST then
    Ret (OA_RESOLVED,
         ExpandState (inofs st + 1)
           (bcopy_at (replicate SID_SIZE 0xff) (out st) (ofs st) SID_SIZE)
           (ofs st))
  else
    let bytes := if is_code b OA_CODE_FULL_INDEX1 then 1%nat else 0%nat in
    let bytes := if is_code b OA_CODE_FULL_INDEX2 then 2%nat else bytes in
    Ret (OA_RESOLVED,
         ExpandState (inofs st + (SID_SIZE + bytes))
           (bcopy_at in_ (out st) (ofs st) SID_SIZE)
           (ofs st)).

End Abbreviate.

(** ** Constants of the missing headers *)

(** The [REACHABLE_*] flags, [MDP_MTU], the frame type, the queue class and
    the interface state live in headers that are not part of the sources.
    The code below takes them as parameters: every function is stated for
    any assignment of values, and a property that depends on how the flags
    relate says so in its statement. *)
Class Header := {
  REACHABLE_NONE : Z;
  REACHABLE_SELF : Z;
  REACHABLE_DIRECT : Z;
  REACHABLE_INDIRECT : Z;
  REACHABLE_UNICAST : Z;
  REACHABLE_BROADCAST : Z;
  REACHABLE_ASSUMED : Z;
  REACHABLE : Z;
  INTERFACE_STATE_UP : Z;
  MDP_MTU : nat;
  OF_TYPE_PLEASEEXPLAIN : Z;
  OQ_MESH_MANAGEMENT : Z
}.

(** Modelled from the spec: the values of the constants above, which the
    sources do not contain.  The spec describes [reachable] as a bitset over
    NONE, SELF, DIRECT, INDIRECT, UNICAST, BROADCAST and ASSUMED in which
    UNICAST and BROADCAST imply DIRECT: NONE is the empty set, the other
    flags are distinct bits, DIRECT collects the two direct modes and
    [REACHABLE] collects every mode that reaches the node. *)
Definition serval_header : Header := {|
  REACHABLE_NONE := 0;
  REACHABLE_SELF := 1;
  REACHABLE_BROADCAST := 2;
  REACHABLE_UNICAST := 4;
  REACHABLE_INDIRECT := 8;
  REACHABLE_ASSUMED := 16;
  REACHABLE_DIRECT := 6;
  REACHABLE := 15;
  INTERFACE_STATE_UP := 1;
  MDP_MTU := 2000;
  OF_TYPE_PLEASEEXPLAIN := 0x60;
  OQ_MESH_MANAGEMENT := 1
|}.

(** ** Subscribers and the directory tree (overlay_address.c, lines 43-118) *)

(** [overlay_interface], as far as this file reads it. *)
Record overlay_interface := Interface { state : Z }.

(** [struct subscriber], as far as this file reads or writes it.  [next_hop]
    points to another subscriber of the arena. *)
Record subscriber := Subscriber {
  sid : list Z;
  abbreviate_len : Z;
  reachable : Z;
  next_hop : option nat;
  interface : option overlay_interface;
  send_full : bool
}.

(** What [memset(ret,0,sizeof(struct subscriber))] leaves. *)
Definition zero_subscriber : subscriber :=
  Subscriber (replicate SID_SIZE 0) 0 0 None None false.

(** [*p] for a subscriber pointer.  Subscribers are allocated and never
    freed, so a pointer the code holds always designates a record. *)
Definition deref (subs : list subscriber) (p : nat) : subscriber :=
  default zero_subscriber (subs !! p).

Definition set_abbreviate_len (v : Z) (s : subscriber) : subscriber :=
  Subscriber (sid s) v (reachable s) (next_hop s) (interface s) (send_full s).

Definition set_send_full (v : bool) (s : subscriber) : subscriber :=
  Subscriber (sid s) (abbreviate_len s) (reachable s) (next_hop s) (interface s) v.

Definition set_reachable_field (v : Z) (s : subscriber) : subscriber :=
  Subscriber (sid s) (abbreviate_len s) v (next_hop s) (interface s) (send_full s).

(** One of the 16 slots of a [struct tree_node].  The C node overlays two
    pointer arrays and tells them apart with the bit [is_tree & (1<<i)]:
    bit set is [SlotTree], bit clear with a non-null pointer is
    [SlotSubscriber], bit clear with [NULL] is [SlotEmpty]. *)
Inductive slot (T : Type) : Type :=
| SlotEmpty
| SlotSubscriber (s : nat)
| SlotTree (n : T).
Arguments SlotEmpty {T}.
Arguments SlotSubscriber {T} s.
Arguments SlotTree {T} n.

#[warnings="-register-all"]
Inductive tree_node : Type := TreeNode { slots : list (slot tree_node) }.

(** [memset(new,0,sizeof(struct tree_node))] *)
Definition zero_tree_node : tree_node := TreeNode (replicate 16 SlotEmpty).

(** The slot a nibble selects; a nibble is below 16 and a node has 16 slots. *)
Definition slot_at (node : tree_node) (nibble : nat) : slot tree_node :=
  default SlotEmpty (slots node !! nibble).

Definition set_slot (node : tree_node) (nibble : nat) (s : slot tree_node) : tree_node :=
  TreeNode (<[nibble := s]> (slots node)).

(** The directory: the static [root] node and the subscribers allocated so far. *)
Record directory := Directory {
  root : tree_node;
  subscribers : list subscriber
}.

Definition empty_directory : directory := Directory zero_tree_node [].

(** [get_nibble(sid, pos)] *)
Definition get_nibble (sid : list Z) (pos : nat) : Z :=
  let byte := byte_at sid (Nat.div2 pos) in
  let byte := if negb (Nat.odd pos) then Z.shiftr byte 4 else byte in
  Z.land byte 0xF.

(** The [do ... while(pos < len*2)] loop of [find_subscriber], entered at
    node [ptr] with position [pos].  [more] is the number of further turns
    the loop condition still allows, [len*2 - 1 - pos]: every turn adds one
    to [pos].  The result is the returned pointer, the node [ptr] as the loop
    leaves it, and the arena. *)
Fixpoint find_subscriber_loop (more : nat) (sid_ : list Z) (len : nat) (create : bool)
    (ptr : tree_node) (pos : nat) (subs : list subscriber)
  : option nat * tree_node * list subscriber :=
  let nibble := Z.to_nat (get_nibble sid_ pos) in
  let pos := S pos in
  match slot_at ptr nibble with
  | SlotTree child =>
      (* ptr = ptr->tree_nodes[nibble]; *)
      match more with
      | O => (None, ptr, subs)
      | S more' =>
          let '(ret, child', subs') :=
            find_subscriber_loop more' sid_ len create child pos subs in
          (ret, set_slot ptr nibble (SlotTree child'), subs')
      end
  | SlotEmpty =>
      (* subscriber is not yet known *)
      if create then
        let ret := length subs in
        let fresh := Subscriber (take SID_SIZE sid_) (Z.of_nat pos) 0 None None false in
        (Some ret, set_slot ptr nibble (SlotSubscriber ret), subs ++ [fresh])
      else (None, ptr, subs)
  | SlotSubscriber ret =>
      if memcmp_eq (sid (deref subs ret)) sid_ len then (Some ret, ptr, subs)
      else if negb create then (None, ptr, subs)
      else
        (* a new tree node takes the slot; the existing subscriber moves into it *)
        let nibble' := Z.to_nat (get_nibble (sid (deref subs ret)) pos) in
        let new := set_slot zero_tree_node nibble' (SlotSubscriber ret) in
        let subs := alter (set_abbreviate_len (Z.of_nat pos + 1)) ret subs in
        match more with
        | O => (None, set_slot ptr nibble (SlotTree new), subs)
        | S more' =>
            let '(ret', new', subs') :=
              find_subscriber_loop more' sid_ len create new pos subs in
            (ret', set_slot ptr nibble (SlotTree new'), subs')
        end
  end.

(** [find_subscriber(sid, len, create)] *)
Definition find_subscriber (d : directory) (sid_ : list Z) (len : nat) (create : bool)
  : option nat * directory :=
  let create := if negb (len =? SID_SIZE)%nat then false else create in
  let '(ret, root', subs') :=
    find_subscriber_loop (len * 2 - 1) sid_ len create (root d) 0 (subscribers d) in
  (ret, Directory root' subs').

(** The [for (;i<e;i++)] loop of [walk_tree] over the slot array of a node,
    at index [j] with the slots [l] from [j] on still ahead.  Slots below the
    first index [i] are passed over, the loop ends at [e], and [start] is
    dropped after the first turn.  [walk_child] is the recursive call of
    [walk_tree] on a child node, and the result is [true] when the callback
    stopped the walk. *)
Fixpoint walk_slots {C : Type}
    (walk_child : tree_node → option (list Z) → C → bool * C)
    (callback : nat → C → bool * C) (i e : nat)
    (l : list (slot tree_node)) (j : nat) (start : option (list Z)) (context : C)
  : bool * C :=
  match l with
  | [] => (false, context)
  | s :: l' =>
      if (j <? i)%nat then walk_slots walk_child callback i e l' (S j) start context
      else if negb (j <? e)%nat then (false, context)
      else
        match s with
        | SlotTree child =>
            let '(stop, context) := walk_child child start context in
            if stop then (true, context)
            else walk_slots walk_child callback i e l' (S j) None context
        | SlotSubscriber p =>
            let '(stop, context) := callback p context in
            if stop then (true, context)
            else walk_slots walk_child callback i e l' (S j) None context
        | SlotEmpty =>
            (* stop comparing the start sid after the first branch *)
            walk_slots walk_child callback i e l' (S j) None context
        end
  end.

(** The first and the last slot [walk_tree] looks at in a node at depth [pos]. *)
Definition walk_first (pos : nat) (start : option (list Z)) (start_len : nat) : nat :=
  match start with
  | Some s => if (pos <? start_len * 2)%nat then Z.to_nat (get_nibble s pos) else 0%nat
  | None => 0%nat
  end.

Definition walk_end (pos : nat) (end_ : option (list Z)) (end_len : nat) : nat :=
  match end_ with
  | Some s => if (pos <? end_len * 2)%nat
              then (Z.to_nat (get_nibble s pos) + 1)%nat else 16%nat
  | None => 16%nat
  end.

(** [walk_tree(node, pos, start, start_len, end, end_len, callback, context)]:
    the callback is a function on the caller's context, and the result is
    [true] when the callback stopped the walk. *)
Fixpoint walk_tree {C : Type} (node : tree_node) (pos : nat)
    (start : option (list Z)) (start_len : nat)
    (end_ : option (list Z)) (end_len : nat)
    (callback : nat → C → bool * C) (context : C) {struct node} : bool * C :=
  let i := walk_first pos start start_len in
  let e := walk_end pos end_ end_len in
  walk_slots
    (λ child start context,
       walk_tree child (S pos) start start_len end_ end_len callback context)
    callback i e (slots node) 0%nat start context.

(** [enum_subscribers(start, callback, context)] *)
Definition enum_subscribers {C : Type} (d : directory) (start : nat)
    (callback : nat → C → bool * C) (context : C) : C :=
  snd (walk_tree (root d) 0 (Some (sid (deref (subscribers d) start))) SID_SIZE
         None 0 callback context).

(** ** Reachability (overlay_address.c, lines 160-192) *)

(** [subscriber_is_reachable(subscriber)].  The C function calls itself on
    [next_hop]; [fuel] bounds the depth of these calls and [None] means the
    bound was hit. *)
Fixpoint subscriber_is_reachable `{Header} (fuel : nat) (subs : list subscriber)
    (subscriber_ : option nat) : option Z :=
  match fuel with
  | O => None
  | S fuel' =>
      match subscriber_ with
      | None => Some REACHABLE_NONE
      | Some p =>
          let s := deref subs p in
          let ret := reachable s in
          let indirect :=
            if ret =? REACHABLE_INDIRECT then
              match next_hop s with
              | None => Some REACHABLE_NONE
              | Some nh =>
                  (* avoid infinite recursion... *)
                  if Z.land (reachable (deref subs nh)) REACHABLE_DIRECT =? 0
                  then Some REACHABLE_NONE
                  else
                    match subscriber_is_reachable fuel' subs (Some nh) with
                    | None => None
                    | Some r =>
                        if negb (Z.land r REACHABLE_ASSUMED =? 0) then Some REACHABLE_NONE
                        else if Z.land r REACHABLE_DIRECT =? 0 then Some REACHABLE_NONE
                        else Some ret
                    end
              end
            else Some ret in
          match indirect with
          | None => None
          | Some ret =>
              if negb (Z.land ret REACHABLE_DIRECT =? 0) then
                (* make sure the interface is still up *)
                match interface s with
                | None => Some REACHABLE_NONE
                | Some i =>
                    if negb (state i =? INTERFACE_STATE_UP) then Some REACHABLE_NONE
                    else Some ret
                end
              else Some ret
          end
      end
  end.

(** ** Packet buffers, frames and the decode context *)

(** Modelled from the spec: [struct overlay_buffer] and its primitives
    ([ob_new], [ob_limitsize], [ob_append_byte], [ob_append_bytes], [ob_get],
    [ob_get_bytes_ptr], [ob_remaining]) are in a file that is not part of the
    sources; the spec names them as the [Buffer] collaborator
    ([append_byte], [append_bytes], [read_byte], [read_bytes_ptr(len)],
    [remaining], [limit_size]).  A buffer holds the bytes written so far, a
    read cursor and an optional size limit; an append that would pass the
    limit fails and writes nothing; a read past the end fails. *)
Record overlay_buffer := Buffer {
  bytes : list Z;
  position : nat;
  sizeLimit : option nat
}.

Definition ob_new : overlay_buffer := Buffer [] 0 None.

Definition ob_limitsize (b : overlay_buffer) (bytes_ : nat) : overlay_buffer :=
  Buffer (bytes b) (position b) (Some bytes_).

Definition ob_has_room (b : overlay_buffer) (n : nat) : bool :=
  match sizeLimit b with
  | None => true
  | Some limit => (length (bytes b) + n <=? limit)%nat
  end.

(** [ob_append_byte(b, byte)]: 0 on success. *)
Definition ob_append_byte (b : overlay_buffer) (byte : Z) : Z * overlay_buffer :=
  if ob_has_room b 1
  then (0, Buffer (bytes b ++ [Z.land byte 0xff]) (position b) (sizeLimit b))
  else (-1, b).

(** [ob_append_bytes(b, data, count)]: 0 on success. *)
Definition ob_append_bytes (b : overlay_buffer) (data : list Z) (count : nat)
  : Z * overlay_buffer :=
  if ob_has_room b count
  then (0, Buffer (bytes b ++ take count data) (position b) (sizeLimit b))
  else (-1, b).

(** [ob_get(b)]: the next byte, or a negative value at the end. *)
Definition ob_get (b : overlay_buffer) : Z * overlay_buffer :=
  match bytes b !! position b with
  | Some byte => (byte, Buffer (bytes b) (S (position b)) (sizeLimit b))
  | None => (-1, b)
  end.

(** [ob_get_bytes_ptr(b, len)]: a pointer to the next [len] bytes, which are
    consumed, or [NULL] when fewer remain. *)
Definition ob_get_bytes_ptr (b : overlay_buffer) (len : nat)
  : option (list Z) * overlay_buffer :=
  if (position b + len <=? length (bytes b))%nat
  then (Some (take len (drop (position b) (bytes b))),
        Buffer (bytes b) (position b + len) (sizeLimit b))
  else (None, b).

(** [ob_remaining(b)] *)
Definition ob_remaining (b : overlay_buffer) : Z :=
  Z.of_nat (length (bytes b)) - Z.of_nat (position b).

(** [struct overlay_frame], as far as this file touches it. *)
Record overlay_frame := Frame {
  type : Z;
  source : option nat;
  destination : option nat;
  ttl : Z;
  queue : Z;
  payload : overlay_buffer;
  broadcast_id : broadcast;
  destination_resolved : bool;
  frame_next_hop : option nat;
  recvaddr : Z;
  frame_interface : option overlay_interface
}.

(** [calloc(sizeof(struct overlay_frame),1)] with its payload set. *)
Definition new_frame (payload_ : overlay_buffer) : overlay_frame :=
  Frame 0 None None 0 0 payload_ zero_broadcast false None 0 None.

Definition set_payload (f : overlay_frame) (payload_ : overlay_buffer) : overlay_frame :=
  Frame (type f) (source f) (destination f) (ttl f) (queue f) payload_
        (broadcast_id f) (destination_resolved f) (frame_next_hop f) (recvaddr f)
        (frame_interface f).

(** [struct decode_context] *)
Record decode_context := Context {
  sender : option nat;
  previous : option nat;
  invalid_addresses : bool;
  please_explain : option overlay_frame;
  context_interface : option overlay_interface;
  addr : Z
}.

(** [bzero(&context, sizeof context)] *)
Definition zero_context : decode_context := Context None None false None None 0.

Definition set_previous (c : decode_context) (p : option nat) : decode_context :=
  Context (sender c) p (invalid_addresses c) (please_explain c)
          (context_interface c) (addr c).

Definition set_invalid_addresses (c : decode_context) : decode_context :=
  Context (sender c) (previous c) true (please_explain c)
          (context_interface c) (addr c).

Definition set_please_explain (c : decode_context) (f : option overlay_frame)
  : decode_context :=
  Context (sender c) (previous c) (invalid_addresses c) f
          (context_interface c) (addr c).

(** ** Address codec (overlay_address.c, lines 320-456) *)

Definition OA_CODE_SELF : Z := 0xff.
Definition OA_CODE_PREVIOUS : Z := 0xfe.

(** [WHY(...)] logs and returns -1. *)
Definition WHY : Z := -1.

(** [context && subscriber==context->sender] *)
Definition is_sender (context : option decode_context) (p : nat) : bool :=
  match context with
  | Some c => bool_decide (sender c = Some p)
  | None => false
  end.

(** [context && subscriber==context->previous] *)
Definition is_previous (context : option decode_context) (p : nat) : bool :=
  match context with
  | Some c => bool_decide (previous c = Some p)
  | None => false
  end.

(** [overlay_address_append(context, b, subscriber)]: the returned [int],
    the context, the buffer and the arena after the call. *)
Definition overlay_address_append `{Header} (context : option decode_context)
    (b : overlay_buffer) (subs : list subscriber) (subscriber_ : option nat)
  : Z * option decode_context * overlay_buffer * list subscriber :=
  match subscriber_ with
  | None => (WHY, context, b, subs)
  | Some p =>
      let done_ (b : overlay_buffer) (subs : list subscriber) :=
        (0, (λ c, set_previous c (Some p)) <$> context, b, subs) in
      if is_sender context p then
        let '(r, b) := ob_append_byte b OA_CODE_SELF in
        if negb (r =? 0) then (-1, context, b, subs) else done_ b subs
      else if is_previous context p then
        let '(r, b) := ob_append_byte b OA_CODE_PREVIOUS in
        if negb (r =? 0) then (-1, context, b, subs) else done_ b subs
      else
        let s := deref subs p in
        let len := Z.of_nat SID_SIZE in
        let '(len, subs) :=
          if send_full s then (len, alter (set_send_full false) p subs)
          else
            (* an [int] sum: it wraps around past [INT_MAX] *)
            let len := Z.quot (int_wrap (abbreviate_len s + 2)) 2 in
            let len := if reachable s =? REACHABLE_SELF then len + 1 else len in
            let len := if len >? Z.of_nat SID_SIZE then Z.of_nat SID_SIZE else len in
            (len, subs) in
        let '(r, b) := ob_append_byte b len in
        if negb (r =? 0) then (-1, context, b, subs)
        else
          let '(r, b) :=
            (* a count below zero is refused *)
            if len <? 0 then (-1, b)
            else ob_append_bytes b (sid s) (Z.to_nat len) in
          if negb (r =? 0) then (-1, context, b, subs) else done_ b subs
  end.

(** [if (!context->please_explain) { calloc; ob_new; ob_limitsize(.., limit); }] *)
Definition ensure_please_explain (context : decode_context) (limit : nat)
  : decode_context :=
  match please_explain context with
  | None => set_please_explain context (Some (new_frame (ob_limitsize ob_new limit)))
  | Some _ => context
  end.

(** [context->please_explain->payload], once the frame is known to exist. *)
Definition explain_payload (context : decode_context) : overlay_buffer :=
  match please_explain context with
  | Some f => payload f
  | None => ob_new
  end.

Definition set_explain_payload (context : decode_context) (b : overlay_buffer)
  : decode_context :=
  match please_explain context with
  | Some f => set_please_explain context (Some (set_payload f b))
  | None => context
  end.

(** [add_explain_response(subscriber, context)], the callback handed to
    [walk_tree]: it works on the decode context and on the arena. *)
Definition add_explain_response `{Header} (subscriber_ : nat)
    (context : decode_context * list subscriber)
  : bool * (decode_context * list subscriber) :=
  let '(response, subs) := context in
  let response := ensure_please_explain response 1024 in
  (* if one of our identities is unknown, the header of our next payload
     must include our full sid *)
  let subs :=
    if reachable (deref subs subscriber_) =? REACHABLE_SELF
    then alter (set_send_full true) subscriber_ subs else subs in
  (* add the whole subscriber id to the payload, stop if we run out of space *)
  let '(r, pl) := ob_append_byte (explain_payload response) (Z.of_nat SID_SIZE) in
  if negb (r =? 0) then (true, (set_explain_payload response pl, subs))
  else
    let '(r, pl) := ob_append_bytes pl (sid (deref subs subscriber_)) SID_SIZE in
    if negb (r =? 0) then (true, (set_explain_payload response pl, subs))
    else (false, (set_explain_payload response pl, subs)).

(** The result of a decoding step: the returned [int], the context, the
    buffer, what [*subscriber] holds, and the directory. *)
Record parsed := Parsed {
  parse_ret : Z;
  parse_context : decode_context;
  parse_buffer : overlay_buffer;
  parse_subscriber : option nat;
  parse_directory : directory
}.

(** [find_subscr_buffer(context, b, len, subscriber)].  [subscriber_] is
    [None] for a [NULL] out-pointer and [Some v] when it points to a variable
    holding [v]. *)
Definition find_subscr_buffer `{Header} (context : decode_context)
    (b : overlay_buffer) (len : Z) (subscriber_ : option (option nat))
    (d : directory) : parsed :=
  let held := default None subscriber_ in
  if (len <=? 0) || (len >? Z.of_nat SID_SIZE) then Parsed WHY context b held d
  else
    let len := Z.to_nat len in
    match ob_get_bytes_ptr b len with
    | (None, b) => Parsed WHY context b held d
    | (Some id_, b) =>
        match subscriber_ with
        | None => Parsed 0 (set_invalid_addresses context) b held d
        | Some _ =>
            let '(found, d) := find_subscriber d id_ len true in
            match found with
            | None =>
                let context := set_invalid_addresses context in
                (* generate a please explain in the passed in context *)
                let context := ensure_please_explain context MDP_MTU in
                (* tell about any subscribers known to match this abbreviation *)
                let '(_, (context, subs)) :=
                  walk_tree (root d) 0 (Some id_) len (Some id_) len
                            add_explain_response (context, subscribers d) in
                let '(_, pl) := ob_append_byte (explain_payload context) (Z.of_nat len) in
                let '(_, pl) := ob_append_bytes pl id_ len in
                Parsed 0 (set_explain_payload context pl) b None
                       (Directory (root d) subs)
            | Some p =>
                Parsed 0 (set_previous context (Some p)) b (Some p) d
            end
        end
    end.

(** [overlay_address_parse(context, b, subscriber)], called with an
    out-pointer to a variable holding [subscriber_]. *)
Definition overlay_address_parse `{Header} (context : decode_context)
    (b : overlay_buffer) (subscriber_ : option nat) (d : directory) : parsed :=
  let '(len, b) := ob_get b in
  if len <? 0 then Parsed WHY context b subscriber_ d
  else if len =? OA_CODE_SELF then
    match sender context with
    | None => Parsed 0 (set_invalid_addresses context) b subscriber_ d
    | Some s => Parsed 0 (set_previous context (Some s)) b (Some s) d
    end
  else if len =? OA_CODE_PREVIOUS then
    match previous context with
    | None => Parsed 0 (set_invalid_addresses context) b subscriber_ d
    | Some s => Parsed 0 context b (Some s) d
    end
  else find_subscr_buffer context b len (Some subscriber_) d.

(** ** Please-explain frames (overlay_address.c, lines 458-522) *)

(** The process-wide state [process_explain] works on: the directory,
    [my_subscriber], the outbound packet queue, and the values [random()]
    will return. *)
Record world := World {
  dir : directory;
  my_subscriber : option nat;
  outbound : list overlay_frame;
  random_values : list Z
}.

(** [overlay_broadcast_generate_address]: eight calls of [random()&0xff]. *)
Definition overlay_broadcast_generate_address (rnd : list Z) : broadcast * list Z :=
  (Broadcast (map (λ r, Z.land r 0xff) (take BROADCAST_LEN rnd)),
   drop BROADCAST_LEN rnd).

(** Modelled from the spec: [overlay_payload_enqueue] belongs to the packet
    queue, which is not part of the sources; the spec gives it as
    [PacketQueue.enqueue(frame) → ok].  The frame joins the queue and 0 is
    returned. *)
Definition overlay_payload_enqueue (q : list overlay_frame) (f : overlay_frame)
  : Z * list overlay_frame :=
  (0, q ++ [f]).

(** [send_please_explain(context, source, destination)] *)
Definition send_please_explain `{Header} (context : decode_context)
    (source_ destination_ : option nat) (w : world) : outcome (Z * world) :=
  match please_explain context with
  | None => Ret (0, w)
  | Some frame =>
      let src := match source_ with Some s => Some s | None => my_subscriber w end in
      match src with
      | None => Fault
      | Some sp =>
          let subs := alter (set_send_full true) sp (subscribers (dir w)) in
          let reaches :=
            match destination_ with
            | Some dp => negb (Z.land (reachable (deref subs dp)) REACHABLE =? 0)
            | None => false
            end in
          let '(frame, rnd) :=
            if reaches then
              (Frame OF_TYPE_PLEASEEXPLAIN src destination_ 64 (queue frame)
                     (payload frame) (broadcast_id frame)
                     (destination_resolved frame) (frame_next_hop frame)
                     (recvaddr frame) (frame_interface frame),
               random_values w)
            else
              let '(bpi, rnd) := overlay_broadcast_generate_address (random_values w) in
              match context_interface context with
              | Some i =>
                  (Frame OF_TYPE_PLEASEEXPLAIN src destination_ 1 (queue frame)
                         (payload frame) bpi true destination_ (addr context) (Some i),
                   rnd)
              | None =>
                  (Frame OF_TYPE_PLEASEEXPLAIN src destination_ 1 (queue frame)
                         (payload frame) bpi (destination_resolved frame)
                         (frame_next_hop frame) (recvaddr frame)
                         (frame_interface frame),
                   rnd)
              end in
          let frame :=
            Frame (type frame) (source frame) (destination frame) (ttl frame)
                  OQ_MESH_MANAGEMENT (payload frame) (broadcast_id frame)
                  (destination_resolved frame) (frame_next_hop frame)
                  (recvaddr frame) (frame_interface frame) in
          let '(r, q) := overlay_payload_enqueue (outbound w) frame in
          let w' := World (Directory (root (dir w)) subs) (my_subscriber w) q rnd in
          if r =? 0 then Ret (0, w')
          else Ret (-1, World (dir w') (my_subscriber w) (outbound w) rnd)
      end
  end.

(** The [while(ob_remaining(b)>0)] loop of [process_explain].  Every turn
    consumes at least two bytes, so [turns], started at the number of bytes
    left, never runs out before the buffer does.  The first component is
    [Some r] for an early [return r] out of the loop. *)
Fixpoint process_explain_loop `{Header} (turns : nat) (b : overlay_buffer)
    (context : decode_context) (d : directory)
  : option Z * overlay_buffer * decode_context * directory :=
  match turns with
  | O => (None, b, context, d)
  | S turns' =>
      if negb (ob_remaining b >? 0) then (None, b, context, d)
      else
        let '(len, b) := ob_get b in
        if (len <=? 0) || (len >? Z.of_nat SID_SIZE) then (Some WHY, b, context, d)
        else
          match ob_get_bytes_ptr b (Z.to_nat len) with
          | (None, b) => (Some WHY, b, context, d)
          | (Some sid_, b) =>
              if len =? Z.of_nat SID_SIZE then
                (* make sure we know this one *)
                let '(_, d) := find_subscriber d sid_ (Z.to_nat len) true in
                process_explain_loop turns' b context d
              else
                (* reply with all subscribers that match this abbreviation *)
                let '(_, (context, subs)) :=
                  walk_tree (root d) 0 (Some sid_) (Z.to_nat len)
                            (Some sid_) (Z.to_nat len)
                            add_explain_response (context, subscribers d) in
                process_explain_loop turns' b context (Directory (root d) subs)
          end
  end.

(** [process_explain(frame)] *)
Definition process_explain `{Header} (frame : overlay_frame) (w : world)
  : outcome (Z * world) :=
  let b := payload frame in
  let '(early, _, context, d) :=
    process_explain_loop (Z.to_nat (ob_remaining b)) b zero_context (dir w) in
  let w := World d (my_subscriber w) (outbound w) (random_values w) in
  match early with
  | Some r => Ret (r, w)
  | None =>
      match send_please_explain context (destination frame) (source frame) w with
      | Ret (_, w) => Ret (0, w)
      | Exited => Exited
      | Fault => Fault
      end
  end.

(** ** Definitions used to state the properties *)

(** The opcodes that announce a 3, 7 or 11 byte prefix. *)
Definition prefix_opcode (b : Z) : Prop :=
  In b [0x05; 0x06; 0x07; 0x09; 0x0A; 0x0B; 0x0D].

(** The number of bytes [overlay_abbreviate_expand_address] adds to [*inofs]
    for a prefix opcode. *)
Definition prefix_advance (b : Z) : nat :=
  if b =? 0x05 then 3 else if b =? 0x09 then 4
  else if b =? 0x06 then 7 else if b =? 0x0A then 8
  else if b =? 0x07 then 11 else if b =? 0x0B then 12 else 13.

(** Every cache entry is unused (first byte 0x00) or holds a real
    identifier, whose first byte is at least 0x10. *)
Definition cache_entries_plain (c : Abbreviate.overlay_address_cache) : Prop :=
  ∀ e, e ∈ Abbreviate.sids c → byte_at e 0 = 0 ∨ 0x10 <= byte_at e 0.

(** A cache slot as a function of two bytes. *)
Definition slot_of_two_bytes (c : Abbreviate.overlay_address_cache) (b0 b2 : Z) : Z :=
  Z.shiftr (Z.lor (Z.lor (Z.shiftl b0 16) (Z.shiftl b0 8)) b2) (Abbreviate.shift c).

(** The length [overlay_address_append] computes for a subscriber it
    spells out: [len=(abbreviate_len+2)/2] in [int] arithmetic, one more for
    our own identity, at most [SID_SIZE]; [SID_SIZE] when [send_full] is
    set. *)
Definition encoded_length `{Header} (s : subscriber) : Z :=
  if send_full s then 32
  else Z.min 32 (Z.quot (int_wrap (abbreviate_len s + 2)) 2
                 + (if reachable s =? REACHABLE_SELF then 1 else 0)).

(** The length byte as the specification words it, with the half rounded up. *)
Definition ceil_half (x : Z) : Z := (x + 1) / 2.

Definition spec_encoded_length `{Header} (s : subscriber) : Z :=
  if send_full s then 32
  else Z.min 32 (ceil_half (abbreviate_len s + 2)
                 + (if reachable s =? REACHABLE_SELF then 1 else 0)).

(** Successive [overlay_address_append] calls on one context and buffer,
    stopping at the first call that fails. *)
Fixpoint encode_sequence `{Header} (context : option decode_context)
    (b : overlay_buffer) (subs : list subscriber) (ps : list nat)
  : Z * option decode_context * overlay_buffer * list subscriber :=
  match ps with
  | [] => (0, context, b, subs)
  | p :: ps' =>
      let '(r, context, b, subs) := overlay_address_append context b subs (Some p) in
      if r =? 0 then encode_sequence context b subs ps' else (r, context, b, subs)
  end.

(** [b] with [data] appended. *)
Definition ob_with (b : overlay_buffer) (data : list Z) : overlay_buffer :=
  Buffer (bytes b ++ data) (position b) (sizeLimit b).

(** What the reachability properties need of the flag values: NONE and
    INDIRECT carry no DIRECT bit, DIRECT is not empty, and ASSUMED is not
    part of a confirmed direct unicast state. *)
Record flag_laws `{Header} : Prop := {
  none_not_direct : Z.land REACHABLE_NONE REACHABLE_DIRECT = 0;
  indirect_not_direct : Z.land REACHABLE_INDIRECT REACHABLE_DIRECT = 0;
  direct_not_empty : REACHABLE_DIRECT ≠ 0;
  unicast_not_assumed :
    Z.land (Z.lor REACHABLE_DIRECT REACHABLE_UNICAST) REACHABLE_ASSUMED = 0
}.

(** The states a subscriber is stored with: the cases that [set_reachable]
    names (lines 202-223), where ASSUMED only comes with UNICAST or with
    BROADCAST. *)
Definition stored_state `{Header} (r : Z) : Prop :=
  r = REACHABLE_NONE ∨ r = REACHABLE_SELF ∨ r = REACHABLE_INDIRECT
  ∨ r = REACHABLE_UNICAST ∨ r = REACHABLE_BROADCAST
  ∨ r = Z.lor REACHABLE_UNICAST REACHABLE_ASSUMED
  ∨ r = Z.lor REACHABLE_BROADCAST REACHABLE_ASSUMED.

(** INDIRECT is a flag of its own: it shares no bit with another flag. *)
Record indirect_apart `{Header} : Prop := {
  none_not_indirect : Z.land REACHABLE_NONE REACHABLE_INDIRECT = 0;
  self_not_indirect : Z.land REACHABLE_SELF REACHABLE_INDIRECT = 0;
  unicast_not_indirect : Z.land REACHABLE_UNICAST REACHABLE_INDIRECT = 0;
  broadcast_not_indirect : Z.land REACHABLE_BROADCAST REACHABLE_INDIRECT = 0;
  assumed_not_indirect : Z.land REACHABLE_ASSUMED REACHABLE_INDIRECT = 0
}.

(** The condition under which an INDIRECT subscriber stays reachable: a next
    hop whose stored state has a DIRECT bit and which itself resolves, with
    [fuel] nested calls, to a state with a DIRECT bit and without ASSUMED. *)
Definition next_hop_usable `{Header} (fuel : nat) (subs : list subscriber)
    (s : subscriber) : Prop :=
  ∃ nh r,
    next_hop s = Some nh
    ∧ Z.land (reachable (deref subs nh)) REACHABLE_DIRECT ≠ 0
    ∧ subscriber_is_reachable fuel subs (Some nh) = Some r
    ∧ Z.land r REACHABLE_DIRECT ≠ 0
    ∧ Z.land r REACHABLE_ASSUMED = 0.

(** A 32-byte identifier that starts with the given bytes and continues
    with zero bytes. *)
Definition sid_of (head : list Z) : list Z :=
  take SID_SIZE (head ++ replicate SID_SIZE 0).

(** The directory after registering the identifiers of [ids] in turn, by
    [find_subscriber(id, SID_SIZE, 1)]. *)
Definition insert_all (d : directory) (ids : list (list Z)) : directory :=
  fold_left (λ d id_, snd (find_subscriber d id_ SID_SIZE true)) ids d.

(** The directory that knows the single identifier 10 00 ... 00. *)
Definition one_subscriber_directory : directory :=
  insert_all empty_directory [sid_of [0x10]].

(** The directory that knows 10 00 ... 00 and 20 00 ... 00, in this order. *)
Definition two_subscriber_directory : directory :=
  insert_all empty_directory [sid_of [0x10]; sid_of [0x20]].

(** The buffer an encoder call leaves. *)
Definition appended_buffer
    (r : Z * option decode_context * overlay_buffer * list subscriber)
  : overlay_buffer := r.1.2.

(** The second test of [subscriber_is_reachable]: a state with a DIRECT bit
    stands only on an interface that is up. *)
Definition interface_checked `{Header} (s : subscriber) (ret : Z) : Z :=
  if negb (Z.land ret REACHABLE_DIRECT =? 0) then
    match interface s with
    | None => REACHABLE_NONE
    | Some i => if negb (state i =? INTERFACE_STATE_UP) then REACHABLE_NONE else ret
    end
  else ret.

(** Three subscribers A (0), B (1), C (2) in a chain A → B → C, with the
    given stored states of A and B; C is reachable by unicast on an
    interface that is up.  B has an interface that is up as well. *)
Definition chain `{Header} (a_state b_state : Z) (a_hop : option nat) : list subscriber :=
  [ Subscriber (sid_of [0x10]) 1 a_state a_hop None false;
    Subscriber (sid_of [0x20]) 1 b_state (Some 2%nat)
               (Some (Interface INTERFACE_STATE_UP)) false;
    Subscriber (sid_of [0x30]) 1 (Z.lor REACHABLE_DIRECT REACHABLE_UNICAST) None
               (Some (Interface INTERFACE_STATE_UP)) false ].

(** A node identifier as the code receives it: [SID_SIZE] bytes. *)
Definition is_sid (id_ : list Z) : Prop :=
  length id_ = SID_SIZE ∧ Forall (λ b, 0 <= b < 256) id_.

(** The slot index a nibble of an identifier selects. *)
Definition nib (id_ : list Z) (pos : nat) : nat := Z.to_nat (get_nibble id_ pos).

(** The first [n] nibbles of an identifier. *)
Definition nibbles (id_ : list Z) (n : nat) : list nat := map (nib id_) (seq 0 n).

(** [slot_path node path s]: descending from [node] through the slots that
    [path] names, every one but the last holding a child node, ends at a slot
    that holds [s]. *)
Inductive slot_path : tree_node → list nat → slot tree_node → Prop :=
| slot_path_here node i s :
    slots node !! i = Some s → slot_path node [i] s
| slot_path_below node i child path s :
    slots node !! i = Some (SlotTree child) →
    slot_path child path s →
    slot_path node (i :: path) s.

(** Subscriber [p] is the leaf at [path] below [node]. *)
Definition leaf_at (node : tree_node) (path : list nat) (p : nat) : Prop :=
  slot_path node path (SlotSubscriber p).

(** Subscriber [p] is present in the directory. *)
Definition in_directory (d : directory) (p : nat) : Prop :=
  ∃ path, leaf_at (root d) path p.

(** The arena [subs'] still holds every subscriber of [subs], with the same
    identifier. *)
Definition sids_preserved (subs subs' : list subscriber) : Prop :=
  (length subs <= length subs')%nat
  ∧ ∀ p, (p < length subs)%nat → sid (deref subs' p) = sid (deref subs p).

(** Every record of the arena holds a proper identifier and a non-negative
    [abbreviate_len]. *)
Definition arena_ok (subs : list subscriber) : Prop :=
  Forall (λ s, is_sid (sid s) ∧ 0 <= abbreviate_len s) subs.

(** The shape of the tree below [node], which sits at [prefix]: every node
    has 16 slots, a child node is never without a leaf, and a leaf at depth
    [k] holds an allocated subscriber whose identifier starts with the [k]
    nibbles that lead to it; no leaf is deeper than the 64 nibbles of an
    identifier. *)
Definition wf_node (subs : list subscriber) (prefix : list nat) (node : tree_node)
  : Prop :=
  length (slots node) = 16%nat
  ∧ (∀ path child, slot_path node path (SlotTree child) →
                   length (slots child) = 16%nat
                   ∧ ∃ path' p, leaf_at child path' p)
  ∧ (∀ path p, leaf_at node path p →
               (p < length subs)%nat
               ∧ nibbles (sid (deref subs p)) (length prefix + length path)
                 = prefix ++ path
               ∧ (length prefix + length path <= 64)%nat).

Definition wf_directory (d : directory) : Prop :=
  arena_ok (subscribers d) ∧ wf_node (subscribers d) [] (root d).

(** What registering the identifier [id_] below a node at [prefix] must
    leave behind: a sound arena, a well-formed node, the old identifiers, the
    returned leaf holding [id_], and every old leaf still in the tree. *)
Definition registered (id_ : list Z) (prefix : list nat)
    (node : tree_node) (subs : list subscriber)
    (ret : option nat) (node' : tree_node) (subs' : list subscriber) : Prop :=
  arena_ok subs'
  ∧ wf_node subs' prefix node'
  ∧ sids_preserved subs subs'
  ∧ (∃ q path, ret = Some q ∧ leaf_at node' path q ∧ sid (deref subs' q) = id_)
  ∧ (∀ path p, leaf_at node path p → ∃ path', leaf_at node' path' p).

(** The directory that knows 10 00 ... 00 alone, with the subscriber's
    [send_full] flag set. *)
Definition send_full_directory : directory :=
  Directory (root one_subscriber_directory)
            (alter (set_send_full true) 0%nat (subscribers one_subscriber_directory)).

(** The callback that notes the subscriber it is given and never stops the
    walk. *)
Definition note_subscriber (p : nat) (seen : list nat) : bool * list nat :=
  (false, seen ++ [p]).

(** The subscribers [walk_tree] hands to its callback, in the order of the
    walk, when the callback never stops it. *)
Definition walk_leaves (node : tree_node) (pos : nat)
    (start : option (list Z)) (start_len : nat)
    (end_ : option (list Z)) (end_len : nat) : list nat :=
  snd (walk_tree node pos start start_len end_ end_len note_subscriber []).

(** Handing the subscribers of a list to a callback in turn, until it stops. *)
Fixpoint call_in_turn {C : Type} (callback : nat → C → bool * C)
    (ps : list nat) (context : C) : bool * C :=
  match ps with
  | [] => (false, context)
  | p :: ps' =>
      let '(stop, context) := callback p context in
      if stop then (true, context) else call_in_turn callback ps' context
  end.

(** The please-explain record [(32, sid)] of a subscriber. *)
Definition explain_record (subs : list subscriber) (p : nat) : list Z :=
  Z.of_nat SID_SIZE :: take SID_SIZE (sid (deref subs p)).

(** The arena after [add_explain_response] has seen the subscribers of [ps]:
    those that are ourselves have [send_full] set. *)
Definition mark_self `{Header} (ps : list nat) (subs : list subscriber)
  : list subscriber :=
  fold_left (λ subs p, if reachable (deref subs p) =? REACHABLE_SELF
                       then alter (set_send_full true) p subs else subs) ps subs.

(** The subscriber's identifier starts with the [len] bytes [id_]. *)
Definition matches_prefix (subs : list subscriber) (id_ : list Z) (len : nat)
    (p : nat) : Prop :=
  take len (sid (deref subs p)) = id_.

(** The subscribers the for-loop of [walk_tree] hands over, from slot [j] on. *)
Definition slots_leaves (pos start_len : nat) (end_ : option (list Z)) (end_len : nat)
    (i e : nat) (l : list (slot tree_node)) (j : nat) (start : option (list Z))
  : list nat :=
  snd (walk_slots
         (λ child start seen,
            walk_tree child (S pos) start start_len end_ end_len note_subscriber seen)
         note_subscriber i e l j start []).

(** The context with [data] appended to the payload of its please-explain
    frame. *)
Definition extend_payload (context : decode_context) (data : list Z) : decode_context :=
  set_explain_payload context (ob_with (explain_payload context) data).

(** A please-explain payload that teaches the identifiers [ids]. *)
Definition full_records (ids : list (list Z)) : list Z :=
  flat_map (λ id_, Z.of_nat SID_SIZE :: id_) ids.

(** Two arenas whose subscribers have the same identifiers. *)
Definition same_sids (subs subs' : list subscriber) : Prop :=
  ∀ p, sid (deref subs' p) = sid (deref subs p).

(** The identifiers of the subscribers of a list. *)
Definition sids_of (subs : list subscriber) (ps : list nat) : list (list Z) :=
  map (λ p, sid (deref subs p)) ps.

(** Two known subscribers X = 10 20 30 40 00 ... and Y = 10 20 30 50 00 ...,
    which share their first three bytes. *)
Definition explain_scenario_directory : directory :=
  insert_all empty_directory
    [sid_of [0x10; 0x20; 0x30; 0x40]; sid_of [0x10; 0x20; 0x30; 0x50]].

(** The frame a peer receives with the given payload bytes, and a peer that
    knows only itself, 10 00 ... 00. *)
Definition explain_frame (data : list Z) : overlay_frame :=
  new_frame (Buffer data 0 None).

Definition peer_world : world :=
  World one_subscriber_directory (Some 0%nat) [] [].

(** ** Definitions used to state the further properties *)

(** The tree below [node], which sits at depth [depth], is as tight as
    registrations leave it: the [abbreviate_len] of a leaf is the depth of
    its slot, and a child node holds at least two different subscribers. *)
Definition tight_node (subs : list subscriber) (depth : nat) (node : tree_node)
  : Prop :=
  (∀ path p, leaf_at node path p →
             abbreviate_len (deref subs p) = Z.of_nat (depth + length path))
  ∧ (∀ path child, slot_path node path (SlotTree child) →
       ∃ path1 p1 path2 p2,
         leaf_at child path1 p1 ∧ leaf_at child path2 p2 ∧ p1 ≠ p2).

Definition tight_directory (d : directory) : Prop :=
  tight_node (subscribers d) 0 (root d).

(** A directory as registrations build it. *)
Definition grown_directory (d : directory) : Prop :=
  wf_directory d ∧ tight_directory d.

(** Successive [overlay_address_parse] calls for [n] addresses on one
    context and buffer, each with a fresh variable for the result, stopping
    at the first call that fails.  The result is what the calls left in their
    variables, and the context, buffer and directory after the last one. *)
Fixpoint decode_sequence `{Header} (n : nat) (context : decode_context)
    (b : overlay_buffer) (d : directory)
  : list (option nat) * decode_context * overlay_buffer * directory :=
  match n with
  | O => ([], context, b, d)
  | S n' =>
      let r := overlay_address_parse context b None d in
      if parse_ret r =? 0 then
        let '(rest, context', b', d') :=
          decode_sequence n' (parse_context r) (parse_buffer r) (parse_directory r) in
        (parse_subscriber r :: rest, context', b', d')
      else ([], parse_context r, parse_buffer r, parse_directory r)
  end.

(** The reader's view of what an encoder wrote from position [from] on. *)
Definition read_from (b : overlay_buffer) (from : nat) : overlay_buffer :=
  Buffer (bytes b) from (sizeLimit b).

(** Two arenas that agree on the identifier and the [abbreviate_len] of every
    subscriber. *)
Definition same_keys (subs subs' : list subscriber) : Prop :=
  ∀ p, sid (deref subs' p) = sid (deref subs p)
       ∧ abbreviate_len (deref subs' p) = abbreviate_len (deref subs p).

(** The duplicate table as the code keeps it: [MAX_BPIS] entries of
    [BROADCAST_LEN] bytes each. *)
Definition bpi_table (t : list broadcast) : Prop :=
  length t = MAX_BPIS ∧ Forall is_bpi t.

(** What [overlay_address_parse] cannot read: nothing is left in the buffer,
    or the next byte is neither a code nor a length from 1 to 32, or fewer
    bytes are left than the length announces. *)
Definition malformed_address (b : overlay_buffer) : Prop :=
  match bytes b !! position b with
  | None => True
  | Some len =>
      len < 0
      ∨ (len ≠ OA_CODE_SELF ∧ len ≠ OA_CODE_PREVIOUS
         ∧ (len <= 0 ∨ 32 < len
            ∨ (length (bytes b) < S (position b) + Z.to_nat len)%nat))
  end.



(** The order in which a walk meets two slots of the tree: the paths part at
    some node, and the first path takes the lower slot there. *)
Inductive path_lt : list nat → list nat → Prop :=
| path_lt_here i j ra rb : (i < j)%nat → path_lt (i :: ra) (j :: rb)
| path_lt_below i ra rb : path_lt ra rb → path_lt (i :: ra) (i :: rb).

(** The order of identifiers read as 64 hexadecimal digits. *)
Definition sid_lt (a b : list Z) : Prop :=
  ∃ k, (k < 64)%nat
       ∧ (∀ j, (j < k)%nat → get_nibble a j = get_nibble b j)
       ∧ get_nibble a k < get_nibble b k.

(** The subscribers [enum_subscribers] hands to a callback that never stops
    it, in the order of the calls. *)
Definition enumerated (d : directory) (start : nat) : list nat :=
  walk_leaves (root d) 0 (Some (sid (deref (subscribers d) start))) SID_SIZE None 0.

(** Subscriber [p] sits in the slot [s] or below it. *)
Definition slot_holds (s : slot tree_node) (p : nat) : Prop :=
  s = SlotSubscriber p ∨ ∃ child path, s = SlotTree child ∧ leaf_at child path p.

(** ** Reachability updates (overlay_address.c, lines 194-253) *)

Module Routes.

(** [struct sockaddr_in], as [reachable_unicast] fills it. *)
Record sockaddr_in := Sockaddr {
  sin_family : Z;
  sin_addr : Z;
  sin_port : Z
}.

(** The fields of [struct subscriber] that [set_reachable] and
    [reachable_unicast] use beside the ones of the record [subscriber]:
    [sas_valid], [node] (non-null or null) and [address].  They are kept in
    a second arena, at the index of the subscriber. *)
Record subscriber_link := Link {
  sas_valid : bool;
  node : bool;
  address : sockaddr_in
}.

Definition zero_link : subscriber_link := Link false false (Sockaddr 0 0 0).

Definition set_address (a : sockaddr_in) (l : subscriber_link) : subscriber_link :=
  Link (sas_valid l) (node l) a.

(** Modelled from the spec: [keyring_send_sas_request] and
    [directory_registration] belong to the keyring and to the directory
    service, which are not part of the sources; the spec gives them as the
    opaque collaborator [Keyring.request_signing_key(subscriber)] and as
    "trigger directory registration".  A call is recorded, in order. *)
Inductive call :=
| keyring_send_sas_request (subscriber_ : nat)
| directory_registration.

(** What the two functions work on: the subscribers, their further fields,
    the global [directory_service], and the calls made so far. *)
Record routes := Routes {
  arena : list subscriber;
  links : list subscriber_link;
  directory_service : option nat;
  calls : list call
}.

Definition link_of (st : routes) (p : nat) : subscriber_link :=
  default zero_link (links st !! p).

Definition set_interface (i : option overlay_interface) (s : subscriber) : subscriber :=
  Subscriber (sid s) (abbreviate_len s) (reachable s) (next_hop s) i (send_full s).

(** [set_reachable(subscriber, reachable)]; the debug output leaves no trace. *)
Definition set_reachable `{Header} (st : routes) (subscriber_ : nat) (reachable_ : Z)
  : Z * routes :=
  if reachable (deref (arena st) subscriber_) =? reachable_ then (0, st)
  else
    let arena' := alter (set_reachable_field reachable_) subscriber_ (arena st) in
    (* pre-emptively send a sas request *)
    let calls' :=
      if negb (sas_valid (link_of st subscriber_))
         && negb (Z.land reachable_ REACHABLE =? 0)
      then calls st ++ [keyring_send_sas_request subscriber_] else calls st in
    (* send our identity to a directory service *)
    let calls' :=
      if bool_decide (directory_service st = Some subscriber_)
      then calls' ++ [directory_registration] else calls' in
    (0, Routes arena' (links st) (directory_service st) calls').

(** [reachable_unicast(subscriber, interface, addr, port)].  [AF_INET] and
    [htons] come from the C library of the platform; they are arguments. *)
Definition reachable_unicast `{Header} (AF_INET : Z) (htons : Z → Z) (st : routes)
    (subscriber_ : nat) (interface_ : option overlay_interface) (addr port : Z)
  : Z * routes :=
  if negb (Z.land (reachable (deref (arena st) subscriber_)) REACHABLE =? 0)
  then (WHY, st)
  else if node (link_of st subscriber_) then (WHY, st)
  else
    let st := Routes (alter (set_interface interface_) subscriber_ (arena st))
                     (alter (set_address (Sockaddr AF_INET addr (htons port)))
                            subscriber_ (links st))
                     (directory_service st) (calls st) in
    let '(_, st) := set_reachable st subscriber_ REACHABLE_UNICAST in
    (0, st).

End Routes.

(** ** Abbreviation by index (companion file, lines 95-260) *)

Module Table.

(** [typedef struct overlay_address_table]: [sids] has 256 entries of
    [SID_SIZE] bytes, [byfirstbyte] has 256 entries of 2 bytes, and
    [next_free] is an [unsigned char]. *)
Record overlay_address_table := AddressTable {
  epoch : Z;
  sids : list (list Z);
  byfirstbyte : list (list Z);
  next_free : Z
}.

(** [calloc(sizeof(overlay_address_table),1)] *)
Definition zero_table : overlay_address_table :=
  AddressTable 0 (replicate 256 (replicate SID_SIZE 0)) (replicate 256 [0; 0]) 0.

Definition set_next_free (v : Z) (t : overlay_address_table) : overlay_address_table :=
  AddressTable (epoch t) (sids t) (byfirstbyte t) v.

(** [abbrs->sids[index]] and [abbrs->byfirstbyte[b][i]] *)
Definition sid_at (t : overlay_address_table) (index : nat) : list Z :=
  default (replicate SID_SIZE 0) (sids t !! index).

Definition byfirstbyte_at (t : overlay_address_table) (b : Z) (i : nat) : Z :=
  byte_at (default [0; 0] (byfirstbyte t !! Z.to_nat b)) i.

(** Storing [v] at [out[*ofs]] and advancing [*ofs], for a [char *out] with
    room at [*ofs]. *)
Definition put (out : list Z) (ofs : nat) (v : Z) : list Z :=
  bcopy_at [Z.land v 0xff] out ofs 1.

(** [overlay_abbreviate_try_byindex(in, out, ofs, index)] *)
Definition overlay_abbreviate_try_byindex (abbrs : overlay_address_table)
    (in_ : list Z) (out : list Z) (ofs : nat) (index : nat) : Z * list Z * nat :=
  if memcmp_eq in_ (sid_at abbrs index) SID_SIZE then
    (* this address can be encoded with one byte *)
    (0, put (put out ofs 0x01) (ofs + 1) (Z.of_nat index), (ofs + 2)%nat)
  else (1, out, ofs).

(** How the loop [for(i=0;i<2;i++)] of [overlay_abbreviate_address] ends:
    with a [return 0] out of it, or with its counter. *)
Inductive index_scan :=
| Emitted (out : list Z) (ofs : nat)
| Left (i : nat).

(** The loop, with [n] turns left at counter [i]. *)
Fixpoint byindex_loop (n : nat) (i : nat) (abbrs : overlay_address_table)
    (in_ : list Z) (out : list Z) (ofs : nat) : index_scan :=
  match n with
  | O => Left i
  | S n' =>
      if negb (byfirstbyte_at abbrs (byte_at in_ 0) i =? 0) then
        match overlay_abbreviate_try_byindex abbrs in_ out ofs i with
        | (r, out', ofs') =>
            if r =? 0 then Emitted out' ofs'
            else byindex_loop n' (S i) abbrs in_ out' ofs'
        end
      else Left i
  end.

(** What a call of [overlay_abbreviate_address] leaves: the returned [int],
    the cache, the table, [out] and [*ofs]. *)
Record abbreviated := Abbreviated {
  result : Z;
  cache_after : option Abbreviate.overlay_address_cache;
  abbrs_after : option overlay_address_table;
  out_after : list Z;
  ofs_after : nat
}.

(** [overlay_abbreviate_address(in, out, ofs)], for an [in] that is not
    [NULL]. *)
Definition overlay_abbreviate_address (CACHE_SIZE : Z) (heap : Abbreviate.callocs)
    (cache : option Abbreviate.overlay_address_cache)
    (abbrs : option overlay_address_table) (in_ : list Z) (out : list Z) (ofs : nat)
  : outcome abbreviated :=
  match Abbreviate.overlay_abbreviate_cache_address CACHE_SIZE heap cache in_ with
  | Exited => Exited
  | Fault => Fault
  | Ret (wasInCachedP, cache) =>
      if byte_at in_ 0 <? 0x10 then Ret (Abbreviated WHY cache abbrs out ofs)
      else
        (* abbreviation table not set up, so allocate it *)
        let allocated :=
          match abbrs with
          | Some t => Some t
          | None => if Abbreviate.table_block heap
                    then Some (set_next_free 1 zero_table) else None
          end in
        match allocated with
        | None =>
            (* could not allocate the table, so just output the full address *)
            Ret (Abbreviated 0 cache None (bcopy_at in_ out ofs SID_SIZE)
                   (ofs + SID_SIZE))
        | Some abbrs =>
            (* try abbreviating by index *)
            match byindex_loop 2 0 abbrs in_ out ofs with
            | Emitted out ofs => Ret (Abbreviated 0 cache (Some abbrs) out ofs)
            | Left i =>
                if (i <? 2)%nat && negb (next_free abbrs =? 0) then
                  (* remember this address, write it out with the index code *)
                  let index := Z.to_nat (next_free abbrs) in
                  let row :=
                    default [0; 0] (byfirstbyte abbrs !! Z.to_nat (byte_at in_ 0)) in
                  let abbrs' :=
                    AddressTable (epoch abbrs)
                      (<[index := take SID_SIZE in_]> (sids abbrs))
                      (<[Z.to_nat (byte_at in_ 0) := <[i := next_free abbrs]> row]>
                         (byfirstbyte abbrs))
                      (Z.land (next_free abbrs + 1) 0xff) in
                  let out := put out ofs 0x08 in
                  let out := bcopy_at in_ out (ofs + 1) SID_SIZE in
                  let out := put out (ofs + 1 + SID_SIZE) (next_free abbrs) in
                  Ret (Abbreviated 0 cache (Some abbrs') out (ofs + 1 + SID_SIZE + 1))
                else if negb (wasInCachedP =? 0) then
                  (* prefix addresses that have been seen recently *)
                  let out := put out ofs 0x06 in
                  let out := bcopy_at in_ out (ofs + 1) 7 in
                  Ret (Abbreviated 0 cache (Some abbrs) out (ofs + 1 + 7))
                else
                  (* but send full address for those we haven't seen before *)
                  Ret (Abbreviated 0 cache (Some abbrs) (bcopy_at in_ out ofs SID_SIZE)
                         (ofs + SID_SIZE))
            end
        end
  end.

End Table.

(** The table a call of [overlay_abbreviate_address] works on when it has
    one: the one there is, or the one it allocates. *)
Definition table_in_use (abbrs : option Table.overlay_address_table)
  : Table.overlay_address_table :=
  match abbrs with
  | Some t => t
  | None => Table.set_next_free 1 Table.zero_table
  end.

(** Whether a call of [overlay_abbreviate_address] has a table to work on:
    there is one already, or [calloc] provides it. *)
Definition table_available (heap : Abbreviate.callocs)
    (abbrs : option Table.overlay_address_table) : bool :=
  match abbrs with
  | Some _ => true
  | None => Abbreviate.table_block heap
  end.

(** The four ways [overlay_abbreviate_address] returns 0 on the table [t]:
    the index code with the loop counter [i], the address with a newly
    allocated index, the seven-byte prefix, or the address verbatim.  [was] is
    what [overlay_abbreviate_cache_address] returned. *)
Definition abbreviation_written (t : Table.overlay_address_table) (was : Z)
    (in_ out : list Z) (ofs : nat) (r : Table.abbreviated) : Prop :=
  (∃ i, (i < 2)%nat
     ∧ memcmp_eq in_ (Table.sid_at t i) SID_SIZE = true
     ∧ Table.abbrs_after r = Some t
     ∧ Table.out_after r = Table.put (Table.put out ofs 0x01) (ofs + 1) (Z.of_nat i)
     ∧ Table.ofs_after r = (ofs + 2)%nat)
  ∨ (∃ i, (i < 2)%nat
     ∧ Table.next_free t ≠ 0
     ∧ Table.byfirstbyte_at t (byte_at in_ 0) i = 0
     ∧ Table.abbrs_after r
       = Some (Table.AddressTable (Table.epoch t)
                 (<[Z.to_nat (Table.next_free t) := take SID_SIZE in_]> (Table.sids t))
                 (<[Z.to_nat (byte_at in_ 0) :=
                      <[i := Table.next_free t]>
                        (default [0; 0] (Table.byfirstbyte t !! Z.to_nat (byte_at in_ 0)))]>
                    (Table.byfirstbyte t))
                 (Z.land (Table.next_free t + 1) 0xff))
     ∧ Table.out_after r
       = Table.put (bcopy_at in_ (Table.put out ofs 0x08) (ofs + 1) SID_SIZE)
           (ofs + 1 + SID_SIZE) (Table.next_free t)
     ∧ Table.ofs_after r = (ofs + 34)%nat)
  ∨ (was ≠ 0
     ∧ Table.abbrs_after r = Some t
     ∧ Table.out_after r = bcopy_at in_ (Table.put out ofs 0x06) (ofs + 1) 7
     ∧ Table.ofs_after r = (ofs + 8)%nat)
  ∨ (was = 0
     ∧ Table.abbrs_after r = Some t
     ∧ Table.out_after r = bcopy_at in_ out ofs SID_SIZE
     ∧ Table.ofs_after r = (ofs + 32)%nat).

(** * Properties *)

(** ** Broadcast duplicate cache *)

Section broadcast_cache.

Lemma masks_disjoint (a b : Z) :
  Z.land (Z.land a 0xfff8) (Z.land b 0x7) = 0.
Proof.
  rewrite Z.land_assoc, <- (Z.land_assoc a), (Z.land_comm 0xfff8), Z.land_assoc.
  rewrite <- Z.land_assoc. change (Z.land 0xfff8 0x7) with 0.
  apply Z.land_0_r.
Qed.

(** The sum in the code is the bitwise or of the specification. *)
Lemma bpi_index_step_spec (h b : Z) : bpi_index_step h b = spec_hash_step h b.
Proof.
  unfold bpi_index_step, spec_hash_step. f_equal.
  rewrite Z.add_nocarry_lxor by apply masks_disjoint.
  apply Z.lxor_lor, masks_disjoint.
Qed.

Lemma bpi_index_loop_fold (l : list Z) (pre : list Z) (h : Z) :
  bpi_index_loop (length l) (length pre) (Broadcast (pre ++ l)) h
  = fold_left spec_hash_step l h.
Proof.
  revert pre h. induction l as [|b l IH]; intros pre h; [reflexivity|].
  cbn [length bpi_index_loop fold_left id].
  unfold byte_at. rewrite app_nth2 by lia. rewrite Nat.sub_diag. cbn [nth].
  rewrite bpi_index_step_spec.
  specialize (IH (pre ++ [b]) (spec_hash_step h b)).
  rewrite length_app, Nat.add_1_r, <- app_assoc in IH. exact IH.
Qed.

Lemma bpi_index_of_spec (addr : broadcast) :
  is_bpi addr → bpi_index_of addr = spec_slot_index (id addr).
Proof.
  intros [Hlen _]. unfold bpi_index_of, spec_slot_index.
  destruct addr as [l]. cbn [id] in *.
  change 8%nat with BROADCAST_LEN. rewrite <- Hlen, firstn_all.
  rewrite Hlen at 1. rewrite <- Hlen at 1.
  exact (f_equal (λ x, Z.land x _) (bpi_index_loop_fold l [] 0)).
Qed.

Lemma bpi_index_of_range (addr : broadcast) : 0 <= bpi_index_of addr < 1024.
Proof.
  unfold bpi_index_of, BPI_MASK. change 0x3ff with (Z.ones 10).
  rewrite Z.land_ones by lia. apply Z.mod_pos_bound. lia.
Qed.

End broadcast_cache.

(** C7, as the code has it.  For every 8-byte BPI the slot is the rolling
    hash of the specification masked to 10 bits.  On the zero-initialised
    table, a BPI other than eight zero bytes is reported new (0), is stored in
    its slot, and is reported a duplicate (1) when offered again at once.  The
    BPI of eight zero bytes equals the initial content of every slot and is
    reported a duplicate already on its first call. *)
Theorem drop_check_first_and_repeat (addr : broadcast) :
  is_bpi addr →
  let slot := Z.to_nat (bpi_index_of addr) in
  let table := <[slot := addr]> bpilist_init in
  bpi_index_of addr = spec_slot_index (id addr)
  ∧ (slot < MAX_BPIS)%nat
  ∧ (id addr ≠ replicate BROADCAST_LEN 0 →
       overlay_broadcast_drop_check bpilist_init addr = (0, table)
       ∧ overlay_broadcast_drop_check table addr = (1, table))
  ∧ (id addr = replicate BROADCAST_LEN 0 →
       overlay_broadcast_drop_check bpilist_init addr = (1, bpilist_init)).
Proof.
  intros Hbpi slot table.
  assert (Hslot : (slot < MAX_BPIS)%nat).
  { subst slot. pose proof (bpi_index_of_range addr). unfold MAX_BPIS. lia. }
  assert (Hinit : bpilist_init !! slot = Some zero_broadcast).
  { unfold bpilist_init. apply lookup_replicate_2, Hslot. }
  assert (Hfull : take BROADCAST_LEN (id addr) = id addr).
  { destruct Hbpi as [Hlen _]. rewrite <- Hlen. apply firstn_all. }
  split; [apply bpi_index_of_spec, Hbpi|]. split; [exact Hslot|].
  split.
  - intros Hne. split.
    + unfold overlay_broadcast_drop_check. fold slot. rewrite Hinit. cbn [default].
      unfold memcmp_eq. rewrite Hfull.
      rewrite bool_decide_false.
      * cbn [negb]. destruct addr as [l]. reflexivity.
      * cbn. intros Heq. apply Hne. symmetry. exact Heq.
    + unfold overlay_broadcast_drop_check. fold slot.
      subst table. rewrite list_lookup_insert_eq
        by (unfold bpilist_init; rewrite length_replicate; exact Hslot).
      cbn [default]. unfold memcmp_eq. rewrite bool_decide_true by reflexivity.
      reflexivity.
  - intros Hz. unfold overlay_broadcast_drop_check. fold slot. rewrite Hinit.
    cbn [default]. unfold memcmp_eq. rewrite Hfull, Hz.
    rewrite bool_decide_true by reflexivity. reflexivity.
Qed.

Lemma drop_check_first_and_repeat_witness :
  let addr := Broadcast [0; 1; 2; 3; 4; 5; 6; 7] in
  is_bpi addr
  ∧ overlay_broadcast_drop_check bpilist_init addr
    = (0, <[Z.to_nat (bpi_index_of addr) := addr]> bpilist_init).
Proof.
  assert (H : is_bpi (Broadcast [0; 1; 2; 3; 4; 5; 6; 7])).
  { split; [reflexivity|]. repeat constructor; lia. }
  split; [exact H|].
  apply (drop_check_first_and_repeat _ H). discriminate.
Defined.

(** C7 as stated fails for the BPI of eight zero bytes: its first call on
    the fresh table does not return 0. *)
Lemma drop_check_zero_bpi_first_call :
  is_bpi zero_broadcast
  ∧ fst (overlay_broadcast_drop_check bpilist_init zero_broadcast) ≠ 0.
Proof.
  split.
  - split; [reflexivity|]. repeat constructor; lia.
  - vm_compute. discriminate.
Qed.

(** ** Abbreviation cache *)

Section abbreviation_cache.
Import Abbreviate.

Lemma cache_address_index_two_bytes c (sid_ : list Z) :
  cache_address_index c sid_ = slot_of_two_bytes c (byte_at sid_ 0) (byte_at sid_ 2).
Proof. reflexivity. Qed.

Lemma cache_lookup_index_two_bytes c (in_ : list Z) :
  cache_lookup_index c in_ = slot_of_two_bytes c (byte_at in_ 0) (byte_at in_ 2).
Proof. reflexivity. Qed.

Lemma take_differs_on_first_byte (a b : list Z) (n : nat) :
  byte_at a 0 ≠ 0 → byte_at a 0 ≠ byte_at b 0 → take (S n) a ≠ take (S n) b.
Proof.
  unfold byte_at. destruct a as [|x a]; cbn; [congruence|].
  destruct b as [|y b]; cbn; [discriminate|]. intros _ Hxy Heq.
  apply Hxy. congruence.
Qed.

Lemma cache_lookup_opcode_misses c (in_ out_ : list Z) (ofs_ n k : nat) :
  prefix_opcode (byte_at in_ 0) →
  cache_entries_plain c →
  is_Some (cache_slot c (cache_lookup_index c in_)) →
  overlay_abbreviate_cache_lookup (Some c) in_ out_ ofs_ (S n) k
  = Ret (OA_PLEASEEXPLAIN, out_, ofs_).
Proof.
  intros Hop Hplain [stored Hslot]. unfold overlay_abbreviate_cache_lookup.
  rewrite Hslot. unfold memcmp_eq. rewrite bool_decide_false; [reflexivity|].
  assert (Hin : stored ∈ sids c).
  { unfold cache_slot in Hslot.
    destruct (_ && _) in Hslot; [|discriminate].
    eapply list_elem_of_lookup_2, Hslot. }
  specialize (Hplain _ Hin).
  unfold prefix_opcode in Hop. cbn [In] in Hop.
  apply take_differs_on_first_byte; lia.
Qed.

End abbreviation_cache.

(** C9.  When the frame starts with a prefix opcode, every cache entry
    starts with 0x00 or with a byte of at least 0x10, and the slot the lookup
    computes lies inside the cache, [overlay_abbreviate_expand_address]
    returns [OA_PLEASEEXPLAIN]: the input offset moves past the prefix and its
    index bytes, and nothing is written to the output.  The lookup compares
    the opcode byte itself with the first byte of the cached identifier. *)
Theorem expand_prefix_opcode_asks_to_explain
    (c : Abbreviate.overlay_address_cache) (previous_address in_ : list Z)
    (st : Abbreviate.expand_state) :
  prefix_opcode (byte_at in_ 0) →
  cache_entries_plain c →
  is_Some (Abbreviate.cache_slot c (Abbreviate.cache_lookup_index c in_)) →
  Abbreviate.overlay_abbreviate_expand_address (Some c) previous_address in_ st
  = Ret (Abbreviate.OA_PLEASEEXPLAIN,
         Abbreviate.ExpandState
           (Abbreviate.inofs st + prefix_advance (byte_at in_ 0))
           (Abbreviate.out st) (Abbreviate.ofs st)).
Proof.
  intros Hop Hplain Hslot.
  pose proof (λ n k, cache_lookup_opcode_misses c in_ (Abbreviate.out st)
                       (Abbreviate.ofs st) n k Hop Hplain Hslot) as Hmiss.
  unfold Abbreviate.overlay_abbreviate_expand_address.
  unfold prefix_opcode in Hop. cbn [In] in Hop.
  destruct Hop as [Hb|[Hb|[Hb|[Hb|[Hb|[Hb|[Hb|[]]]]]]]]; rewrite <- Hb;
    cbn -[Abbreviate.overlay_abbreviate_cache_lookup]; rewrite Hmiss; reflexivity.
Qed.

Lemma expand_prefix_opcode_asks_to_explain_witness :
  let c := Abbreviate.AddressCache 1 24 [0x10 :: 0x20 :: 0x30 :: replicate 29 0x40] in
  Abbreviate.overlay_abbreviate_expand_address (Some c) (replicate 32 0)
    [0x05; 0x10; 0x20; 0x30] (Abbreviate.ExpandState 0 (replicate 32 0) 0)
  = Ret (Abbreviate.OA_PLEASEEXPLAIN, Abbreviate.ExpandState 3 (replicate 32 0) 0).
Proof.
  apply (expand_prefix_opcode_asks_to_explain
           (Abbreviate.AddressCache 1 24 [0x10 :: 0x20 :: 0x30 :: replicate 29 0x40])
           (replicate 32 0) [0x05; 0x10; 0x20; 0x30]
           (Abbreviate.ExpandState 0 (replicate 32 0) 0)).
  - cbn. auto.
  - intros e He. apply list_elem_of_singleton in He. subst e. right. cbn. lia.
  - vm_compute. eauto.
Defined.

(** C10.  The slot computed by [overlay_abbreviate_cache_address] and by
    [overlay_abbreviate_cache_lookup] is a function of bytes 0 and 2 of the
    input: two inputs that agree on these bytes get the same slot from both
    operations, whatever their byte 1. *)
Theorem cache_slot_ignores_byte_1
    (c : Abbreviate.overlay_address_cache) (a b : list Z) :
  byte_at a 0 = byte_at b 0 →
  byte_at a 2 = byte_at b 2 →
  Abbreviate.cache_address_index c a = Abbreviate.cache_address_index c b
  ∧ Abbreviate.cache_lookup_index c a = Abbreviate.cache_lookup_index c b
  ∧ Abbreviate.cache_address_index c a = Abbreviate.cache_lookup_index c b.
Proof.
  intros H0 H2.
  rewrite (cache_address_index_two_bytes c a), (cache_address_index_two_bytes c b),
    (cache_lookup_index_two_bytes c a), (cache_lookup_index_two_bytes c b), H0, H2.
  auto.
Qed.

Lemma cache_slot_ignores_byte_1_witness :
  let c := Abbreviate.AddressCache 256 16 (replicate 256 (replicate 32 0)) in
  Abbreviate.cache_address_index c [0x12; 0x34; 0x56]
  = Abbreviate.cache_address_index c [0x12; 0x99; 0x56].
Proof.
  apply (cache_slot_ignores_byte_1
           (Abbreviate.AddressCache 256 16 (replicate 256 (replicate 32 0)))
           [0x12; 0x34; 0x56] [0x12; 0x99; 0x56]); reflexivity.
Defined.

(** ** Encoder *)

Section encoder.
Context `{Header}.

Lemma is_sender_false (c : decode_context) (p : nat) :
  sender c ≠ Some p → is_sender (Some c) p = false.
Proof. intros Hne. cbn. apply bool_decide_false, Hne. Qed.

Lemma is_previous_false (c : decode_context) (p : nat) :
  previous c ≠ Some p → is_previous (Some c) p = false.
Proof. intros Hne. cbn. apply bool_decide_false, Hne. Qed.

Lemma int_wrap_small (z : Z) : - INT_MAX - 1 <= z <= INT_MAX → int_wrap z = z.
Proof.
  unfold INT_MAX, int_wrap. intros Hz. rewrite Z.mod_small by lia. lia.
Qed.

Lemma encoded_length_range (s : subscriber) :
  0 <= abbreviate_len s <= INT_MAX - 2 → 1 <= encoded_length s <= 32.
Proof.
  intros Hpos. unfold encoded_length. destruct (send_full s); [lia|].
  rewrite int_wrap_small by (unfold INT_MAX in *; lia).
  assert (1 <= Z.quot (abbreviate_len s + 2) 2).
  { rewrite Z.quot_div_nonneg by lia.
    apply Z.div_le_lower_bound; lia. }
  destruct (_ =? _); lia.
Qed.

Lemma encoded_length_le (s : subscriber) : encoded_length s <= 32.
Proof. unfold encoded_length. destruct (send_full s); lia. Qed.

Lemma ob_has_room_le (b : overlay_buffer) (n m : nat) :
  (m <= n)%nat → ob_has_room b n = true → ob_has_room b m = true.
Proof.
  unfold ob_has_room. destruct (sizeLimit b); [|reflexivity].
  intros Hle Hr. apply Nat.leb_le in Hr. apply Nat.leb_le. lia.
Qed.

Lemma ob_has_room_with (b : overlay_buffer) (data : list Z) (n : nat) :
  ob_has_room b (length data + n) = true → ob_has_room (ob_with b data) n = true.
Proof.
  unfold ob_has_room, ob_with. cbn. destruct (sizeLimit b); [|reflexivity].
  intros Hr. apply Nat.leb_le in Hr. apply Nat.leb_le.
  rewrite length_app. lia.
Qed.

Lemma ob_append_byte_ok (b : overlay_buffer) (byte : Z) :
  0 <= byte < 256 → ob_has_room b 1 = true →
  ob_append_byte b byte = (0, ob_with b [byte]).
Proof.
  intros Hb Hr. unfold ob_append_byte. rewrite Hr.
  change 0xff with (Z.ones 8). rewrite Z.land_ones by lia.
  rewrite Z.mod_small by lia. reflexivity.
Qed.

Lemma ob_append_bytes_ok (b : overlay_buffer) (data : list Z) (n : nat) :
  ob_has_room b n = true →
  ob_append_bytes b data n = (0, ob_with b (take n data)).
Proof. intros Hr. unfold ob_append_bytes. rewrite Hr. reflexivity. Qed.

Lemma ob_with_with (b : overlay_buffer) (x y : list Z) :
  ob_with (ob_with b x) y = ob_with b (x ++ y).
Proof. unfold ob_with. cbn. rewrite <- app_assoc. reflexivity. Qed.

(** The literal branch of the encoder, given room for what it writes, when
    the length it computes is not negative. *)
Lemma append_literal_branch (ctx : decode_context) (b : overlay_buffer)
    (subs : list subscriber) (p : nat) :
  is_sender (Some ctx) p = false →
  is_previous (Some ctx) p = false →
  0 <= encoded_length (deref subs p) →
  ob_has_room b (1 + Z.to_nat (encoded_length (deref subs p))) = true →
  let s := deref subs p in
  let L := encoded_length s in
  overlay_address_append (Some ctx) b subs (Some p)
  = (0, Some (set_previous ctx (Some p)),
     ob_with b (L :: take (Z.to_nat L) (sid s)),
     if send_full s then alter (set_send_full false) p subs else subs).
Proof.
  intros Hs Hp Hpos Hroom s L.
  pose proof (encoded_length_le s) as HL. fold s L in Hpos. fold L in HL.
  assert (Hbyte : ob_append_byte b L = (0, ob_with b [L])).
  { apply ob_append_byte_ok; [lia|]. eapply ob_has_room_le; [|exact Hroom]. lia. }
  assert (Hbytes : ob_append_bytes (ob_with b [L]) (sid s) (Z.to_nat L)
                   = (0, ob_with (ob_with b [L]) (take (Z.to_nat L) (sid s)))).
  { apply ob_append_bytes_ok, (ob_has_room_with b [L]), Hroom. }
  rewrite ob_with_with in Hbytes.
  assert (Hneg : (L <? 0) = false) by (apply Z.ltb_ge; exact Hpos).
  unfold overlay_address_append. rewrite Hs, Hp. fold s. cbv zeta.
  revert Hbyte Hbytes Hneg. subst L. unfold encoded_length.
  change (Z.of_nat SID_SIZE) with 32.
  destruct (send_full s).
  - intros -> -> ->. reflexivity.
  - destruct (reachable s =? REACHABLE_SELF).
    + destruct (_ >? 32) eqn:Hgt.
      * rewrite Z.min_l by lia. intros -> -> ->. reflexivity.
      * rewrite Z.min_r by lia. intros -> -> ->. reflexivity.
    + rewrite Z.add_0_r. destruct (_ >? 32) eqn:Hgt.
      * rewrite Z.min_l by lia. intros -> -> ->. reflexivity.
      * rewrite Z.min_r by lia. intros -> -> ->. reflexivity.
Qed.

End encoder.

(** C3, as the code has it.  For a subscriber that is neither
    [ctx.sender] nor [ctx.previous], whose [abbreviate_len] is not negative
    and small enough for [abbreviate_len + 2] to be an [int], with room in
    the buffer, the encoder writes the length byte L and the first L bytes of
    the identifier, where L is 32 if [send_full] is set (and the flag is
    cleared) and otherwise [(abbreviate_len + 2) / 2] with the half rounded
    down, one more when [reachable] equals SELF, at most 32; then
    [ctx.previous] is the subscriber. *)
Theorem append_writes_length_and_prefix `{Header} (ctx : decode_context)
    (b : overlay_buffer) (subs : list subscriber) (p : nat) :
  sender ctx ≠ Some p →
  previous ctx ≠ Some p →
  0 <= abbreviate_len (deref subs p) <= INT_MAX - 2 →
  let s := deref subs p in
  let L := if send_full s then 32
           else Z.min 32 ((abbreviate_len s + 2) `quot` 2
                          + (if reachable s =? REACHABLE_SELF then 1 else 0)) in
  ob_has_room b (1 + Z.to_nat L) = true →
  let subs' := if send_full s then alter (set_send_full false) p subs else subs in
  overlay_address_append (Some ctx) b subs (Some p)
  = (0, Some (set_previous ctx (Some p)),
     ob_with b (L :: take (Z.to_nat L) (sid s)), subs')
  ∧ send_full (deref subs' p) = false
  ∧ previous (set_previous ctx (Some p)) = Some p.
Proof.
  intros Hs Hp Hpos s L Hroom subs'.
  assert (HL : L = encoded_length s).
  { subst L. unfold encoded_length.
    rewrite int_wrap_small by (subst s; unfold INT_MAX in *; lia). reflexivity. }
  pose proof (encoded_length_range s Hpos) as Hrange.
  split; [|split; [|reflexivity]].
  - rewrite HL in *.
    apply append_literal_branch;
      [apply is_sender_false; exact Hs|apply is_previous_false; exact Hp
      |fold s; lia|exact Hroom].
  - subst subs'. destruct (send_full s) eqn:Hsf; [|exact Hsf].
    unfold deref. rewrite list_lookup_alter_eq.
    destruct (subs !! p); reflexivity.
Qed.

Lemma append_writes_length_and_prefix_witness :
  overlay_address_append (H := serval_header) (Some zero_context) ob_new
    (subscribers one_subscriber_directory) (Some 0%nat)
  = (0, Some (set_previous zero_context (Some 0%nat)),
     Buffer [1; 0x10] 0 None, subscribers one_subscriber_directory).
Proof.
  refine (proj1 (append_writes_length_and_prefix (H := serval_header)
                   zero_context ob_new (subscribers one_subscriber_directory)
                   0%nat _ _ _ _)).
  - discriminate.
  - discriminate.
  - vm_compute. split; discriminate.
  - reflexivity.
Defined.

(** C3 as stated fails when [abbreviate_len] is odd.  The only subscriber
    of a directory has [abbreviate_len] 1: the specification's formula gives
    the length 2, the encoder writes the length byte 1 and one byte of the
    identifier. *)
Lemma append_length_rounds_down :
  let s := deref (subscribers one_subscriber_directory) 0 in
  let r := overlay_address_append (H := serval_header) (Some zero_context) ob_new
             (subscribers one_subscriber_directory) (Some 0%nat) in
  abbreviate_len s = 1
  ∧ send_full s = false
  ∧ spec_encoded_length (H := serval_header) s = 2
  ∧ bytes (appended_buffer r) = [1; 0x10]
  ∧ bytes (appended_buffer r)
    ≠ spec_encoded_length (H := serval_header) s
      :: take (Z.to_nat (spec_encoded_length (H := serval_header) s)) (sid s).
Proof. vm_compute. repeat split; discriminate. Qed.

(** Past the range of [int]: with [abbreviate_len] at [INT_MAX] the sum
    wraps around, the length byte written is 0x01, and the call fails. *)
Example append_length_wraps_around :
  let s := Subscriber (sid_of [0x10]) INT_MAX 0 None None false in
  overlay_address_append (H := serval_header) (Some zero_context) ob_new [s]
    (Some 0%nat)
  = (-1, Some zero_context, Buffer [1] 0 None, [s]).
Proof. vm_compute. reflexivity. Qed.

Section encoder_sequences.
Context `{Header}.

Lemma set_previous_same (ctx : decode_context) (p : nat) :
  previous ctx = Some p → set_previous ctx (Some p) = ctx.
Proof. destruct ctx. cbn. intros ->. reflexivity. Qed.

(** A subscriber that is the previous one and not the sender costs one
    byte, 0xFE, and leaves the context and the arena as they were. *)
Lemma append_previous_branch (ctx : decode_context) (b : overlay_buffer)
    (subs : list subscriber) (p : nat) :
  sender ctx ≠ Some p →
  previous ctx = Some p →
  ob_has_room b 1 = true →
  overlay_address_append (Some ctx) b subs (Some p)
  = (0, Some ctx, ob_with b [OA_CODE_PREVIOUS], subs).
Proof.
  intros Hs Hp Hroom. unfold overlay_address_append.
  rewrite (is_sender_false _ _ Hs).
  unfold is_previous. rewrite bool_decide_true by exact Hp.
  rewrite ob_append_byte_ok by (auto; unfold OA_CODE_PREVIOUS; lia).
  cbn. rewrite set_previous_same by exact Hp. reflexivity.
Qed.

(** The sender costs one byte, 0xFF, whatever the previous subscriber is. *)
Lemma append_sender_branch (ctx : decode_context) (b : overlay_buffer)
    (subs : list subscriber) (p : nat) :
  sender ctx = Some p →
  ob_has_room b 1 = true →
  overlay_address_append (Some ctx) b subs (Some p)
  = (0, Some (set_previous ctx (Some p)), ob_with b [OA_CODE_SELF], subs).
Proof.
  intros Hs Hroom. unfold overlay_address_append.
  unfold is_sender. rewrite bool_decide_true by exact Hs.
  rewrite ob_append_byte_ok by (auto; unfold OA_CODE_SELF; lia).
  reflexivity.
Qed.

Lemma encode_repeats (ctx : decode_context) (b : overlay_buffer)
    (subs : list subscriber) (p : nat) (n : nat) :
  sender ctx ≠ Some p →
  previous ctx = Some p →
  ob_has_room b n = true →
  encode_sequence (Some ctx) b subs (replicate n p)
  = (0, Some ctx, ob_with b (replicate n OA_CODE_PREVIOUS), subs).
Proof.
  intros Hs Hp. revert b. induction n as [|n IH]; intros b Hroom.
  - cbn. unfold ob_with. rewrite app_nil_r. destruct b; reflexivity.
  - cbn [replicate encode_sequence].
    rewrite append_previous_branch;
      [|assumption|assumption|eapply ob_has_room_le; [|exact Hroom]; lia].
    cbn [Z.eqb]. rewrite IH by (apply (ob_has_room_with b [_]); exact Hroom).
    rewrite ob_with_with. reflexivity.
Qed.

(** A successful encoder call on a context leaves the subscriber as
    [previous] and keeps the sender. *)
Lemma append_sets_previous (ctx : decode_context) (b : overlay_buffer)
    (subs : list subscriber) (p : nat) ctx1 b1 subs1 :
  overlay_address_append (Some ctx) b subs (Some p) = (0, ctx1, b1, subs1) →
  ctx1 = Some (set_previous ctx (Some p)).
Proof.
  unfold overlay_address_append.
  repeat match goal with
         | |- context [if ?c then _ else _] => destruct c
         | |- context [let '(_, _) := ?x in _] => destruct x
         end; cbn; intros Heq; inversion Heq; reflexivity.
Qed.

End encoder_sequences.

(** C4, as the code has it.  For a subscriber [t] other than
    [ctx.sender], once a first encoder call for [t] has succeeded, each of
    the encoder calls for [t] that follow it at once on the same context
    writes the single byte 0xFE.  The sender itself is written as 0xFF every
    time, also when it is the previous subscriber: with [ctx.sender = s],
    encoding [(s, s, t)] yields [FF FF <len> <prefix of t>] (for a [t] whose
    [abbreviate_len] is not negative and leaves [abbreviate_len + 2] an
    [int]). *)
Theorem repeats_emit_previous_unless_sender `{Header} (ctx : decode_context)
    (b : overlay_buffer) (subs : list subscriber) (t n : nat)
    (ctx1 : option decode_context) (b1 : overlay_buffer) (subs1 : list subscriber) :
  sender ctx ≠ Some t →
  overlay_address_append (Some ctx) b subs (Some t) = (0, ctx1, b1, subs1) →
  ob_has_room b1 n = true →
  encode_sequence ctx1 b1 subs1 (replicate n t)
  = (0, ctx1, ob_with b1 (replicate n OA_CODE_PREVIOUS), subs1)
  ∧ ∀ s : nat,
      sender ctx = Some s →
      0 <= abbreviate_len (deref subs t) <= INT_MAX - 2 →
      let L := encoded_length (deref subs t) in
      ob_has_room b (3 + Z.to_nat L) = true →
      encode_sequence (Some ctx) b subs [s; s; t]
      = (0, Some (set_previous ctx (Some t)),
         ob_with b ([OA_CODE_SELF; OA_CODE_SELF]
                    ++ L :: take (Z.to_nat L) (sid (deref subs t))),
         if send_full (deref subs t)
         then alter (set_send_full false) t subs else subs).
Proof.
  intros Hst Hfirst Hroom. split.
  - rewrite (append_sets_previous _ _ _ _ _ _ _ Hfirst).
    apply encode_repeats; [exact Hst|reflexivity|exact Hroom].
  - intros s Hs Hpos L HroomL.
    assert (Hts : Some s ≠ Some t) by congruence.
    cbn [encode_sequence].
    rewrite append_sender_branch;
      [|exact Hs|eapply ob_has_room_le; [|exact HroomL]; lia].
    cbn [Z.eqb].
    rewrite append_sender_branch;
      [|exact Hs|apply (ob_has_room_with b [_]);
                 eapply ob_has_room_le; [|exact HroomL]; cbn; lia].
    cbn [Z.eqb]. rewrite ob_with_with.
    rewrite append_literal_branch;
      [|apply is_sender_false; cbn; congruence
       |apply is_previous_false; cbn; congruence
       |pose proof (encoded_length_range _ Hpos); lia
       |apply (ob_has_room_with b [_; _]); exact HroomL].
    cbn [Z.eqb]. rewrite ob_with_with. reflexivity.
Qed.

Lemma repeats_emit_previous_unless_sender_witness :
  let ctx := Context (Some 0%nat) None false None None 0 in
  let subs := subscribers two_subscriber_directory in
  encode_sequence (H := serval_header) (Some (set_previous ctx (Some 1%nat)))
    (Buffer [1; 0x20] 0 None) subs (replicate 2 1%nat)
  = (0, Some (set_previous ctx (Some 1%nat)),
     Buffer [1; 0x20; 0xfe; 0xfe] 0 None, subs)
  ∧ encode_sequence (H := serval_header) (Some ctx) ob_new subs
      [0%nat; 0%nat; 1%nat]
    = (0, Some (set_previous ctx (Some 1%nat)),
       Buffer [0xff; 0xff; 1; 0x20] 0 None, subs).
Proof.
  assert (Hne : Some 0%nat ≠ Some 1%nat) by discriminate.
  assert (Hpos : 0 <= 1 <= INT_MAX - 2) by (split; discriminate).
  destruct (repeats_emit_previous_unless_sender (H := serval_header)
              (Context (Some 0%nat) None false None None 0) ob_new
              (subscribers two_subscriber_directory) 1%nat 2%nat
              _ _ _ Hne eq_refl eq_refl) as [Hrun Hscenario].
  split; [exact Hrun|].
  exact (Hscenario 0%nat eq_refl Hpos eq_refl).
Defined.

(** C4 as stated fails in its own scenario: with [ctx.sender = S], the
    second encoding of [S] is 0xFF again, so [(S, S, T)] does not start with
    FF FE. *)
Lemma sender_repeated_is_not_previous :
  let ctx := Context (Some 0%nat) None false None None 0 in
  let r := encode_sequence (H := serval_header) (Some ctx) ob_new
             (subscribers two_subscriber_directory) [0%nat; 0%nat; 1%nat] in
  bytes (appended_buffer r) = [0xff; 0xff; 1; 0x20]
  ∧ ∀ rest, bytes (appended_buffer r) ≠ 0xff :: 0xfe :: rest.
Proof. vm_compute. split; [reflexivity|discriminate]. Qed.

(** ** Reachability *)

Section reachability.
Context `{Header}.

(** A subscriber whose stored state is not exactly INDIRECT is resolved
    without looking at any other subscriber. *)
Lemma resolve_not_indirect (fuel : nat) (subs : list subscriber) (p : nat) :
  reachable (deref subs p) ≠ REACHABLE_INDIRECT →
  subscriber_is_reachable (S fuel) subs (Some p)
  = Some (interface_checked (deref subs p) (reachable (deref subs p))).
Proof.
  intros Hne. cbn [subscriber_is_reachable].
  apply Z.eqb_neq in Hne. rewrite Hne. unfold interface_checked.
  destruct (negb _); [|reflexivity].
  destruct (interface _) as [i|]; [|reflexivity].
  destruct (negb _); reflexivity.
Qed.

Lemma direct_bit_not_indirect (x : Z) :
  flag_laws → Z.land x REACHABLE_DIRECT ≠ 0 → x ≠ REACHABLE_INDIRECT.
Proof. intros laws Hx ->. apply Hx, indirect_not_direct, laws. Qed.

(** One turn of the function on a subscriber stored as INDIRECT. *)
Lemma resolve_indirect_step (fuel : nat) (subs : list subscriber) (p : nat) :
  flag_laws →
  reachable (deref subs p) = REACHABLE_INDIRECT →
  subscriber_is_reachable (S (S fuel)) subs (Some p)
  = match next_hop (deref subs p) with
    | None => Some REACHABLE_NONE
    | Some nh =>
        if Z.land (reachable (deref subs nh)) REACHABLE_DIRECT =? 0
        then Some REACHABLE_NONE
        else
          let r := interface_checked (deref subs nh) (reachable (deref subs nh)) in
          if negb (Z.land r REACHABLE_ASSUMED =? 0) then Some REACHABLE_NONE
          else if Z.land r REACHABLE_DIRECT =? 0 then Some REACHABLE_NONE
          else Some REACHABLE_INDIRECT
    end.
Proof.
  intros laws Hind.
  assert (Hn : negb (Z.land REACHABLE_NONE REACHABLE_DIRECT =? 0) = false).
  { rewrite none_not_direct by exact laws. reflexivity. }
  assert (Hi : negb (Z.land REACHABLE_INDIRECT REACHABLE_DIRECT =? 0) = false).
  { rewrite indirect_not_direct by exact laws. reflexivity. }
  change (subscriber_is_reachable (S (S fuel)) subs (Some p)) with
    (let s := deref subs p in
     let ret := reachable s in
     let indirect :=
       if ret =? REACHABLE_INDIRECT then
         match next_hop s with
         | None => Some REACHABLE_NONE
         | Some nh =>
             if Z.land (reachable (deref subs nh)) REACHABLE_DIRECT =? 0
             then Some REACHABLE_NONE
             else
               match subscriber_is_reachable (S fuel) subs (Some nh) with
               | None => None
               | Some r =>
                   if negb (Z.land r REACHABLE_ASSUMED =? 0) then Some REACHABLE_NONE
                   else if Z.land r REACHABLE_DIRECT =? 0 then Some REACHABLE_NONE
                   else Some ret
               end
         end
       else Some ret in
     match indirect with
     | None => None
     | Some ret =>
         if negb (Z.land ret REACHABLE_DIRECT =? 0) then
           match interface s with
           | None => Some REACHABLE_NONE
           | Some i =>
               if negb (state i =? INTERFACE_STATE_UP) then Some REACHABLE_NONE
               else Some ret
           end
         else Some ret
     end).
  cbv zeta. rewrite Hind, Z.eqb_refl.
  destruct (next_hop (deref subs p)) as [nh|];
    [|cbv beta iota; rewrite Hn; reflexivity].
  destruct (Z.land (reachable (deref subs nh)) REACHABLE_DIRECT =? 0) eqn:Hd;
    [cbv beta iota; rewrite Hn; reflexivity|].
  apply Z.eqb_neq in Hd.
  rewrite resolve_not_indirect by (apply direct_bit_not_indirect; assumption).
  set (r := interface_checked (deref subs nh) (reachable (deref subs nh))).
  destruct (negb (Z.land r REACHABLE_ASSUMED =? 0));
    [cbv beta iota; rewrite Hn; reflexivity|].
  destruct (Z.land r REACHABLE_DIRECT =? 0);
    [cbv beta iota; rewrite Hn; reflexivity|].
  cbv beta iota. rewrite Hi. reflexivity.
Qed.

End reachability.

(** A subscriber whose stored [reachable] equals INDIRECT resolves to NONE
    unless the next hop is set, the next hop's stored state has a DIRECT bit,
    and the next hop itself resolves to a state with a DIRECT bit and without
    ASSUMED; in that case it resolves to INDIRECT. *)
Lemma resolve_stored_indirect `{Header} (fuel : nat)
    (subs : list subscriber) (a : nat) :
  flag_laws →
  reachable (deref subs a) = REACHABLE_INDIRECT →
  let resolve_a := subscriber_is_reachable (S (S fuel)) subs (Some a) in
  (¬ next_hop_usable (S fuel) subs (deref subs a) → resolve_a = Some REACHABLE_NONE)
  ∧ (next_hop_usable (S fuel) subs (deref subs a) → resolve_a = Some REACHABLE_INDIRECT)
  ∧ (∀ b, next_hop (deref subs a) = Some b →
          reachable (deref subs b) = REACHABLE_INDIRECT →
          resolve_a = Some REACHABLE_NONE)
  ∧ (∀ b i, next_hop (deref subs a) = Some b →
            reachable (deref subs b) = Z.lor REACHABLE_DIRECT REACHABLE_UNICAST →
            interface (deref subs b) = Some i →
            state i = INTERFACE_STATE_UP →
            resolve_a = Some REACHABLE_INDIRECT).
Proof.
  intros laws Hind resolve_a. subst resolve_a.
  rewrite resolve_indirect_step by assumption.
  assert (Hstep : ∀ nh, Z.land (reachable (deref subs nh)) REACHABLE_DIRECT ≠ 0 →
            subscriber_is_reachable (S fuel) subs (Some nh)
            = Some (interface_checked (deref subs nh) (reachable (deref subs nh)))).
  { intros nh Hd. apply resolve_not_indirect, direct_bit_not_indirect; assumption. }
  repeat split.
  - intros Hno. destruct (next_hop (deref subs a)) as [nh|] eqn:Hnh; [|reflexivity].
    destruct (Z.land (reachable (deref subs nh)) REACHABLE_DIRECT =? 0) eqn:Hd;
      [reflexivity|].
    apply Z.eqb_neq in Hd. cbv zeta.
    set (r := interface_checked (deref subs nh) (reachable (deref subs nh))).
    destruct (Z.land r REACHABLE_ASSUMED =? 0) eqn:Ha; [|reflexivity].
    destruct (Z.land r REACHABLE_DIRECT =? 0) eqn:Hr; [reflexivity|].
    exfalso. apply Hno. exists nh, r.
    apply Z.eqb_eq in Ha. apply Z.eqb_neq in Hr. auto.
  - intros (nh & r & Hnh & Hd & Hr & HrD & HrA).
    rewrite Hnh. rewrite Hstep in Hr by exact Hd. injection Hr as Hr.
    apply Z.eqb_neq in Hd. rewrite Hd. cbv zeta. rewrite Hr, HrA.
    apply Z.eqb_neq in HrD. rewrite HrD. reflexivity.
  - intros b Hb Hbi. rewrite Hb, Hbi.
    rewrite indirect_not_direct by exact laws. reflexivity.
  - intros b i Hb Hbs Hi Hup. rewrite Hb, Hbs.
    assert (Hd : Z.land (Z.lor REACHABLE_DIRECT REACHABLE_UNICAST) REACHABLE_DIRECT
                 = REACHABLE_DIRECT).
    { apply Z.bits_inj'. intros n Hn. rewrite Z.land_spec, Z.lor_spec.
      destruct (Z.testbit REACHABLE_DIRECT n), (Z.testbit REACHABLE_UNICAST n);
        reflexivity. }
    pose proof (direct_not_empty laws) as Hne.
    assert (Hn : (REACHABLE_DIRECT =? 0) = false) by (apply Z.eqb_neq; exact Hne).
    rewrite Hd, Hn. cbv zeta. unfold interface_checked.
    rewrite Hd, Hn, Hi, Hup, Z.eqb_refl. cbn [negb].
    rewrite Hd, Hn. rewrite unicast_not_assumed by exact laws. reflexivity.
Qed.

Lemma serval_flag_laws : flag_laws (H := serval_header).
Proof. split; vm_compute; congruence. Qed.

Lemma serval_indirect_apart : indirect_apart (H := serval_header).
Proof. split; vm_compute; congruence. Qed.

(** Among the stored states only INDIRECT itself includes INDIRECT. *)
Lemma stored_includes_indirect `{Header} (r : Z) :
  indirect_apart → stored_state r → Z.land r REACHABLE_INDIRECT ≠ 0 →
  r = REACHABLE_INDIRECT.
Proof.
  intros apart Hstored Hinc.
  destruct Hstored as [->|[->|[->|[->|[->|[->| ->]]]]]]; try reflexivity;
    exfalso; apply Hinc;
    rewrite ?Z.land_lor_distr_l,
      ?(none_not_indirect apart), ?(self_not_indirect apart),
      ?(unicast_not_indirect apart), ?(broadcast_not_indirect apart),
      ?(assumed_not_indirect apart); reflexivity.
Qed.

(** C5.  For a subscriber whose stored [reachable] includes INDIRECT (the
    stored state being one of those the program stores, as [set_reachable]
    names them), [subscriber_is_reachable] returns NONE unless the next hop
    is set, the next hop's stored state has a DIRECT bit, and the next hop
    itself resolves to a state with a DIRECT bit and without ASSUMED; then it
    returns INDIRECT.  So with A stored INDIRECT and its next hop B stored
    INDIRECT as well, A resolves to NONE whatever B's own next hop C is; with
    B stored DIRECT|UNICAST on an interface that is up, A resolves to
    INDIRECT. *)
Theorem resolve_indirect_none_unless_next_hop_direct `{Header} (fuel : nat)
    (subs : list subscriber) (a : nat) :
  flag_laws →
  indirect_apart →
  stored_state (reachable (deref subs a)) →
  Z.land (reachable (deref subs a)) REACHABLE_INDIRECT ≠ 0 →
  let resolve_a := subscriber_is_reachable (S (S fuel)) subs (Some a) in
  (¬ next_hop_usable (S fuel) subs (deref subs a) → resolve_a = Some REACHABLE_NONE)
  ∧ (next_hop_usable (S fuel) subs (deref subs a) → resolve_a = Some REACHABLE_INDIRECT)
  ∧ (∀ b, next_hop (deref subs a) = Some b →
          reachable (deref subs b) = REACHABLE_INDIRECT →
          resolve_a = Some REACHABLE_NONE)
  ∧ (∀ b i, next_hop (deref subs a) = Some b →
            reachable (deref subs b) = Z.lor REACHABLE_DIRECT REACHABLE_UNICAST →
            interface (deref subs b) = Some i →
            state i = INTERFACE_STATE_UP →
            resolve_a = Some REACHABLE_INDIRECT).
Proof.
  intros laws apart Hstored Hinc.
  apply (resolve_stored_indirect fuel subs a laws).
  apply stored_includes_indirect; assumption.
Qed.

Lemma resolve_indirect_none_unless_next_hop_direct_witness :
  subscriber_is_reachable (H := serval_header) 2
    (chain (H := serval_header) 8 8 (Some 1%nat)) (Some 0%nat) = Some 0
  ∧ subscriber_is_reachable (H := serval_header) 2
      (chain (H := serval_header) 8 6 (Some 1%nat)) (Some 0%nat) = Some 8.
Proof.
  assert (Hstored : stored_state (H := serval_header) 8)
    by (right; right; left; reflexivity).
  assert (Hinc : Z.land 8 (REACHABLE_INDIRECT (Header := serval_header)) ≠ 0)
    by (vm_compute; discriminate).
  split.
  - refine (proj1 (proj2 (proj2
      (resolve_indirect_none_unless_next_hop_direct (H := serval_header) 0
         (chain (H := serval_header) 8 8 (Some 1%nat)) 0%nat
         serval_flag_laws serval_indirect_apart Hstored Hinc))) 1%nat eq_refl eq_refl).
  - refine (proj2 (proj2 (proj2
      (resolve_indirect_none_unless_next_hop_direct (H := serval_header) 0
         (chain (H := serval_header) 8 6 (Some 1%nat)) 0%nat
         serval_flag_laws serval_indirect_apart Hstored Hinc)))
      1%nat (Interface 1) eq_refl eq_refl eq_refl eq_refl).
Defined.

(** ** Directory *)

(** C2.  From the empty directory, registering [A = 10 00 ...] and then
    [B = 10 01 ...] (whatever the remaining bytes) gives two distinct
    subscribers; the split moves A down to depth 4, so both end with
    [abbreviate_len = 4]; looking up the single byte [10] finds nothing
    (ambiguous), and looking up the two bytes [10 00] finds A.  Neither
    lookup changes the directory. *)
Theorem split_scenario (tail_a tail_b : list Z) :
  let A := 0x10 :: 0x00 :: tail_a in
  let B := 0x10 :: 0x01 :: tail_b in
  let '(a, d1) := find_subscriber empty_directory A SID_SIZE true in
  let '(b, d2) := find_subscriber d1 B SID_SIZE true in
  a = Some 0%nat ∧ b = Some 1%nat
  ∧ abbreviate_len (deref (subscribers d2) 0) = 4
  ∧ abbreviate_len (deref (subscribers d2) 1) = 4
  ∧ find_subscriber d2 [0x10] 1 false = (None, d2)
  ∧ find_subscriber d2 [0x10; 0x00] 2 false = (Some 0%nat, d2).
Proof.
  cbv zeta. vm_compute. repeat split.
Qed.

Section nibbles.

Lemma get_nibble_range (id_ : list Z) (pos : nat) : 0 <= get_nibble id_ pos < 16.
Proof.
  unfold get_nibble. change 0xF with (Z.ones 4).
  rewrite Z.land_ones by lia. apply Z.mod_pos_bound. lia.
Qed.

Lemma nib_range (id_ : list Z) (pos : nat) : (nib id_ pos < 16)%nat.
Proof. unfold nib. pose proof (get_nibble_range id_ pos). lia. Qed.

Lemma get_nibble_even (id_ : list Z) (j : nat) :
  get_nibble id_ (2 * j) = Z.land (Z.shiftr (byte_at id_ j) 4) 0xF.
Proof.
  unfold get_nibble. rewrite Nat.div2_double.
  rewrite Nat.odd_mul, Nat.odd_2. reflexivity.
Qed.

Lemma get_nibble_odd (id_ : list Z) (j : nat) :
  get_nibble id_ (2 * j + 1) = Z.land (byte_at id_ j) 0xF.
Proof.
  unfold get_nibble. replace (2 * j + 1)%nat with (S (2 * j)) by lia.
  rewrite Nat.div2_succ_double.
  rewrite Nat.odd_succ, Nat.even_mul, Nat.even_2. reflexivity.
Qed.

(** A byte is made of its two nibbles. *)
Lemma byte_of_nibbles (b : Z) :
  0 <= b < 256 → b = 16 * Z.land (Z.shiftr b 4) 0xF + Z.land b 0xF.
Proof.
  intros Hb. change 0xF with (Z.ones 4). rewrite !Z.land_ones by lia.
  rewrite Z.shiftr_div_pow2 by lia. change (2 ^ 4) with 16.
  rewrite (Z.mod_small (b / 16)) by (split; [apply Z.div_pos; lia|
                                            apply Z.div_lt_upper_bound; lia]).
  apply Z.div_mod. lia.
Qed.

(** The nibble at [pos] only depends on the byte at [pos/2]. *)
Lemma get_nibble_ext (a b : list Z) (pos : nat) :
  byte_at a (Nat.div2 pos) = byte_at b (Nat.div2 pos) →
  get_nibble a pos = get_nibble b pos.
Proof. unfold get_nibble. intros ->. reflexivity. Qed.

Lemma byte_at_take (a : list Z) (n j : nat) :
  (j < n)%nat → byte_at (take n a) j = byte_at a j.
Proof.
  intros Hj. unfold byte_at. rewrite !nth_lookup.
  rewrite lookup_take_lt by exact Hj. reflexivity.
Qed.

Lemma get_nibble_take (a : list Z) (n pos : nat) :
  (pos < 2 * n)%nat → get_nibble (take n a) pos = get_nibble a pos.
Proof.
  intros Hpos. apply get_nibble_ext, byte_at_take.
  pose proof (Nat.div2_decr pos (2 * n - 1)).
  rewrite Nat.div2_div. apply Nat.Div0.div_lt_upper_bound. lia.
Qed.

(** Bytes that agree give nibbles that agree. *)
Lemma take_eq_get_nibble (a b : list Z) (n pos : nat) :
  take n a = take n b → (pos < 2 * n)%nat → get_nibble a pos = get_nibble b pos.
Proof.
  intros Heq Hpos.
  rewrite <- (get_nibble_take a n pos), <- (get_nibble_take b n pos) by exact Hpos.
  rewrite Heq. reflexivity.
Qed.

(** Identifiers whose 64 nibbles agree are equal. *)
Lemma sid_eq_of_nibbles (a b : list Z) :
  is_sid a → is_sid b →
  (∀ pos, (pos < 64)%nat → get_nibble a pos = get_nibble b pos) → a = b.
Proof.
  intros [Hla Hra] [Hlb Hrb] Hnib.
  apply list_eq_same_length with (n := SID_SIZE); [exact Hlb|exact Hla|].
  intros j x y Hj Hx Hy.
  pose proof (Hnib (2 * j)%nat ltac:(unfold SID_SIZE in Hj; lia)) as He.
  pose proof (Hnib (2 * j + 1)%nat ltac:(unfold SID_SIZE in Hj; lia)) as Ho.
  rewrite !get_nibble_even in He. rewrite !get_nibble_odd in Ho.
  assert (Hax : byte_at a j = x) by (unfold byte_at; rewrite nth_lookup, Hx; reflexivity).
  assert (Hby : byte_at b j = y) by (unfold byte_at; rewrite nth_lookup, Hy; reflexivity).
  rewrite Hax, Hby in He, Ho.
  rewrite Forall_lookup in Hra, Hrb.
  rewrite (byte_of_nibbles x (Hra _ _ Hx)), (byte_of_nibbles y (Hrb _ _ Hy)).
  rewrite He, Ho. reflexivity.
Qed.

Lemma nibbles_length (id_ : list Z) (n : nat) : length (nibbles id_ n) = n.
Proof. unfold nibbles. rewrite length_map, length_seq. reflexivity. Qed.

Lemma nibbles_succ (id_ : list Z) (n : nat) :
  nibbles id_ (S n) = nibbles id_ n ++ [nib id_ n].
Proof. unfold nibbles. rewrite seq_S, map_app. reflexivity. Qed.

Lemma nibbles_lookup (id_ : list Z) (n k : nat) :
  (k < n)%nat → nibbles id_ n !! k = Some (nib id_ k).
Proof.
  intros Hk. unfold nibbles. rewrite list_lookup_fmap, lookup_seq_lt by exact Hk.
  reflexivity.
Qed.

Lemma nibbles_take (id_ : list Z) (n m : nat) :
  (m <= n)%nat → take m (nibbles id_ n) = nibbles id_ m.
Proof.
  intros Hm. unfold nibbles. rewrite <- fmap_take, take_seq.
  rewrite Nat.min_l by exact Hm. reflexivity.
Qed.

End nibbles.

Section tree_shape.

Lemma slot_at_of_lookup (node : tree_node) (i : nat) (s : slot tree_node) :
  slots node !! i = Some s → slot_at node i = s.
Proof. unfold slot_at. intros ->. reflexivity. Qed.

Lemma lookup_of_slot_at (node : tree_node) (i : nat) (s : slot tree_node) :
  slot_at node i = s → s ≠ SlotEmpty → slots node !! i = Some s.
Proof.
  unfold slot_at. destruct (slots node !! i) as [t|]; cbn; congruence.
Qed.

Lemma set_slot_same (node : tree_node) (i : nat) (s : slot tree_node) :
  slots node !! i = Some s → set_slot node i s = node.
Proof.
  intros Hs. unfold set_slot. rewrite list_insert_id by exact Hs.
  destruct node. reflexivity.
Qed.

Lemma slot_path_nonempty (node : tree_node) (path : list nat) (s : slot tree_node) :
  slot_path node path s → path ≠ [].
Proof. destruct 1; discriminate. Qed.

Lemma slot_path_zero_node (path : list nat) (s : slot tree_node) :
  slot_path zero_tree_node path s → s = SlotEmpty.
Proof.
  inversion 1 as [node i s' Hi|node i c path' s' Hi Hp]; subst;
    unfold zero_tree_node in Hi; cbn [slots] in Hi;
    apply lookup_replicate in Hi as [Hi _]; congruence.
Qed.

(** Paths into a node whose slot [i] was overwritten. *)
Lemma slot_path_set_slot_inv (node : tree_node) (i : nat) (s : slot tree_node)
    (path : list nat) (t : slot tree_node) :
  (i < length (slots node))%nat →
  slot_path (set_slot node i s) path t →
  (∃ j rest, path = j :: rest ∧ j ≠ i ∧ slot_path node path t)
  ∨ (path = [i] ∧ t = s)
  ∨ (∃ child rest, s = SlotTree child ∧ path = i :: rest ∧ slot_path child rest t).
Proof.
  intros Hi Hp.
  inversion Hp as [n j t' Hj|n j c rest t' Hj Hrest]; subst; cbn in Hj.
  - destruct (decide (i = j)) as [->|Hne].
    + rewrite list_lookup_insert_eq in Hj by exact Hi. right. left. split; congruence.
    + rewrite list_lookup_insert_ne in Hj by exact Hne.
      left. exists j, []. split; [reflexivity|]. split; [congruence|].
      constructor. exact Hj.
  - destruct (decide (i = j)) as [->|Hne].
    + rewrite list_lookup_insert_eq in Hj by exact Hi.
      right. right. exists c, rest. split; [congruence|]. split; [reflexivity|exact Hrest].
    + rewrite list_lookup_insert_ne in Hj by exact Hne.
      left. exists j, rest. split; [reflexivity|]. split; [congruence|].
      eapply slot_path_below; eassumption.
Qed.

Lemma slot_path_set_slot_here (node : tree_node) (i : nat) (s : slot tree_node) :
  (i < length (slots node))%nat → slot_path (set_slot node i s) [i] s.
Proof. intros Hi. constructor. cbn. apply list_lookup_insert_eq, Hi. Qed.

Lemma slot_path_set_slot_below (node : tree_node) (i : nat) (child : tree_node)
    (path : list nat) (t : slot tree_node) :
  (i < length (slots node))%nat →
  slot_path child path t →
  slot_path (set_slot node i (SlotTree child)) (i :: path) t.
Proof.
  intros Hi Hp. eapply slot_path_below; [|exact Hp].
  cbn. apply list_lookup_insert_eq, Hi.
Qed.

Lemma slot_path_set_slot_other (node : tree_node) (i : nat) (s : slot tree_node)
    (j : nat) (rest : list nat) (t : slot tree_node) :
  j ≠ i →
  slot_path node (j :: rest) t →
  slot_path (set_slot node i s) (j :: rest) t.
Proof.
  intros Hne Hp.
  inversion Hp as [n j' t' Hj|n j' c rest' t' Hj Hrest]; subst.
  - constructor. cbn. rewrite list_lookup_insert_ne by congruence. exact Hj.
  - eapply slot_path_below; [|exact Hrest].
    cbn. rewrite list_lookup_insert_ne by congruence. exact Hj.
Qed.

Lemma slot_path_cons_inv (node : tree_node) (i : nat) (rest : list nat)
    (s : slot tree_node) :
  slot_path node (i :: rest) s →
  (rest = [] ∧ slots node !! i = Some s)
  ∨ (∃ child, slots node !! i = Some (SlotTree child) ∧ slot_path child rest s).
Proof.
  inversion 1 as [n j t Hj|n j c rest' t Hj Hrest]; subst; [left|right]; eauto.
Qed.

(** A path names one slot. *)
Lemma slot_path_functional (node : tree_node) (path : list nat) (s t : slot tree_node) :
  slot_path node path s → slot_path node path t → s = t.
Proof.
  intros Hs. revert t. induction Hs as [node i s Hi|node i c path s Hi Hs IH]; intros t Ht.
  - inversion Ht as [n j t' Hj|n j c rest t' Hj Hrest]; subst; [congruence|].
    exfalso. eapply slot_path_nonempty; [exact Hrest|reflexivity].
  - inversion Ht as [n j t' Hj|n j c' rest t' Hj Hrest]; subst.
    + exfalso. eapply slot_path_nonempty; [exact Hs|reflexivity].
    + apply IH. congruence.
Qed.

(** Nothing lies below a leaf. *)
Lemma leaf_path_not_extended (node : tree_node) (path more_ : list nat) (p : nat)
    (t : slot tree_node) :
  leaf_at node path p → slot_path node (path ++ more_) t → more_ = [].
Proof.
  unfold leaf_at. intros Hp. revert more_ t.
  remember (SlotSubscriber p) as s eqn:Es.
  induction Hp as [node i s Hi|node i c path s Hi Hs IH]; intros more_ t Ht; subst s.
  - cbn in Ht. inversion Ht as [n j t' Hj|n j c rest t' Hj Hrest]; subst;
      [reflexivity|congruence].
  - cbn in Ht. inversion Ht as [n j t' Hj|n j c' rest t' Hj Hrest]; subst.
    + exfalso.
      match goal with
      | E : _ ++ _ = [] |- _ => apply app_eq_nil in E as [-> _]
      | E : [] = _ ++ _ |- _ => symmetry in E; apply app_eq_nil in E as [-> _]
      end.
      eapply slot_path_nonempty; [exact Hs|reflexivity].
    + eapply IH; [reflexivity|]. replace c with c' by congruence. exact Hrest.
Qed.

End tree_shape.

Section arena.

Lemma deref_lookup (subs : list subscriber) (p : nat) (s : subscriber) :
  subs !! p = Some s → deref subs p = s.
Proof. unfold deref. intros ->. reflexivity. Qed.

Lemma arena_ok_deref (subs : list subscriber) (p : nat) :
  arena_ok subs → (p < length subs)%nat →
  is_sid (sid (deref subs p)) ∧ 0 <= abbreviate_len (deref subs p).
Proof.
  intros Hok Hp. destruct (lookup_lt_is_Some_2 subs p Hp) as [s Hs].
  rewrite (deref_lookup _ _ _ Hs).
  unfold arena_ok in Hok. rewrite Forall_lookup in Hok. exact (Hok _ _ Hs).
Qed.

Lemma sids_preserved_refl (subs : list subscriber) : sids_preserved subs subs.
Proof. split; auto. Qed.

Lemma sids_preserved_trans (a b c : list subscriber) :
  sids_preserved a b → sids_preserved b c → sids_preserved a c.
Proof.
  intros [Hab Hsab] [Hbc Hsbc]. split; [lia|].
  intros p Hp. rewrite Hsbc by lia. apply Hsab, Hp.
Qed.

Lemma sids_preserved_app (subs : list subscriber) (s : subscriber) :
  sids_preserved subs (subs ++ [s]).
Proof.
  split; [rewrite length_app; lia|].
  intros p Hp. unfold deref. rewrite lookup_app_l by exact Hp. reflexivity.
Qed.

Lemma deref_alter (f : subscriber → subscriber) (subs : list subscriber) (p q : nat) :
  (q < length subs)%nat →
  deref (alter f q subs) p = if decide (q = p) then f (deref subs p) else deref subs p.
Proof.
  intros Hq. unfold deref. rewrite list_lookup_alter.
  destruct (decide (q = p)) as [->|Hne]; [|reflexivity].
  destruct (lookup_lt_is_Some_2 subs p Hq) as [s ->]. reflexivity.
Qed.

Lemma sids_preserved_alter (f : subscriber → subscriber) (subs : list subscriber)
    (q : nat) :
  (∀ s, sid (f s) = sid s) → sids_preserved subs (alter f q subs).
Proof.
  intros Hf. split; [rewrite length_alter; lia|].
  intros p Hp. unfold deref. rewrite list_lookup_alter.
  destruct (decide (q = p)) as [->|Hne]; [|reflexivity].
  destruct (subs !! p); cbn; [apply Hf|reflexivity].
Qed.

Lemma arena_ok_alter (f : subscriber → subscriber) (subs : list subscriber) (q : nat) :
  (∀ s, is_sid (sid s) ∧ 0 <= abbreviate_len s →
        is_sid (sid (f s)) ∧ 0 <= abbreviate_len (f s)) →
  arena_ok subs → arena_ok (alter f q subs).
Proof.
  intros Hf Hok. unfold arena_ok in *. rewrite Forall_lookup in *.
  intros i s Hs. rewrite list_lookup_alter in Hs.
  destruct (decide (q = i)) as [->|Hne]; [|exact (Hok _ _ Hs)].
  destruct (subs !! i) as [s0|] eqn:Hs0; [|discriminate].
  cbn in Hs. injection Hs as <-. apply Hf, (Hok _ _ Hs0).
Qed.

Lemma arena_ok_app (subs : list subscriber) (s : subscriber) :
  arena_ok subs → is_sid (sid s) → 0 <= abbreviate_len s → arena_ok (subs ++ [s]).
Proof.
  intros Hok Hs Ha. apply Forall_app. split; [exact Hok|].
  constructor; [split; assumption|constructor].
Qed.

Lemma take_sid (id_ : list Z) : is_sid id_ → take SID_SIZE id_ = id_.
Proof. intros [Hlen _]. rewrite <- Hlen. apply firstn_all. Qed.

Lemma memcmp_eq_sid (a b : list Z) :
  is_sid a → is_sid b → memcmp_eq a b SID_SIZE = true → a = b.
Proof.
  intros Ha Hb Heq. unfold memcmp_eq in Heq. apply bool_decide_eq_true in Heq.
  rewrite !take_sid in Heq by assumption. exact Heq.
Qed.

Lemma memcmp_eq_refl (a : list Z) (n : nat) : memcmp_eq a a n = true.
Proof. unfold memcmp_eq. apply bool_decide_eq_true. reflexivity. Qed.

End arena.

Section well_formed.

Lemma wf_node_zero (subs : list subscriber) (prefix : list nat) :
  wf_node subs prefix zero_tree_node.
Proof.
  split; [reflexivity|]. split.
  - intros path child Hp. apply slot_path_zero_node in Hp. discriminate.
  - intros path p Hp. apply slot_path_zero_node in Hp. discriminate.
Qed.

Lemma wf_node_child (subs : list subscriber) (prefix : list nat)
    (node child : tree_node) (i : nat) :
  wf_node subs prefix node →
  slots node !! i = Some (SlotTree child) →
  wf_node subs (prefix ++ [i]) child.
Proof.
  intros (Hlen & Hnodes & Hleaves) Hi. split; [|split].
  - apply (Hnodes [i] child). constructor. exact Hi.
  - intros path c Hp. apply (Hnodes (i :: path)).
    eapply slot_path_below; eassumption.
  - intros path p Hp.
    destruct (Hleaves (i :: path) p) as (Hlt & Hnib & Hdepth).
    { eapply slot_path_below; eassumption. }
    rewrite length_app, <- app_assoc. cbn [length app] in *.
    replace (length prefix + 1 + length path)%nat
      with (length prefix + S (length path))%nat by lia.
    auto.
Qed.

Lemma wf_node_mono (subs subs' : list subscriber) (prefix : list nat)
    (node : tree_node) :
  wf_node subs prefix node → sids_preserved subs subs' → wf_node subs' prefix node.
Proof.
  intros (Hlen & Hnodes & Hleaves) [Hle Hsid]. split; [exact Hlen|]. split; [exact Hnodes|].
  intros path p Hp. destruct (Hleaves path p Hp) as (Hlt & Hnib & Hdepth).
  split; [lia|]. rewrite Hsid by exact Hlt. auto.
Qed.

Lemma wf_node_set_tree (subs : list subscriber) (prefix : list nat)
    (node child : tree_node) (i : nat) :
  wf_node subs prefix node →
  wf_node subs (prefix ++ [i]) child →
  (∃ path p, leaf_at child path p) →
  wf_node subs prefix (set_slot node i (SlotTree child)).
Proof.
  intros (Hlen & Hnodes & Hleaves) (Hclen & Hcnodes & Hcleaves) Hsome.
  destruct (decide (i < length (slots node))%nat) as [Hi|Hi].
  2:{ unfold set_slot. rewrite list_insert_ge by lia.
      destruct node. split; [|split]; assumption. }
  split; [cbn; rewrite length_insert; exact Hlen|]. split.
  - intros path c Hp.
    apply slot_path_set_slot_inv in Hp
      as [(j & rest & -> & Hne & Hp)|[[-> Hc]|(c' & rest & Hc & -> & Hp)]];
      [eapply Hnodes; exact Hp| | |exact Hi].
    + injection Hc as ->. split; [exact Hclen|exact Hsome].
    + injection Hc as <-. eapply Hcnodes. exact Hp.
  - intros path p Hp.
    apply slot_path_set_slot_inv in Hp
      as [(j & rest & -> & Hne & Hp)|[[-> Hc]|(c' & rest & Hc & -> & Hp)]];
      [apply Hleaves; exact Hp|discriminate| |exact Hi].
    injection Hc as <-.
    destruct (Hcleaves rest p Hp) as (Hlt & Hnib & Hdepth).
    rewrite length_app, <- app_assoc in *. cbn [length app] in *.
    replace (length prefix + S (length rest))%nat
      with (length prefix + 1 + length rest)%nat by lia.
    auto.
Qed.

Lemma wf_node_set_leaf (subs : list subscriber) (prefix : list nat)
    (node : tree_node) (i p : nat) :
  wf_node subs prefix node →
  (p < length subs)%nat →
  nibbles (sid (deref subs p)) (S (length prefix)) = prefix ++ [i] →
  (length prefix < 64)%nat →
  wf_node subs prefix (set_slot node i (SlotSubscriber p)).
Proof.
  intros (Hlen & Hnodes & Hleaves) Hp Hnib Hdepth.
  destruct (decide (i < length (slots node))%nat) as [Hi|Hi].
  2:{ unfold set_slot. rewrite list_insert_ge by lia.
      destruct node. split; [|split]; assumption. }
  split; [cbn; rewrite length_insert; exact Hlen|]. split.
  - intros path c Hc.
    apply slot_path_set_slot_inv in Hc
      as [(j & rest & -> & Hne & Hc)|[[-> Hc]|(c' & rest & Hc & -> & _)]];
      [eapply Hnodes; exact Hc|discriminate|discriminate|exact Hi].
  - intros path q Hq.
    apply slot_path_set_slot_inv in Hq
      as [(j & rest & -> & Hne & Hq)|[[-> Hq]|(c' & rest & Hq & -> & _)]];
      [apply Hleaves; exact Hq| |discriminate|exact Hi].
    injection Hq as ->. cbn [length].
    replace (length prefix + 1)%nat with (S (length prefix)) by lia.
    split; [exact Hp|]. split; [exact Hnib|lia].
Qed.

End well_formed.

Section lookup.

(** One turn of the loop. *)
Lemma find_subscriber_loop_turn (more : nat) (sid_ : list Z) (len : nat)
    (create : bool) (ptr : tree_node) (pos : nat) (subs : list subscriber) :
  find_subscriber_loop more sid_ len create ptr pos subs
  = match slot_at ptr (nib sid_ pos) with
    | SlotTree child =>
        match more with
        | O => (None, ptr, subs)
        | S more' =>
            let '(ret, child', subs') :=
              find_subscriber_loop more' sid_ len create child (S pos) subs in
            (ret, set_slot ptr (nib sid_ pos) (SlotTree child'), subs')
        end
    | SlotEmpty =>
        if create then
          (Some (length subs),
           set_slot ptr (nib sid_ pos) (SlotSubscriber (length subs)),
           subs ++ [Subscriber (take SID_SIZE sid_) (Z.of_nat (S pos)) 0 None None false])
        else (None, ptr, subs)
    | SlotSubscriber ret =>
        if memcmp_eq (sid (deref subs ret)) sid_ len then (Some ret, ptr, subs)
        else if negb create then (None, ptr, subs)
        else
          let new := set_slot zero_tree_node (nib (sid (deref subs ret)) (S pos))
                              (SlotSubscriber ret) in
          let subs := alter (set_abbreviate_len (Z.of_nat (S pos) + 1)) ret subs in
          match more with
          | O => (None, set_slot ptr (nib sid_ pos) (SlotTree new), subs)
          | S more' =>
              let '(ret', new', subs') :=
                find_subscriber_loop more' sid_ len create new (S pos) subs in
              (ret', set_slot ptr (nib sid_ pos) (SlotTree new'), subs')
          end
    end.
Proof. destruct more; reflexivity. Qed.

(** A lookup whose key leads to a leaf that matches it returns that leaf and
    changes nothing. *)
Lemma find_subscriber_loop_hit (path : list nat) :
  ∀ (node : tree_node) (pos more : nat) (key : list Z) (len : nat) (create : bool)
    (subs : list subscriber) (p : nat),
    leaf_at node path p →
    (∀ k, (k < length path)%nat → path !! k = Some (nib key (pos + k))) →
    memcmp_eq (sid (deref subs p)) key len = true →
    (length path <= S more)%nat →
    find_subscriber_loop more key len create node pos subs = (Some p, node, subs).
Proof.
  induction path as [|i rest IH]; intros node pos more key len create subs p Hleaf Hkey Hcmp Hmore.
  { exfalso. eapply slot_path_nonempty; [exact Hleaf|reflexivity]. }
  assert (Hi : nib key pos = i).
  { specialize (Hkey 0%nat ltac:(cbn; lia)). cbn in Hkey.
    rewrite Nat.add_0_r in Hkey. congruence. }
  rewrite find_subscriber_loop_turn, Hi.
  inversion Hleaf as [n j s Hj|n j child rest' s Hj Hrest]; subst.
  - rewrite (slot_at_of_lookup _ _ _ Hj), Hcmp. reflexivity.
  - rewrite (slot_at_of_lookup _ _ _ Hj).
    pose proof (slot_path_nonempty _ _ _ Hrest) as Hne.
    destruct more as [|more']; [destruct rest; [congruence|cbn in Hmore; lia]|].
    rewrite (IH child (S pos) more' key len create subs p); [| | |exact Hcmp|].
    + rewrite (set_slot_same _ _ _ Hj). reflexivity.
    + exact Hrest.
    + intros k Hk. specialize (Hkey (S k) ltac:(cbn; lia)). cbn in Hkey.
      rewrite <- Nat.add_succ_comm in Hkey. exact Hkey.
    + cbn in Hmore. lia.
Qed.

(** A lookup whose key ends while it still follows the path to a deeper leaf
    returns nothing and changes nothing. *)
Lemma find_subscriber_loop_short (more : nat) :
  ∀ (path : list nat) (node : tree_node) (pos : nat) (key : list Z) (len : nat)
    (create : bool) (subs : list subscriber) (s : slot tree_node),
    slot_path node path s →
    (S more < length path)%nat →
    (∀ k, (k <= more)%nat → path !! k = Some (nib key (pos + k))) →
    find_subscriber_loop more key len create node pos subs = (None, node, subs).
Proof.
  induction more as [|more' IH]; intros path node pos key len create subs s Hp Hlen Hkey.
  - pose proof (Hkey 0%nat ltac:(lia)) as H0. rewrite Nat.add_0_r in H0.
    inversion Hp as [n j t Hj|n j child rest t Hj Hrest]; subst; [cbn in Hlen; lia|].
    cbn in H0. injection H0 as H0.
    rewrite find_subscriber_loop_turn, <- H0, (slot_at_of_lookup _ _ _ Hj).
    reflexivity.
  - pose proof (Hkey 0%nat ltac:(lia)) as H0. rewrite Nat.add_0_r in H0.
    inversion Hp as [n j t Hj|n j child rest t Hj Hrest]; subst; [cbn in Hlen; lia|].
    cbn in H0. injection H0 as H0.
    rewrite find_subscriber_loop_turn, <- H0, (slot_at_of_lookup _ _ _ Hj).
    rewrite (IH rest child (S pos) key len create subs s Hrest).
    + rewrite (set_slot_same _ _ _ Hj). reflexivity.
    + cbn in Hlen. lia.
    + intros k Hk. specialize (Hkey (S k) ltac:(lia)). cbn in Hkey.
      rewrite <- Nat.add_succ_comm in Hkey. exact Hkey.
Qed.

End lookup.

Section insertion.

(** A leaf on the path of an identifier that it does not match cannot sit at
    depth 64: the two identifiers would agree on all their nibbles. *)
Lemma mismatch_above_bottom (subs : list subscriber) (id_ : list Z) (ret pos : nat) :
  is_sid id_ →
  is_sid (sid (deref subs ret)) →
  nibbles (sid (deref subs ret)) (S pos) = nibbles id_ (S pos) →
  memcmp_eq (sid (deref subs ret)) id_ SID_SIZE = false →
  (pos < 64)%nat →
  (pos < 63)%nat.
Proof.
  intros Hid Hret Hnib Hcmp Hpos.
  destruct (decide (pos < 63)%nat) as [|Hge]; [assumption|exfalso].
  assert (pos = 63%nat) as -> by lia.
  assert (Heq : sid (deref subs ret) = id_).
  { apply sid_eq_of_nibbles; [assumption..|]. intros k Hk.
    pose proof (f_equal (λ l, l !! k) Hnib) as Hk'. cbn beta in Hk'.
    rewrite !nibbles_lookup in Hk' by lia. injection Hk' as Hk'.
    unfold nib in Hk'.
    pose proof (get_nibble_range (sid (deref subs ret)) k).
    pose proof (get_nibble_range id_ k). lia. }
  rewrite Heq, memcmp_eq_refl in Hcmp. discriminate.
Qed.

(** The identifier is not known and its slot is free: it is stored there. *)
Lemma register_in_empty_slot (id_ : list Z) (node : tree_node) (pos : nat)
    (subs : list subscriber) (prefix : list nat) :
  is_sid id_ →
  arena_ok subs →
  wf_node subs prefix node →
  length prefix = pos →
  nibbles id_ pos = prefix →
  (pos < 64)%nat →
  slot_at node (nib id_ pos) = SlotEmpty →
  registered id_ prefix node subs (Some (length subs))
    (set_slot node (nib id_ pos) (SlotSubscriber (length subs)))
    (subs ++ [Subscriber (take SID_SIZE id_) (Z.of_nat (S pos)) 0 None None false]).
Proof.
  intros Hid Hok Hwf Hlen Hpre Hpos Hslot.
  pose proof (nib_range id_ pos) as Hnib.
  pose proof Hwf as (Hslots & _ & Hleaves).
  set (fresh := Subscriber (take SID_SIZE id_) (Z.of_nat (S pos)) 0 None None false).
  pose proof (sids_preserved_app subs fresh) as Hpres.
  assert (Hnew : deref (subs ++ [fresh]) (length subs)
                 = Subscriber id_ (Z.of_nat (S pos)) 0 None None false).
  { unfold deref. rewrite lookup_app_r, Nat.sub_diag by lia. subst fresh. cbn.
    rewrite take_sid by exact Hid. reflexivity. }
  split; [apply arena_ok_app; subst fresh; cbn;
          [exact Hok|rewrite take_sid by exact Hid; exact Hid|lia]|].
  split.
  { apply wf_node_set_leaf; [eapply wf_node_mono; eassumption|
      rewrite length_app; cbn; lia| |lia].
    rewrite Hnew. cbn [sid]. rewrite Hlen, nibbles_succ, Hpre. reflexivity. }
  split; [exact Hpres|]. split.
  { exists (length subs), [nib id_ pos]. split; [reflexivity|]. split.
    - apply slot_path_set_slot_here. lia.
    - rewrite Hnew. reflexivity. }
  intros path p Hp. exists path.
  destruct path as [|j rest]; [exfalso; eapply slot_path_nonempty; eauto|].
  apply slot_path_set_slot_other; [|exact Hp].
  intros ->. inversion Hp as [n j t Hj|n j c r t Hj Hr]; subst;
    rewrite (slot_at_of_lookup _ _ _ Hj) in Hslot; discriminate.
Qed.

(** Registering an identifier keeps the tree well formed, keeps every
    subscriber that was in the tree, and returns a leaf that holds the
    identifier. *)
Lemma find_subscriber_loop_create (more : nat) :
  ∀ (id_ : list Z) (node : tree_node) (pos : nat) (subs : list subscriber)
    (prefix : list nat) ret node' subs',
    is_sid id_ →
    arena_ok subs →
    wf_node subs prefix node →
    length prefix = pos →
    nibbles id_ pos = prefix →
    (pos + more = 63)%nat →
    find_subscriber_loop more id_ SID_SIZE true node pos subs = (ret, node', subs') →
    registered id_ prefix node subs ret node' subs'.
Proof.
  induction more as [|more' IH];
    intros id_ node pos subs prefix ret node' subs' Hid Hok Hwf Hlen Hpre Hsum Hrun;
    rewrite find_subscriber_loop_turn in Hrun;
    pose proof (nib_range id_ pos) as Hnib;
    pose proof Hwf as (Hslots & Hnodes & Hleaves);
    destruct (slot_at node (nib id_ pos)) as [|q|child] eqn:Hslot.
  1, 4: injection Hrun as <- <- <-; apply register_in_empty_slot; auto; lia.
  1, 3: apply lookup_of_slot_at in Hslot; [|discriminate];
        assert (Hq : leaf_at node [nib id_ pos] q) by (constructor; exact Hslot);
        destruct (Hleaves _ _ Hq) as (Hqlt & Hqnib & Hqdepth);
        destruct (arena_ok_deref _ _ Hok Hqlt) as [Hqsid Hqlen];
        cbn [length] in Hqnib;
        replace (length prefix + 1)%nat with (S pos) in Hqnib by lia;
        assert (Hsame : nibbles (sid (deref subs q)) (S pos) = nibbles id_ (S pos))
          by (rewrite Hqnib, nibbles_succ, Hpre; reflexivity);
        destruct (memcmp_eq (sid (deref subs q)) id_ SID_SIZE) eqn:Hcmp;
        [injection Hrun as <- <- <-;
         split; [exact Hok|]; split; [exact Hwf|]; split; [apply sids_preserved_refl|];
         split; [|intros path p Hp; exists path; exact Hp];
         exists q, [nib id_ pos]; split; [reflexivity|]; split; [exact Hq|];
         apply memcmp_eq_sid; assumption
        |pose proof (mismatch_above_bottom subs id_ q pos Hid Hqsid Hsame Hcmp
                       ltac:(lia)) as Hdeep].
  3, 4: apply lookup_of_slot_at in Hslot; [|discriminate];
        destruct (Hnodes [nib id_ pos] child ltac:(constructor; exact Hslot))
          as (_ & path0 & p0 & Hp0);
        pose proof (slot_path_nonempty _ _ _ Hp0) as Hne0;
        destruct (Hleaves (nib id_ pos :: path0) p0
                    ltac:(eapply slot_path_below; eassumption)) as (_ & _ & Hdeep);
        cbn [length] in Hdeep;
        assert (length path0 <> 0)%nat by (destruct path0; [congruence|discriminate]).
  all: try lia.
  - (* mismatch: split, then go on in the new node *)
    cbn [negb] in Hrun. cbv zeta in Hrun.
    set (new := set_slot zero_tree_node (nib (sid (deref subs q)) (S pos))
                         (SlotSubscriber q)) in *.
    set (subs1 := alter (set_abbreviate_len (Z.of_nat (S pos) + 1)) q subs) in *.
    destruct (find_subscriber_loop more' id_ SID_SIZE true new (S pos) subs1)
      as [[r n'] s'] eqn:Hrec.
    injection Hrun as <- <- <-.
    assert (Hpres1 : sids_preserved subs subs1)
      by (apply sids_preserved_alter; reflexivity).
    assert (Hok1 : arena_ok subs1).
    { apply arena_ok_alter; [|exact Hok]. intros s [Hs Ha]. cbn. split; [exact Hs|lia]. }
    assert (Hwfnew : wf_node subs1 (prefix ++ [nib id_ pos]) new).
    { apply wf_node_set_leaf; [apply wf_node_zero| | |].
      - subst subs1. rewrite length_alter. exact Hqlt.
      - destruct Hpres1 as [_ Hs1]. rewrite Hs1 by exact Hqlt.
        rewrite length_app. cbn [length].
        replace (length prefix + 1)%nat with (S pos) by lia.
        rewrite (nibbles_succ _ (S pos)), Hqnib. reflexivity.
      - rewrite length_app. cbn [length]. lia. }
    destruct (IH id_ new (S pos) subs1 (prefix ++ [nib id_ pos]) r n' s' Hid Hok1 Hwfnew)
      as (Hok' & Hwf' & Hpres' & (q' & path' & -> & Hleaf' & Hsid') & Hold'); auto.
    { rewrite length_app. cbn [length]. lia. }
    { rewrite nibbles_succ, Hpre. reflexivity. }
    { lia. }
    assert (Hpres : sids_preserved subs s') by (eapply sids_preserved_trans; eassumption).
    split; [exact Hok'|]. split.
    { apply wf_node_set_tree; [eapply wf_node_mono; eassumption|exact Hwf'|eauto]. }
    split; [exact Hpres|]. split.
    { exists q', (nib id_ pos :: path'). split; [reflexivity|]. split; [|exact Hsid'].
      apply slot_path_set_slot_below; [lia|exact Hleaf']. }
    intros path p Hp.
    destruct path as [|j rest]; [exfalso; eapply slot_path_nonempty; eauto|].
    destruct (decide (j = nib id_ pos)) as [->|Hne].
    + assert (rest = []) as ->.
      { eapply (leaf_path_not_extended node [nib id_ pos] rest q); [exact Hq|exact Hp]. }
      pose proof (slot_path_functional _ _ _ _ Hp Hq) as Hpq. injection Hpq as ->.
      destruct (Hold' [nib (sid (deref subs q)) (S pos)] q) as [path'' Hq''].
      { apply slot_path_set_slot_here. cbn. pose proof (nib_range (sid (deref subs q)) (S pos)). lia. }
      exists (nib id_ pos :: path''). apply slot_path_set_slot_below; [lia|exact Hq''].
    + exists (j :: rest). apply slot_path_set_slot_other; assumption.
  - (* a child node: go on in it *)
    destruct (find_subscriber_loop more' id_ SID_SIZE true child (S pos) subs)
      as [[r c'] s'] eqn:Hrec.
    injection Hrun as <- <- <-.
    pose proof (wf_node_child _ _ _ _ _ Hwf Hslot) as Hwfc.
    destruct (IH id_ child (S pos) subs (prefix ++ [nib id_ pos]) r c' s' Hid Hok Hwfc)
      as (Hok' & Hwf' & Hpres' & (q' & path' & -> & Hleaf' & Hsid') & Hold'); auto.
    { rewrite length_app. cbn [length]. lia. }
    { rewrite nibbles_succ, Hpre. reflexivity. }
    { lia. }
    split; [exact Hok'|]. split.
    { apply wf_node_set_tree; [eapply wf_node_mono; eassumption|exact Hwf'|eauto]. }
    split; [exact Hpres'|]. split.
    { exists q', (nib id_ pos :: path'). split; [reflexivity|]. split; [|exact Hsid'].
      apply slot_path_set_slot_below; [lia|exact Hleaf']. }
    intros path p Hp.
    destruct path as [|j rest]; [exfalso; eapply slot_path_nonempty; eauto|].
    destruct (decide (j = nib id_ pos)) as [->|Hne].
    + apply slot_path_cons_inv in Hp as [[_ Hj]|(c & Hj & Hrest)]; [congruence|].
      replace c with child in Hrest by congruence.
      destruct (Hold' _ _ Hrest) as [path'' Hp''].
      exists (nib id_ pos :: path''). apply slot_path_set_slot_below; [lia|exact Hp''].
    + exists (j :: rest). apply slot_path_set_slot_other; assumption.
Qed.

End insertion.

Section directory.

Lemma wf_empty_directory : wf_directory empty_directory.
Proof. split; [constructor|apply wf_node_zero]. Qed.

(** Registering a 32-byte identifier in a well-formed directory. *)
Lemma find_subscriber_registers (d d' : directory) (id_ : list Z) (ret : option nat) :
  wf_directory d →
  is_sid id_ →
  find_subscriber d id_ SID_SIZE true = (ret, d') →
  wf_directory d'
  ∧ sids_preserved (subscribers d) (subscribers d')
  ∧ (∃ q, ret = Some q ∧ in_directory d' q ∧ sid (deref (subscribers d') q) = id_)
  ∧ (∀ p, in_directory d p → in_directory d' p).
Proof.
  intros [Hok Hwf] Hid Hrun. unfold find_subscriber in Hrun.
  rewrite Nat.eqb_refl in Hrun. cbn [negb] in Hrun.
  destruct (find_subscriber_loop _ _ _ _ _ _ _) as [[r n'] s'] eqn:Hloop.
  injection Hrun as <- <-.
  destruct (find_subscriber_loop_create _ _ _ _ _ [] _ _ _ Hid Hok Hwf
              eq_refl eq_refl eq_refl Hloop)
    as (Hok' & Hwf' & Hpres & (q & path & -> & Hleaf & Hsid) & Hold).
  split; [split; assumption|]. split; [exact Hpres|]. split.
  - exists q. split; [reflexivity|]. split; [exists path; exact Hleaf|exact Hsid].
  - intros p [path' Hp]. exact (Hold _ _ Hp).
Qed.

Lemma insert_all_cons (d : directory) (id_ : list Z) (ids : list (list Z)) :
  insert_all d (id_ :: ids) = insert_all (snd (find_subscriber d id_ SID_SIZE true)) ids.
Proof. reflexivity. Qed.

(** Registering a list of identifiers keeps what the directory holds. *)
Lemma insert_all_keeps (ids : list (list Z)) :
  ∀ d, wf_directory d →
       Forall is_sid ids →
       wf_directory (insert_all d ids)
       ∧ sids_preserved (subscribers d) (subscribers (insert_all d ids))
       ∧ (∀ p, in_directory d p → in_directory (insert_all d ids) p).
Proof.
  induction ids as [|id_ ids IH]; intros d Hwf Hids.
  - split; [exact Hwf|]. split; [apply sids_preserved_refl|auto].
  - apply Forall_cons in Hids as [Hid Hids]. rewrite insert_all_cons.
    destruct (find_subscriber d id_ SID_SIZE true) as [r d1] eqn:Hrun.
    destruct (find_subscriber_registers _ _ _ _ Hwf Hid Hrun) as (Hwf1 & Hp1 & _ & Hold1).
    destruct (IH d1 Hwf1 Hids) as (Hwf2 & Hp2 & Hold2).
    split; [exact Hwf2|]. split; [eapply sids_preserved_trans; eassumption|].
    intros p Hp. apply Hold2, Hold1, Hp.
Qed.

Lemma in_directory_allocated (d : directory) (p : nat) :
  wf_directory d → in_directory d p → (p < length (subscribers d))%nat.
Proof. intros [_ (_ & _ & Hleaves)] [path Hp]. apply (Hleaves _ _ Hp). Qed.

(** Looking up the full identifier of a subscriber of the directory returns
    that subscriber and leaves the directory as it is. *)
Lemma find_subscriber_present (d : directory) (p : nat) (create : bool) :
  wf_directory d →
  in_directory d p →
  find_subscriber d (sid (deref (subscribers d) p)) SID_SIZE create = (Some p, d).
Proof.
  intros [Hok (_ & _ & Hleaves)] [path Hp].
  destruct (Hleaves _ _ Hp) as (Hlt & Hnib & Hdepth). cbn [length Nat.add app] in *.
  unfold find_subscriber.
  rewrite (find_subscriber_loop_hit path (root d) 0 _ _ SID_SIZE _ (subscribers d) p Hp).
  - destruct d. reflexivity.
  - intros k Hk. rewrite <- Hnib at 1. rewrite nibbles_lookup by exact Hk. reflexivity.
  - apply memcmp_eq_refl.
  - unfold SID_SIZE. lia.
Qed.

Lemma nibbles_ext (a b : list Z) (n : nat) :
  (∀ k, (k < n)%nat → get_nibble a k = get_nibble b k) → nibbles a n = nibbles b n.
Proof.
  intros Hk. unfold nibbles. apply map_ext_in. intros k Hin.
  apply in_seq in Hin. unfold nib. rewrite Hk by lia. reflexivity.
Qed.

(** Two subscribers with different identifiers sit below the nibbles their
    identifiers share. *)
Lemma leaf_below_shared_nibbles (d : directory) (a b : nat) (m : nat)
    (path : list nat) :
  wf_directory d →
  leaf_at (root d) path a →
  in_directory d b →
  sid (deref (subscribers d) a) ≠ sid (deref (subscribers d) b) →
  (∀ k, (k < m)%nat → get_nibble (sid (deref (subscribers d) a)) k
                      = get_nibble (sid (deref (subscribers d) b)) k) →
  (m < length path)%nat.
Proof.
  intros [Hok (_ & _ & Hleaves)] Ha [pathb Hb] Hne Hshare.
  destruct (Hleaves _ _ Ha) as (_ & Hna & _).
  destruct (Hleaves _ _ Hb) as (_ & Hnb & _). cbn [length Nat.add app] in *.
  destruct (decide (m < length path)%nat) as [|Hle]; [assumption|exfalso].
  assert (Hab : nibbles (sid (deref (subscribers d) b)) (length path) = path).
  { etransitivity; [|exact Hna]. symmetry. apply nibbles_ext.
    intros k Hk. apply Hshare. lia. }
  destruct (decide (length path <= length pathb)%nat) as [Hl|Hl].
  - assert (Hpre : pathb = path ++ drop (length path) pathb).
    { rewrite <- Hab at 1. rewrite <- (nibbles_take _ (length pathb)) by exact Hl.
      rewrite Hnb. symmetry. apply take_drop. }
    rewrite Hpre in Hb.
    pose proof (leaf_path_not_extended _ _ _ _ _ Ha Hb) as Hnil.
    rewrite Hnil, app_nil_r in Hb.
    pose proof (slot_path_functional _ _ _ _ Ha Hb) as Heq.
    injection Heq as ->. apply Hne. reflexivity.
  - assert (Hpre : path = pathb ++ drop (length pathb) path).
    { rewrite <- Hnb at 1. rewrite <- (nibbles_take _ (length path)) by lia.
      rewrite Hab. symmetry. apply take_drop. }
    rewrite Hpre in Ha.
    pose proof (leaf_path_not_extended _ _ _ _ _ Hb Ha) as Hnil.
    apply (f_equal length) in Hnil. rewrite length_drop in Hnil. cbn in Hnil. lia.
Qed.

(** A key made of whole bytes that two different subscribers share finds
    nothing, and the lookup leaves the directory as it is. *)
Lemma find_subscriber_shared_prefix (d : directory) (a b : nat) (n : nat)
    (create : bool) :
  wf_directory d →
  in_directory d a →
  in_directory d b →
  sid (deref (subscribers d) a) ≠ sid (deref (subscribers d) b) →
  (1 <= n)%nat →
  take n (sid (deref (subscribers d) a)) = take n (sid (deref (subscribers d) b)) →
  find_subscriber d (take n (sid (deref (subscribers d) a))) n create = (None, d).
Proof.
  intros Hwf [path Ha] Hb Hne Hn Hshare.
  assert (Hdeep : (2 * n < length path)%nat).
  { eapply leaf_below_shared_nibbles; eauto.
    intros k Hk. eapply take_eq_get_nibble; eassumption. }
  destruct Hwf as [Hok (_ & _ & Hleaves)].
  destruct (Hleaves _ _ Ha) as (_ & Hna & _). cbn [length Nat.add app] in Hna.
  unfold find_subscriber.
  rewrite (find_subscriber_loop_short (n * 2 - 1) path (root d) 0 _ n _
             (subscribers d) _ Ha).
  - destruct d. reflexivity.
  - lia.
  - intros k Hk. rewrite <- Hna at 1. rewrite nibbles_lookup by lia.
    unfold nib. rewrite get_nibble_take by lia. reflexivity.
Qed.

End directory.

Section shared_prefix.

Lemma byte_eq_of_nibbles (a b : list Z) (j : nat) (x y : Z) :
  a !! j = Some x → b !! j = Some y →
  0 <= x < 256 → 0 <= y < 256 →
  get_nibble a (2 * j) = get_nibble b (2 * j) →
  get_nibble a (2 * j + 1) = get_nibble b (2 * j + 1) →
  x = y.
Proof.
  intros Hx Hy Hxr Hyr He Ho.
  rewrite !get_nibble_even in He. rewrite !get_nibble_odd in Ho.
  assert (Hax : byte_at a j = x) by (unfold byte_at; rewrite nth_lookup, Hx; reflexivity).
  assert (Hby : byte_at b j = y) by (unfold byte_at; rewrite nth_lookup, Hy; reflexivity).
  rewrite Hax, Hby in He, Ho.
  rewrite (byte_of_nibbles x Hxr), (byte_of_nibbles y Hyr), He, Ho. reflexivity.
Qed.

(** Identifiers that share their first [2n] nibbles share their first [n]
    bytes. *)
Lemma take_eq_of_nibbles (a b : list Z) (n : nat) :
  is_sid a → is_sid b →
  (∀ k, (k < 2 * n)%nat → get_nibble a k = get_nibble b k) →
  take n a = take n b.
Proof.
  intros [Hla Hra] [Hlb Hrb] Hnib. apply list_eq. intros j.
  destruct (decide (j < n)%nat) as [Hj|Hj].
  - rewrite !lookup_take_lt by exact Hj.
    destruct (a !! j) as [x|] eqn:Hx, (b !! j) as [y|] eqn:Hy.
    + f_equal. rewrite Forall_lookup in Hra, Hrb.
      eapply byte_eq_of_nibbles; eauto; apply Hnib; lia.
    + apply lookup_lt_Some in Hx. apply lookup_ge_None in Hy. lia.
    + apply lookup_lt_Some in Hy. apply lookup_ge_None in Hx. lia.
    + reflexivity.
  - rewrite !lookup_take_ge by lia. reflexivity.
Qed.

End shared_prefix.

(** C1, as the code has it.  Take any directory grown from the empty one
    by registering 32-byte identifiers, among them two different identifiers
    A and B (with any registrations before, between and after them).  Then
    looking up A in full returns the subscriber that registering A returned,
    likewise for B, and a lookup of the first ⌈L/2⌉ bytes of A returns
    nothing whenever A and B agree on all the nibbles of these bytes, that
    is on their first 2⌈L/2⌉ nibbles (L at least 1).  No lookup changes the
    directory. *)
Theorem both_found_shared_bytes_ambiguous (before between after : list (list Z))
    (A B : list Z) :
  Forall is_sid before → Forall is_sid between → Forall is_sid after →
  is_sid A → is_sid B → A ≠ B →
  let d1 := insert_all empty_directory before in
  let '(ra, d2) := find_subscriber d1 A SID_SIZE true in
  let d3 := insert_all d2 between in
  let '(rb, d4) := find_subscriber d3 B SID_SIZE true in
  let d := insert_all d4 after in
  ∃ a b : nat,
    ra = Some a ∧ rb = Some b ∧ a ≠ b
    ∧ sid (deref (subscribers d) a) = A
    ∧ sid (deref (subscribers d) b) = B
    ∧ find_subscriber d A SID_SIZE false = (Some a, d)
    ∧ find_subscriber d B SID_SIZE false = (Some b, d)
    ∧ ∀ L : nat,
        (1 <= L)%nat →
        (∀ k, (k < 2 * ((L + 1) / 2))%nat → get_nibble A k = get_nibble B k) →
        find_subscriber d (take ((L + 1) / 2) A) ((L + 1) / 2) false = (None, d).
Proof.
  intros Hbefore Hbetween Hafter HA HB Hne d1.
  destruct (insert_all_keeps before _ wf_empty_directory Hbefore) as (Hwf1 & _ & _).
  fold d1 in Hwf1.
  destruct (find_subscriber d1 A SID_SIZE true) as [ra d2] eqn:HrunA.
  destruct (find_subscriber_registers _ _ _ _ Hwf1 HA HrunA)
    as (Hwf2 & _ & (a & -> & Hin2 & Hsid2) & _).
  intros d3.
  destruct (insert_all_keeps between _ Hwf2 Hbetween) as (Hwf3 & Hpres3 & Hold3).
  fold d3 in Hwf3, Hpres3, Hold3.
  destruct (find_subscriber d3 B SID_SIZE true) as [rb d4] eqn:HrunB.
  destruct (find_subscriber_registers _ _ _ _ Hwf3 HB HrunB)
    as (Hwf4 & Hpres4 & (b & -> & Hin4 & Hsid4) & Hold4).
  intros d.
  destruct (insert_all_keeps after _ Hwf4 Hafter) as (Hwf & Hpres & Hold).
  fold d in Hwf, Hpres, Hold.
  assert (Hina : in_directory d a) by auto.
  assert (Hinb : in_directory d b) by auto.
  assert (HsidA : sid (deref (subscribers d) a) = A).
  { destruct Hpres as [_ Hp], Hpres4 as [_ Hp4], Hpres3 as [_ Hp3].
    rewrite Hp by (apply in_directory_allocated; auto).
    rewrite Hp4 by (apply in_directory_allocated; auto).
    rewrite Hp3 by (apply in_directory_allocated; auto).
    exact Hsid2. }
  assert (HsidB : sid (deref (subscribers d) b) = B).
  { destruct Hpres as [_ Hp].
    rewrite Hp by (apply in_directory_allocated; auto). exact Hsid4. }
  exists a, b. split; [reflexivity|]. split; [reflexivity|].
  split; [intros ->; congruence|].
  split; [exact HsidA|]. split; [exact HsidB|].
  split; [rewrite <- HsidA at 1; apply find_subscriber_present; assumption|].
  split; [rewrite <- HsidB at 1; apply find_subscriber_present; assumption|].
  intros L HL Hshare.
  rewrite <- HsidA at 1.
  apply (find_subscriber_shared_prefix d a b); auto.
  - congruence.
  - change 2%nat with (1 * 2)%nat at 1.
    apply Nat.div_le_lower_bound; lia.
  - rewrite HsidA, HsidB. apply take_eq_of_nibbles; assumption.
Qed.

Lemma is_sid_sid_of (head : list Z) :
  Forall (λ b, 0 <= b < 256) head → is_sid (sid_of head).
Proof.
  intros Hhead. unfold sid_of, is_sid. split.
  - rewrite length_take, length_app, length_replicate. lia.
  - apply Forall_take, Forall_app. split; [exact Hhead|].
    apply Forall_replicate. lia.
Qed.

Lemma both_found_shared_bytes_ambiguous_witness :
  let A := sid_of [0x10; 0x00] in
  let B := sid_of [0x10; 0x10] in
  let d1 := insert_all empty_directory [] in
  let '(ra, d2) := find_subscriber d1 A SID_SIZE true in
  let d3 := insert_all d2 [] in
  let '(rb, d4) := find_subscriber d3 B SID_SIZE true in
  let d := insert_all d4 [] in
  ∃ a b : nat,
    ra = Some a ∧ rb = Some b ∧ a ≠ b
    ∧ sid (deref (subscribers d) a) = A
    ∧ sid (deref (subscribers d) b) = B
    ∧ find_subscriber d A SID_SIZE false = (Some a, d)
    ∧ find_subscriber d B SID_SIZE false = (Some b, d)
    ∧ ∀ L : nat,
        (1 <= L)%nat →
        (∀ k, (k < 2 * ((L + 1) / 2))%nat → get_nibble A k = get_nibble B k) →
        find_subscriber d (take ((L + 1) / 2) A) ((L + 1) / 2) false = (None, d).
Proof.
  apply (both_found_shared_bytes_ambiguous [] [] []
           (sid_of [0x10; 0x00]) (sid_of [0x10; 0x10])).
  - constructor.
  - constructor.
  - constructor.
  - apply is_sid_sid_of. repeat constructor; lia.
  - apply is_sid_sid_of. repeat constructor; lia.
  - vm_compute. discriminate.
Defined.

(** C1 as stated fails for an odd number of shared nibbles.  The
    identifiers 10 00 ... and 11 00 ... share their first nibble (L = 1);
    the first ⌈1/2⌉ = 1 byte of the first one, [10], already tells it from the
    other, and the lookup returns its subscriber, not none. *)
Lemma one_shared_nibble_is_not_ambiguous :
  let A := sid_of [0x10] in
  let B := sid_of [0x11] in
  let d := insert_all empty_directory [A; B] in
  is_sid A ∧ is_sid B ∧ A ≠ B
  ∧ get_nibble A 0 = get_nibble B 0
  ∧ find_subscriber d A SID_SIZE false = (Some 0%nat, d)
  ∧ find_subscriber d B SID_SIZE false = (Some 1%nat, d)
  ∧ find_subscriber d (take 1 A) 1 false = (Some 0%nat, d)
  ∧ fst (find_subscriber d (take 1 A) 1 false) ≠ None.
Proof.
  cbv zeta.
  split; [apply is_sid_sid_of; repeat constructor; lia|].
  split; [apply is_sid_sid_of; repeat constructor; lia|].
  vm_compute. repeat split; discriminate.
Qed.

Section round_trip.
Context `{Header}.

Lemma wf_directory_send_full (d : directory) (p : nat) (v : bool) :
  wf_directory d →
  wf_directory (Directory (root d) (alter (set_send_full v) p (subscribers d))).
Proof.
  intros [Hok Hwf]. split; cbn [subscribers root].
  - apply arena_ok_alter; [|exact Hok]. intros s Hs. exact Hs.
  - eapply wf_node_mono; [exact Hwf|]. apply sids_preserved_alter. reflexivity.
Qed.

Lemma wf_directory_after_append (d : directory) (p : nat) :
  wf_directory d →
  let subs' := if send_full (deref (subscribers d) p)
               then alter (set_send_full false) p (subscribers d)
               else subscribers d in
  wf_directory (Directory (root d) subs')
  ∧ sid (deref subs' p) = sid (deref (subscribers d) p).
Proof.
  intros Hwf subs'. subst subs'. destruct (send_full _).
  - split; [apply wf_directory_send_full, Hwf|].
    unfold deref. rewrite list_lookup_alter_eq.
    destruct (subscribers d !! p); reflexivity.
  - split; [destruct d; exact Hwf|reflexivity].
Qed.

(** Decoding a full identifier that the directory knows. *)
Lemma parse_full_literal (ctx : decode_context) (d : directory) (p : nat)
    (before : list Z) (limit : option nat) (held : option nat) :
  wf_directory d →
  in_directory d p →
  let id_ := sid (deref (subscribers d) p) in
  let data := before ++ 32 :: id_ in
  overlay_address_parse ctx (Buffer data (length before) limit) held d
  = Parsed 0 (set_previous ctx (Some p)) (Buffer data (length data) limit) (Some p) d.
Proof.
  intros Hwf Hin id_ data.
  destruct (arena_ok_deref _ _ (proj1 Hwf) (in_directory_allocated _ _ Hwf Hin))
    as [Hsid _]. fold id_ in Hsid.
  assert (Hlen : length id_ = 32%nat) by apply Hsid.
  unfold overlay_address_parse, ob_get. cbn [bytes position sizeLimit].
  subst data. rewrite list_lookup_middle by reflexivity.
  cbv beta iota zeta.
  change (32 <? 0) with false. change (32 =? OA_CODE_SELF) with false.
  change (32 =? OA_CODE_PREVIOUS) with false. cbv iota.
  unfold find_subscr_buffer. change (32 <=? 0) with false.
  change (32 >? Z.of_nat SID_SIZE) with false. cbn [orb].
  unfold ob_get_bytes_ptr. cbn [bytes position sizeLimit].
  change (Z.to_nat 32) with 32%nat.
  assert (Hroom : (S (length before) + 32 <=? length (before ++ 32%Z :: id_))%nat = true).
  { apply Nat.leb_le. rewrite length_app. cbn [length]. lia. }
  rewrite Hroom.
  assert (Hid : take 32 (drop (S (length before)) (before ++ 32%Z :: id_)) = id_).
  { replace (before ++ 32 :: id_) with ((before ++ [32]) ++ id_)
      by (rewrite <- app_assoc; reflexivity).
    replace (S (length before)) with (length (before ++ [32]))
      by (rewrite length_app; cbn; lia).
    rewrite drop_app_length, <- Hlen. apply firstn_all. }
  rewrite Hid.
  pose proof (find_subscriber_present d p true Hwf Hin) as Hfound.
  fold id_ in Hfound. change SID_SIZE with 32%nat in Hfound. rewrite Hfound.
  f_equal. f_equal. rewrite length_app. cbn [length]. unfold SID_SIZE. lia.
Qed.

End round_trip.

(** C8.  Take a well-formed directory (any directory grown from the empty
    one by registering 32-byte identifiers is, whatever the flags of its
    subscribers) and a subscriber present in it whose encoding carries the
    length byte 32.  Encoding it under an empty context into a buffer with
    room for the 33 bytes succeeds and appends the byte 32 and the whole
    identifier; decoding these bytes under a fresh empty context succeeds and
    resolves to the same subscriber, leaving the directory as it is. *)
Theorem encode_full_then_decode `{Header} (d : directory) (p : nat)
    (b : overlay_buffer) :
  wf_directory d →
  in_directory d p →
  encoded_length (deref (subscribers d) p) = 32 →
  ob_has_room b 33 = true →
  let '(r, _, b', subs') :=
    overlay_address_append (Some zero_context) b (subscribers d) (Some p) in
  let d' := Directory (root d) subs' in
  r = 0
  ∧ bytes b' = bytes b ++ 32 :: sid (deref (subscribers d) p)
  ∧ overlay_address_parse zero_context
      (Buffer (bytes b') (length (bytes b)) (sizeLimit b')) None d'
    = Parsed 0 (set_previous zero_context (Some p))
        (Buffer (bytes b') (length (bytes b')) (sizeLimit b')) (Some p) d'.
Proof.
  intros Hwf Hin Hfull Hroom.
  pose proof (in_directory_allocated _ _ Hwf Hin) as Hlt.
  destruct (arena_ok_deref _ _ (proj1 Hwf) Hlt) as [Hsid Hlen].
  rewrite append_literal_branch; [|reflexivity|reflexivity|rewrite Hfull; lia|].
  2:{ rewrite Hfull. exact Hroom. }
  rewrite Hfull. change (Z.to_nat 32) with SID_SIZE. rewrite take_sid by exact Hsid.
  cbv zeta. destruct (wf_directory_after_append d p Hwf) as [Hwf' Hsid'].
  set (subs' := if send_full (deref (subscribers d) p)
                then alter (set_send_full false) p (subscribers d)
                else subscribers d) in *.
  split; [reflexivity|]. split; [reflexivity|].
  cbn [bytes ob_with sizeLimit]. rewrite <- Hsid'.
  apply (parse_full_literal zero_context (Directory (root d) subs') p
           (bytes b) (sizeLimit b) None Hwf').
  destruct Hin as [path Hp]. exists path. exact Hp.
Qed.

Lemma wf_insert_all (ids : list (list Z)) :
  Forall is_sid ids → wf_directory (insert_all empty_directory ids).
Proof. intros Hids. apply (insert_all_keeps ids _ wf_empty_directory Hids). Qed.

Lemma encode_full_then_decode_witness :
  let d := send_full_directory in
  let '(r, _, b', subs') :=
    overlay_address_append (H := serval_header) (Some zero_context) ob_new
      (subscribers d) (Some 0%nat) in
  let d' := Directory (root d) subs' in
  r = 0
  ∧ bytes b' = bytes ob_new ++ 32 :: sid (deref (subscribers d) 0)
  ∧ overlay_address_parse (H := serval_header) zero_context
      (Buffer (bytes b') (length (bytes ob_new)) (sizeLimit b')) None d'
    = Parsed 0 (set_previous zero_context (Some 0%nat))
        (Buffer (bytes b') (length (bytes b')) (sizeLimit b')) (Some 0%nat) d'.
Proof.
  apply (encode_full_then_decode (H := serval_header) send_full_directory 0%nat ob_new).
  - apply (wf_directory_send_full one_subscriber_directory 0%nat true).
    apply wf_insert_all. constructor; [|constructor].
    apply is_sid_sid_of. repeat constructor; lia.
  - exists [1%nat]. constructor. reflexivity.
  - reflexivity.
  - reflexivity.
Defined.

(** ** Walking the tree *)

Section walking.

(** Induction on a tree node, with the property at hand for every child. *)
Lemma tree_node_children_ind (P : tree_node → Prop) :
  (∀ sl, Forall (λ s, match s with SlotTree child => P child | _ => True end) sl →
         P (TreeNode sl)) →
  ∀ node, P node.
Proof.
  intros Hstep. fix IH 1. intros [sl]. apply Hstep.
  induction sl as [|s sl IHsl]; constructor; [|exact IHsl].
  destruct s as [| |child]; [exact I|exact I|apply IH].
Qed.

Lemma walk_tree_unfold {C : Type} (node : tree_node) (pos : nat)
    (start : option (list Z)) (start_len : nat)
    (end_ : option (list Z)) (end_len : nat)
    (callback : nat → C → bool * C) (context : C) :
  walk_tree node pos start start_len end_ end_len callback context
  = walk_slots
      (λ child start context,
         walk_tree child (S pos) start start_len end_ end_len callback context)
      callback (walk_first pos start start_len) (walk_end pos end_ end_len)
      (slots node) 0%nat start context.
Proof. destruct node. reflexivity. Qed.

Lemma call_in_turn_app {C : Type} (callback : nat → C → bool * C)
    (ps qs : list nat) (context : C) :
  call_in_turn callback (ps ++ qs) context
  = let '(stop, context') := call_in_turn callback ps context in
    if stop then (true, context') else call_in_turn callback qs context'.
Proof.
  revert context. induction ps as [|p ps IH]; intros context; [reflexivity|].
  cbn [app call_in_turn]. destruct (callback p context) as [[|] c']; [reflexivity|].
  apply IH.
Qed.

(** The for-loop with the noting callback only adds to what was noted, and
    the for-loop with any callback hands it the noted subscribers in turn. *)
Lemma walk_slots_in_turn {C : Type} (callback : nat → C → bool * C)
    (walk_child : tree_node → option (list Z) → C → bool * C)
    (note_child : tree_node → option (list Z) → list nat → bool * list nat)
    (i e : nat) (l : list (slot tree_node)) :
  Forall (λ s, ∀ child, s = SlotTree child →
            ∀ start seen context,
              note_child child start seen
              = (false, seen ++ snd (note_child child start []))
              ∧ walk_child child start context
                = call_in_turn callback (snd (note_child child start [])) context) l →
  ∀ j start seen context,
    walk_slots note_child note_subscriber i e l j start seen
    = (false, seen ++ snd (walk_slots note_child note_subscriber i e l j start []))
    ∧ walk_slots walk_child callback i e l j start context
      = call_in_turn callback
          (snd (walk_slots note_child note_subscriber i e l j start [])) context.
Proof.
  induction 1 as [|s l Hs Hl IH]; intros j start seen context.
  { cbn. rewrite app_nil_r. auto. }
  cbn [walk_slots].
  destruct (j <? i)%nat; [apply IH|].
  destruct (negb (j <? e)%nat); [cbn; rewrite app_nil_r; auto|].
  destruct s as [|p|child].
  - apply IH.
  - unfold note_subscriber at 1 3 5. cbn [app].
    destruct (IH (S j) None (seen ++ [p]) context) as [Hseen _].
    destruct (IH (S j) None [p] context) as [Hone _].
    rewrite Hseen, Hone. cbn [snd]. split; [rewrite <- app_assoc; reflexivity|].
    cbn [app call_in_turn]. destruct (callback p context) as [[|] c']; [reflexivity|].
    exact (proj2 (IH (S j) None [] c')).
  - destruct (Hs child eq_refl start seen context) as [Hnote Hwalk].
    destruct (Hs child eq_refl start [] context) as [Hnote0 _].
    cbn [app] in Hnote0.
    set (below := snd (note_child child start [])) in *. clearbody below.
    rewrite Hnote, Hnote0, Hwalk.
    destruct (IH (S j) None (seen ++ below) context) as [Hseen _].
    destruct (IH (S j) None below context) as [Hbelow _].
    rewrite Hseen, Hbelow. cbn [snd].
    split; [rewrite <- app_assoc; reflexivity|].
    rewrite call_in_turn_app.
    destruct (call_in_turn callback below context) as [[|] c']; [reflexivity|].
    exact (proj2 (IH (S j) None [] c')).
Qed.

(** [walk_tree] hands the subscribers of [walk_leaves] to its callback in
    turn, until the callback stops it. *)
Lemma walk_tree_in_turn {C : Type} (callback : nat → C → bool * C)
    (start_len : nat) (end_ : option (list Z)) (end_len : nat) (node : tree_node) :
  ∀ pos start seen context,
    walk_tree node pos start start_len end_ end_len note_subscriber seen
    = (false, seen ++ walk_leaves node pos start start_len end_ end_len)
    ∧ walk_tree node pos start start_len end_ end_len callback context
      = call_in_turn callback (walk_leaves node pos start start_len end_ end_len)
          context.
Proof.
  induction node as [sl IH] using tree_node_children_ind.
  intros pos start seen context. unfold walk_leaves.
  rewrite !walk_tree_unfold. cbn [slots].
  apply walk_slots_in_turn.
  eapply Forall_impl; [exact IH|]. cbn beta.
  intros s Hs child -> start' seen' context'. apply Hs.
Qed.

End walking.

Section walked_leaves.
Variables (start_len : nat) (end_ : option (list Z)) (end_len : nat).

Lemma walk_leaves_slots (node : tree_node) (pos : nat) (start : option (list Z)) :
  walk_leaves node pos start start_len end_ end_len
  = slots_leaves pos start_len end_ end_len
      (walk_first pos start start_len) (walk_end pos end_ end_len)
      (slots node) 0 start.
Proof. unfold walk_leaves, slots_leaves. rewrite walk_tree_unfold. reflexivity. Qed.

(** The for-loop with the noting callback, whatever was noted before. *)
Lemma walk_slots_note (pos i e : nat) (l : list (slot tree_node)) (j : nat)
    (start : option (list Z)) (seen : list nat) :
  walk_slots
    (λ child start seen,
       walk_tree child (S pos) start start_len end_ end_len note_subscriber seen)
    note_subscriber i e l j start seen
  = (false, seen ++ slots_leaves pos start_len end_ end_len i e l j start).
Proof.
  unfold slots_leaves.
  refine (proj1 (walk_slots_in_turn note_subscriber _ _ i e l _ j start seen seen)).
  apply Forall_forall. intros s _ child -> start' seen' context'.
  pose proof (walk_tree_in_turn note_subscriber start_len end_ end_len child
                (S pos) start' seen' context') as [Hseen _].
  pose proof (walk_tree_in_turn note_subscriber start_len end_ end_len child
                (S pos) start' [] context') as [Hnil _].
  rewrite Hnil. cbn [snd app]. split; [exact Hseen|].
  pose proof (walk_tree_in_turn note_subscriber start_len end_ end_len child
                (S pos) start' seen' context') as [_ Hturn].
  exact Hturn.
Qed.

(** The for-loop, one slot at a time. *)
Lemma slots_leaves_cons (pos i e : nat) (s : slot tree_node)
    (l : list (slot tree_node)) (j : nat) (start : option (list Z)) :
  slots_leaves pos start_len end_ end_len i e (s :: l) j start
  = if (j <? i)%nat then slots_leaves pos start_len end_ end_len i e l (S j) start
    else if negb (j <? e)%nat then []
    else match s with
         | SlotEmpty => slots_leaves pos start_len end_ end_len i e l (S j) None
         | SlotSubscriber p =>
             p :: slots_leaves pos start_len end_ end_len i e l (S j) None
         | SlotTree child =>
             walk_leaves child (S pos) start start_len end_ end_len
             ++ slots_leaves pos start_len end_ end_len i e l (S j) None
         end.
Proof.
  unfold slots_leaves at 1. cbn [walk_slots].
  destruct (j <? i)%nat; [reflexivity|].
  destruct (negb (j <? e)%nat); [reflexivity|].
  destruct s as [|p|child]; [reflexivity| |].
  - unfold note_subscriber at 1. cbn [app]. rewrite walk_slots_note. reflexivity.
  - pose proof (walk_tree_in_turn note_subscriber start_len end_ end_len child
                  (S pos) start [] []) as [Hnil _].
    rewrite Hnil. cbn [app]. rewrite walk_slots_note. reflexivity.
Qed.

Lemma slots_leaves_nil (pos i e j : nat) (start : option (list Z)) :
  slots_leaves pos start_len end_ end_len i e [] j start = [].
Proof. reflexivity. Qed.

Lemma slots_leaves_past_end (pos i e : nat) (l : list (slot tree_node)) :
  ∀ j start, (e <= j)%nat →
             slots_leaves pos start_len end_ end_len i e l j start = [].
Proof.
  induction l as [|s l IH]; intros j start Hj; [reflexivity|].
  rewrite slots_leaves_cons.
  destruct (j <? i)%nat; [apply IH; lia|].
  assert ((j <? e)%nat = false) as -> by (apply Nat.ltb_ge; lia). reflexivity.
Qed.

(** With the first slot [i] and the end [i + 1], the loop looks at slot [i]
    alone. *)
Lemma slots_leaves_single (pos i : nat) (l : list (slot tree_node)) :
  ∀ j start, (j <= i)%nat →
    slots_leaves pos start_len end_ end_len i (S i) l j start
    = match l !! (i - j)%nat with
      | Some (SlotSubscriber p) => [p]
      | Some (SlotTree child) => walk_leaves child (S pos) start start_len end_ end_len
      | _ => []
      end.
Proof.
  induction l as [|s l IH]; intros j start Hj; [reflexivity|].
  rewrite slots_leaves_cons.
  destruct (j <? i)%nat eqn:Hlt.
  - apply Nat.ltb_lt in Hlt. rewrite IH by lia.
    replace (i - j)%nat with (S (i - S j)) by lia. reflexivity.
  - apply Nat.ltb_ge in Hlt. assert (j = i) as -> by lia.
    rewrite Nat.sub_diag.
    assert ((i <? S i)%nat = true) as -> by (apply Nat.ltb_lt; lia).
    cbn [negb lookup list_lookup].
    rewrite slots_leaves_past_end by lia.
    destruct s; [reflexivity..|apply app_nil_r].
Qed.

(** With the first slot 0 and the end 16, the loop hands over every
    subscriber of the slots and of the child nodes. *)
Lemma slots_leaves_all_leaf (pos : nat) (l : list (slot tree_node)) (p : nat) :
  ∀ j k start, l !! k = Some (SlotSubscriber p) → (j + k < 16)%nat →
    p ∈ slots_leaves pos start_len end_ end_len 0 16 l j start.
Proof.
  induction l as [|s l IH]; intros j k start Hk Hlt; [discriminate|].
  rewrite slots_leaves_cons.
  assert ((j <? 0)%nat = false) as -> by reflexivity.
  assert ((j <? 16)%nat = true) as -> by (apply Nat.ltb_lt; lia). cbn [negb].
  destruct k as [|k].
  - cbn in Hk. injection Hk as ->. apply list_elem_of_here.
  - cbn in Hk. specialize (IH (S j) k None Hk ltac:(lia)).
    destruct s; [exact IH|apply list_elem_of_further, IH|].
    apply elem_of_app. right. exact IH.
Qed.

Lemma slots_leaves_all_child (pos : nat) (l : list (slot tree_node))
    (child : tree_node) (p : nat) :
  ∀ j k start, l !! k = Some (SlotTree child) → (j + k < 16)%nat →
    (∀ start', p ∈ walk_leaves child (S pos) start' start_len end_ end_len) →
    p ∈ slots_leaves pos start_len end_ end_len 0 16 l j start.
Proof.
  induction l as [|s l IH]; intros j k start Hk Hlt Hp; [discriminate|].
  rewrite slots_leaves_cons.
  assert ((j <? 0)%nat = false) as -> by reflexivity.
  assert ((j <? 16)%nat = true) as -> by (apply Nat.ltb_lt; lia). cbn [negb].
  destruct k as [|k].
  - cbn in Hk. injection Hk as ->. apply elem_of_app. left. apply Hp.
  - cbn in Hk. specialize (IH (S j) k None Hk ltac:(lia) Hp).
    destruct s; [exact IH|apply list_elem_of_further, IH|].
    apply elem_of_app. right. exact IH.
Qed.

End walked_leaves.

Section visited.

(** Below the depth the start and end keys reach, the walk hands over every
    subscriber of the subtree. *)
Lemma leaf_visited_below_keys (start_len : nat) (end_ : option (list Z))
    (end_len : nat) (p : nat) (path : list nat) :
  ∀ (node : tree_node) (subs : list subscriber) (prefix : list nat)
    (pos : nat) (start : option (list Z)),
    wf_node subs prefix node →
    leaf_at node path p →
    (start_len * 2 <= pos)%nat →
    (end_len * 2 <= pos)%nat →
    p ∈ walk_leaves node pos start start_len end_ end_len.
Proof.
  induction path as [|i rest IH]; intros node subs prefix pos start Hwf Hleaf Hs He.
  { exfalso. eapply slot_path_nonempty; [exact Hleaf|reflexivity]. }
  rewrite walk_leaves_slots.
  assert (walk_first pos start start_len = 0%nat) as ->.
  { unfold walk_first. destruct start; [|reflexivity].
    assert ((pos <? start_len * 2)%nat = false) as -> by (apply Nat.ltb_ge; lia).
    reflexivity. }
  assert (walk_end pos end_ end_len = 16%nat) as ->.
  { unfold walk_end. destruct end_; [|reflexivity].
    assert ((pos <? end_len * 2)%nat = false) as -> by (apply Nat.ltb_ge; lia).
    reflexivity. }
  pose proof Hwf as (Hlen & _ & _).
  apply slot_path_cons_inv in Hleaf as [[-> Hi]|(child & Hi & Hrest)].
  - eapply slots_leaves_all_leaf; [exact Hi|].
    apply lookup_lt_Some in Hi. lia.
  - eapply slots_leaves_all_child; [exact Hi| |].
    + apply lookup_lt_Some in Hi. lia.
    + intros start'. eapply IH; [eapply wf_node_child; eassumption|exact Hrest|lia|lia].
Qed.

(** A walk bounded on both sides by the same key hands over every
    subscriber whose path follows the key as far as the key goes. *)
Lemma leaf_visited_along_key (id_ : list Z) (len : nat) (p : nat) (path : list nat) :
  ∀ (node : tree_node) (subs : list subscriber) (prefix : list nat) (pos : nat),
    wf_node subs prefix node →
    leaf_at node path p →
    (∀ k, (k < length path)%nat → (pos + k < len * 2)%nat →
          path !! k = Some (nib id_ (pos + k))) →
    p ∈ walk_leaves node pos (Some id_) len (Some id_) len.
Proof.
  induction path as [|i rest IH]; intros node subs prefix pos Hwf Hleaf Hkey.
  { exfalso. eapply slot_path_nonempty; [exact Hleaf|reflexivity]. }
  destruct (decide (pos < len * 2)%nat) as [Hpos|Hpos].
  2:{ eapply leaf_visited_below_keys; eauto; lia. }
  assert (Hi : i = nib id_ pos).
  { specialize (Hkey 0%nat ltac:(cbn; lia) ltac:(lia)).
    rewrite Nat.add_0_r in Hkey. cbn in Hkey. congruence. }
  rewrite walk_leaves_slots. unfold walk_first, walk_end.
  assert ((pos <? len * 2)%nat = true) as -> by (apply Nat.ltb_lt; exact Hpos).
  fold (nib id_ pos). rewrite Nat.add_1_r, <- Hi.
  rewrite slots_leaves_single by lia. rewrite Nat.sub_0_r.
  apply slot_path_cons_inv in Hleaf as [[-> Hslot]|(child & Hslot & Hrest)];
    rewrite Hslot.
  - apply list_elem_of_here.
  - eapply IH; [eapply wf_node_child; eassumption|exact Hrest|].
    intros k Hk Hlt. specialize (Hkey (S k) ltac:(cbn; lia) ltac:(lia)).
    cbn in Hkey. rewrite <- Nat.add_succ_comm in Hkey. exact Hkey.
Qed.

(** Every subscriber of the directory whose identifier starts with the key
    is handed over by the walk that the key bounds. *)
Lemma matching_subscriber_visited (d : directory) (id_ : list Z) (len p : nat) :
  wf_directory d →
  in_directory d p →
  matches_prefix (subscribers d) id_ len p →
  p ∈ walk_leaves (root d) 0 (Some id_) len (Some id_) len.
Proof.
  intros [Hok Hwf] [path Hp] Hmatch.
  pose proof Hwf as (_ & _ & Hleaves).
  destruct (Hleaves _ _ Hp) as (_ & Hnib & _). cbn [length Nat.add app] in Hnib.
  eapply leaf_visited_along_key; [exact Hwf|exact Hp|].
  intros k Hk Hlt. cbn [Nat.add] in *.
  rewrite <- Hnib at 1. rewrite nibbles_lookup by exact Hk. f_equal.
  unfold nib. f_equal. unfold matches_prefix in Hmatch. rewrite <- Hmatch.
  symmetry. apply get_nibble_take. lia.
Qed.

(** A lookup that may not create leaves the directory as it is. *)
Lemma find_subscriber_loop_lookup_only (more : nat) :
  ∀ (key : list Z) (len : nat) (node : tree_node) (pos : nat)
    (subs : list subscriber) ret node' subs',
    find_subscriber_loop more key len false node pos subs = (ret, node', subs') →
    node' = node ∧ subs' = subs.
Proof.
  induction more as [|more' IH]; intros key len node pos subs ret node' subs' Hrun;
    rewrite find_subscriber_loop_turn in Hrun;
    destruct (slot_at node (nib key pos)) as [|q|child] eqn:Hslot.
  1, 4: injection Hrun as <- <- <-; auto.
  1, 3: destruct (memcmp_eq _ _ _); cbn [negb] in Hrun; injection Hrun as <- <- <-; auto.
  - injection Hrun as <- <- <-; auto.
  - destruct (find_subscriber_loop more' key len false child (S pos) subs)
      as [[r c'] s'] eqn:Hrec.
    injection Hrun as <- <- <-.
    destruct (IH _ _ _ _ _ _ _ _ Hrec) as [-> ->].
    split; [|reflexivity]. apply set_slot_same, lookup_of_slot_at; [exact Hslot|discriminate].
Qed.

Lemma find_subscriber_short_key (d d' : directory) (key : list Z) (len : nat)
    (create : bool) (ret : option nat) :
  len ≠ SID_SIZE →
  find_subscriber d key len create = (ret, d') → d' = d.
Proof.
  intros Hlen Hrun. unfold find_subscriber in Hrun.
  apply Nat.eqb_neq in Hlen. rewrite Hlen in Hrun. cbn [negb] in Hrun.
  destruct (find_subscriber_loop _ _ _ _ _ _ _) as [[r n'] s'] eqn:Hloop.
  injection Hrun as <- <-.
  destruct (find_subscriber_loop_lookup_only _ _ _ _ _ _ _ _ _ Hloop) as [-> ->].
  destruct d. reflexivity.
Qed.

End visited.

(** ** Please-explain *)

Section please_explain.
Context `{Header}.

Lemma deref_set_send_full (subs : list subscriber) (q p : nat) (v : bool) :
  sid (deref (alter (set_send_full v) q subs) p) = sid (deref subs p)
  ∧ reachable (deref (alter (set_send_full v) q subs) p) = reachable (deref subs p).
Proof.
  unfold deref. rewrite list_lookup_alter.
  destruct (decide (q = p)) as [->|Hne]; [|auto].
  destruct (subs !! p); auto.
Qed.

Lemma explain_record_mark (subs : list subscriber) (q p : nat) :
  explain_record (mark_self [q] subs) p = explain_record subs p.
Proof.
  unfold explain_record, mark_self. cbn [fold_left].
  destruct (_ =? _); [|reflexivity].
  rewrite (proj1 (deref_set_send_full subs q p true)). reflexivity.
Qed.

Lemma explain_payload_extend (ctx : decode_context) (data : list Z) :
  please_explain ctx ≠ None →
  explain_payload (extend_payload ctx data) = ob_with (explain_payload ctx) data
  ∧ please_explain (extend_payload ctx data) ≠ None
  ∧ invalid_addresses (extend_payload ctx data) = invalid_addresses ctx
  ∧ sender (extend_payload ctx data) = sender ctx
  ∧ previous (extend_payload ctx data) = previous ctx.
Proof.
  unfold extend_payload, set_explain_payload, explain_payload.
  destruct (please_explain ctx) as [f|] eqn:Hf; [|congruence].
  intros _. cbn. auto.
Qed.

Lemma extend_payload_twice (ctx : decode_context) (a b : list Z) :
  please_explain ctx ≠ None →
  extend_payload (extend_payload ctx a) b = extend_payload ctx (a ++ b).
Proof.
  unfold extend_payload, set_explain_payload, explain_payload.
  destruct (please_explain ctx) as [f|] eqn:Hf; [|congruence].
  intros _. cbn. rewrite ob_with_with. reflexivity.
Qed.

Lemma extend_payload_nil (ctx : decode_context) :
  please_explain ctx ≠ None → extend_payload ctx [] = ctx.
Proof.
  unfold extend_payload, set_explain_payload, explain_payload, ob_with.
  destruct ctx as [s p i [f|] ci a];
    [|intros Hc; exfalso; apply Hc; reflexivity]. intros _. cbn.
  rewrite app_nil_r. destruct f as [? ? ? ? ? [? ? ?] ? ? ? ? ?]. reflexivity.
Qed.

Lemma ensure_please_explain_some (ctx : decode_context) (limit : nat) :
  please_explain ctx ≠ None → ensure_please_explain ctx limit = ctx.
Proof. unfold ensure_please_explain. destruct (please_explain ctx); congruence. Qed.

(** With a frame in the context and room for 33 bytes, the callback adds
    the record of the subscriber and lets the walk go on. *)
Lemma add_explain_response_room (ctx : decode_context) (subs : list subscriber)
    (p : nat) :
  please_explain ctx ≠ None →
  ob_has_room (explain_payload ctx) 33 = true →
  add_explain_response p (ctx, subs)
  = (false, (extend_payload ctx (explain_record subs p), mark_self [p] subs)).
Proof.
  intros Hframe Hroom. unfold add_explain_response.
  rewrite ensure_please_explain_some by exact Hframe.
  rewrite ob_append_byte_ok;
    [|unfold SID_SIZE; lia|eapply ob_has_room_le; [|exact Hroom]; lia].
  cbn [Z.eqb negb].
  rewrite ob_append_bytes_ok by (apply (ob_has_room_with _ [_]); exact Hroom).
  cbn [Z.eqb negb]. rewrite ob_with_with.
  unfold mark_self, explain_record, extend_payload. cbn [fold_left app].
  destruct (_ =? _); [|reflexivity].
  rewrite (proj1 (deref_set_send_full subs p p true)). reflexivity.
Qed.

Lemma mark_self_cons (p : nat) (ps : list nat) (subs : list subscriber) :
  mark_self (p :: ps) subs = mark_self ps (mark_self [p] subs).
Proof. reflexivity. Qed.

(** With room for all the records, the callback is never the one to stop. *)
Lemma explain_in_turn (ps : list nat) :
  ∀ (ctx : decode_context) (subs : list subscriber) (extra : nat),
    please_explain ctx ≠ None →
    ob_has_room (explain_payload ctx) (33 * length ps + extra) = true →
    call_in_turn add_explain_response ps (ctx, subs)
    = (false, (extend_payload ctx (flat_map (explain_record subs) ps),
               mark_self ps subs)).
Proof.
  induction ps as [|p ps IH]; intros ctx subs extra Hframe Hroom.
  - cbn. rewrite extend_payload_nil by exact Hframe. reflexivity.
  - cbn [call_in_turn flat_map].
    rewrite add_explain_response_room;
      [|exact Hframe|eapply ob_has_room_le; [|exact Hroom]; cbn [length]; lia].
    destruct (explain_payload_extend ctx (explain_record subs p) Hframe)
      as (Hpay & Hframe' & _).
    rewrite (IH _ _ extra Hframe').
    + rewrite extend_payload_twice by exact Hframe. rewrite mark_self_cons.
      f_equal. f_equal. f_equal. f_equal.
      apply flat_map_ext. intros q. apply explain_record_mark.
    + rewrite Hpay. apply ob_has_room_with. unfold explain_record.
      cbn [length]. rewrite length_take.
      eapply ob_has_room_le; [|exact Hroom]. cbn [length]. unfold SID_SIZE. lia.
Qed.

End please_explain.

Section unresolved.
Context `{Header}.

Lemma ob_get_bytes_ptr_length (b b1 : overlay_buffer) (n : nat) (id_ : list Z) :
  ob_get_bytes_ptr b n = (Some id_, b1) →
  length id_ = n
  ∧ b1 = Buffer (bytes b) (position b + n) (sizeLimit b)
  ∧ id_ = take n (drop (position b) (bytes b)).
Proof.
  unfold ob_get_bytes_ptr. destruct (_ <=? _)%nat eqn:Hle; [|discriminate].
  apply Nat.leb_le in Hle. intros Heq. injection Heq as <- <-.
  split; [|auto]. rewrite length_take, length_drop. lia.
Qed.

Lemma ensure_please_explain_frame (ctx : decode_context) (limit : nat) :
  please_explain (ensure_please_explain ctx limit) ≠ None
  ∧ bytes (explain_payload (ensure_please_explain ctx limit))
    = bytes (explain_payload ctx)
  ∧ invalid_addresses (ensure_please_explain ctx limit) = invalid_addresses ctx
  ∧ sender (ensure_please_explain ctx limit) = sender ctx
  ∧ previous (ensure_please_explain ctx limit) = previous ctx.
Proof.
  unfold ensure_please_explain, explain_payload.
  destruct (please_explain ctx) as [f|] eqn:Hf; cbn; rewrite ?Hf; auto.
Qed.

(** [find_subscr_buffer] on a prefix shorter than an identifier that the
    directory does not resolve. *)
Lemma find_subscr_buffer_unresolved (ctx : decode_context) (b b1 : overlay_buffer)
    (len : Z) (d : directory) (held : option nat) (id_ : list Z) :
  0 < len < 32 →
  ob_get_bytes_ptr b (Z.to_nat len) = (Some id_, b1) →
  fst (find_subscriber d id_ (Z.to_nat len) true) = None →
  let n := Z.to_nat len in
  let ctx0 := ensure_please_explain (set_invalid_addresses ctx) MDP_MTU in
  let visited := walk_leaves (root d) 0 (Some id_) n (Some id_) n in
  ob_has_room (explain_payload ctx0) (33 * length visited + (1 + n)) = true →
  find_subscr_buffer ctx b len (Some held) d
  = Parsed 0
      (extend_payload ctx0
         (flat_map (explain_record (subscribers d)) visited ++ len :: id_))
      b1 None (Directory (root d) (mark_self visited (subscribers d))).
Proof.
  intros Hlen Hget Hnone n ctx0 visited Hroom.
  destruct (ob_get_bytes_ptr_length _ _ _ _ Hget) as (Hidlen & _ & _).
  destruct (ensure_please_explain_frame (set_invalid_addresses ctx) MDP_MTU)
    as (Hframe & _). fold ctx0 in Hframe.
  unfold find_subscr_buffer.
  assert ((len <=? 0) = false) as -> by lia.
  assert ((len >? Z.of_nat SID_SIZE) = false) as ->
    by (rewrite Z.gtb_ltb; apply Z.ltb_ge; unfold SID_SIZE; lia).
  cbn [orb]. rewrite Hget. fold n.
  fold n in Hnone.
  destruct (find_subscriber d id_ n true) as [found d2] eqn:Hfind.
  cbn [fst] in Hnone. subst found.
  assert (d2 = d) as ->.
  { eapply find_subscriber_short_key; [|exact Hfind]. unfold SID_SIZE. lia. }
  fold ctx0.
  rewrite (proj2 (walk_tree_in_turn add_explain_response n (Some id_) n (root d)
                    0%nat (Some id_) [] (ctx0, subscribers d))).
  fold visited.
  rewrite (explain_in_turn visited ctx0 (subscribers d) (1 + n) Hframe Hroom).
  set (records := flat_map (explain_record (subscribers d)) visited).
  destruct (explain_payload_extend ctx0 records Hframe) as (Hpay & Hframe1 & _).
  assert (Hlenrec : (length records <= 33 * length visited)%nat).
  { subst records. clear. induction visited as [|p ps IH]; [reflexivity|].
    cbn [flat_map]. rewrite length_app. unfold explain_record at 1.
    cbn [length]. rewrite length_take. unfold SID_SIZE. lia. }
  assert (Hroom1 : ob_has_room (explain_payload (extend_payload ctx0 records)) (1 + n)
                   = true).
  { rewrite Hpay. apply ob_has_room_with.
    eapply ob_has_room_le; [|exact Hroom]. lia. }
  rewrite ob_append_byte_ok;
    [|unfold n; lia|eapply ob_has_room_le; [|exact Hroom1]; lia].
  rewrite ob_append_bytes_ok by (apply (ob_has_room_with _ [_]); exact Hroom1).
  rewrite ob_with_with.
  assert (take n id_ = id_) as -> by (subst n; rewrite <- Hidlen; apply firstn_all).
  change (set_explain_payload (extend_payload ctx0 records)
            (ob_with (explain_payload (extend_payload ctx0 records))
                     ([Z.of_nat n] ++ id_)))
    with (extend_payload (extend_payload ctx0 records) ([Z.of_nat n] ++ id_)).
  rewrite extend_payload_twice by exact Hframe.
  unfold n. rewrite Z2Nat.id by lia. reflexivity.
Qed.

End unresolved.

Section explain_consumed.
Context `{Header}.

(** The loop of [process_explain] over records that carry full identifiers:
    each is registered in turn. *)
Lemma process_explain_loop_full (ids : list (list Z)) :
  ∀ (turns : nat) (consumed rest : list Z) (limit : option nat)
    (ctx : decode_context) (d : directory),
    Forall is_sid ids →
    process_explain_loop (length ids + turns)
      (Buffer (consumed ++ full_records ids ++ rest) (length consumed) limit) ctx d
    = process_explain_loop turns
        (Buffer (consumed ++ full_records ids ++ rest)
                (length consumed + length (full_records ids)) limit)
        ctx (insert_all d ids).
Proof.
  induction ids as [|id_ ids IH]; intros turns consumed rest limit ctx d Hids.
  { cbn. rewrite Nat.add_0_r. reflexivity. }
  apply Forall_cons in Hids as [Hid Hids]. pose proof Hid as [Hlen _].
  cbn [length Nat.add process_explain_loop full_records flat_map].
  fold (full_records ids).
  set (data := consumed ++ ((Z.of_nat SID_SIZE :: id_) ++ full_records ids) ++ rest).
  assert (Hdata : data = (consumed ++ Z.of_nat SID_SIZE :: id_) ++ full_records ids ++ rest).
  { subst data. rewrite <- ?app_assoc. cbn [app]. rewrite <- ?app_assoc. reflexivity. }
  assert (Hrem : (ob_remaining (Buffer data (length consumed) limit) >? 0) = true).
  { unfold ob_remaining. cbn [bytes position]. rewrite Z.gtb_ltb. apply Z.ltb_lt.
    rewrite Hdata, !length_app. cbn [length]. lia. }
  rewrite Hrem. cbn [negb].
  unfold ob_get. cbn [bytes position sizeLimit].
  assert (Hbyte : data !! length consumed = Some (Z.of_nat SID_SIZE)).
  { subst data. apply list_lookup_middle. reflexivity. }
  rewrite Hbyte.
  assert ((Z.of_nat SID_SIZE <=? 0) = false) as -> by reflexivity.
  assert ((Z.of_nat SID_SIZE >? Z.of_nat SID_SIZE) = false) as -> by reflexivity.
  cbn [orb]. unfold ob_get_bytes_ptr. cbn [bytes position sizeLimit].
  rewrite Nat2Z.id.
  assert (Hroom : (S (length consumed) + SID_SIZE <=? length data)%nat = true).
  { apply Nat.leb_le. rewrite Hdata, !length_app. cbn [length]. lia. }
  rewrite Hroom.
  assert (Hid' : take SID_SIZE (drop (S (length consumed)) data) = id_).
  { rewrite Hdata.
    replace ((consumed ++ Z.of_nat SID_SIZE :: id_) ++ full_records ids ++ rest)
      with ((consumed ++ [Z.of_nat SID_SIZE]) ++ (id_ ++ full_records ids ++ rest))
      by (rewrite <- ?app_assoc; reflexivity).
    replace (S (length consumed)) with (length (consumed ++ [Z.of_nat SID_SIZE]))
      by (rewrite length_app; cbn; lia).
    rewrite drop_app_length, take_app_length'; [reflexivity|symmetry; exact Hlen]. }
  rewrite Hid', Z.eqb_refl.
  rewrite insert_all_cons.
  destruct (find_subscriber d id_ SID_SIZE true) as [r d1]. cbn [snd].
  specialize (IH turns (consumed ++ Z.of_nat SID_SIZE :: id_) rest limit ctx d1 Hids).
  rewrite <- Hdata in IH.
  replace (length (consumed ++ Z.of_nat SID_SIZE :: id_))
    with (S (length consumed) + SID_SIZE)%nat in IH
    by (rewrite length_app; cbn [length]; lia).
  rewrite IH. f_equal. f_equal. rewrite !length_app. cbn [length]. lia.
Qed.

End explain_consumed.

Section explain_answered.
Context `{Header}.

Lemma same_sids_refl (subs : list subscriber) : same_sids subs subs.
Proof. intros p. reflexivity. Qed.

Lemma same_sids_trans (a b c : list subscriber) :
  same_sids a b → same_sids b c → same_sids a c.
Proof. intros Hab Hbc p. rewrite Hbc. apply Hab. Qed.

Lemma same_sids_send_full (subs : list subscriber) (q : nat) (v : bool) :
  same_sids subs (alter (set_send_full v) q subs).
Proof. intros p. apply deref_set_send_full. Qed.

(** The callback changes no identifier, whether it stops the walk or not. *)
Lemma add_explain_response_sids (p : nat) (ctx ctx' : decode_context)
    (subs subs' : list subscriber) (stop : bool) :
  add_explain_response p (ctx, subs) = (stop, (ctx', subs')) → same_sids subs subs'.
Proof.
  unfold add_explain_response.
  destruct (ob_append_byte _ _) as [r1 pl1].
  destruct (negb (r1 =? 0)).
  - intros Heq. injection Heq as _ _ <-.
    destruct (_ =? _); [apply same_sids_send_full|apply same_sids_refl].
  - destruct (ob_append_bytes _ _ _) as [r2 pl2].
    destruct (negb (r2 =? 0)); intros Heq; injection Heq as _ _ <-;
      (destruct (_ =? _); [apply same_sids_send_full|apply same_sids_refl]).
Qed.

Lemma call_in_turn_explain_sids (ps : list nat) :
  ∀ (ctx ctx' : decode_context) (subs subs' : list subscriber) (stop : bool),
    call_in_turn add_explain_response ps (ctx, subs) = (stop, (ctx', subs')) →
    same_sids subs subs'.
Proof.
  induction ps as [|p ps IH]; intros ctx ctx' subs subs' stop Hrun.
  - cbn in Hrun. injection Hrun as _ _ <-. apply same_sids_refl.
  - cbn [call_in_turn] in Hrun.
    destruct (add_explain_response p (ctx, subs)) as [stop1 [ctx1 subs1]] eqn:Hone.
    pose proof (add_explain_response_sids _ _ _ _ _ _ Hone) as Hsame.
    destruct stop1.
    + injection Hrun as _ _ <-. exact Hsame.
    + eapply same_sids_trans; [exact Hsame|]. eapply IH. exact Hrun.
Qed.

Lemma walk_explain_sids (node : tree_node) (pos : nat) (start : option (list Z))
    (start_len : nat) (end_ : option (list Z)) (end_len : nat)
    (ctx ctx' : decode_context) (subs subs' : list subscriber) (stop : bool) :
  walk_tree node pos start start_len end_ end_len add_explain_response (ctx, subs)
  = (stop, (ctx', subs')) →
  same_sids subs subs'.
Proof.
  rewrite (proj2 (walk_tree_in_turn add_explain_response start_len end_ end_len node
                    pos start [] (ctx, subs))).
  apply call_in_turn_explain_sids.
Qed.

(** The last record of a payload, a prefix shorter than an identifier: the
    loop walks the tree for it and ends. *)
Lemma process_explain_loop_prefix (turns : nat) (consumed key : list Z) (len : Z)
    (limit : option nat) (ctx : decode_context) (d : directory) :
  0 < len < 32 →
  length key = Z.to_nat len →
  ∃ ctx' subs' b',
    process_explain_loop (S turns)
      (Buffer (consumed ++ len :: key) (length consumed) limit) ctx d
    = (None, b', ctx', Directory (root d) subs')
    ∧ same_sids (subscribers d) subs'.
Proof.
  intros Hlen Hkey. cbn [process_explain_loop].
  set (data := consumed ++ len :: key).
  assert (Hrem : (ob_remaining (Buffer data (length consumed) limit) >? 0) = true).
  { unfold ob_remaining. cbn [bytes position]. rewrite Z.gtb_ltb. apply Z.ltb_lt.
    subst data. rewrite length_app. cbn [length]. lia. }
  rewrite Hrem. cbn [negb]. unfold ob_get. cbn [bytes position sizeLimit].
  assert (Hbyte : data !! length consumed = Some len)
    by (subst data; apply list_lookup_middle; reflexivity).
  rewrite Hbyte.
  assert ((len <=? 0) = false) as -> by lia.
  assert ((len >? Z.of_nat SID_SIZE) = false) as ->
    by (rewrite Z.gtb_ltb; apply Z.ltb_ge; unfold SID_SIZE; lia).
  cbn [orb]. unfold ob_get_bytes_ptr. cbn [bytes position sizeLimit].
  assert (Hroom : (S (length consumed) + Z.to_nat len <=? length data)%nat = true).
  { apply Nat.leb_le. subst data. rewrite length_app. cbn [length]. lia. }
  rewrite Hroom.
  assert ((len =? Z.of_nat SID_SIZE) = false) as ->
    by (apply Z.eqb_neq; unfold SID_SIZE; lia).
  destruct (walk_tree _ _ _ _ _ _ _ _) as [stop [ctx' subs']] eqn:Hwalk.
  pose proof (walk_explain_sids _ _ _ _ _ _ _ _ _ _ _ Hwalk) as Hsame.
  set (b' := Buffer data (S (length consumed) + Z.to_nat len) limit).
  assert (Hend : (ob_remaining b' >? 0) = false).
  { unfold ob_remaining, b'. cbn [bytes position]. rewrite Z.gtb_ltb. apply Z.ltb_ge.
    subst data. rewrite length_app. cbn [length]. lia. }
  exists ctx', subs', b'. split; [|exact Hsame].
  destruct turns as [|turns]; cbn [process_explain_loop root subscribers];
    [reflexivity|].
  rewrite Hend. reflexivity.
Qed.

(** [send_please_explain] with someone to name as the source. *)
Lemma send_please_explain_sends (ctx : decode_context) (source_ destination_ : option nat)
    (w : world) :
  source_ ≠ None ∨ my_subscriber w ≠ None →
  ∃ r w', send_please_explain ctx source_ destination_ w = Ret (r, w')
          ∧ root (dir w') = root (dir w)
          ∧ same_sids (subscribers (dir w)) (subscribers (dir w')).
Proof.
  intros Hsrc. unfold send_please_explain.
  destruct (please_explain ctx) as [frame|].
  2:{ exists 0, w. split; [reflexivity|]. split; [reflexivity|apply same_sids_refl]. }
  set (src := match source_ with Some s => Some s | None => my_subscriber w end).
  assert (Hsome : ∃ sp, src = Some sp).
  { subst src. destruct source_ as [s|]; [eauto|].
    destruct (my_subscriber w) as [m|]; [eauto|]. destruct Hsrc; congruence. }
  destruct Hsome as [sp ->].
  match goal with
  | |- context [let '(frame, rnd) := ?X in _] => destruct X as [frame' rnd']
  end.
  cbn [overlay_payload_enqueue Z.eqb].
  eexists _, _. split; [reflexivity|]. cbn [dir root subscribers].
  split; [reflexivity|apply same_sids_send_full].
Qed.

End explain_answered.

Section visited_are_leaves.
Variables (start_len : nat) (end_ : option (list Z)) (end_len : nat).

Lemma slots_leaves_source (pos i e : nat) (p : nat) (l : list (slot tree_node)) :
  ∀ j start,
    p ∈ slots_leaves pos start_len end_ end_len i e l j start →
    ∃ k, l !! k = Some (SlotSubscriber p)
         ∨ ∃ child start',
             l !! k = Some (SlotTree child)
             ∧ p ∈ walk_leaves child (S pos) start' start_len end_ end_len.
Proof.
  induction l as [|s l IH]; intros j start Hp.
  { rewrite slots_leaves_nil in Hp. apply elem_of_nil in Hp. contradiction. }
  rewrite slots_leaves_cons in Hp.
  assert (Hlater : ∀ j' start',
             p ∈ slots_leaves pos start_len end_ end_len i e l j' start' →
             ∃ k, (s :: l) !! k = Some (SlotSubscriber p)
                  ∨ ∃ child start'',
                      (s :: l) !! k = Some (SlotTree child)
                      ∧ p ∈ walk_leaves child (S pos) start'' start_len end_ end_len).
  { intros j' start' Hin. destruct (IH _ _ Hin) as [k Hk]. exists (S k). exact Hk. }
  destruct (j <? i)%nat; [eapply Hlater; exact Hp|].
  destruct (negb (j <? e)%nat); [apply elem_of_nil in Hp; contradiction|].
  destruct s as [|q|child].
  - eapply Hlater; exact Hp.
  - apply elem_of_cons in Hp as [->|Hp]; [|eapply Hlater; exact Hp].
    exists 0%nat. left. reflexivity.
  - apply elem_of_app in Hp as [Hp|Hp]; [|eapply Hlater; exact Hp].
    exists 0%nat. right. exists child, start. split; [reflexivity|exact Hp].
Qed.

(** The walk only hands over subscribers of the tree. *)
Lemma visited_is_leaf (p : nat) (node : tree_node) :
  ∀ pos start,
    p ∈ walk_leaves node pos start start_len end_ end_len →
    ∃ path, leaf_at node path p.
Proof.
  induction node as [sl IH] using tree_node_children_ind.
  intros pos start Hp. rewrite walk_leaves_slots in Hp. cbn [slots] in Hp.
  apply slots_leaves_source in Hp as [k [Hk|(child & start' & Hk & Hp)]].
  - exists [k]. constructor. exact Hk.
  - rewrite Forall_lookup in IH. specialize (IH _ _ Hk). cbn in IH.
    destruct (IH _ _ Hp) as [path Hpath].
    exists (k :: path). eapply slot_path_below; [exact Hk|exact Hpath].
Qed.

End visited_are_leaves.

Section learning.
Context `{Header}.

(** Every identifier of the list is known once the list is registered. *)
Lemma insert_all_registers (ids : list (list Z)) :
  ∀ (d : directory) (id_ : list Z),
    wf_directory d → Forall is_sid ids → id_ ∈ ids →
    ∃ q, in_directory (insert_all d ids) q
         ∧ sid (deref (subscribers (insert_all d ids)) q) = id_.
Proof.
  induction ids as [|x ids IH]; intros d id_ Hwf Hids Hin.
  { apply elem_of_nil in Hin. contradiction. }
  apply Forall_cons in Hids as [Hx Hids]. rewrite insert_all_cons.
  destruct (find_subscriber d x SID_SIZE true) as [r d1] eqn:Hrun.
  destruct (find_subscriber_registers _ _ _ _ Hwf Hx Hrun)
    as (Hwf1 & _ & (q & _ & Hq & Hsid) & _).
  cbn [snd]. apply elem_of_cons in Hin as [->|Hin]; [|apply IH; assumption].
  destruct (insert_all_keeps ids d1 Hwf1 Hids) as (_ & [_ Hpres] & Hold).
  exists q. split; [apply Hold, Hq|].
  rewrite Hpres by (apply in_directory_allocated; assumption). exact Hsid.
Qed.

Lemma full_records_length (ids : list (list Z)) :
  (length ids <= length (full_records ids))%nat.
Proof.
  induction ids as [|x ids IH]; [reflexivity|].
  unfold full_records in *. cbn [flat_map length]. rewrite length_app.
  cbn [length]. lia.
Qed.

(** [process_explain] on a payload of full records followed by one prefix
    record registers the identifiers of the full records. *)
Lemma process_explain_learns (frame : overlay_frame) (w : world)
    (ids : list (list Z)) (len : Z) (key : list Z) :
  bytes (payload frame) = full_records ids ++ len :: key →
  position (payload frame) = 0%nat →
  Forall is_sid ids →
  0 < len < 32 →
  length key = Z.to_nat len →
  destination frame ≠ None ∨ my_subscriber w ≠ None →
  ∃ w', process_explain frame w = Ret (0, w')
        ∧ root (dir w') = root (insert_all (dir w) ids)
        ∧ same_sids (subscribers (insert_all (dir w) ids)) (subscribers (dir w')).
Proof.
  intros Hbytes Hpos Hids Hlen Hkey Hsrc. unfold process_explain.
  destruct (payload frame) as [data pos limit] eqn:Hpayload.
  cbn [bytes position] in Hbytes, Hpos. subst data pos.
  assert (Hturns : ∃ t, Z.to_nat (ob_remaining
                                    (Buffer (full_records ids ++ len :: key) 0 limit))
                        = (length ids + S t)%nat).
  { unfold ob_remaining. cbn [bytes position]. rewrite length_app. cbn [length].
    pose proof (full_records_length ids).
    exists (length (full_records ids) - length ids + length key)%nat. lia. }
  destruct Hturns as [t ->].
  pose proof (process_explain_loop_full ids (S t) [] (len :: key) limit zero_context
                (dir w) Hids) as Hfull.
  cbn [app length Nat.add] in Hfull. rewrite Hfull.
  destruct (process_explain_loop_prefix t (full_records ids) key len limit zero_context
              (insert_all (dir w) ids) Hlen Hkey)
    as (ctx' & subs' & b' & Hloop & Hsame).
  rewrite Hloop.
  destruct (send_please_explain_sends ctx' (destination frame) (source frame)
              (World (Directory (root (insert_all (dir w) ids)) subs')
                     (my_subscriber w) (outbound w) (random_values w)) Hsrc)
    as (r & w' & Hsend & Hroot & Hsids).
  rewrite Hsend. exists w'. split; [reflexivity|].
  cbn [dir root subscribers] in Hroot, Hsids.
  split; [exact Hroot|]. eapply same_sids_trans; eassumption.
Qed.

End learning.

Section decode_unresolved.
Context `{Header}.

Lemma ob_get_bytes_ptr_middle (before id_ after : list Z) (x : Z) (limit : option nat) :
  ob_get_bytes_ptr (Buffer (before ++ x :: id_ ++ after) (S (length before)) limit)
    (length id_)
  = (Some id_,
     Buffer (before ++ x :: id_ ++ after) (S (length before) + length id_) limit).
Proof.
  unfold ob_get_bytes_ptr. cbn [bytes position sizeLimit].
  assert ((S (length before) + length id_ <=? length (before ++ x :: id_ ++ after))%nat
          = true) as ->.
  { apply Nat.leb_le. rewrite length_app. cbn [length]. rewrite length_app. lia. }
  replace (before ++ x :: id_ ++ after) with ((before ++ [x]) ++ id_ ++ after) at 1
    by (rewrite <- app_assoc; reflexivity).
  replace (S (length before)) with (length (before ++ [x])) at 1
    by (rewrite length_app; cbn; lia).
  rewrite drop_app_length, take_app_length. reflexivity.
Qed.

(** Decoding a literal prefix that the directory does not resolve. *)
Lemma parse_unresolved (ctx : decode_context) (d : directory) (held : option nat)
    (before after id_ : list Z) (len : Z) (limit : option nat) :
  0 < len < 32 →
  length id_ = Z.to_nat len →
  fst (find_subscriber d id_ (Z.to_nat len) true) = None →
  let n := Z.to_nat len in
  let ctx0 := ensure_please_explain (set_invalid_addresses ctx) MDP_MTU in
  let visited := walk_leaves (root d) 0 (Some id_) n (Some id_) n in
  ob_has_room (explain_payload ctx0) (33 * length visited + (1 + n)) = true →
  overlay_address_parse ctx
    (Buffer (before ++ len :: id_ ++ after) (length before) limit) held d
  = Parsed 0
      (extend_payload ctx0
         (flat_map (explain_record (subscribers d)) visited ++ len :: id_))
      (Buffer (before ++ len :: id_ ++ after) (S (length before) + n) limit)
      None (Directory (root d) (mark_self visited (subscribers d))).
Proof.
  intros Hlen Hid Hnone n ctx0 visited Hroom.
  unfold overlay_address_parse, ob_get. cbn [bytes position sizeLimit].
  rewrite list_lookup_middle by reflexivity.
  assert ((len <? 0) = false) as -> by lia.
  assert ((len =? OA_CODE_SELF) = false) as ->
    by (apply Z.eqb_neq; unfold OA_CODE_SELF; lia).
  assert ((len =? OA_CODE_PREVIOUS) = false) as ->
    by (apply Z.eqb_neq; unfold OA_CODE_PREVIOUS; lia).
  apply find_subscr_buffer_unresolved; [exact Hlen| |exact Hnone|exact Hroom].
  fold n. unfold n at 1. rewrite <- Hid. rewrite ob_get_bytes_ptr_middle.
  rewrite Hid. reflexivity.
Qed.

End decode_unresolved.

Section explain_round_trip.
Context `{Header}.

Lemma records_of_leaves (d : directory) (ps : list nat) :
  wf_directory d →
  (∀ p, p ∈ ps → in_directory d p) →
  flat_map (explain_record (subscribers d)) ps = full_records (sids_of (subscribers d) ps)
  ∧ Forall is_sid (sids_of (subscribers d) ps).
Proof.
  intros Hwf. induction ps as [|p ps IH]; intros Hin.
  { split; [reflexivity|constructor]. }
  destruct IH as [IHrec IHsid].
  { intros q Hq. apply Hin. apply list_elem_of_further, Hq. }
  assert (Hp : is_sid (sid (deref (subscribers d) p))).
  { apply arena_ok_deref; [apply Hwf|].
    apply in_directory_allocated; [exact Hwf|]. apply Hin, list_elem_of_here. }
  split; [|constructor; assumption].
  unfold full_records, sids_of in *. cbn [flat_map map].
  rewrite IHrec. unfold explain_record. rewrite take_sid by exact Hp. reflexivity.
Qed.

(** What the peer learns from the payload the decoder produced. *)
Lemma explained_to_peer (d : directory) (visited : list nat) (len : Z) (id_ : list Z)
    (frame : overlay_frame) (w : world) :
  wf_directory d →
  (∀ p, p ∈ visited → in_directory d p) →
  0 < len < 32 →
  length id_ = Z.to_nat len →
  bytes (payload frame) = full_records (sids_of (subscribers d) visited) ++ len :: id_ →
  position (payload frame) = 0%nat →
  wf_directory (dir w) →
  destination frame ≠ None ∨ my_subscriber w ≠ None →
  ∃ w', process_explain frame w = Ret (0, w')
        ∧ ∀ p, p ∈ visited →
               ∃ q, in_directory (dir w') q
                    ∧ sid (deref (subscribers (dir w')) q)
                      = sid (deref (subscribers d) p).
Proof.
  intros Hwf Hleaves Hlen Hid Hbytes Hpos Hwfw Hsrc.
  destruct (records_of_leaves d visited Hwf Hleaves) as [_ Hsids].
  destruct (process_explain_learns frame w _ len id_ Hbytes Hpos Hsids Hlen Hid Hsrc)
    as (w' & Hrun & Hroot & Hsame).
  exists w'. split; [exact Hrun|]. intros p Hp.
  destruct (insert_all_registers (sids_of (subscribers d) visited) (dir w)
              (sid (deref (subscribers d) p)) Hwfw Hsids) as (q & [path Hq] & Hsid).
  { unfold sids_of. apply list_elem_of_fmap. exists p. split; [reflexivity|exact Hp]. }
  exists q. split.
  - exists path. unfold leaf_at. rewrite Hroot. exact Hq.
  - rewrite Hsame. exact Hsid.
Qed.

End explain_round_trip.

(** The decoder reads a literal prefix of [len] bytes (fewer than 32)
    that the well-formed directory resolves to no subscriber, with room in the
    please-explain payload for what follows.  Then decoding returns 0 (not an
    error), sets [invalid_addresses], resolves nothing, and appends to the
    payload one record [(32, sid)] for each subscriber the bounded walk hands
    over, then the record [(len, prefix)].  Every known subscriber whose
    identifier starts with the prefix is handed over, and every subscriber
    handed over is a known one.  When the payload held nothing before, a peer
    that runs [process_explain] on it (and has a source to answer from) then
    knows the identifier of every subscriber named in it; so with two known
    subscribers X and Y matching a 3-byte prefix, the payload names X and Y
    and the peer knows both afterwards. *)
Theorem unresolved_prefix_asks_to_explain `{Header} (ctx : decode_context)
    (d : directory) (held : option nat) (before after id_ : list Z) (len : Z)
    (limit : option nat) :
  wf_directory d →
  0 < len < 32 →
  length id_ = Z.to_nat len →
  fst (find_subscriber d id_ (Z.to_nat len) true) = None →
  let n := Z.to_nat len in
  let visited := walk_leaves (root d) 0 (Some id_) n (Some id_) n in
  ob_has_room
    (explain_payload (ensure_please_explain (set_invalid_addresses ctx) MDP_MTU))
    (33 * length visited + (1 + n)) = true →
  let r := overlay_address_parse ctx
             (Buffer (before ++ len :: id_ ++ after) (length before) limit) held d in
  parse_ret r = 0
  ∧ invalid_addresses (parse_context r) = true
  ∧ parse_subscriber r = None
  ∧ position (parse_buffer r) = (length before + 1 + n)%nat
  ∧ bytes (explain_payload (parse_context r))
    = bytes (explain_payload ctx)
      ++ full_records (sids_of (subscribers d) visited) ++ len :: id_
  ∧ (∀ p, in_directory d p → matches_prefix (subscribers d) id_ n p → p ∈ visited)
  ∧ (∀ p, p ∈ visited → in_directory d p)
  ∧ (∀ (frame : overlay_frame) (w : world),
       please_explain ctx = None →
       bytes (payload frame) = bytes (explain_payload (parse_context r)) →
       position (payload frame) = 0%nat →
       wf_directory (dir w) →
       destination frame ≠ None ∨ my_subscriber w ≠ None →
       ∃ w', process_explain frame w = Ret (0, w')
             ∧ ∀ p, p ∈ visited →
                    ∃ q, in_directory (dir w') q
                         ∧ sid (deref (subscribers (dir w')) q)
                           = sid (deref (subscribers d) p)).
Proof.
  intros Hwf Hlen Hid Hnone n visited Hroom r.
  assert (Hleaves : ∀ p, p ∈ visited → in_directory d p).
  { intros p Hp. eapply visited_is_leaf. exact Hp. }
  destruct (records_of_leaves d visited Hwf Hleaves) as [Hrec _].
  destruct (ensure_please_explain_frame (set_invalid_addresses ctx) MDP_MTU)
    as (Hframe & Hbytes0 & Hinv0 & _).
  set (ctx0 := ensure_please_explain (set_invalid_addresses ctx) MDP_MTU) in *.
  assert (Hr : r = Parsed 0
                 (extend_payload ctx0
                    (flat_map (explain_record (subscribers d)) visited ++ len :: id_))
                 (Buffer (before ++ len :: id_ ++ after) (S (length before) + n) limit)
                 None (Directory (root d) (mark_self visited (subscribers d)))).
  { subst r. apply parse_unresolved; assumption. }
  destruct (explain_payload_extend ctx0
              (flat_map (explain_record (subscribers d)) visited ++ len :: id_) Hframe)
    as (Hpay & _ & Hinv & _).
  assert (Hpayload : bytes (explain_payload (parse_context r))
                     = bytes (explain_payload ctx)
                       ++ full_records (sids_of (subscribers d) visited) ++ len :: id_).
  { rewrite Hr. cbn [parse_context]. rewrite Hpay. cbn [ob_with bytes].
    rewrite Hbytes0, Hrec. reflexivity. }
  rewrite Hr at 1 2 3 4. cbn [parse_ret parse_context parse_subscriber parse_buffer position].
  split; [reflexivity|]. split; [rewrite Hinv, Hinv0; reflexivity|].
  split; [reflexivity|]. split; [lia|]. split; [exact Hpayload|].
  split; [intros p Hin Hmatch; apply matching_subscriber_visited; assumption|].
  split; [exact Hleaves|].
  intros frame w Hfresh Hbytes Hpos Hwfw Hsrc.
  apply (explained_to_peer d visited len id_ frame w); auto.
  rewrite Hbytes, Hpayload. unfold explain_payload. rewrite Hfresh. reflexivity.
Qed.

(** Identifiers written as [sid_of head] are proper identifiers. *)
Ltac bytes_ok :=
  repeat (apply List.Forall_cons; [lia|]); apply List.Forall_nil.
Ltac sid_of_ok :=
  repeat (apply List.Forall_cons; [apply is_sid_sid_of; bytes_ok|]);
  apply List.Forall_nil.
Lemma unresolved_prefix_asks_to_explain_witness :
  let d := explain_scenario_directory in
  let X := sid_of [0x10; 0x20; 0x30; 0x40] in
  let Y := sid_of [0x10; 0x20; 0x30; 0x50] in
  let r := overlay_address_parse (H := serval_header) zero_context
             (Buffer [3; 0x10; 0x20; 0x30] 0 None) None d in
  parse_ret r = 0
  ∧ invalid_addresses (parse_context r) = true
  ∧ bytes (explain_payload (parse_context r))
    = (32 :: X) ++ (32 :: Y) ++ [3; 0x10; 0x20; 0x30]
  ∧ ∃ w', process_explain (H := serval_header)
            (explain_frame (bytes (explain_payload (parse_context r)))) peer_world
          = Ret (0, w')
          ∧ (∃ q, in_directory (dir w') q ∧ sid (deref (subscribers (dir w')) q) = X)
          ∧ (∃ q, in_directory (dir w') q ∧ sid (deref (subscribers (dir w')) q) = Y).
Proof.
  assert (Hwf : wf_directory explain_scenario_directory)
    by (apply wf_insert_all; sid_of_ok).
  assert (Hpeer : wf_directory (dir peer_world))
    by (apply wf_insert_all; sid_of_ok).
  assert (Hlen : 0 < 3 < 32) by lia.
  assert (Hnone : fst (find_subscriber explain_scenario_directory [0x10; 0x20; 0x30]
                         (Z.to_nat 3) true) = None) by (vm_compute; reflexivity).
  assert (Hroom : ob_has_room
    (explain_payload (ensure_please_explain (set_invalid_addresses zero_context) (MDP_MTU (Header := serval_header))))
    (33 * length (walk_leaves (root explain_scenario_directory) 0 (Some [0x10; 0x20; 0x30]) (Z.to_nat 3) (Some [0x10; 0x20; 0x30]) (Z.to_nat 3)) + (1 + Z.to_nat 3)) = true) by (vm_compute; reflexivity).
  pose proof (unresolved_prefix_asks_to_explain (H := serval_header) zero_context
              explain_scenario_directory None [] [] [0x10; 0x20; 0x30] 3 None
              Hwf Hlen eq_refl Hnone Hroom) as HH.
  cbv zeta in HH |- *.
  set (rt := overlay_address_parse zero_context
               (Buffer ([] ++ 3 :: [0x10; 0x20; 0x30] ++ []) (length []) None)
               None explain_scenario_directory) in HH.
  set (r := overlay_address_parse zero_context (Buffer [3; 0x10; 0x20; 0x30] 0 None)
              None explain_scenario_directory).
  assert (Hr : rt = r) by reflexivity.
  clearbody rt r. subst rt.
  destruct HH
    as (Hret & Hinv & _ & _ & Hbytes & _ & _ & Hlearn).
  split; [exact Hret|]. split; [exact Hinv|].
  split; [etransitivity; [exact Hbytes|vm_compute; reflexivity]|].
  assert (Hsrc : destination (explain_frame (bytes (explain_payload (parse_context r))))
                 ≠ None ∨ my_subscriber peer_world ≠ None) by (right; discriminate).
  destruct (Hlearn (explain_frame (bytes (explain_payload (parse_context r))))
              peer_world eq_refl eq_refl eq_refl Hpeer Hsrc) as (w' & Hrun & Hknown).
  exists w'. split; [exact Hrun|].
  assert (Hvisited : walk_leaves (root explain_scenario_directory) 0
                       (Some [0x10; 0x20; 0x30]) (Z.to_nat 3)
                       (Some [0x10; 0x20; 0x30]) (Z.to_nat 3) = [0%nat; 1%nat])
    by (vm_compute; reflexivity).
  rewrite Hvisited in Hknown.
  split.
  - destruct (Hknown 0%nat (list_elem_of_here _ _)) as (q & Hq & Hsid).
    exists q. split; [exact Hq|]. rewrite Hsid. vm_compute. reflexivity.
  - destruct (Hknown 1%nat (list_elem_of_further _ _ _ (list_elem_of_here _ _)))
      as (q & Hq & Hsid).
    exists q. split; [exact Hq|]. rewrite Hsid. vm_compute. reflexivity.
Defined.

(** The same scenario evaluated: the bytes of the payload, and the two
    lookups at the peer after [process_explain]. *)
Example explain_scenario_evaluated :
  let X := sid_of [0x10; 0x20; 0x30; 0x40] in
  let Y := sid_of [0x10; 0x20; 0x30; 0x50] in
  let r := overlay_address_parse (H := serval_header) zero_context
             (Buffer [3; 0x10; 0x20; 0x30] 0 None) None explain_scenario_directory in
  bytes (explain_payload (parse_context r)) = (32 :: X) ++ (32 :: Y) ++ [3; 0x10; 0x20; 0x30]
  ∧ match process_explain (H := serval_header)
            (explain_frame (bytes (explain_payload (parse_context r)))) peer_world with
    | Ret (ret, w') =>
        ret = 0
        ∧ fst (find_subscriber (dir w') X SID_SIZE false) = Some 1%nat
        ∧ fst (find_subscriber (dir w') Y SID_SIZE false) = Some 2%nat
    | _ => False
    end.
Proof. vm_compute. repeat split. Qed.

(** C6.  The walk that collects the explanations follows the nibbles of the
    prefix and hands over a subscriber it meets on the way without comparing
    its identifier with the prefix.  In the directory that knows [10 00 ..]
    and [20 00 ..], decoding the two-byte literal prefix [10 55], which no
    known subscriber starts with, returns 0, sets [invalid_addresses] and
    resolves nothing; the please-explain payload then names [10 00 ..], which
    does not match the prefix, before the record [(2, 10 55)]. *)
Theorem unresolved_prefix_names_unrelated_subscriber :
  let d := two_subscriber_directory in
  let r := overlay_address_parse (H := serval_header) zero_context
             (Buffer [2; 0x10; 0x55] 0 None) None d in
  parse_ret r = 0
  ∧ invalid_addresses (parse_context r) = true
  ∧ parse_subscriber r = None
  ∧ (∀ p, in_directory d p → ¬ matches_prefix (subscribers d) [0x10; 0x55] 2 p)
  ∧ bytes (explain_payload (parse_context r))
    = (32 :: sid_of [0x10]) ++ [2; 0x10; 0x55].
Proof.
  cbv zeta. split; [vm_compute; reflexivity|]. split; [vm_compute; reflexivity|].
  split; [vm_compute; reflexivity|]. split; [|vm_compute; reflexivity].
  intros p Hin.
  assert (Hwf : wf_directory two_subscriber_directory)
    by (apply wf_insert_all; sid_of_ok).
  pose proof (in_directory_allocated _ _ Hwf Hin) as Hlt.
  change (length (subscribers two_subscriber_directory)) with 2%nat in Hlt.
  unfold matches_prefix.
  destruct p as [|[|p]]; [vm_compute; discriminate|vm_compute; discriminate|lia].
Qed.

(** * Further properties of the code *)

(** ** The directory as registrations build it *)

Section tight.

(** A subscriber sits in one slot only. *)
Lemma leaf_unique (subs : list subscriber) (prefix : list nat) (node : tree_node)
    (path1 path2 : list nat) (p : nat) :
  wf_node subs prefix node →
  leaf_at node path1 p → leaf_at node path2 p → path1 = path2.
Proof.
  intros (_ & _ & Hleaves) H1 H2.
  destruct (Hleaves _ _ H1) as (_ & Hn1 & _).
  destruct (Hleaves _ _ H2) as (_ & Hn2 & _).
  assert (Hle : ∀ a b : list nat,
            nibbles (sid (deref subs p)) (length prefix + length a) = prefix ++ a →
            nibbles (sid (deref subs p)) (length prefix + length b) = prefix ++ b →
            (length a <= length b)%nat → ∃ more_, b = a ++ more_).
  { intros a b Ha Hb Hab. exists (drop (length a) b).
    pose proof (nibbles_take (sid (deref subs p)) (length prefix + length b)
                  (length prefix + length a) ltac:(lia)) as Ht.
    rewrite Ha, Hb in Ht.
    rewrite take_app_ge in Ht by lia.
    apply app_inv_head in Ht.
    replace (length prefix + length a - length prefix)%nat with (length a) in Ht by lia.
    rewrite <- (take_drop (length a) b) at 1. rewrite Ht. reflexivity. }
  destruct (decide (length path1 <= length path2)%nat) as [Hl|Hl].
  - destruct (Hle _ _ Hn1 Hn2 Hl) as [more_ ->].
    rewrite (leaf_path_not_extended node path1 more_ p _ H1 H2).
    symmetry. apply app_nil_r.
  - destruct (Hle _ _ Hn2 Hn1 ltac:(lia)) as [more_ ->].
    rewrite (leaf_path_not_extended node path2 more_ p _ H2 H1).
    apply app_nil_r.
Qed.

(** A path through a child node continues the path to the child. *)
Lemma slot_path_app (node child : tree_node) (a b : list nat) (s : slot tree_node) :
  slot_path node a (SlotTree child) → slot_path child b s → slot_path node (a ++ b) s.
Proof.
  intros Ha Hb. remember (SlotTree child) as t eqn:Ht.
  induction Ha as [node i t Hi|node i c path t Hi Hrest IH]; subst t; cbn.
  - eapply slot_path_below; eassumption.
  - eapply slot_path_below; [exact Hi|]. apply IH. reflexivity.
Qed.

(** A path that goes on after [a] passes through a child node at [a]. *)
Lemma slot_path_split (a : list nat) :
  ∀ (node : tree_node) (b : list nat) (s : slot tree_node),
    a ≠ [] → b ≠ [] →
    slot_path node (a ++ b) s →
    ∃ child, slot_path node a (SlotTree child) ∧ slot_path child b s.
Proof.
  induction a as [|i a IH]; intros node b s Ha Hb Hp; [congruence|].
  cbn in Hp. apply slot_path_cons_inv in Hp as [[Hnil _]|(child & Hi & Hrest)].
  - destruct a, b; cbn in Hnil; congruence.
  - destruct a as [|j a].
    + exists child. split; [constructor; exact Hi|exact Hrest].
    + destruct (IH child b s ltac:(discriminate) Hb Hrest) as (c & Hc & Hs).
      exists c. split; [eapply slot_path_below; eassumption|exact Hs].
Qed.

Lemma tight_node_zero (subs : list subscriber) (depth : nat) :
  tight_node subs depth zero_tree_node.
Proof.
  split.
  - intros path p Hp. apply slot_path_zero_node in Hp. discriminate.
  - intros path child Hp. apply slot_path_zero_node in Hp. discriminate.
Qed.

Lemma tight_node_child (subs : list subscriber) (depth : nat)
    (node child : tree_node) (i : nat) :
  tight_node subs depth node →
  slots node !! i = Some (SlotTree child) →
  tight_node subs (S depth) child.
Proof.
  intros [Ha Hb] Hi. split.
  - intros path p Hp.
    rewrite (Ha (i :: path) p ltac:(eapply slot_path_below; eassumption)).
    cbn [length]. f_equal. lia.
  - intros path c Hp.
    apply (Hb (i :: path) c). eapply slot_path_below; eassumption.
Qed.

End tight.

Section tight_insertion.

(** Registering an identifier keeps the tree tight, and changes the
    [abbreviate_len] of no subscriber outside the node it works in. *)
Lemma find_subscriber_loop_tight (more : nat) :
  ∀ (id_ : list Z) (node : tree_node) (pos : nat) (subs : list subscriber)
    (prefix : list nat) ret node' subs',
    is_sid id_ →
    arena_ok subs →
    wf_node subs prefix node →
    length prefix = pos →
    nibbles id_ pos = prefix →
    (pos + more = 63)%nat →
    tight_node subs pos node →
    find_subscriber_loop more id_ SID_SIZE true node pos subs = (ret, node', subs') →
    tight_node subs' pos node'
    ∧ ∀ q, (q < length subs)%nat → (∀ path, ¬ leaf_at node path q) →
           abbreviate_len (deref subs' q) = abbreviate_len (deref subs q).
Proof.
  induction more as [|more' IH];
    intros id_ node pos subs prefix ret node' subs' Hid Hok Hwf Hlen Hpre Hsum
           Htight Hrun;
    pose proof Hrun as Hrun0;
    rewrite find_subscriber_loop_turn in Hrun;
    pose proof (nib_range id_ pos) as Hnib;
    pose proof Hwf as (Hslots & Hnodes & Hleaves);
    pose proof Htight as (Hdepths & Hpairs);
    destruct (slot_at node (nib id_ pos)) as [|q|child] eqn:Hslot.
  1, 4: injection Hrun as <- <- <-.
  1, 2: split; [split|].
  1, 4: intros path p Hp;
        apply slot_path_set_slot_inv in Hp
          as [(j & rest & -> & Hj & Hp)|[[-> Hp]|(c & rest & Hc & _)]];
        [destruct (Hleaves _ _ Hp) as (Hplt & _);
         unfold deref; rewrite lookup_app_l by exact Hplt; apply (Hdepths _ _ Hp)
        |injection Hp as ->; unfold deref;
         rewrite lookup_app_r, Nat.sub_diag by lia; cbn; lia
        |discriminate|lia].
  1, 3: intros path c Hp;
        apply slot_path_set_slot_inv in Hp
          as [(j & rest & -> & Hj & Hp)|[[-> Hp]|(c0 & rest & Hc & _)]];
        [exact (Hpairs _ _ Hp)|discriminate|discriminate|lia].
  1, 2: intros q0 Hq0 _; unfold deref; rewrite lookup_app_l by exact Hq0; reflexivity.
  1, 3: apply lookup_of_slot_at in Hslot; [|discriminate];
        assert (Hq : leaf_at node [nib id_ pos] q) by (constructor; exact Hslot);
        destruct (Hleaves _ _ Hq) as (Hqlt & Hqnib & Hqdepth);
        destruct (arena_ok_deref _ _ Hok Hqlt) as [Hqsid Hqlen];
        cbn [length] in Hqnib;
        replace (length prefix + 1)%nat with (S pos) in Hqnib by lia;
        assert (Hsame : nibbles (sid (deref subs q)) (S pos) = nibbles id_ (S pos))
          by (rewrite Hqnib, nibbles_succ, Hpre; reflexivity);
        destruct (memcmp_eq (sid (deref subs q)) id_ SID_SIZE) eqn:Hcmp;
        [injection Hrun as <- <- <-; split; [exact Htight|reflexivity]
        |pose proof (mismatch_above_bottom subs id_ q pos Hid Hqsid Hsame Hcmp
                       ltac:(lia)) as Hdeep].
  1: lia.
  2: injection Hrun as <- <- <-; split; [exact Htight|reflexivity].
  - (* mismatch: split, then go on in the new node *)
    cbn [negb] in Hrun. cbv zeta in Hrun.
    set (new := set_slot zero_tree_node (nib (sid (deref subs q)) (S pos))
                         (SlotSubscriber q)) in *.
    set (subs1 := alter (set_abbreviate_len (Z.of_nat (S pos) + 1)) q subs) in *.
    destruct (find_subscriber_loop more' id_ SID_SIZE true new (S pos) subs1)
      as [[r n'] s'] eqn:Hrec.
    injection Hrun as <- <- <-.
    pose proof (nib_range (sid (deref subs q)) (S pos)) as Hnibq.
    assert (Hpres1 : sids_preserved subs subs1)
      by (apply sids_preserved_alter; reflexivity).
    assert (Hok1 : arena_ok subs1).
    { apply arena_ok_alter; [|exact Hok]. intros s [Hs Ha]. cbn. split; [exact Hs|lia]. }
    assert (Hwfnew : wf_node subs1 (prefix ++ [nib id_ pos]) new).
    { apply wf_node_set_leaf; [apply wf_node_zero| | |].
      - subst subs1. rewrite length_alter. exact Hqlt.
      - destruct Hpres1 as [_ Hs1]. rewrite Hs1 by exact Hqlt.
        rewrite length_app. cbn [length].
        replace (length prefix + 1)%nat with (S pos) by lia.
        rewrite (nibbles_succ _ (S pos)), Hqnib. reflexivity.
      - rewrite length_app. cbn [length]. lia. }
    assert (Hnewleaf : ∀ path p, leaf_at new path p →
                                 path = [nib (sid (deref subs q)) (S pos)] ∧ p = q).
    { intros path p Hp. subst new.
      apply slot_path_set_slot_inv in Hp
        as [(j & rest & -> & Hj & Hp)|[[-> Hp]|(c & rest & Hc & _)]];
        [|injection Hp as ->; split; reflexivity|discriminate|cbn; lia].
      apply slot_path_zero_node in Hp. discriminate. }
    assert (Htnew : tight_node subs1 (S pos) new).
    { split.
      - intros path p Hp. destruct (Hnewleaf _ _ Hp) as [-> ->].
        subst subs1. rewrite deref_alter by exact Hqlt.
        rewrite decide_True by reflexivity. cbn. lia.
      - intros path c Hp. subst new.
        apply slot_path_set_slot_inv in Hp
          as [(j & rest & -> & Hj & Hp)|[[-> Hp]|(c0 & rest & Hc & _)]];
          [|discriminate|discriminate|cbn; lia].
        apply slot_path_zero_node in Hp. discriminate. }
    assert (Hlen1 : length (prefix ++ [nib id_ pos]) = S pos)
      by (rewrite length_app; cbn [length]; lia).
    assert (Hpre1 : nibbles id_ (S pos) = prefix ++ [nib id_ pos])
      by (rewrite nibbles_succ, Hpre; reflexivity).
    destruct (find_subscriber_loop_create more' id_ new (S pos) subs1
                (prefix ++ [nib id_ pos]) r n' s' Hid Hok1 Hwfnew Hlen1 Hpre1
                ltac:(lia) Hrec)
      as (Hok' & Hwf' & Hpres' & (q' & path' & -> & Hleaf' & Hsid') & Hold').
    destruct (IH id_ new (S pos) subs1 (prefix ++ [nib id_ pos]) (Some q') n' s'
                Hid Hok1 Hwfnew Hlen1 Hpre1 ltac:(lia) Htnew Hrec)
      as [[Hdepths' Hpairs'] Hframe'].
    assert (Houter : ∀ q0, (q0 < length subs)%nat → q0 ≠ q →
                           abbreviate_len (deref s' q0) = abbreviate_len (deref subs q0)).
    { intros q0 Hq0 Hne. rewrite Hframe'.
      - subst subs1. rewrite deref_alter by exact Hqlt.
        rewrite decide_False by congruence. reflexivity.
      - subst subs1. rewrite length_alter. exact Hq0.
      - intros path Hp. destruct (Hnewleaf _ _ Hp) as [_ ->]. congruence. }
    split; [split|].
    + intros path p Hp.
      apply slot_path_set_slot_inv in Hp
        as [(j & rest & -> & Hj & Hp)|[[-> Hp]|(c & rest & Hc & -> & Hp)]];
        [|discriminate| |lia].
      * destruct (Hleaves _ _ Hp) as (Hplt & _).
        rewrite Houter; [exact (Hdepths _ _ Hp)|exact Hplt|].
        intros ->. pose proof (leaf_unique _ _ _ _ _ _ Hwf Hp Hq) as Heq.
        injection Heq as ? ?. congruence.
      * injection Hc as <-. rewrite (Hdepths' _ _ Hp). cbn [length]. f_equal. lia.
    + intros path c Hp.
      apply slot_path_set_slot_inv in Hp
        as [(j & rest & -> & Hj & Hp)|[[-> Hp]|(c0 & rest & Hc & -> & Hp)]];
        [| | |lia].
      * exact (Hpairs _ _ Hp).
      * injection Hp as ->.
        destruct (Hold' [nib (sid (deref subs q)) (S pos)] q) as [pathq Hq''].
        { apply slot_path_set_slot_here. cbn. lia. }
        exists pathq, q, path', q'. split; [exact Hq''|]. split; [exact Hleaf'|].
        intros ->. destruct Hpres' as [_ Hs']. destruct Hpres1 as [_ Hs1].
        rewrite Hs', Hs1 in Hsid'; [|exact Hqlt|subst subs1; rewrite length_alter; exact Hqlt].
        rewrite Hsid', memcmp_eq_refl in Hcmp. discriminate.
      * injection Hc as <-. exact (Hpairs' _ _ Hp).
    + intros q0 Hq0 Hnot. apply Houter; [exact Hq0|]. intros ->. exact (Hnot _ Hq).
  - (* a child node: go on in it *)
    apply lookup_of_slot_at in Hslot; [|discriminate].
    destruct (find_subscriber_loop more' id_ SID_SIZE true child (S pos) subs)
      as [[r c'] s'] eqn:Hrec.
    injection Hrun as <- <- <-.
    pose proof (wf_node_child _ _ _ _ _ Hwf Hslot) as Hwfc.
    pose proof (tight_node_child _ _ _ _ _ Htight Hslot) as Htc.
    assert (Hlen1 : length (prefix ++ [nib id_ pos]) = S pos)
      by (rewrite length_app; cbn [length]; lia).
    assert (Hpre1 : nibbles id_ (S pos) = prefix ++ [nib id_ pos])
      by (rewrite nibbles_succ, Hpre; reflexivity).
    destruct (find_subscriber_loop_create more' id_ child (S pos) subs
                (prefix ++ [nib id_ pos]) r c' s' Hid Hok Hwfc Hlen1 Hpre1
                ltac:(lia) Hrec)
      as (Hok' & Hwf' & Hpres' & _ & Hold').
    destruct (IH id_ child (S pos) subs (prefix ++ [nib id_ pos]) r c' s'
                Hid Hok Hwfc Hlen1 Hpre1 ltac:(lia) Htc Hrec)
      as [[Hdepths' Hpairs'] Hframe'].
    assert (Hchild : slot_path node [nib id_ pos] (SlotTree child))
      by (constructor; exact Hslot).
    split; [split|].
    + intros path p Hp.
      apply slot_path_set_slot_inv in Hp
        as [(j & rest & -> & Hj & Hp)|[[-> Hp]|(c & rest & Hc & -> & Hp)]];
        [|discriminate| |lia].
      * destruct (Hleaves _ _ Hp) as (Hplt & _).
        rewrite Hframe'; [exact (Hdepths _ _ Hp)|exact Hplt|].
        intros path0 Hp0.
        pose proof (leaf_unique _ _ _ _ _ _ Hwf Hp
                      (slot_path_app _ _ _ _ _ Hchild Hp0)) as Heq.
        cbn in Heq. injection Heq as ? ?. congruence.
      * injection Hc as <-. rewrite (Hdepths' _ _ Hp). cbn [length]. f_equal. lia.
    + intros path c Hp.
      apply slot_path_set_slot_inv in Hp
        as [(j & rest & -> & Hj & Hp)|[[-> Hp]|(c0 & rest & Hc & -> & Hp)]];
        [| | |lia].
      * exact (Hpairs _ _ Hp).
      * injection Hp as ->.
        destruct (Hpairs _ _ Hchild) as (path1 & p1 & path2 & p2 & H1 & H2 & Hne).
        destruct (Hold' _ _ H1) as [path1' H1'].
        destruct (Hold' _ _ H2) as [path2' H2'].
        exists path1', p1, path2', p2. auto.
      * injection Hc as <-. exact (Hpairs' _ _ Hp).
    + intros q0 Hq0 Hnot. apply Hframe'; [exact Hq0|].
      intros path0 Hp0. apply (Hnot (nib id_ pos :: path0)).
      eapply slot_path_below; eassumption.
Qed.

End tight_insertion.

Section grown.

Lemma grown_empty_directory : grown_directory empty_directory.
Proof. split; [apply wf_empty_directory|apply tight_node_zero]. Qed.

(** Registering a 32-byte identifier keeps the directory as registrations
    build it. *)
Lemma find_subscriber_grown (d d' : directory) (id_ : list Z) (ret : option nat) :
  grown_directory d →
  is_sid id_ →
  find_subscriber d id_ SID_SIZE true = (ret, d') →
  grown_directory d'.
Proof.
  intros [Hwf Ht] Hid Hrun.
  split; [apply (find_subscriber_registers _ _ _ _ Hwf Hid Hrun)|].
  destruct Hwf as [Hok Hwf]. unfold find_subscriber in Hrun.
  rewrite Nat.eqb_refl in Hrun. cbn [negb] in Hrun.
  destruct (find_subscriber_loop _ _ _ _ _ _ _) as [[r n'] s'] eqn:Hloop.
  injection Hrun as <- <-.
  apply (find_subscriber_loop_tight _ _ _ _ _ [] _ _ _ Hid Hok Hwf
           eq_refl eq_refl eq_refl Ht Hloop).
Qed.

Lemma insert_all_grown (ids : list (list Z)) :
  ∀ d, grown_directory d → Forall is_sid ids → grown_directory (insert_all d ids).
Proof.
  induction ids as [|id_ ids IH]; intros d Hd Hids; [exact Hd|].
  apply Forall_cons in Hids as [Hid Hids]. rewrite insert_all_cons.
  destruct (find_subscriber d id_ SID_SIZE true) as [r d1] eqn:Hrun.
  apply IH; [|exact Hids]. exact (find_subscriber_grown _ _ _ _ Hd Hid Hrun).
Qed.

(** Changing [send_full] flags changes nothing of the shape. *)
Lemma tight_node_same_lengths (subs subs' : list subscriber) (depth : nat)
    (node : tree_node) :
  (∀ p, abbreviate_len (deref subs' p) = abbreviate_len (deref subs p)) →
  tight_node subs depth node → tight_node subs' depth node.
Proof.
  intros Hsame [Ha Hb]. split; [|exact Hb].
  intros path p Hp. rewrite Hsame. exact (Ha _ _ Hp).
Qed.

Lemma deref_set_send_full_len (subs : list subscriber) (q p : nat) (v : bool) :
  abbreviate_len (deref (alter (set_send_full v) q subs) p)
  = abbreviate_len (deref subs p).
Proof.
  unfold deref. destruct (decide (q = p)) as [->|Hne].
  - rewrite list_lookup_alter_eq. destruct (subs !! p); reflexivity.
  - rewrite list_lookup_alter_ne by exact Hne. reflexivity.
Qed.

Lemma grown_directory_send_full (d : directory) (p : nat) (v : bool) :
  grown_directory d →
  grown_directory (Directory (root d) (alter (set_send_full v) p (subscribers d))).
Proof.
  intros [Hwf Ht]. split; [apply wf_directory_send_full; exact Hwf|].
  eapply tight_node_same_lengths; [|exact Ht].
  intros q. apply deref_set_send_full_len.
Qed.

End grown.

Section lookups.

(** A lookup that returns a subscriber returns a leaf of the tree whose
    identifier starts with the bytes looked up. *)
Lemma find_subscriber_loop_sound (more : nat) :
  ∀ (key : list Z) (len : nat) (node : tree_node) (pos : nat)
    (subs : list subscriber) (p : nat) node' subs',
    find_subscriber_loop more key len false node pos subs = (Some p, node', subs') →
    (∃ path, leaf_at node path p)
    ∧ memcmp_eq (sid (deref subs p)) key len = true.
Proof.
  induction more as [|more' IH]; intros key len node pos subs p node' subs' Hrun;
    rewrite find_subscriber_loop_turn in Hrun;
    destruct (slot_at node (nib key pos)) as [|q|child] eqn:Hslot;
    try discriminate.
  1, 2: destruct (memcmp_eq (sid (deref subs q)) key len) eqn:Hcmp; [|discriminate];
        injection Hrun as -> <- <-;
        apply lookup_of_slot_at in Hslot; [|discriminate];
        split; [exists [nib key pos]; constructor; exact Hslot|exact Hcmp].
  destruct (find_subscriber_loop more' key len false child (S pos) subs)
    as [[r c'] s'] eqn:Hrec.
  injection Hrun as -> <- <-.
  apply lookup_of_slot_at in Hslot; [|discriminate].
  destruct (IH _ _ _ _ _ _ _ _ Hrec) as [[path Hp] Hcmp].
  split; [|exact Hcmp]. exists (nib key pos :: path).
  eapply slot_path_below; eassumption.
Qed.

Lemma memcmp_eq_take (a b : list Z) (n : nat) :
  memcmp_eq a b n = true ↔ take n a = take n b.
Proof. unfold memcmp_eq. apply bool_decide_eq_true. Qed.

End lookups.

Section resolution.

Lemma nibbles_eq_get_nibble (a b : list Z) (n k : nat) :
  nibbles a n = nibbles b n → (k < n)%nat → get_nibble a k = get_nibble b k.
Proof.
  intros Heq Hk.
  pose proof (f_equal (λ l, l !! k) Heq) as Hk'. cbn beta in Hk'.
  rewrite !nibbles_lookup in Hk' by exact Hk. injection Hk' as Hk'.
  unfold nib in Hk'.
  pose proof (get_nibble_range a k). pose proof (get_nibble_range b k). lia.
Qed.

(** The first nibbles of a leaf's identifier are the first slots of its path. *)
Lemma leaf_nibbles (d : directory) (path : list nat) (p : nat) (m : nat) :
  wf_directory d → leaf_at (root d) path p → (m <= length path)%nat →
  nibbles (sid (deref (subscribers d) p)) m = take m path.
Proof.
  intros [_ (_ & _ & Hleaves)] Hp Hm.
  destruct (Hleaves _ _ Hp) as (_ & Hn & _). cbn [length app Nat.add] in Hn.
  rewrite <- Hn. symmetry. apply nibbles_take. exact Hm.
Qed.

(** No two subscribers of the directory hold the same identifier. *)
Lemma same_sid_same_subscriber (d : directory) (p q : nat) :
  wf_directory d → in_directory d p → in_directory d q →
  sid (deref (subscribers d) p) = sid (deref (subscribers d) q) → p = q.
Proof.
  intros Hwf [pp Hp] [pq Hq] Hsid.
  assert (Hle : ∀ a b x y, leaf_at (root d) a x → leaf_at (root d) b y →
                  sid (deref (subscribers d) x) = sid (deref (subscribers d) y) →
                  (length a <= length b)%nat → x = y).
  { intros a b x y Ha Hb Hxy Hab.
    pose proof (leaf_nibbles d a x (length a) Hwf Ha ltac:(lia)) as Hna.
    pose proof (leaf_nibbles d b y (length a) Hwf Hb Hab) as Hnb.
    rewrite Hxy, Hnb, firstn_all in Hna.
    rewrite <- (take_drop (length a) b), Hna in Hb.
    pose proof (leaf_path_not_extended _ _ _ _ _ Ha Hb) as Hnil.
    rewrite Hnil, app_nil_r in Hb.
    pose proof (slot_path_functional _ _ _ _ Ha Hb) as Heq. congruence. }
  destruct (decide (length pp <= length pq)%nat).
  - eapply Hle; eauto.
  - symmetry. eapply Hle; eauto. lia.
Qed.

(** A prefix that reaches at least as deep as the leaf of a subscriber and
    agrees with its identifier resolves to it. *)
Lemma find_subscriber_deep_enough (d : directory) (path : list nat) (p : nat)
    (key : list Z) (n : nat) (create : bool) :
  wf_directory d →
  leaf_at (root d) path p →
  (1 <= n)%nat →
  (length path <= 2 * n)%nat →
  take n (sid (deref (subscribers d) p)) = take n key →
  find_subscriber d key n create = (Some p, d).
Proof.
  intros Hwf Hp Hn Hdeep Hkey. unfold find_subscriber.
  rewrite (find_subscriber_loop_hit path (root d) 0 _ _ n _ (subscribers d) p Hp).
  - destruct d. reflexivity.
  - intros k Hk. cbn [Nat.add].
    pose proof (leaf_nibbles d path p (length path) Hwf Hp ltac:(lia)) as Hnib.
    rewrite firstn_all in Hnib. rewrite <- Hnib, nibbles_lookup by exact Hk.
    f_equal. unfold nib. f_equal. apply (take_eq_get_nibble _ _ n); [exact Hkey|lia].
  - apply memcmp_eq_take. exact Hkey.
  - lia.
Qed.

(** Below a child node at depth [2n] there are two subscribers that share
    their first [n] bytes. *)
Lemma deep_leaf_has_neighbour (d : directory) (path : list nat) (p : nat) (n : nat) :
  grown_directory d →
  leaf_at (root d) path p →
  (1 <= n)%nat →
  (2 * n < length path)%nat →
  ∃ q, in_directory d q ∧ q ≠ p
       ∧ take n (sid (deref (subscribers d) q)) = take n (sid (deref (subscribers d) p)).
Proof.
  intros [Hwf [_ Hpairs]] Hp Hn Hdeep.
  pose proof Hp as Hp0.
  rewrite <- (take_drop (2 * n) path) in Hp.
  apply slot_path_split in Hp as (child & Hchild & Hrest).
  2: { intros Hnil. apply (f_equal length) in Hnil. rewrite length_take in Hnil.
       cbn in Hnil. lia. }
  2: { intros Hnil. apply (f_equal length) in Hnil. rewrite length_drop in Hnil.
       cbn in Hnil. lia. }
  destruct (Hpairs _ _ Hchild) as (path1 & p1 & path2 & p2 & H1 & H2 & Hne).
  assert (Hshare : ∀ x pathx, leaf_at child pathx x →
            in_directory d x
            ∧ take n (sid (deref (subscribers d) x))
              = take n (sid (deref (subscribers d) p))).
  { intros x pathx Hx.
    pose proof (slot_path_app _ _ _ _ _ Hchild Hx) as Hx'.
    split; [eexists; exact Hx'|].
    pose proof Hwf as [Hok (_ & _ & Hleaves)].
    destruct (Hleaves _ _ Hx') as (Hxlt & _). destruct (Hleaves _ _ Hp0) as (Hplt & _).
    apply take_eq_of_nibbles;
      [apply (arena_ok_deref _ _ Hok Hxlt)|apply (arena_ok_deref _ _ Hok Hplt)|].
    intros k Hk. apply (nibbles_eq_get_nibble _ _ (2 * n)); [|exact Hk].
    rewrite (leaf_nibbles d _ x (2 * n) Hwf Hx'),
            (leaf_nibbles d _ p (2 * n) Hwf Hp0) by
      (try rewrite length_app, length_take; lia).
    rewrite take_app_length'; [reflexivity|]. rewrite length_take. lia. }
  destruct (decide (p1 = p)) as [->|Hp1].
  - exists p2. destruct (Hshare _ _ H2). split; [assumption|]. split; [congruence|assumption].
  - exists p1. destruct (Hshare _ _ H1). split; [assumption|]. split; assumption.
Qed.

End resolution.

Section lookup_results.

(** What a lookup gives: the directory as it was, and a subscriber of it that
    starts with the bytes looked up, or nothing. *)
Lemma find_subscriber_lookup (d : directory) (key : list Z) (len : nat)
    (create : bool) :
  create = false ∨ len ≠ SID_SIZE →
  ∃ ret, find_subscriber d key len create = (ret, d)
         ∧ ∀ p, ret = Some p →
                in_directory d p
                ∧ take len (sid (deref (subscribers d) p)) = take len key.
Proof.
  intros Hlookup. unfold find_subscriber.
  assert ((if negb (len =? SID_SIZE)%nat then false else create) = false) as ->.
  { destruct Hlookup as [->|Hlen]; [destruct (negb _); reflexivity|].
    apply Nat.eqb_neq in Hlen. rewrite Hlen. reflexivity. }
  destruct (find_subscriber_loop _ _ _ _ _ _ _) as [[r n'] s'] eqn:Hloop.
  destruct (find_subscriber_loop_lookup_only _ _ _ _ _ _ _ _ _ Hloop) as [-> ->].
  exists r. split; [destruct d; reflexivity|].
  intros p ->. apply find_subscriber_loop_sound in Hloop as [Hleaf Hcmp].
  split; [exact Hleaf|]. apply memcmp_eq_take. exact Hcmp.
Qed.

(** The subscribers of a directory built from a list of identifiers are
    numbered in the order of the list. *)
Lemma in_directory_bound (d : directory) (p : nat) (n : nat) :
  wf_directory d → length (subscribers d) = n → in_directory d p → (p < n)%nat.
Proof. intros Hwf <- Hp. exact (in_directory_allocated _ _ Hwf Hp). Qed.

End lookup_results.

(** X1. A lookup ([create] unset, or a prefix that is not 32 bytes long
    whatever [create] is) never changes the directory, and a subscriber it
    returns is a subscriber of the directory whose identifier starts with the
    [len] bytes looked up. *)
Theorem lookup_returns_matching_subscriber (d : directory) (key : list Z)
    (len : nat) (create : bool) :
  create = false ∨ len ≠ SID_SIZE →
  let '(ret, d') := find_subscriber d key len create in
  d' = d
  ∧ ∀ p, ret = Some p →
         in_directory d p
         ∧ take len (sid (deref (subscribers d) p)) = take len key.
Proof.
  intros Hlookup.
  destruct (find_subscriber_lookup d key len create Hlookup) as (ret & -> & Hret).
  split; [reflexivity|exact Hret].
Qed.

Lemma lookup_returns_matching_subscriber_witness :
  let '(ret, d') := find_subscriber two_subscriber_directory [0x20] 1 true in
  d' = two_subscriber_directory
  ∧ ∀ p, ret = Some p →
         in_directory two_subscriber_directory p
         ∧ take 1 (sid (deref (subscribers two_subscriber_directory) p)) = take 1 [0x20].
Proof.
  apply (lookup_returns_matching_subscriber two_subscriber_directory [0x20] 1 true).
  right. discriminate.
Defined.

(** X2. Looking up bytes that no subscriber of the directory starts with
    returns nothing and leaves the directory as it is. *)
Theorem lookup_unknown_returns_nothing (d : directory) (key : list Z) (len : nat) :
  (∀ p, in_directory d p →
        take len (sid (deref (subscribers d) p)) ≠ take len key) →
  find_subscriber d key len false = (None, d).
Proof.
  intros Hnone.
  destruct (find_subscriber_lookup d key len false (or_introl eq_refl))
    as ([p|] & Hrun & Hret); [|exact Hrun].
  destruct (Hret p eq_refl) as [Hin Hmatch]. destruct (Hnone p Hin Hmatch).
Qed.

Lemma lookup_unknown_returns_nothing_witness :
  find_subscriber one_subscriber_directory (sid_of [0x20]) 32 false
  = (None, one_subscriber_directory).
Proof.
  apply (lookup_unknown_returns_nothing one_subscriber_directory (sid_of [0x20]) 32).
  intros p Hp.
  assert (Hwf : wf_directory one_subscriber_directory).
  { apply wf_insert_all. sid_of_ok. }
  pose proof (in_directory_bound _ p 1 Hwf eq_refl Hp) as Hlt.
  assert (p = 0%nat) as -> by lia.
  vm_compute. discriminate.
Defined.

(** X3. Registering a 32-byte identifier in a directory built by
    registrations returns a subscriber that holds the identifier, keeps the
    directory one built by registrations, and keeps every earlier subscriber
    with its identifier; registering or looking up the identifier again
    returns the same subscriber and changes nothing. *)
Theorem register_then_lookup (d : directory) (id_ : list Z) :
  grown_directory d →
  is_sid id_ →
  let '(ret, d') := find_subscriber d id_ SID_SIZE true in
  ∃ q, ret = Some q
       ∧ in_directory d' q
       ∧ sid (deref (subscribers d') q) = id_
       ∧ grown_directory d'
       ∧ (∀ p, in_directory d p →
               in_directory d' p
               ∧ sid (deref (subscribers d') p) = sid (deref (subscribers d) p))
       ∧ (∀ create, find_subscriber d' id_ SID_SIZE create = (Some q, d')).
Proof.
  intros Hd Hid.
  destruct (find_subscriber d id_ SID_SIZE true) as [ret d'] eqn:Hrun.
  pose proof (find_subscriber_grown _ _ _ _ Hd Hid Hrun) as Hd'.
  destruct Hd as [Hwf _].
  destruct (find_subscriber_registers _ _ _ _ Hwf Hid Hrun)
    as (Hwf' & [_ Hpres] & (q & -> & Hq & Hsid) & Hold).
  exists q. split; [reflexivity|]. split; [exact Hq|]. split; [exact Hsid|].
  split; [exact Hd'|]. split.
  - intros p Hp. split; [exact (Hold _ Hp)|].
    apply Hpres. exact (in_directory_allocated _ _ Hwf Hp).
  - intros create. rewrite <- Hsid at 1. apply find_subscriber_present; assumption.
Qed.

Lemma register_then_lookup_witness :
  let '(ret, d') :=
    find_subscriber one_subscriber_directory (sid_of [0x10; 0x01]) SID_SIZE true in
  ∃ q, ret = Some q
       ∧ in_directory d' q
       ∧ sid (deref (subscribers d') q) = sid_of [0x10; 0x01]
       ∧ grown_directory d'
       ∧ (∀ p, in_directory one_subscriber_directory p →
               in_directory d' p
               ∧ sid (deref (subscribers d') p)
                 = sid (deref (subscribers one_subscriber_directory) p))
       ∧ (∀ create, find_subscriber d' (sid_of [0x10; 0x01]) SID_SIZE create
                    = (Some q, d')).
Proof.
  apply (register_then_lookup one_subscriber_directory (sid_of [0x10; 0x01])).
  - apply insert_all_grown; [apply grown_empty_directory|].
    sid_of_ok.
  - apply is_sid_sid_of; bytes_ok.
Defined.

(** X4. No two subscribers of a well-formed directory hold the same
    identifier. *)
Theorem subscribers_have_distinct_identifiers (d : directory) (p q : nat) :
  wf_directory d →
  in_directory d p →
  in_directory d q →
  p ≠ q →
  sid (deref (subscribers d) p) ≠ sid (deref (subscribers d) q).
Proof.
  intros Hwf Hp Hq Hne Hsid. apply Hne.
  exact (same_sid_same_subscriber d p q Hwf Hp Hq Hsid).
Qed.

Lemma subscribers_have_distinct_identifiers_witness :
  sid (deref (subscribers two_subscriber_directory) 0)
  ≠ sid (deref (subscribers two_subscriber_directory) 1).
Proof.
  apply (subscribers_have_distinct_identifiers two_subscriber_directory 0 1).
  - apply wf_insert_all. sid_of_ok.
  - exists [1%nat]. constructor. reflexivity.
  - exists [2%nat]. constructor. reflexivity.
  - discriminate.
Defined.

(** X5. In a directory built by registrations, the prefix made of the first
    [n] bytes of a subscriber's identifier resolves to that subscriber
    exactly when no other subscriber of the directory starts with the same
    [n] bytes; otherwise the lookup returns nothing.  The prefix resolves in
    particular when it covers the [abbreviate_len] nibbles of the
    subscriber. *)
Theorem prefix_resolves_iff_unique (d : directory) (p : nat) (n : nat)
    (create : bool) :
  grown_directory d →
  in_directory d p →
  (1 <= n <= 32)%nat →
  let key := take n (sid (deref (subscribers d) p)) in
  let unique := ∀ q, in_directory d q →
                     take n (sid (deref (subscribers d) q)) = key → q = p in
  (unique → find_subscriber d key n create = (Some p, d))
  ∧ (¬ unique → find_subscriber d key n create = (None, d))
  ∧ (abbreviate_len (deref (subscribers d) p) <= 2 * Z.of_nat n → unique).
Proof.
  intros Hd [path Hp] Hn key unique.
  pose proof Hd as [Hwf [Hdepths _]].
  assert (Hfar : (2 * n < length path)%nat → ¬ unique).
  { intros Hdeep Huniq.
    destruct (deep_leaf_has_neighbour d path p n Hd Hp ltac:(lia) Hdeep)
      as (q & Hq & Hne & Hshare).
    exact (Hne (Huniq q Hq Hshare)). }
  assert (Hnear : (length path <= 2 * n)%nat →
                  find_subscriber d key n create = (Some p, d)).
  { intros Hnear. apply (find_subscriber_deep_enough d path p key n create Hwf Hp);
      [lia|exact Hnear|]. subst key. rewrite take_take, Nat.min_id. reflexivity. }
  assert (Hshared : ∀ q, in_directory d q → q ≠ p →
                         take n (sid (deref (subscribers d) q)) = key →
                         find_subscriber d key n create = (None, d)).
  { intros q Hq Hne Hshare. subst key.
    apply (find_subscriber_shared_prefix d p q n create Hwf);
      [eexists; exact Hp|exact Hq| |lia|symmetry; exact Hshare].
    intros Hsid. apply Hne. symmetry.
    apply (same_sid_same_subscriber d p q Hwf); [eexists; exact Hp|exact Hq|exact Hsid]. }
  split; [|split].
  - intros Huniq. apply Hnear.
    destruct (decide (length path <= 2 * n)%nat) as [|Hdeep]; [assumption|].
    destruct (Hfar ltac:(lia) Huniq).
  - intros Hnot.
    destruct (decide (length path <= 2 * n)%nat) as [Hle|Hdeep].
    + exfalso. apply Hnot. intros q Hq Hshare.
      destruct (decide (q = p)) as [|Hne]; [assumption|].
      pose proof (Hshared q Hq Hne Hshare) as Hrun.
      rewrite (Hnear Hle) in Hrun. discriminate.
    + destruct (deep_leaf_has_neighbour d path p n Hd Hp ltac:(lia) ltac:(lia))
        as (q & Hq & Hne & Hshare).
      exact (Hshared q Hq Hne Hshare).
  - intros Hlen q Hq Hshare.
    destruct (decide (q = p)) as [|Hne]; [assumption|exfalso].
    pose proof (Hshared q Hq Hne Hshare) as Hrun.
    rewrite Hnear in Hrun; [discriminate|].
    rewrite (Hdepths _ _ Hp) in Hlen. cbn [Nat.add] in Hlen. lia.
Qed.

Lemma prefix_resolves_iff_unique_witness :
  let d := two_subscriber_directory in
  let key := take 1 (sid (deref (subscribers d) 0)) in
  let unique := ∀ q, in_directory d q →
                     take 1 (sid (deref (subscribers d) q)) = key → q = 0%nat in
  (unique → find_subscriber d key 1 false = (Some 0%nat, d))
  ∧ (¬ unique → find_subscriber d key 1 false = (None, d))
  ∧ (abbreviate_len (deref (subscribers d) 0) <= 2 * Z.of_nat 1 → unique).
Proof.
  apply (prefix_resolves_iff_unique two_subscriber_directory 0 1 false).
  - apply insert_all_grown; [apply grown_empty_directory|].
    sid_of_ok.
  - exists [1%nat]. constructor. reflexivity.
  - lia.
Defined.

Section encoder_results.
Context `{Header}.

(** Without room for the length byte and the prefix, the literal branch of the
    encoder fails, leaves the context as it is, and has written nothing or
    the length byte alone. *)
Lemma append_literal_short (ctx : decode_context) (b : overlay_buffer)
    (subs : list subscriber) (p : nat) :
  is_sender (Some ctx) p = false →
  is_previous (Some ctx) p = false →
  0 <= abbreviate_len (deref subs p) <= INT_MAX - 2 →
  ob_has_room b (1 + Z.to_nat (encoded_length (deref subs p))) = false →
  ∃ b' subs', overlay_address_append (Some ctx) b subs (Some p)
              = (-1, Some ctx, b', subs')
              ∧ (bytes b' = bytes b
                 ∨ bytes b' = bytes b ++ [encoded_length (deref subs p)]).
Proof.
  intros Hs Hp Hpos Hroom.
  set (s := deref subs p) in *. set (L := encoded_length s) in *.
  pose proof (encoded_length_range s Hpos) as HL. fold L in HL.
  assert (Hwrite : ∀ (A : Type) (x : A),
            ∃ b', (let '(r, b0) := ob_append_byte b L in
                   if negb (r =? 0) then (-1, Some ctx, b0, x)
                   else
                     let '(r, b0) :=
                       if L <? 0 then (-1, b0)
                       else ob_append_bytes b0 (sid s) (Z.to_nat L) in
                     if negb (r =? 0) then (-1, Some ctx, b0, x)
                     else (0, Some (set_previous ctx (Some p)), b0, x))
                  = (-1, Some ctx, b', x)
                  ∧ (bytes b' = bytes b ∨ bytes b' = bytes b ++ [L])).
  { intros A x. unfold ob_append_byte.
    destruct (ob_has_room b 1) eqn:H1;
      [|eexists; split; [reflexivity|left; reflexivity]].
    cbn [Z.eqb negb].
    assert (Hneg : (L <? 0) = false) by (apply Z.ltb_ge; lia).
    rewrite Hneg. unfold ob_append_bytes.
    destruct (ob_has_room _ (Z.to_nat L)) eqn:H2.
    - exfalso. revert Hroom H2. unfold ob_has_room. cbn [sizeLimit bytes].
      destruct (sizeLimit b) as [limit|]; [|discriminate].
      rewrite length_app. cbn [length]. intros Hno Hyes.
      apply Nat.leb_le in Hyes. apply Nat.leb_gt in Hno. lia.
    - eexists. split; [reflexivity|]. right. cbn [bytes].
      change 0xff with (Z.ones 8). rewrite Z.land_ones by lia.
      rewrite Z.mod_small by lia. reflexivity. }
  unfold overlay_address_append. rewrite Hs, Hp. fold s. cbv zeta.
  revert Hwrite. subst L. unfold encoded_length.
  change (Z.of_nat SID_SIZE) with 32.
  destruct (send_full s).
  - intros Hw. destruct (Hw _ (alter (set_send_full false) p subs)) as (b' & Hb' & Hbytes).
    eexists _, _. split; [exact Hb'|exact Hbytes].
  - destruct (reachable s =? REACHABLE_SELF).
    + destruct (_ >? 32) eqn:Hgt.
      * rewrite Z.min_l by lia. intros Hw. destruct (Hw _ subs) as (b' & Hb' & Hbytes).
        eexists _, _. split; [exact Hb'|exact Hbytes].
      * rewrite Z.min_r by lia. intros Hw. destruct (Hw _ subs) as (b' & Hb' & Hbytes).
        eexists _, _. split; [exact Hb'|exact Hbytes].
    + rewrite Z.add_0_r. destruct (_ >? 32) eqn:Hgt.
      * rewrite Z.min_l by lia. intros Hw. destruct (Hw _ subs) as (b' & Hb' & Hbytes).
        eexists _, _. split; [exact Hb'|exact Hbytes].
      * rewrite Z.min_r by lia. intros Hw. destruct (Hw _ subs) as (b' & Hb' & Hbytes).
        eexists _, _. split; [exact Hb'|exact Hbytes].
Qed.

(** What a successful encoder call has done. *)
Lemma append_success (ctx : decode_context) (b : overlay_buffer)
    (subs : list subscriber) (p : nat) ctx1 b1 subs1 :
  0 <= abbreviate_len (deref subs p) <= INT_MAX - 2 →
  overlay_address_append (Some ctx) b subs (Some p) = (0, ctx1, b1, subs1) →
  ctx1 = Some (set_previous ctx (Some p))
  ∧ ((sender ctx = Some p ∧ b1 = ob_with b [OA_CODE_SELF] ∧ subs1 = subs)
     ∨ (sender ctx ≠ Some p ∧ previous ctx = Some p
        ∧ b1 = ob_with b [OA_CODE_PREVIOUS] ∧ subs1 = subs)
     ∨ (sender ctx ≠ Some p ∧ previous ctx ≠ Some p
        ∧ b1 = ob_with b (encoded_length (deref subs p)
                          :: take (Z.to_nat (encoded_length (deref subs p)))
                                  (sid (deref subs p)))
        ∧ subs1 = if send_full (deref subs p)
                  then alter (set_send_full false) p subs else subs)).
Proof.
  intros Hpos Hrun.
  split; [exact (append_sets_previous _ _ _ _ _ _ _ Hrun)|].
  destruct (decide (sender ctx = Some p)) as [Hs|Hs].
  { left. destruct (ob_has_room b 1) eqn:Hroom.
    - rewrite (append_sender_branch _ _ _ _ Hs Hroom) in Hrun.
      injection Hrun as _ <- <-. auto.
    - exfalso. revert Hrun. unfold overlay_address_append, is_sender.
      rewrite bool_decide_true by exact Hs. unfold ob_append_byte. rewrite Hroom.
      cbn. discriminate. }
  right. destruct (decide (previous ctx = Some p)) as [Hp|Hp].
  { left. destruct (ob_has_room b 1) eqn:Hroom.
    - rewrite (append_previous_branch _ _ _ _ Hs Hp Hroom) in Hrun.
      injection Hrun as _ <- <-. auto.
    - exfalso. revert Hrun. unfold overlay_address_append.
      rewrite (is_sender_false _ _ Hs). unfold is_previous.
      rewrite bool_decide_true by exact Hp. unfold ob_append_byte. rewrite Hroom.
      cbn. discriminate. }
  right.
  destruct (ob_has_room b (1 + Z.to_nat (encoded_length (deref subs p)))) eqn:Hroom.
  - assert (Hnn : 0 <= encoded_length (deref subs p))
      by (pose proof (encoded_length_range _ Hpos); lia).
    rewrite (append_literal_branch ctx b subs p (is_sender_false _ _ Hs)
               (is_previous_false _ _ Hp) Hnn Hroom) in Hrun.
    injection Hrun as _ <- <-. auto.
  - destruct (append_literal_short ctx b subs p (is_sender_false _ _ Hs)
                (is_previous_false _ _ Hp) Hpos Hroom) as (b' & subs' & Hfail & _).
    rewrite Hfail in Hrun. discriminate.
Qed.

End encoder_results.

Section decoder_results.
Context `{Header}.

(** The byte at the read position. *)
Lemma ob_get_middle (before after : list Z) (x : Z) (limit : option nat) :
  ob_get (Buffer (before ++ x :: after) (length before) limit)
  = (x, Buffer (before ++ x :: after) (S (length before)) limit).
Proof.
  unfold ob_get. cbn [bytes position sizeLimit].
  rewrite list_lookup_middle by reflexivity. reflexivity.
Qed.

(** Decoding the code for the sender of the frame. *)
Lemma parse_code_self (ctx : decode_context) (d : directory) (s : nat)
    (before after : list Z) (limit : option nat) (held : option nat) :
  sender ctx = Some s →
  overlay_address_parse ctx
    (Buffer (before ++ OA_CODE_SELF :: after) (length before) limit) held d
  = Parsed 0 (set_previous ctx (Some s))
      (Buffer (before ++ OA_CODE_SELF :: after) (S (length before)) limit) (Some s) d.
Proof.
  intros Hs. unfold overlay_address_parse. rewrite ob_get_middle.
  change (OA_CODE_SELF <? 0) with false. rewrite Z.eqb_refl. cbv iota.
  rewrite Hs. reflexivity.
Qed.

(** Decoding the code for the previous address. *)
Lemma parse_code_previous (ctx : decode_context) (d : directory) (s : nat)
    (before after : list Z) (limit : option nat) (held : option nat) :
  previous ctx = Some s →
  overlay_address_parse ctx
    (Buffer (before ++ OA_CODE_PREVIOUS :: after) (length before) limit) held d
  = Parsed 0 ctx
      (Buffer (before ++ OA_CODE_PREVIOUS :: after) (S (length before)) limit)
      (Some s) d.
Proof.
  intros Hs. unfold overlay_address_parse. rewrite ob_get_middle.
  change (OA_CODE_PREVIOUS <? 0) with false.
  change (OA_CODE_PREVIOUS =? OA_CODE_SELF) with false. rewrite Z.eqb_refl.
  cbv iota. rewrite Hs. reflexivity.
Qed.

(** Decoding a literal prefix that the directory resolves. *)
Lemma parse_literal_found (ctx : decode_context) (d d' : directory) (p : nat)
    (before after id_ : list Z) (len : Z) (limit : option nat) (held : option nat) :
  0 < len <= 32 →
  length id_ = Z.to_nat len →
  find_subscriber d id_ (Z.to_nat len) true = (Some p, d') →
  overlay_address_parse ctx
    (Buffer (before ++ len :: id_ ++ after) (length before) limit) held d
  = Parsed 0 (set_previous ctx (Some p))
      (Buffer (before ++ len :: id_ ++ after) (S (length before) + Z.to_nat len) limit)
      (Some p) d'.
Proof.
  intros Hlen Hid Hfound.
  unfold overlay_address_parse. rewrite ob_get_middle.
  assert ((len <? 0) = false) as -> by lia.
  assert ((len =? OA_CODE_SELF) = false) as ->
    by (apply Z.eqb_neq; unfold OA_CODE_SELF; lia).
  assert ((len =? OA_CODE_PREVIOUS) = false) as ->
    by (apply Z.eqb_neq; unfold OA_CODE_PREVIOUS; lia).
  unfold find_subscr_buffer.
  assert ((len <=? 0) = false) as -> by lia.
  assert ((len >? Z.of_nat SID_SIZE) = false) as ->
    by (unfold SID_SIZE; rewrite Z.gtb_ltb; apply Z.ltb_ge; lia).
  cbn [orb]. rewrite <- Hid at 1. rewrite ob_get_bytes_ptr_middle.
  rewrite Hfound, Hid. reflexivity.
Qed.

(** The length byte the encoder writes covers the depth of the leaf. *)
Lemma encoded_length_covers (s : subscriber) :
  0 <= abbreviate_len s <= 64 → abbreviate_len s <= 2 * encoded_length s.
Proof.
  intros Hpos. unfold encoded_length. destruct (send_full s); [lia|].
  rewrite int_wrap_small by (unfold INT_MAX; lia).
  assert (abbreviate_len s + 1 <= 2 * Z.quot (abbreviate_len s + 2) 2).
  { rewrite Z.quot_div_nonneg by lia.
    pose proof (Z.div_mod (abbreviate_len s + 2) 2 ltac:(lia)).
    pose proof (Z.mod_pos_bound (abbreviate_len s + 2) 2 ltac:(lia)). lia. }
  destruct (_ =? _); lia.
Qed.

(** A subscriber of a directory built by registrations, written by the
    encoder as a literal prefix, is what the decoder resolves the prefix to.
    The encoder may have worked on an arena that differs in the [send_full]
    flags. *)
Lemma parse_encoded_literal (ctx : decode_context) (d : directory)
    (subs : list subscriber) (p : nat) (before after : list Z)
    (limit : option nat) (held : option nat) :
  grown_directory d →
  same_keys subs (subscribers d) →
  in_directory d p →
  let L := encoded_length (deref subs p) in
  let data := L :: take (Z.to_nat L) (sid (deref subs p)) in
  overlay_address_parse ctx
    (Buffer (before ++ data ++ after) (length before) limit) held d
  = Parsed 0 (set_previous ctx (Some p))
      (Buffer (before ++ data ++ after) (length before + length data) limit)
      (Some p) d.
Proof.
  intros [Hwf [Hdepths _]] Hkeys [path Hp] L data.
  destruct (Hkeys p) as [Hsid Habbr].
  pose proof Hwf as [Hok (_ & _ & Hleaves)].
  destruct (Hleaves _ _ Hp) as (Hplt & _ & Hdeep).
  destruct (arena_ok_deref _ _ Hok Hplt) as [[Hsidlen _] _].
  pose proof (Hdepths _ _ Hp) as Hdepth. cbn [Nat.add length app] in Hdepth, Hdeep.
  assert (Hrange : 0 <= abbreviate_len (deref subs p) <= 64) by lia.
  pose proof (encoded_length_range (deref subs p) ltac:(unfold INT_MAX; lia)) as HL.
  pose proof (encoded_length_covers (deref subs p) Hrange) as Hcover.
  fold L in HL, Hcover.
  assert (Hlen : length (take (Z.to_nat L) (sid (deref subs p))) = Z.to_nat L).
  { rewrite length_take, <- Hsid, Hsidlen. unfold SID_SIZE. lia. }
  subst data. cbn [app length].
  rewrite (parse_literal_found ctx d d p before after _ L limit held);
    [f_equal; f_equal; lia|lia|exact Hlen|].
  apply (find_subscriber_deep_enough d path p _ (Z.to_nat L) true Hwf Hp);
    [lia|lia|].
  rewrite Hsid, take_take, Nat.min_id. reflexivity.
Qed.

End decoder_results.

Section codec_round_trip.
Context `{Header}.

Lemma same_keys_refl (subs : list subscriber) : same_keys subs subs.
Proof. intros p. split; reflexivity. Qed.

Lemma same_keys_send_full (subs subs' : list subscriber) (q : nat) (v : bool) :
  same_keys subs subs' → same_keys (alter (set_send_full v) q subs) subs'.
Proof.
  intros Hk p. destruct (Hk p) as [Hs Ha].
  rewrite Hs, Ha, deref_set_send_full_len.
  rewrite (proj1 (deref_set_send_full subs q p v)). split; reflexivity.
Qed.

Lemma same_keys_sym (subs subs' : list subscriber) :
  same_keys subs subs' → same_keys subs' subs.
Proof. intros Hk p. destruct (Hk p) as [Hs Ha]. split; congruence. Qed.

(** One address: what the encoder wrote for a subscriber of the directory is
    decoded, under the context the encoder started from, to this
    subscriber, and both leave the same context. *)
Lemma decode_encoded_step (ctx : decode_context) (b : overlay_buffer)
    (subs : list subscriber) (d : directory) (p : nat) ctx1 b1 subs1 :
  grown_directory d →
  same_keys subs (subscribers d) →
  in_directory d p →
  overlay_address_append (Some ctx) b subs (Some p) = (0, ctx1, b1, subs1) →
  ∃ data,
    b1 = ob_with b data
    ∧ ctx1 = Some (set_previous ctx (Some p))
    ∧ same_keys subs1 (subscribers d)
    ∧ ∀ before after limit held,
        overlay_address_parse ctx
          (Buffer (before ++ data ++ after) (length before) limit) held d
        = Parsed 0 (set_previous ctx (Some p))
            (Buffer (before ++ data ++ after) (length before + length data) limit)
            (Some p) d.
Proof.
  intros Hd Hkeys Hin Hrun.
  assert (Hpos : 0 <= abbreviate_len (deref subs p) <= INT_MAX - 2).
  { destruct Hd as [Hwf [Hdepths _]]. destruct (Hkeys p) as [_ Habbr].
    rewrite <- Habbr.
    destruct Hin as [path Hp].
    destruct (proj2 (proj2 (proj2 Hwf)) _ _ Hp) as (_ & _ & Hdeep).
    pose proof (Hdepths _ _ Hp) as Hdepth.
    cbn [Nat.add length app] in Hdepth, Hdeep. unfold INT_MAX. lia. }
  destruct (append_success ctx b subs p _ _ _ Hpos Hrun)
    as [-> [(Hs & -> & ->)|[(Hs & Hp & -> & ->)|(Hs & Hp & -> & ->)]]].
  - exists [OA_CODE_SELF]. split; [reflexivity|]. split; [reflexivity|].
    split; [exact Hkeys|]. intros before after limit held. cbn [app length].
    rewrite (parse_code_self ctx d p before after limit held Hs).
    f_equal. f_equal. lia.
  - exists [OA_CODE_PREVIOUS]. split; [reflexivity|]. split; [reflexivity|].
    split; [exact Hkeys|]. intros before after limit held. cbn [app length].
    rewrite (parse_code_previous ctx d p before after limit held Hp).
    rewrite (set_previous_same ctx p Hp). f_equal. f_equal. lia.
  - eexists. split; [reflexivity|]. split; [reflexivity|]. split.
    + destruct (send_full (deref subs p)); [|exact Hkeys].
      apply same_keys_send_full. exact Hkeys.
    + intros before after limit held.
      apply (parse_encoded_literal ctx d subs p before after limit held Hd Hkeys Hin).
Qed.

(** A sequence of addresses. *)
Lemma decode_encoded_sequence (ps : list nat) :
  ∀ (ctx : decode_context) (b : overlay_buffer) (subs : list subscriber)
    (d : directory) ctx' b' subs',
    grown_directory d →
    same_keys subs (subscribers d) →
    Forall (in_directory d) ps →
    encode_sequence (Some ctx) b subs ps = (0, ctx', b', subs') →
    ∃ data ctx'',
      ctx' = Some ctx''
      ∧ b' = ob_with b data
      ∧ same_keys subs' (subscribers d)
      ∧ ∀ before after limit,
          decode_sequence (length ps) ctx
            (Buffer (before ++ data ++ after) (length before) limit) d
          = (map Some ps, ctx'',
             Buffer (before ++ data ++ after) (length before + length data) limit, d).
Proof.
  induction ps as [|p ps IH]; intros ctx b subs d ctx' b' subs' Hd Hkeys Hps Hrun.
  - injection Hrun as <- <- <-. exists [], ctx.
    split; [reflexivity|]. split; [unfold ob_with; rewrite app_nil_r; destruct b; reflexivity|].
    split; [exact Hkeys|]. intros before after limit. cbn.
    rewrite Nat.add_0_r. reflexivity.
  - apply Forall_cons in Hps as [Hp Hps]. cbn [encode_sequence] in Hrun.
    destruct (overlay_address_append (Some ctx) b subs (Some p))
      as [[[r c1] b1] s1] eqn:Hstep.
    destruct (r =? 0) eqn:Hr; [|injection Hrun as -> _ _ _; discriminate].
    apply Z.eqb_eq in Hr as ->.
    destruct (decode_encoded_step ctx b subs d p _ _ _ Hd Hkeys Hp Hstep)
      as (data1 & -> & -> & Hkeys1 & Hparse).
    destruct (IH _ _ _ d _ _ _ Hd Hkeys1 Hps Hrun)
      as (data2 & ctx'' & -> & -> & Hkeys' & Hrest).
    exists (data1 ++ data2), ctx''. split; [reflexivity|].
    split; [apply ob_with_with|]. split; [exact Hkeys'|].
    intros before after limit. cbn [length decode_sequence map].
    rewrite <- app_assoc, Hparse.
    cbn [parse_ret parse_context parse_buffer parse_directory parse_subscriber].
    rewrite Z.eqb_refl.
    specialize (Hrest (before ++ data1) after limit).
    rewrite length_app, <- !app_assoc in Hrest. rewrite Hrest.
    rewrite length_app, Nat.add_assoc. reflexivity.
Qed.


(** The encoder changes nothing of an arena but [send_full] flags. *)
Lemma append_arena (context : option decode_context) (b : overlay_buffer)
    (subs : list subscriber) (p : option nat) r c b1 subs1 :
  overlay_address_append context b subs p = (r, c, b1, subs1) →
  subs1 = subs ∨ ∃ q, subs1 = alter (set_send_full false) q subs.
Proof.
  unfold overlay_address_append. intros Hrun.
  repeat case_match; simplify_eq; eauto.
Qed.

Lemma append_keeps_grown (context : option decode_context) (b : overlay_buffer)
    (d : directory) (p : option nat) r c b1 subs1 :
  grown_directory d →
  overlay_address_append context b (subscribers d) p = (r, c, b1, subs1) →
  grown_directory (Directory (root d) subs1) ∧ same_keys (subscribers d) subs1.
Proof.
  intros Hd Hrun. destruct (append_arena _ _ _ _ _ _ _ _ Hrun) as [->|[q ->]].
  - split; [destruct d; exact Hd|apply same_keys_refl].
  - split; [apply grown_directory_send_full; exact Hd|].
    apply same_keys_sym, same_keys_send_full, same_keys_refl.
Qed.

Lemma encode_sequence_keeps_grown (ps : list nat) :
  ∀ (context : option decode_context) (b : overlay_buffer) (d : directory)
    r c b1 subs1,
    grown_directory d →
    encode_sequence context b (subscribers d) ps = (r, c, b1, subs1) →
    grown_directory (Directory (root d) subs1) ∧ same_keys (subscribers d) subs1.
Proof.
  induction ps as [|p ps IH]; intros context b d r c b1 subs1 Hd Hrun.
  - injection Hrun as _ _ _ <-. split; [destruct d; exact Hd|apply same_keys_refl].
  - cbn [encode_sequence] in Hrun.
    destruct (overlay_address_append context b (subscribers d) (Some p))
      as [[[r0 c0] b0] s0] eqn:Hstep.
    destruct (append_keeps_grown _ _ _ _ _ _ _ _ Hd Hstep) as [Hd0 Hk0].
    destruct (r0 =? 0).
    + destruct (IH c0 b0 (Directory (root d) s0) _ _ _ _ Hd0 Hrun) as [Hd1 Hk1].
      split; [exact Hd1|]. intros q. destruct (Hk0 q), (Hk1 q).
      cbn [subscribers] in *. split; congruence.
    + injection Hrun as _ _ _ <-. split; assumption.
Qed.

End codec_round_trip.

(** X6. Encode, then decode: whatever the encoder writes for a subscriber of
    a directory built by registrations (the code for the sender, the code for
    the previous address, or a length byte and a prefix of any length), the
    decoder, started with the context the encoder started with and reading the
    directory as the encoder left it, resolves to the same subscriber and
    ends with the context the encoder ended with. *)
Theorem encode_then_decode_any_form `{Header} (d : directory) (ctx : decode_context)
    (b : overlay_buffer) (p : nat) (ctx1 : option decode_context)
    (b1 : overlay_buffer) (subs1 : list subscriber) :
  grown_directory d →
  in_directory d p →
  overlay_address_append (Some ctx) b (subscribers d) (Some p) = (0, ctx1, b1, subs1) →
  let d1 := Directory (root d) subs1 in
  ctx1 = Some (set_previous ctx (Some p))
  ∧ overlay_address_parse ctx (read_from b1 (length (bytes b))) None d1
    = Parsed 0 (set_previous ctx (Some p)) (read_from b1 (length (bytes b1)))
        (Some p) d1.
Proof.
  intros Hd Hin Hrun d1.
  destruct (append_keeps_grown _ _ _ _ _ _ _ _ Hd Hrun) as [Hd1 Hkeys].
  destruct (decode_encoded_step ctx b (subscribers d) d1 p
              _ _ _ Hd1 Hkeys Hin Hrun) as (data & -> & -> & _ & Hparse).
  split; [reflexivity|].
  specialize (Hparse (bytes b) [] (sizeLimit b) None).
  rewrite app_nil_r in Hparse. unfold read_from, ob_with. cbn [bytes sizeLimit].
  rewrite Hparse, length_app. reflexivity.
Qed.

Lemma encode_then_decode_any_form_witness :
  let d := two_subscriber_directory in
  let b1 := Buffer [1; 0x20] 0 None in
  overlay_address_parse (H := serval_header) zero_context
    (read_from b1 (length (bytes ob_new))) None d
  = Parsed 0 (set_previous zero_context (Some 1%nat))
      (read_from b1 (length (bytes b1))) (Some 1%nat) d.
Proof.
  refine (proj2 (encode_then_decode_any_form (H := serval_header)
                   two_subscriber_directory zero_context ob_new 1
                   (Some (set_previous zero_context (Some 1%nat)))
                   (Buffer [1; 0x20] 0 None)
                   (subscribers two_subscriber_directory) _ _ _)).
  - apply insert_all_grown; [apply grown_empty_directory|sid_of_ok].
  - exists [2%nat]. constructor. reflexivity.
  - vm_compute. reflexivity.
Defined.

(** X7. A whole sequence of addresses: when the encoder has written the
    subscribers [ps] of a directory built by registrations one after the
    other on one context, decoding as many addresses from where the encoder
    started, under the context it started with, gives back [ps] in order,
    consumes exactly the bytes written, and ends with the encoder's final
    context. *)
Theorem encode_then_decode_sequence `{Header} (d : directory) (ctx : decode_context)
    (b : overlay_buffer) (ps : list nat) (ctx1 : option decode_context)
    (b1 : overlay_buffer) (subs1 : list subscriber) :
  grown_directory d →
  Forall (in_directory d) ps →
  encode_sequence (Some ctx) b (subscribers d) ps = (0, ctx1, b1, subs1) →
  let d1 := Directory (root d) subs1 in
  ∃ ctx', ctx1 = Some ctx'
          ∧ decode_sequence (length ps) ctx (read_from b1 (length (bytes b))) d1
            = (map Some ps, ctx', read_from b1 (length (bytes b1)), d1).
Proof.
  intros Hd Hps Hrun d1.
  destruct (encode_sequence_keeps_grown _ _ _ _ _ _ _ _ Hd Hrun) as [Hd1 Hkeys].
  destruct (decode_encoded_sequence ps ctx b (subscribers d) d1 _ _ _ Hd1 Hkeys Hps Hrun)
    as (data & ctx' & -> & -> & _ & Hdecode).
  exists ctx'. split; [reflexivity|].
  specialize (Hdecode (bytes b) [] (sizeLimit b)).
  rewrite app_nil_r in Hdecode. unfold read_from, ob_with. cbn [bytes sizeLimit].
  rewrite Hdecode, length_app. reflexivity.
Qed.

Lemma encode_then_decode_sequence_witness :
  let d := two_subscriber_directory in
  let ctx := Context (Some 0%nat) None false None None 0 in
  let b1 := Buffer [0xff; 1; 0x20; 0xfe; 0xff] 0 None in
  ∃ ctx', Some (set_previous ctx (Some 0%nat)) = Some ctx'
          ∧ decode_sequence (H := serval_header) 4 ctx (read_from b1 0) d
            = ([Some 0%nat; Some 1%nat; Some 1%nat; Some 0%nat], ctx',
               read_from b1 5, d).
Proof.
  refine (encode_then_decode_sequence (H := serval_header)
            two_subscriber_directory (Context (Some 0%nat) None false None None 0)
            ob_new [0%nat; 1%nat; 1%nat; 0%nat]
            (Some (set_previous (Context (Some 0%nat) None false None None 0)
                     (Some 0%nat)))
            (Buffer [0xff; 1; 0x20; 0xfe; 0xff] 0 None)
            (subscribers two_subscriber_directory) _ _ _).
  - apply insert_all_grown; [apply grown_empty_directory|sid_of_ok].
  - repeat apply List.Forall_cons; try apply List.Forall_nil.
    1, 4: exists [1%nat]; constructor; reflexivity.
    all: exists [2%nat]; constructor; reflexivity.
  - vm_compute. reflexivity.
Defined.

Section reachability_results.
Context `{Header}.

(** One nested call is all [subscriber_is_reachable] ever makes: the next
    hop it asks about has a DIRECT bit in its stored state, so it is not
    INDIRECT itself. *)
Lemma resolve_two_calls (fuel : nat) (subs : list subscriber) (p : option nat) :
  flag_laws →
  subscriber_is_reachable (S (S fuel)) subs p = subscriber_is_reachable 2 subs p.
Proof.
  intros Hlaws. destruct p as [p|]; [|reflexivity].
  destruct (decide (reachable (deref subs p) = REACHABLE_INDIRECT)) as [Hi|Hi].
  - rewrite (resolve_indirect_step fuel subs p Hlaws Hi).
    rewrite (resolve_indirect_step 0 subs p Hlaws Hi). reflexivity.
  - rewrite !resolve_not_indirect by exact Hi. reflexivity.
Qed.

Lemma interface_checked_cases (s : subscriber) (ret : Z) :
  interface_checked s ret = REACHABLE_NONE
  ∨ (interface_checked s ret = ret
     ∧ (Z.land ret REACHABLE_DIRECT ≠ 0 →
        ∃ i, interface s = Some i ∧ state i = INTERFACE_STATE_UP)).
Proof.
  unfold interface_checked.
  destruct (Z.land ret REACHABLE_DIRECT =? 0) eqn:Hd; cbn [negb].
  - right. split; [reflexivity|]. apply Z.eqb_eq in Hd. congruence.
  - destruct (interface s) as [i|]; [|left; reflexivity].
    destruct (state i =? INTERFACE_STATE_UP) eqn:Hup; cbn [negb]; [|left; reflexivity].
    right. split; [reflexivity|]. intros _. exists i.
    split; [reflexivity|]. apply Z.eqb_eq. exact Hup.
Qed.

(** The value two calls give. *)
Lemma resolve_value (subs : list subscriber) (p : nat) :
  flag_laws →
  ∃ r, subscriber_is_reachable 2 subs (Some p) = Some r
       ∧ (r = REACHABLE_NONE
          ∨ (r = reachable (deref subs p)
             ∧ (Z.land r REACHABLE_DIRECT ≠ 0 →
                ∃ i, interface (deref subs p) = Some i
                     ∧ state i = INTERFACE_STATE_UP))).
Proof.
  intros Hlaws.
  destruct (decide (reachable (deref subs p) = REACHABLE_INDIRECT)) as [Hi|Hi].
  - rewrite (resolve_indirect_step 0 subs p Hlaws Hi).
    assert (Hnot : Z.land REACHABLE_INDIRECT REACHABLE_DIRECT ≠ 0 →
                   ∃ i, interface (deref subs p) = Some i
                        ∧ state i = INTERFACE_STATE_UP).
    { intros Hd. destruct (Hd (indirect_not_direct Hlaws)). }
    destruct (next_hop (deref subs p)) as [nh|]; [|eauto].
    cbv zeta.
    destruct (Z.land (reachable (deref subs nh)) REACHABLE_DIRECT =? 0); [eauto|].
    destruct (negb _); [eauto|].
    destruct (_ =? 0); [eauto|].
    eexists. split; [reflexivity|]. right. rewrite Hi. eauto.
  - rewrite (resolve_not_indirect 1 subs p Hi).
    eexists. split; [reflexivity|].
    destruct (interface_checked_cases (deref subs p) (reachable (deref subs p)))
      as [->|[-> Hup]]; [left; reflexivity|right; split; [reflexivity|exact Hup]].
Qed.

End reachability_results.

(** X8. [subscriber_is_reachable] always returns, after at most one nested
    call, however the next hops are chained (also in a cycle): with any
    number of calls allowed beyond two the result is the one two calls give.
    The flag values are only asked to obey [flag_laws]. *)
Theorem resolve_needs_one_nested_call `{Header} (fuel : nat)
    (subs : list subscriber) (p : option nat) :
  flag_laws →
  ∃ r, subscriber_is_reachable 2 subs p = Some r
       ∧ subscriber_is_reachable (S (S fuel)) subs p = Some r.
Proof.
  intros Hlaws. rewrite (resolve_two_calls fuel subs p Hlaws).
  destruct p as [p|]; [|exists REACHABLE_NONE; split; reflexivity].
  destruct (resolve_value subs p Hlaws) as (r & Hr & _).
  exists r. split; exact Hr.
Qed.

Lemma resolve_needs_one_nested_call_witness :
  let subs := [Subscriber (sid_of [0x10]) 1 8 (Some 1%nat) None false;
               Subscriber (sid_of [0x20]) 1 8 (Some 0%nat) None false] in
  ∃ r, subscriber_is_reachable (H := serval_header) 2 subs (Some 0%nat) = Some r
       ∧ subscriber_is_reachable (H := serval_header) 7 subs (Some 0%nat) = Some r.
Proof.
  exact (resolve_needs_one_nested_call (H := serval_header) 5
           [Subscriber (sid_of [0x10]) 1 8 (Some 1%nat) None false;
            Subscriber (sid_of [0x20]) 1 8 (Some 0%nat) None false]
           (Some 0%nat) serval_flag_laws).
Defined.

(** X9. [subscriber_is_reachable] never invents a state: it returns
    REACHABLE_NONE or the state stored in the subscriber, and it returns a
    state with a DIRECT bit only for a subscriber whose interface is set and
    up. *)
Theorem resolve_returns_stored_state_or_none `{Header} (fuel : nat)
    (subs : list subscriber) (p : nat) (r : Z) :
  flag_laws →
  subscriber_is_reachable (S (S fuel)) subs (Some p) = Some r →
  r = REACHABLE_NONE
  ∨ (r = reachable (deref subs p)
     ∧ (Z.land r REACHABLE_DIRECT ≠ 0 →
        ∃ i, interface (deref subs p) = Some i ∧ state i = INTERFACE_STATE_UP)).
Proof.
  intros Hlaws Hrun. rewrite (resolve_two_calls fuel subs (Some p) Hlaws) in Hrun.
  destruct (resolve_value subs p Hlaws) as (r' & Hr' & Hcases).
  rewrite Hr' in Hrun. injection Hrun as <-. exact Hcases.
Qed.

Lemma resolve_returns_stored_state_or_none_witness :
  let subs := chain (H := serval_header) 8 6 (Some 1%nat) in
  6 = REACHABLE_NONE (Header := serval_header)
  ∨ (6 = reachable (deref subs 1)
     ∧ (Z.land 6 (REACHABLE_DIRECT (Header := serval_header)) ≠ 0 →
        ∃ i, interface (deref subs 1) = Some i
             ∧ state i = INTERFACE_STATE_UP (Header := serval_header))).
Proof.
  exact (resolve_returns_stored_state_or_none (H := serval_header) 0
           (chain (H := serval_header) 8 6 (Some 1%nat)) 1 6
           serval_flag_laws eq_refl).
Defined.

Section duplicate_table.

Lemma bpi_table_init : bpi_table bpilist_init.
Proof.
  split; [apply length_replicate|]. apply Forall_replicate.
  split; [reflexivity|]. apply Forall_replicate. lia.
Qed.

Lemma bpi_table_insert (t : list broadcast) (addr : broadcast) (j : nat) :
  bpi_table t → is_bpi addr → bpi_table (<[j := addr]> t).
Proof.
  intros [Hlen Hall] Haddr. split; [rewrite length_insert; exact Hlen|].
  apply Forall_insert; assumption.
Qed.

(** The two things a check can do. *)
Lemma drop_check_cases (t : list broadcast) (addr : broadcast) :
  bpi_table t → is_bpi addr →
  let slot := Z.to_nat (bpi_index_of addr) in
  (slot < MAX_BPIS)%nat
  ∧ ((t !! slot = Some addr ∧ overlay_broadcast_drop_check t addr = (1, t))
     ∨ (t !! slot ≠ Some addr
        ∧ overlay_broadcast_drop_check t addr = (0, <[slot := addr]> t))).
Proof.
  intros [Hlen Hall] [Halen Hbytes] slot.
  assert (Hslot : (slot < MAX_BPIS)%nat).
  { subst slot. pose proof (bpi_index_of_range addr). unfold MAX_BPIS. lia. }
  split; [exact Hslot|].
  unfold overlay_broadcast_drop_check. fold slot. clearbody slot.
  destruct (lookup_lt_is_Some_2 t slot ltac:(lia)) as [stored Hstored].
  pose proof (proj1 (Forall_lookup _ _) Hall _ _ Hstored) as [Hslen _].
  rewrite Hstored. cbn [default]. unfold memcmp_eq.
  assert (Hts : take BROADCAST_LEN (id stored) = id stored)
    by (rewrite <- Hslen; apply firstn_all).
  assert (Hta : take BROADCAST_LEN (id addr) = id addr)
    by (rewrite <- Halen; apply firstn_all).
  change (Datatypes.id stored) with stored. rewrite Hts, !Hta.
  destruct (decide (id stored = id addr)) as [Heq|Hne].
  - left. rewrite bool_decide_true by exact Heq. cbn [negb].
    split; [|reflexivity]. destruct stored, addr. cbn in Heq. congruence.
  - right. rewrite bool_decide_false by exact Hne. cbn [negb].
    split; [congruence|]. destruct addr. reflexivity.
Qed.

End duplicate_table.

(** X10. On any table the code can have built, a check returns 0 or 1,
    returns 1 exactly when the slot of the BPI holds that BPI, writes at most
    that one slot, keeps the table at its [MAX_BPIS] entries of eight bytes,
    and a second check of the same BPI right after returns 1 and changes
    nothing. *)
Theorem drop_check_touches_one_slot (t : list broadcast) (addr : broadcast) :
  bpi_table t →
  is_bpi addr →
  let slot := Z.to_nat (bpi_index_of addr) in
  let '(r, t') := overlay_broadcast_drop_check t addr in
  (r = 0 ∨ r = 1)
  ∧ (r = 1 ↔ t !! slot = Some addr)
  ∧ bpi_table t'
  ∧ t' !! slot = Some addr
  ∧ (∀ j, j ≠ slot → t' !! j = t !! j)
  ∧ overlay_broadcast_drop_check t' addr = (1, t').
Proof.
  intros Ht Haddr slot.
  destruct (drop_check_cases t addr Ht Haddr) as [Hslot [[Hheld Hrun]|[Hnot Hrun]]];
    fold slot in Hslot, Hheld || fold slot in Hslot, Hnot; rewrite Hrun.
  - split; [right; reflexivity|]. split; [tauto|]. split; [exact Ht|].
    split; [exact Hheld|]. split; [reflexivity|]. exact Hrun.
  - fold slot. pose proof (bpi_table_insert t addr slot Ht Haddr) as Ht'.
    assert (Hheld : <[slot := addr]> t !! slot = Some addr).
    { apply list_lookup_insert_eq. destruct Ht as [-> _]. exact Hslot. }
    split; [left; reflexivity|]. split; [split; [discriminate|contradiction]|].
    split; [exact Ht'|]. split; [exact Hheld|].
    split; [intros j Hj; apply list_lookup_insert_ne; congruence|].
    destruct (drop_check_cases _ addr Ht' Haddr) as [_ [[_ Hagain]|[Hnot' _]]];
      [exact Hagain|contradiction].
Qed.

Lemma drop_check_touches_one_slot_witness :
  let addr := Broadcast [0; 1; 2; 3; 4; 5; 6; 7] in
  let slot := Z.to_nat (bpi_index_of addr) in
  let '(r, t') := overlay_broadcast_drop_check bpilist_init addr in
  (r = 0 ∨ r = 1)
  ∧ (r = 1 ↔ bpilist_init !! slot = Some addr)
  ∧ bpi_table t'
  ∧ t' !! slot = Some addr
  ∧ (∀ j, j ≠ slot → t' !! j = bpilist_init !! j)
  ∧ overlay_broadcast_drop_check t' addr = (1, t').
Proof.
  apply (drop_check_touches_one_slot bpilist_init (Broadcast [0; 1; 2; 3; 4; 5; 6; 7])).
  - apply bpi_table_init.
  - split; [reflexivity|]. repeat (apply List.Forall_cons; [lia|]). apply List.Forall_nil.
Defined.

(** X11. A BPI stays known until another BPI with the same slot is checked:
    after a check of [a] and then of [b], a check of [a] returns 1 when [b]
    has another slot, and returns 0 again (the table has forgotten [a]) when
    [b] is a different BPI with the same slot. *)
Theorem drop_check_forgets_on_collision (t : list broadcast) (a b : broadcast) :
  bpi_table t →
  is_bpi a →
  is_bpi b →
  let t1 := snd (overlay_broadcast_drop_check t a) in
  let t2 := snd (overlay_broadcast_drop_check t1 b) in
  (bpi_index_of a ≠ bpi_index_of b → fst (overlay_broadcast_drop_check t2 a) = 1)
  ∧ (bpi_index_of a = bpi_index_of b → a ≠ b →
     fst (overlay_broadcast_drop_check t2 a) = 0).
Proof.
  intros Ht Ha Hb t1 t2.
  pose proof (bpi_index_of_range a) as Hra. pose proof (bpi_index_of_range b) as Hrb.
  destruct (drop_check_cases t a Ht Ha) as [Hsa Hta]. cbv zeta in Hsa, Hta.
  assert (Ht1 : bpi_table t1 ∧ t1 !! Z.to_nat (bpi_index_of a) = Some a).
  { subst t1. destruct Hta as [[Hheld ->]|[_ ->]]; cbn [snd].
    - split; assumption.
    - split; [apply bpi_table_insert; assumption|].
      apply list_lookup_insert_eq. destruct Ht as [-> _]. exact Hsa. }
  destruct Ht1 as [Ht1 Hheld1]. clearbody t1.
  destruct (drop_check_cases t1 b Ht1 Hb) as [Hsb Htb]. cbv zeta in Hsb, Htb.
  assert (Ht2 : bpi_table t2 ∧ t2 !! Z.to_nat (bpi_index_of b) = Some b
                ∧ ∀ j, j ≠ Z.to_nat (bpi_index_of b) → t2 !! j = t1 !! j).
  { subst t2. destruct Htb as [[Hheld ->]|[_ ->]]; cbn [snd].
    - split; [assumption|]. split; [assumption|reflexivity].
    - split; [apply bpi_table_insert; assumption|]. split.
      + apply list_lookup_insert_eq. destruct Ht1 as [-> _]. exact Hsb.
      + intros j Hj. apply list_lookup_insert_ne. congruence. }
  destruct Ht2 as (Ht2 & Hheld2 & Hother). clearbody t2.
  destruct (drop_check_cases t2 a Ht2 Ha) as [_ Hta2]. cbv zeta in Hta2.
  split.
  - intros Hne. destruct Hta2 as [[_ ->]|[Hnot _]]; [reflexivity|].
    destruct Hnot. rewrite Hother by lia. exact Hheld1.
  - intros Heq Hab. destruct Hta2 as [[Hheld _]|[_ ->]]; [|reflexivity].
    rewrite Heq, Hheld2 in Hheld. congruence.
Qed.

Lemma drop_check_forgets_on_collision_witness :
  let a := Broadcast [0; 0; 0; 0; 2; 0; 0; 0] in
  let b := Broadcast [0; 0; 0; 0; 4; 0; 0; 0] in
  let t1 := snd (overlay_broadcast_drop_check bpilist_init a) in
  let t2 := snd (overlay_broadcast_drop_check t1 b) in
  fst (overlay_broadcast_drop_check t2 a) = 0.
Proof.
  refine (proj2 (drop_check_forgets_on_collision bpilist_init
                   (Broadcast [0; 0; 0; 0; 2; 0; 0; 0])
                   (Broadcast [0; 0; 0; 0; 4; 0; 0; 0]) bpi_table_init _ _) _ _).
  - split; [reflexivity|]. repeat (apply List.Forall_cons; [lia|]). apply List.Forall_nil.
  - split; [reflexivity|]. repeat (apply List.Forall_cons; [lia|]). apply List.Forall_nil.
  - vm_compute. reflexivity.
  - discriminate.
Defined.

(** X12. [overlay_address_parse] returns 0 or -1 and nothing else (an
    address it cannot resolve is reported through [invalid_addresses], with
    0).  It returns -1 exactly for input it cannot read: an exhausted buffer,
    a byte that is neither a code nor a length from 1 to 32, or a length
    with fewer bytes left than it announces; the context, the directory and
    the caller's variable are then as they were. *)
Theorem parse_rejects_only_malformed_input `{Header} (ctx : decode_context)
    (b : overlay_buffer) (held : option nat) (d : directory) :
  let r := overlay_address_parse ctx b held d in
  (parse_ret r = 0 ∨ parse_ret r = -1)
  ∧ (parse_ret r = -1 ↔ malformed_address b)
  ∧ (parse_ret r = -1 →
     parse_context r = ctx ∧ parse_directory r = d ∧ parse_subscriber r = held).
Proof.
  unfold overlay_address_parse, malformed_address, ob_get.
  destruct (bytes b !! position b) as [len|] eqn:Hbyte; cbv zeta.
  2: { cbn. split; [right; reflexivity|]. split; [tauto|auto]. }
  destruct (len <? 0) eqn:Hneg.
  { cbn. split; [right; reflexivity|]. split; [|auto]. split; [|reflexivity].
    intros _. left. lia. }
  destruct (len =? OA_CODE_SELF) eqn:Hself.
  { apply Z.eqb_eq in Hself.
    destruct (sender ctx); cbn; (split; [left; reflexivity|]);
      (split; [|discriminate]); (split; [discriminate|]);
      intros [?|(? & _)]; [lia|congruence|lia|congruence]. }
  destruct (len =? OA_CODE_PREVIOUS) eqn:Hprev.
  { apply Z.eqb_eq in Hprev.
    destruct (previous ctx); cbn; (split; [left; reflexivity|]);
      (split; [|discriminate]); (split; [discriminate|]);
      intros [?|(_ & ? & _)]; [lia|congruence|lia|congruence]. }
  apply Z.eqb_neq in Hself, Hprev. apply Z.ltb_ge in Hneg.
  unfold find_subscr_buffer. change (Z.of_nat SID_SIZE) with 32.
  destruct ((len <=? 0) || (len >? 32)) eqn:Hrange.
  { cbn. split; [right; reflexivity|]. split; [|auto]. split; [|reflexivity].
    intros _. right. split; [exact Hself|]. split; [exact Hprev|].
    apply orb_true_iff in Hrange as [Hle|Hgt]; [left; lia|right; left; lia]. }
  apply orb_false_iff in Hrange as [Hle Hgt].
  apply Z.leb_gt in Hle. rewrite Z.gtb_ltb in Hgt. apply Z.ltb_ge in Hgt.
  unfold ob_get_bytes_ptr. cbn [bytes position sizeLimit].
  destruct (S (position b) + Z.to_nat len <=? length (bytes b))%nat eqn:Hroom.
  2: { apply Nat.leb_gt in Hroom. cbn.
       split; [right; reflexivity|]. split; [|auto]. split; [|reflexivity].
       intros _. right. split; [exact Hself|]. split; [exact Hprev|].
       right. right. lia. }
  apply Nat.leb_le in Hroom. cbn [default].
  destruct (find_subscriber d _ (Z.to_nat len) true) as [[p|] d'].
  - cbn. split; [left; reflexivity|]. split; [|discriminate].
    split; [discriminate|]. intros [?|(_ & _ & [?|[?|?]])]; lia.
  - destruct (walk_tree _ _ _ _ _ _ _ _) as [stop [ctx' subs']].
    destruct (ob_append_byte _ _) as [r1 pl1].
    destruct (ob_append_bytes _ _ _) as [r2 pl2].
    cbn. split; [left; reflexivity|]. split; [|discriminate].
    split; [discriminate|]. intros [?|(_ & _ & [?|[?|?]])]; lia.
Qed.

(** X13. A 32-byte literal always resolves: when the directory (built by
    registrations) does not know the identifier yet, decoding registers it.
    The call returns 0, hands out a subscriber that holds the identifier,
    makes it the previous address, raises no [invalid_addresses], consumes
    the 33 bytes, and keeps every earlier subscriber. *)
Theorem parse_full_address_registers `{Header} (ctx : decode_context)
    (d : directory) (held : option nat) (before after id_ : list Z)
    (limit : option nat) :
  grown_directory d →
  is_sid id_ →
  let data := before ++ 32 :: id_ ++ after in
  let r := overlay_address_parse ctx (Buffer data (length before) limit) held d in
  ∃ q, r = Parsed 0 (set_previous ctx (Some q))
             (Buffer data (length before + 33) limit) (Some q) (parse_directory r)
       ∧ in_directory (parse_directory r) q
       ∧ sid (deref (subscribers (parse_directory r)) q) = id_
       ∧ grown_directory (parse_directory r)
       ∧ (∀ p, in_directory d p →
               in_directory (parse_directory r) p
               ∧ sid (deref (subscribers (parse_directory r)) p)
                 = sid (deref (subscribers d) p)).
Proof.
  intros Hd Hid data r.
  destruct (find_subscriber d id_ SID_SIZE true) as [ret d'] eqn:Hrun.
  pose proof (find_subscriber_grown _ _ _ _ Hd Hid Hrun) as Hd'.
  destruct (find_subscriber_registers _ _ _ _ (proj1 Hd) Hid Hrun)
    as (_ & [_ Hpres] & (q & -> & Hq & Hsid) & Hold).
  assert (Hr : r = Parsed 0 (set_previous ctx (Some q))
                     (Buffer data (length before + 33) limit) (Some q) d').
  { subst r data.
    rewrite (parse_literal_found ctx d d' q before after id_ 32 limit held);
      [f_equal; f_equal; lia|lia|apply Hid|exact Hrun]. }
  exists q. rewrite Hr. cbn [parse_directory].
  split; [reflexivity|]. split; [exact Hq|]. split; [exact Hsid|].
  split; [exact Hd'|]. intros p Hp. split; [exact (Hold _ Hp)|].
  apply Hpres. exact (in_directory_allocated _ _ (proj1 Hd) Hp).
Qed.

Lemma parse_full_address_registers_witness :
  let id_ := sid_of [0x10; 0x01] in
  let data := [] ++ 32 :: id_ ++ [] in
  let r := overlay_address_parse (H := serval_header) zero_context
             (Buffer data (length (@nil Z)) None) None one_subscriber_directory in
  ∃ q, r = Parsed 0 (set_previous zero_context (Some q))
             (Buffer data (length (@nil Z) + 33) None) (Some q) (parse_directory r)
       ∧ in_directory (parse_directory r) q
       ∧ sid (deref (subscribers (parse_directory r)) q) = id_
       ∧ grown_directory (parse_directory r)
       ∧ (∀ p, in_directory one_subscriber_directory p →
               in_directory (parse_directory r) p
               ∧ sid (deref (subscribers (parse_directory r)) p)
                 = sid (deref (subscribers one_subscriber_directory) p)).
Proof.
  apply (parse_full_address_registers (H := serval_header) zero_context
           one_subscriber_directory None [] [] (sid_of [0x10; 0x01]) None).
  - apply insert_all_grown; [apply grown_empty_directory|sid_of_ok].
  - apply is_sid_sid_of; bytes_ok.
Defined.

(** X14. The code for the sender without a sender in the context, and the
    code for the previous address without a previous address, are not
    errors: the call returns 0, sets [invalid_addresses], consumes the one
    byte, and leaves the caller's variable, the directory and the pending
    please-explain frame as they were. *)
Theorem parse_code_without_referent `{Header} (ctx : decode_context)
    (d : directory) (held : option nat) (before after : list Z) (code : Z)
    (limit : option nat) :
  (code = OA_CODE_SELF ∧ sender ctx = None)
  ∨ (code = OA_CODE_PREVIOUS ∧ previous ctx = None) →
  overlay_address_parse ctx (Buffer (before ++ code :: after) (length before) limit)
    held d
  = Parsed 0 (set_invalid_addresses ctx)
      (Buffer (before ++ code :: after) (S (length before)) limit) held d
  ∧ please_explain (set_invalid_addresses ctx) = please_explain ctx.
Proof.
  intros Hcase. split; [|reflexivity].
  unfold overlay_address_parse. rewrite ob_get_middle.
  destruct Hcase as [[-> Hnone]|[-> Hnone]].
  - change (OA_CODE_SELF <? 0) with false. rewrite Z.eqb_refl. cbv iota.
    rewrite Hnone. reflexivity.
  - change (OA_CODE_PREVIOUS <? 0) with false.
    change (OA_CODE_PREVIOUS =? OA_CODE_SELF) with false. rewrite Z.eqb_refl.
    cbv iota. rewrite Hnone. reflexivity.
Qed.

Lemma parse_code_without_referent_witness :
  overlay_address_parse (H := serval_header) zero_context
    (Buffer ([] ++ 0xfe :: []) (length (@nil Z)) None) None empty_directory
  = Parsed 0 (set_invalid_addresses zero_context)
      (Buffer ([] ++ 0xfe :: []) (S (length (@nil Z))) None) None empty_directory.
Proof.
  refine (proj1 (parse_code_without_referent (H := serval_header) zero_context
                   empty_directory None [] [] 0xfe None _)).
  right. split; reflexivity.
Defined.

Section sending.
Context `{Header}.

Lemma world_eta (w : world) :
  World (dir w) (my_subscriber w) (outbound w) (random_values w) = w.
Proof. destruct w. reflexivity. Qed.





End sending.



Section processing.
Context `{Header}.

(** At the end of the payload the loop of [process_explain] stops. *)
Lemma process_explain_loop_end (turns : nat) (b : overlay_buffer)
    (ctx : decode_context) (d : directory) :
  (length (bytes b) <= position b)%nat →
  process_explain_loop turns b ctx d = (None, b, ctx, d).
Proof.
  intros Hend. destruct turns as [|turns]; [reflexivity|].
  cbn [process_explain_loop].
  assert ((ob_remaining b >? 0) = false) as ->; [|reflexivity].
  unfold ob_remaining. rewrite Z.gtb_ltb. apply Z.ltb_ge. lia.
Qed.

(** The turns [process_explain] allows are enough for the records of a
    payload that starts with full records. *)
Lemma explain_turns (ids : list (list Z)) (rest : list Z) (limit : option nat) :
  ∃ t, Z.to_nat (ob_remaining (Buffer (full_records ids ++ rest) 0 limit))
       = (length ids + t)%nat
       ∧ (rest ≠ [] → (0 < t)%nat).
Proof.
  unfold ob_remaining. cbn [bytes position]. rewrite length_app.
  pose proof (full_records_length ids).
  exists (length (full_records ids) - length ids + length rest)%nat.
  split; [lia|]. intros Hrest. destruct rest; [congruence|]. cbn [length]. lia.
Qed.

(** A record the loop cannot read: a length byte that is not in 1..32, or a
    length with fewer bytes left than it announces. *)
Lemma process_explain_loop_bad (turns : nat) (consumed rest : list Z) (len : Z)
    (limit : option nat) (ctx : decode_context) (d : directory) :
  len <= 0 ∨ 32 < len ∨ (length rest < Z.to_nat len)%nat →
  ∃ b', process_explain_loop (S turns)
          (Buffer (consumed ++ len :: rest) (length consumed) limit) ctx d
        = (Some WHY, b', ctx, d).
Proof.
  intros Hbad. cbn [process_explain_loop].
  set (data := consumed ++ len :: rest).
  assert (Hrem : (ob_remaining (Buffer data (length consumed) limit) >? 0) = true).
  { unfold ob_remaining. cbn [bytes position]. rewrite Z.gtb_ltb. apply Z.ltb_lt.
    subst data. rewrite length_app. cbn [length]. lia. }
  rewrite Hrem. cbn [negb]. unfold ob_get. cbn [bytes position sizeLimit].
  assert (Hbyte : data !! length consumed = Some len)
    by (subst data; apply list_lookup_middle; reflexivity).
  rewrite Hbyte. change (Z.of_nat SID_SIZE) with 32.
  destruct ((len <=? 0) || (len >? 32)) eqn:Hrange; [eexists; reflexivity|].
  apply orb_false_iff in Hrange as [Hle Hgt].
  apply Z.leb_gt in Hle. rewrite Z.gtb_ltb in Hgt. apply Z.ltb_ge in Hgt.
  destruct Hbad as [?|[?|Hshort]]; [lia|lia|].
  unfold ob_get_bytes_ptr. cbn [bytes position sizeLimit].
  assert ((S (length consumed) + Z.to_nat len <=? length data)%nat = false) as ->.
  { apply Nat.leb_gt. subst data. rewrite length_app. cbn [length]. lia. }
  eexists. reflexivity.
Qed.

End processing.

(** X16. A please-explain payload made of full records only: every
    identifier is registered, in the order of the records, nothing is
    queued in reply, and 0 is returned. *)
Theorem process_explain_registers_full_records `{Header} (frame : overlay_frame)
    (w : world) (ids : list (list Z)) :
  Forall is_sid ids →
  bytes (payload frame) = full_records ids →
  position (payload frame) = 0%nat →
  process_explain frame w
  = Ret (0, World (insert_all (dir w) ids) (my_subscriber w) (outbound w)
                  (random_values w)).
Proof.
  intros Hids Hbytes Hpos. unfold process_explain.
  destruct (payload frame) as [data pos limit] eqn:Hpayload.
  cbn [bytes position] in Hbytes, Hpos. subst data pos.
  destruct (explain_turns ids [] limit) as (t & Ht & _).
  rewrite app_nil_r in Ht. rewrite Ht.
  pose proof (process_explain_loop_full ids t [] [] limit zero_context (dir w) Hids)
    as Hfull.
  cbn [app length Nat.add] in Hfull. rewrite app_nil_r in Hfull. rewrite Hfull.
  rewrite process_explain_loop_end by (cbn [bytes position]; lia).
  reflexivity.
Qed.

Lemma process_explain_registers_full_records_witness :
  process_explain (H := serval_header)
    (explain_frame (full_records [sid_of [0x10; 0x20]; sid_of [0x30]])) peer_world
  = Ret (0, World (insert_all (dir peer_world) [sid_of [0x10; 0x20]; sid_of [0x30]])
                  (my_subscriber peer_world) (outbound peer_world)
                  (random_values peer_world)).
Proof.
  apply (process_explain_registers_full_records (H := serval_header)
           (explain_frame (full_records [sid_of [0x10; 0x20]; sid_of [0x30]]))
           peer_world [sid_of [0x10; 0x20]; sid_of [0x30]]).
  - sid_of_ok.
  - reflexivity.
  - reflexivity.
Defined.

(** X17. A record that cannot be read (a length byte outside 1..32, or
    fewer bytes left than the length announces) makes [process_explain]
    return -1 at once.  Nothing is queued in reply, and the identifiers of
    the full records before the bad one stay registered. *)
Theorem process_explain_stops_at_bad_record `{Header} (frame : overlay_frame)
    (w : world) (ids : list (list Z)) (len : Z) (rest : list Z) :
  Forall is_sid ids →
  bytes (payload frame) = full_records ids ++ len :: rest →
  position (payload frame) = 0%nat →
  len <= 0 ∨ 32 < len ∨ (length rest < Z.to_nat len)%nat →
  process_explain frame w
  = Ret (-1, World (insert_all (dir w) ids) (my_subscriber w) (outbound w)
                   (random_values w)).
Proof.
  intros Hids Hbytes Hpos Hbad. unfold process_explain.
  destruct (payload frame) as [data pos limit] eqn:Hpayload.
  cbn [bytes position] in Hbytes, Hpos. subst data pos.
  destruct (explain_turns ids (len :: rest) limit) as (t & Ht & Hpos).
  rewrite Ht. destruct t as [|t]; [specialize (Hpos ltac:(discriminate)); lia|].
  pose proof (process_explain_loop_full ids (S t) [] (len :: rest) limit zero_context
                (dir w) Hids) as Hfull.
  cbn [app length Nat.add] in Hfull. rewrite Hfull.
  destruct (process_explain_loop_bad t (full_records ids) rest len limit zero_context
              (insert_all (dir w) ids) Hbad) as [b' ->].
  reflexivity.
Qed.

Lemma process_explain_stops_at_bad_record_witness :
  process_explain (H := serval_header)
    (explain_frame (full_records [sid_of [0x30]] ++ 5 :: [1; 2; 3])) peer_world
  = Ret (-1, World (insert_all (dir peer_world) [sid_of [0x30]])
                   (my_subscriber peer_world) (outbound peer_world)
                   (random_values peer_world)).
Proof.
  apply (process_explain_stops_at_bad_record (H := serval_header)
           (explain_frame (full_records [sid_of [0x30]] ++ 5 :: [1; 2; 3]))
           peer_world [sid_of [0x30]] 5 [1; 2; 3]).
  - sid_of_ok.
  - reflexivity.
  - reflexivity.
  - right. right. vm_compute. lia.
Defined.

Section answering.
Context `{Header}.





End answering.



Section cache_allocation.

(** The loop that counts the bits of the cache size stops at a shift that
    leaves nothing of the size. *)
Lemma cache_shift_loop_clears (fuel : nat) :
  ∀ (size_ sh : Z),
    0 <= size_ → 0 <= sh → size_ < 2 ^ (sh + Z.of_nat fuel) →
    sh <= Abbreviate.cache_shift_loop fuel size_ sh
    ∧ Z.shiftr size_ (Abbreviate.cache_shift_loop fuel size_ sh) = 0.
Proof.
  induction fuel as [|fuel IH]; intros size_ sh Hsize Hsh Hbound.
  - cbn [Abbreviate.cache_shift_loop]. split; [lia|].
    rewrite Z.add_0_r in Hbound. rewrite Z.shiftr_div_pow2 by lia.
    apply Z.div_small. lia.
  - cbn [Abbreviate.cache_shift_loop].
    destruct (Z.shiftr size_ sh =? 0) eqn:Hz.
    + split; [lia|]. apply Z.eqb_eq. exact Hz.
    + destruct (IH size_ (sh + 1) Hsize ltac:(lia)) as [Hle Hclear].
      * replace (sh + 1 + Z.of_nat fuel) with (sh + Z.of_nat (S fuel)) by lia.
        exact Hbound.
      * split; [lia|exact Hclear].
Qed.

(** The shift the allocation settles on is one too many for a power of two:
    no size passes the test that follows.  What remains are the returns for
    a [calloc] that fails. *)
Lemma cache_allocate_outcome (CACHE_SIZE : Z) (heap : Abbreviate.callocs) :
  CACHE_SIZE ≠ 0 →
  Abbreviate.cache_allocate CACHE_SIZE heap
  = if (CACHE_SIZE >? 0x1000000) || (CACHE_SIZE <? 0) then Exited
    else if negb (Abbreviate.cache_block heap)
    then Ret (Abbreviate.Returned None)
    else if negb (Abbreviate.cache_sids heap)
    then Ret (Abbreviate.Returned (Some (Abbreviate.freed_cache CACHE_SIZE)))
    else Exited.
Proof.
  intros Hne. unfold Abbreviate.cache_allocate.
  destruct (CACHE_SIZE >? 0x1000000) eqn:Hbig; [reflexivity|].
  destruct (CACHE_SIZE <? 0) eqn:Hneg; [reflexivity|]. cbn [orb].
  destruct (negb (Abbreviate.cache_block heap)); [reflexivity|].
  destruct (negb (Abbreviate.cache_sids heap)); [reflexivity|].
  rewrite Z.gtb_ltb in Hbig. apply Z.ltb_ge in Hbig, Hneg.
  destruct (cache_shift_loop_clears 32 CACHE_SIZE 0 ltac:(lia) ltac:(lia))
    as [Hle Hclear].
  { change (2 ^ (0 + Z.of_nat 32)) with 4294967296. lia. }
  set (sh := Abbreviate.cache_shift_loop 32 CACHE_SIZE 0) in *.
  assert (Hlt : CACHE_SIZE < 2 ^ sh).
  { rewrite Z.shiftr_div_pow2 in Hclear by lia.
    pose proof (Z.pow_pos_nonneg 2 sh ltac:(lia) ltac:(lia)) as Hpow.
    apply Z.div_small_iff in Hclear; [|lia]. lia. }
  assert ((Z.shiftl 1 sh =? CACHE_SIZE) = false) as ->; [|reflexivity].
  apply Z.eqb_neq. rewrite Z.shiftl_1_l. lia.
Qed.

(** A block that was freed has no entry left to compare with. *)
Lemma freed_cache_faults (CACHE_SIZE : Z) (heap : Abbreviate.callocs) (sid_ : list Z) :
  Abbreviate.overlay_abbreviate_cache_address CACHE_SIZE heap
    (Some (Abbreviate.freed_cache CACHE_SIZE)) sid_ = Fault.
Proof.
  unfold Abbreviate.overlay_abbreviate_cache_address, Abbreviate.cache_slot.
  cbn [Abbreviate.freed_cache Abbreviate.sids Abbreviate.shift].
  destruct (_ && _); reflexivity.
Qed.

End cache_allocation.

(** X19. The address cache never comes to life: when no cache exists yet and
    OVERLAY_ADDRESS_CACHE_SIZE is not 0, [overlay_abbreviate_cache_address]
    leaves through [exit()] when the size is out of range and also when both
    allocations succeed, for every size, a power of two included (the loop
    that measures the size stops at a shift one above the exponent, so the
    test [(1<<shift) != size] always finds a difference).  When the first
    [calloc] fails it returns 0 and leaves no cache; when the second fails it
    returns 0 and leaves the pointer at the block it has freed, and every
    later call faults on it. *)
Theorem cache_allocation_never_usable (CACHE_SIZE : Z) (heap : Abbreviate.callocs)
    (sid_ : list Z) :
  CACHE_SIZE ≠ 0 →
  Abbreviate.overlay_abbreviate_cache_address CACHE_SIZE heap None sid_
  = (if (CACHE_SIZE >? 0x1000000) || (CACHE_SIZE <? 0) then Exited
     else if negb (Abbreviate.cache_block heap) then Ret (0, None)
     else if negb (Abbreviate.cache_sids heap)
     then Ret (0, Some (Abbreviate.freed_cache CACHE_SIZE))
     else Exited)
  ∧ ∀ heap' sid',
      Abbreviate.overlay_abbreviate_cache_address CACHE_SIZE heap'
        (Some (Abbreviate.freed_cache CACHE_SIZE)) sid' = Fault.
Proof.
  intros Hne. split; [|intros heap' sid'; apply freed_cache_faults].
  unfold Abbreviate.overlay_abbreviate_cache_address.
  apply Z.eqb_neq in Hne. rewrite Hne. cbn [negb].
  rewrite cache_allocate_outcome by (apply Z.eqb_neq; exact Hne).
  destruct (_ || _); [reflexivity|].
  destruct (negb (Abbreviate.cache_block heap)); [reflexivity|].
  destruct (negb (Abbreviate.cache_sids heap)); reflexivity.
Qed.

Lemma cache_allocation_never_usable_witness :
  Abbreviate.overlay_abbreviate_cache_address 256 (Abbreviate.Callocs true true true)
    None (sid_of [0x10]) = Exited
  ∧ Abbreviate.overlay_abbreviate_cache_address 256 (Abbreviate.Callocs true false true)
      None (sid_of [0x10]) = Ret (0, Some (Abbreviate.freed_cache 256)).
Proof.
  split.
  - apply (cache_allocation_never_usable 256 (Abbreviate.Callocs true true true)
             (sid_of [0x10])). lia.
  - apply (cache_allocation_never_usable 256 (Abbreviate.Callocs true false true)
             (sid_of [0x10])). lia.
Defined.

(** X20. One encoder call, for a subscriber whose [abbreviate_len] is not
    negative and leaves [abbreviate_len + 2] an [int] (as every
    [abbreviate_len] that [find_subscriber] assigns does: it is at most 64),
    returns 0 or -1.  On 0 it has appended the code
    for the sender, the code for the previous address, or a length byte
    from 1 to 32 followed by that many bytes of the identifier (so 1 to 33
    bytes, and a length byte is never mistaken for a code), and the
    subscriber is the previous address of the context.  On -1 the buffer had
    no room: the context is as it was, and the buffer holds nothing new or
    the length byte alone. *)
Theorem append_appends_or_fails `{Header} (ctx : decode_context)
    (b : overlay_buffer) (subs : list subscriber) (p : nat) :
  0 <= abbreviate_len (deref subs p) <= INT_MAX - 2 →
  let '(r, ctx1, b1, subs1) := overlay_address_append (Some ctx) b subs (Some p) in
  let L := encoded_length (deref subs p) in
  (r = 0
   ∧ ctx1 = Some (set_previous ctx (Some p))
   ∧ 1 <= L <= 32
   ∧ (bytes b1 = bytes b ++ [OA_CODE_SELF]
      ∨ bytes b1 = bytes b ++ [OA_CODE_PREVIOUS]
      ∨ bytes b1 = bytes b ++ L :: take (Z.to_nat L) (sid (deref subs p))))
  ∨ (r = -1
     ∧ ctx1 = Some ctx
     ∧ (bytes b1 = bytes b ∨ bytes b1 = bytes b ++ [L])).
Proof.
  intros Hpos.
  pose proof (encoded_length_range (deref subs p) Hpos) as HL.
  destruct (decide (sender ctx = Some p)) as [Hs|Hs].
  { destruct (ob_has_room b 1) eqn:Hroom.
    - rewrite (append_sender_branch _ _ _ _ Hs Hroom). left.
      split; [reflexivity|]. split; [reflexivity|]. split; [exact HL|].
      left. reflexivity.
    - unfold overlay_address_append, is_sender.
      rewrite bool_decide_true by exact Hs. unfold ob_append_byte. rewrite Hroom.
      cbn. right. auto. }
  destruct (decide (previous ctx = Some p)) as [Hp|Hp].
  { destruct (ob_has_room b 1) eqn:Hroom.
    - rewrite (append_previous_branch _ _ _ _ Hs Hp Hroom). left.
      split; [reflexivity|]. split; [rewrite (set_previous_same _ _ Hp); reflexivity|].
      split; [exact HL|]. right. left. reflexivity.
    - unfold overlay_address_append.
      rewrite (is_sender_false _ _ Hs). unfold is_previous.
      rewrite bool_decide_true by exact Hp. unfold ob_append_byte. rewrite Hroom.
      cbn. right. auto. }
  destruct (ob_has_room b (1 + Z.to_nat (encoded_length (deref subs p)))) eqn:Hroom.
  - rewrite (append_literal_branch ctx b subs p (is_sender_false _ _ Hs)
               (is_previous_false _ _ Hp) (Z.le_trans _ _ _ Z.le_0_1 (proj1 HL)) Hroom).
    left. split; [reflexivity|]. split; [reflexivity|]. split; [exact HL|].
    right. right. reflexivity.
  - destruct (append_literal_short ctx b subs p (is_sender_false _ _ Hs)
                (is_previous_false _ _ Hp) Hpos Hroom) as (b' & subs' & -> & Hbytes).
    right. auto.
Qed.

Lemma append_appends_or_fails_witness :
  let subs := subscribers two_subscriber_directory in
  let b := Buffer [] 0 (Some 1%nat) in
  let '(r, ctx1, b1, subs1) :=
    overlay_address_append (H := serval_header) (Some zero_context) b subs
      (Some 1%nat) in
  let L := encoded_length (H := serval_header) (deref subs 1) in
  (r = 0
   ∧ ctx1 = Some (set_previous zero_context (Some 1%nat))
   ∧ 1 <= L <= 32
   ∧ (bytes b1 = bytes b ++ [OA_CODE_SELF]
      ∨ bytes b1 = bytes b ++ [OA_CODE_PREVIOUS]
      ∨ bytes b1 = bytes b ++ L :: take (Z.to_nat L) (sid (deref subs 1))))
  ∨ (r = -1
     ∧ ctx1 = Some zero_context
     ∧ (bytes b1 = bytes b ∨ bytes b1 = bytes b ++ [L])).
Proof.
  apply (append_appends_or_fails (H := serval_header) zero_context
           (Buffer [] 0 (Some 1%nat)) (subscribers two_subscriber_directory) 1).
  vm_compute. split; discriminate.
Defined.

Section walking_on.
Variable (start_len : nat).

(** The loop from its first slot [i] on: what slot [i] gives, then the slots
    after it. *)
Lemma slots_leaves_from (pos i e : nat) (l : list (slot tree_node)) :
  ∀ j start, (j <= i)%nat → (i < e)%nat →
    slots_leaves pos start_len None 0 i e l j start
    = match l !! (i - j)%nat with
      | Some s =>
          match s with
          | SlotSubscriber p => [p]
          | SlotTree child => walk_leaves child (S pos) start start_len None 0
          | SlotEmpty => []
          end
          ++ slots_leaves pos start_len None 0 i e (drop (S (i - j)) l) (S i) None
      | None => []
      end.
Proof.
  induction l as [|s l IH]; intros j start Hj He; [reflexivity|].
  rewrite slots_leaves_cons.
  destruct (j <? i)%nat eqn:Hlt.
  - apply Nat.ltb_lt in Hlt. rewrite IH by lia.
    replace (i - j)%nat with (S (i - S j)) by lia. reflexivity.
  - apply Nat.ltb_ge in Hlt. assert (j = i) as -> by lia.
    rewrite Nat.sub_diag.
    assert ((i <? e)%nat = true) as -> by (apply Nat.ltb_lt; lia).
    cbn [negb lookup list_lookup drop]. destruct s; reflexivity.
Qed.

(** Past the first slot the loop hands over every subscriber it meets. *)
Lemma slots_leaves_later_leaf (pos i : nat) (l : list (slot tree_node)) (p : nat) :
  ∀ j k start, (i <= j)%nat → l !! k = Some (SlotSubscriber p) → (j + k < 16)%nat →
    p ∈ slots_leaves pos start_len None 0 i 16 l j start.
Proof.
  induction l as [|s l IH]; intros j k start Hij Hk Hlt; [discriminate|].
  rewrite slots_leaves_cons.
  assert ((j <? i)%nat = false) as -> by (apply Nat.ltb_ge; lia).
  assert ((j <? 16)%nat = true) as -> by (apply Nat.ltb_lt; lia). cbn [negb].
  destruct k as [|k].
  - cbn in Hk. injection Hk as ->. apply list_elem_of_here.
  - cbn in Hk. specialize (IH (S j) k None ltac:(lia) Hk ltac:(lia)).
    destruct s; [exact IH|apply list_elem_of_further, IH|].
    apply elem_of_app. right. exact IH.
Qed.

Lemma slots_leaves_later_child (pos i : nat) (l : list (slot tree_node))
    (child : tree_node) (p : nat) :
  ∀ j k, (i <= j)%nat → l !! k = Some (SlotTree child) → (j + k < 16)%nat →
    p ∈ walk_leaves child (S pos) None start_len None 0 →
    p ∈ slots_leaves pos start_len None 0 i 16 l j None.
Proof.
  induction l as [|s l IH]; intros j k Hij Hk Hlt Hp; [discriminate|].
  rewrite slots_leaves_cons.
  assert ((j <? i)%nat = false) as -> by (apply Nat.ltb_ge; lia).
  assert ((j <? 16)%nat = true) as -> by (apply Nat.ltb_lt; lia). cbn [negb].
  destruct k as [|k].
  - cbn in Hk. injection Hk as ->. apply elem_of_app. left. exact Hp.
  - cbn in Hk. specialize (IH (S j) k ltac:(lia) Hk ltac:(lia) Hp).
    destruct s; [exact IH|apply list_elem_of_further, IH|].
    apply elem_of_app. right. exact IH.
Qed.

(** A walk without a start and without an end hands over every subscriber
    below the node. *)
Lemma leaf_visited_unbounded (p : nat) (path : list nat) :
  ∀ (node : tree_node) (subs : list subscriber) (prefix : list nat) (pos : nat),
    wf_node subs prefix node →
    leaf_at node path p →
    p ∈ walk_leaves node pos None start_len None 0.
Proof.
  induction path as [|i rest IH]; intros node subs prefix pos Hwf Hleaf.
  { exfalso. eapply slot_path_nonempty; [exact Hleaf|reflexivity]. }
  rewrite walk_leaves_slots. cbn [walk_first walk_end].
  pose proof Hwf as (Hlen & _ & _).
  apply slot_path_cons_inv in Hleaf as [[-> Hi]|(child & Hi & Hrest)].
  - eapply slots_leaves_later_leaf; [lia|exact Hi|].
    apply lookup_lt_Some in Hi. lia.
  - eapply slots_leaves_later_child; [lia|exact Hi| |].
    + apply lookup_lt_Some in Hi. lia.
    + eapply IH; [eapply wf_node_child; eassumption|exact Hrest].
Qed.

(** The slots after slot [i]: the loop hands over exactly the subscribers
    below them. *)
Lemma slots_after_members (node : tree_node) (subs : list subscriber)
    (prefix : list nat) (pos i : nat) (q : nat) :
  wf_node subs prefix node →
  q ∈ slots_leaves pos start_len None 0 i 16 (drop (S i) (slots node)) (S i) None
  ↔ ∃ k rest, (i < k)%nat ∧ leaf_at node (k :: rest) q.
Proof.
  intros Hwf. pose proof Hwf as (Hlen & _ & _). split.
  - intros Hq.
    apply slots_leaves_source in Hq as [k [Hk|(child & start' & Hk & Hq)]];
      rewrite lookup_drop in Hk.
    + exists (S i + k)%nat, []. split; [lia|]. constructor. exact Hk.
    + apply visited_is_leaf in Hq as [path Hpath].
      exists (S i + k)%nat, path. split; [lia|].
      eapply slot_path_below; eassumption.
  - intros (k & rest & Hik & Hleaf).
    assert (Hk : (k < 16)%nat).
    { apply slot_path_cons_inv in Hleaf as [[_ Hk]|(c & Hk & _)];
        apply lookup_lt_Some in Hk; lia. }
    apply slot_path_cons_inv in Hleaf as [[-> Hslot]|(child & Hslot & Hrest)].
    + apply (slots_leaves_later_leaf pos i _ q (S i) (k - S i)); [lia| |lia].
      rewrite lookup_drop. replace (S i + (k - S i))%nat with k by lia. exact Hslot.
    + apply (slots_leaves_later_child pos i _ child q (S i) (k - S i)); [lia| |lia|].
      * rewrite lookup_drop. replace (S i + (k - S i))%nat with k by lia. exact Hslot.
      * eapply leaf_visited_unbounded; [eapply wf_node_child; eassumption|exact Hrest].
Qed.

End walking_on.

Section walking_from.

Lemma path_lt_nil (b : list nat) : ¬ path_lt [] b.
Proof. intros Hlt. inversion Hlt. Qed.

Lemma path_lt_cons_inv (i : nat) (ra b : list nat) :
  path_lt (i :: ra) b →
  ∃ j rb, b = j :: rb ∧ ((i < j)%nat ∨ (j = i ∧ path_lt ra rb)).
Proof.
  intros Hlt. inversion Hlt as [i' j ra' rb Hij|i' ra' rb Hrest]; subst.
  - exists j, rb. split; [reflexivity|left; exact Hij].
  - exists i, rb. split; [reflexivity|right; split; [reflexivity|exact Hrest]].
Qed.

(** A walk that starts at the identifier of a subscriber of the tree hands
    that subscriber over first, and after it exactly the subscribers of the
    slots the walk meets later. *)
Lemma walk_from_leaf (s : nat) (path : list nat) :
  ∀ (node : tree_node) (subs : list subscriber) (prefix : list nat) (pos : nat)
    (key : list Z),
    wf_node subs prefix node →
    leaf_at node path s →
    (pos + length path <= 64)%nat →
    (∀ k, (k < length path)%nat → path !! k = Some (nib key (pos + k))) →
    (∃ rest, walk_leaves node pos (Some key) SID_SIZE None 0 = s :: rest)
    ∧ ∀ q, q ∈ walk_leaves node pos (Some key) SID_SIZE None 0
           ↔ ∃ pathq, leaf_at node pathq q ∧ (pathq = path ∨ path_lt path pathq).
Proof.
  induction path as [|i rest IH]; intros node subs prefix pos key Hwf Hleaf Hdepth Hkey.
  { exfalso. eapply slot_path_nonempty; [exact Hleaf|reflexivity]. }
  cbn [length] in Hdepth.
  assert (Hi : i = nib key pos).
  { specialize (Hkey 0%nat ltac:(cbn; lia)).
    rewrite Nat.add_0_r in Hkey. cbn in Hkey. congruence. }
  pose proof Hwf as (Hlen & _ & _).
  assert (Hi16 : (i < 16)%nat) by (rewrite Hi; apply nib_range).
  rewrite walk_leaves_slots. unfold walk_first. cbn [walk_end].
  assert ((pos <? SID_SIZE * 2)%nat = true) as ->
    by (apply Nat.ltb_lt; unfold SID_SIZE; lia).
  fold (nib key pos). rewrite <- Hi.
  rewrite (slots_leaves_from SID_SIZE pos i 16 (slots node) 0 (Some key)) by lia.
  rewrite Nat.sub_0_r.
  set (tail_ := slots_leaves pos SID_SIZE None 0 i 16 (drop (S i) (slots node))
                             (S i) None).
  assert (Htail : ∀ q, q ∈ tail_ ↔ ∃ k rest', (i < k)%nat ∧ leaf_at node (k :: rest') q)
    by (intros q; apply (slots_after_members SID_SIZE node subs prefix pos i q Hwf)).
  assert (Hlater : ∀ q pathq, leaf_at node pathq q → path_lt (i :: rest) pathq →
                              (∃ k rest', pathq = k :: rest' ∧ (i < k)%nat)
                              ∨ (∃ rb, pathq = i :: rb ∧ path_lt rest rb)).
  { intros q pathq _ Hlt.
    apply path_lt_cons_inv in Hlt as (j & rb & -> & [Hij|[-> Hrest]]); eauto. }
  apply slot_path_cons_inv in Hleaf as [[-> Hslot]|(child & Hslot & Hrest)];
    rewrite Hslot.
  - (* the leaf is in this node *)
    split; [exists tail_; reflexivity|]. intros q. cbn [app].
    rewrite elem_of_cons, Htail. split.
    + intros [->|(k & rest' & Hik & Hq)].
      * exists [i]. split; [constructor; exact Hslot|left; reflexivity].
      * exists (k :: rest'). split; [exact Hq|]. right. constructor. exact Hik.
    + intros (pathq & Hq & [->|Hlt]).
      * left. pose proof (slot_path_functional _ _ _ _ Hq
                            (slot_path_here _ _ _ Hslot)) as Heq. congruence.
      * right. destruct (Hlater q pathq Hq Hlt)
          as [(k & rest' & -> & Hik)|(rb & -> & Hnil)]; [eauto|].
        destruct (path_lt_nil _ Hnil).
  - (* the leaf is below a child node *)
    destruct (IH child subs (prefix ++ [i]) (S pos) key
                (wf_node_child _ _ _ _ _ Hwf Hslot) Hrest ltac:(lia))
      as [[rest' Hhead] Hmem].
    { intros k Hk. specialize (Hkey (S k) ltac:(cbn; lia)).
      cbn in Hkey. rewrite <- Nat.add_succ_comm in Hkey. exact Hkey. }
    split; [exists (rest' ++ tail_); rewrite Hhead; reflexivity|].
    intros q. rewrite elem_of_app, Hmem, Htail. split.
    + intros [(pathq & Hq & Hord)|(k & rest'' & Hik & Hq)].
      * exists (i :: pathq). split; [eapply slot_path_below; eassumption|].
        destruct Hord as [->|Hlt]; [left; reflexivity|right].
        apply path_lt_below. exact Hlt.
      * exists (k :: rest''). split; [exact Hq|]. right. constructor. exact Hik.
    + intros (pathq & Hq & [->|Hlt]).
      * left. exists rest. split; [|left; reflexivity].
        apply slot_path_cons_inv in Hq as [[Hnil _]|(c & Hc & Hq)].
        -- subst rest. exfalso. eapply slot_path_nonempty; [exact Hrest|reflexivity].
        -- replace c with child in Hq by congruence. exact Hq.
      * destruct (Hlater q pathq Hq Hlt)
          as [(k & rest'' & -> & Hik)|(rb & -> & Hrb)]; [right; eauto|].
        left. exists rb. split; [|right; exact Hrb].
        apply slot_path_cons_inv in Hq as [[Hnil _]|(c & Hc & Hq)].
        -- subst rb. inversion Hrb.
        -- replace c with child in Hq by congruence. exact Hq.
Qed.

End walking_from.

Section walking_once.
Variables (start_len : nat) (end_ : option (list Z)) (end_len : nat).

Lemma slots_leaves_holder (pos i e : nat) (p : nat) (l : list (slot tree_node)) :
  ∀ j start,
    p ∈ slots_leaves pos start_len end_ end_len i e l j start →
    ∃ k s, l !! k = Some s ∧ slot_holds s p.
Proof.
  intros j start Hp.
  apply slots_leaves_source in Hp as [k [Hk|(child & start' & Hk & Hp)]].
  - exists k, (SlotSubscriber p). split; [exact Hk|left; reflexivity].
  - apply visited_is_leaf in Hp as [path Hpath].
    exists k, (SlotTree child). split; [exact Hk|]. right. eauto.
Qed.

Lemma slots_leaves_NoDup (pos i e : nat) (l : list (slot tree_node)) :
  (∀ k child, l !! k = Some (SlotTree child) →
              ∀ start', NoDup (walk_leaves child (S pos) start' start_len end_ end_len)) →
  (∀ k1 k2 s1 s2 p, l !! k1 = Some s1 → l !! k2 = Some s2 →
                    slot_holds s1 p → slot_holds s2 p → k1 = k2) →
  ∀ j start, NoDup (slots_leaves pos start_len end_ end_len i e l j start).
Proof.
  induction l as [|s l IH]; intros Hchildren Hapart j start;
    [rewrite slots_leaves_nil; constructor|].
  assert (IH' : ∀ j' start',
             NoDup (slots_leaves pos start_len end_ end_len i e l j' start')).
  { apply IH.
    - intros k child Hk. exact (Hchildren (S k) child Hk).
    - intros k1 k2 s1 s2 p H1 H2 Hb1 Hb2.
      pose proof (Hapart (S k1) (S k2) s1 s2 p H1 H2 Hb1 Hb2). lia. }
  assert (Hfresh : ∀ p j' start',
             slot_holds s p →
             p ∉ slots_leaves pos start_len end_ end_len i e l j' start').
  { intros p j' start' Hb Hin.
    apply slots_leaves_holder in Hin as (k & s' & Hk & Hb').
    pose proof (Hapart 0%nat (S k) s s' p eq_refl Hk Hb Hb'). lia. }
  rewrite slots_leaves_cons.
  destruct (j <? i)%nat; [apply IH'|].
  destruct (negb (j <? e)%nat); [constructor|].
  destruct s as [|p|child]; [apply IH'| |].
  - constructor; [|apply IH']. apply Hfresh. left. reflexivity.
  - apply NoDup_app. split; [exact (Hchildren 0%nat child eq_refl start)|].
    split; [|apply IH'].
    intros p Hp. apply visited_is_leaf in Hp as [path Hpath].
    apply Hfresh. right. eauto.
Qed.

(** No walk hands the same subscriber over twice. *)
Lemma walk_leaves_NoDup (node : tree_node) :
  ∀ (subs : list subscriber) (prefix : list nat) (pos : nat)
    (start : option (list Z)),
    wf_node subs prefix node →
    NoDup (walk_leaves node pos start start_len end_ end_len).
Proof.
  induction node as [sl IH] using tree_node_children_ind.
  intros subs prefix pos start Hwf. rewrite walk_leaves_slots. cbn [slots].
  apply slots_leaves_NoDup.
  - intros k child Hk start'. rewrite Forall_lookup in IH.
    specialize (IH _ _ Hk). cbn in IH.
    apply (IH subs (prefix ++ [k])). exact (wf_node_child _ _ _ _ _ Hwf Hk).
  - intros k1 k2 s1 s2 p H1 H2 Hb1 Hb2.
    assert (Hpath : ∀ k s, sl !! k = Some s → slot_holds s p →
                           ∃ rest, leaf_at (TreeNode sl) (k :: rest) p).
    { intros k s Hk [->|(child & path & -> & Hpath)].
      - exists []. constructor. exact Hk.
      - exists path. eapply slot_path_below; [exact Hk|exact Hpath]. }
    destruct (Hpath _ _ H1 Hb1) as [r1 Hp1].
    destruct (Hpath _ _ H2 Hb2) as [r2 Hp2].
    pose proof (leaf_unique _ _ _ _ _ _ Hwf Hp1 Hp2) as Heq. congruence.
Qed.

End walking_once.

Section identifier_order.

Lemma path_lt_split (a b : list nat) :
  path_lt a b →
  ∃ c i j ra rb, a = c ++ i :: ra ∧ b = c ++ j :: rb ∧ (i < j)%nat.
Proof.
  induction 1 as [i j ra rb Hij|i ra rb _ (c & i' & j & ra' & rb' & -> & -> & Hij)].
  - exists [], i, j, ra, rb. auto.
  - exists (i :: c), i', j, ra', rb'. auto.
Qed.

Lemma path_lt_app (c : list nat) (i j : nat) (ra rb : list nat) :
  (i < j)%nat → path_lt (c ++ i :: ra) (c ++ j :: rb).
Proof.
  intros Hij. induction c as [|x c IH]; cbn; [constructor; exact Hij|].
  apply path_lt_below. exact IH.
Qed.

(** The slot a leaf's path takes at depth [k] is the nibble [k] of its
    identifier. *)
Lemma leaf_path_nib (d : directory) (path : list nat) (p : nat) (k : nat) :
  wf_directory d → leaf_at (root d) path p → (k < length path)%nat →
  path !! k = Some (nib (sid (deref (subscribers d) p)) k).
Proof.
  intros Hwf Hp Hk.
  pose proof (leaf_nibbles d path p (length path) Hwf Hp ltac:(lia)) as Hn.
  rewrite firstn_all in Hn. rewrite <- Hn at 1. apply nibbles_lookup. exact Hk.
Qed.

Lemma nib_lt (a b : list Z) (k : nat) :
  (nib a k < nib b k)%nat ↔ get_nibble a k < get_nibble b k.
Proof.
  unfold nib. pose proof (get_nibble_range a k). pose proof (get_nibble_range b k). lia.
Qed.

Lemma nib_eq (a b : list Z) (k : nat) :
  nib a k = nib b k ↔ get_nibble a k = get_nibble b k.
Proof.
  unfold nib. pose proof (get_nibble_range a k). pose proof (get_nibble_range b k). lia.
Qed.

(** The walk meets the subscribers in the order of their identifiers. *)
Lemma path_lt_sid_lt (d : directory) (s q : nat) (paths pathq : list nat) :
  wf_directory d →
  leaf_at (root d) paths s →
  leaf_at (root d) pathq q →
  path_lt paths pathq
  ↔ sid_lt (sid (deref (subscribers d) s)) (sid (deref (subscribers d) q)).
Proof.
  intros Hwf Hs Hq.
  pose proof Hwf as [_ (_ & _ & Hleaves)].
  destruct (Hleaves _ _ Hs) as (_ & _ & Hds). cbn [length Nat.add] in Hds.
  split.
  - intros Hlt. apply path_lt_split in Hlt as (c & i & j & ra & rb & -> & -> & Hij).
    rewrite length_app in Hds. cbn [length] in Hds.
    exists (length c). split; [lia|]. split.
    + intros m Hm. apply nib_eq.
      pose proof (leaf_path_nib d _ s m Hwf Hs
                    ltac:(rewrite length_app; cbn [length]; lia)) as H1.
      pose proof (leaf_path_nib d _ q m Hwf Hq
                    ltac:(rewrite length_app; cbn [length]; lia)) as H2.
      rewrite lookup_app_l in H1, H2 by exact Hm. congruence.
    + apply nib_lt.
      pose proof (leaf_path_nib d _ s (length c) Hwf Hs
                    ltac:(rewrite length_app; cbn [length]; lia)) as H1.
      pose proof (leaf_path_nib d _ q (length c) Hwf Hq
                    ltac:(rewrite length_app; cbn [length]; lia)) as H2.
      rewrite list_lookup_middle in H1, H2 by reflexivity.
      injection H1 as <-. injection H2 as <-. exact Hij.
  - intros (k & Hk & Hshare & Hless).
    assert (Hne : sid (deref (subscribers d) s) ≠ sid (deref (subscribers d) q)).
    { intros Heq. rewrite Heq in Hless. lia. }
    pose proof (leaf_below_shared_nibbles d s q k paths Hwf Hs
                  ltac:(eexists; exact Hq) Hne Hshare) as Hks.
    pose proof (leaf_below_shared_nibbles d q s k pathq Hwf Hq
                  ltac:(eexists; exact Hs) ltac:(congruence)
                  ltac:(intros m Hm; symmetry; apply Hshare; exact Hm)) as Hkq.
    pose proof (leaf_path_nib d _ s k Hwf Hs Hks) as H1.
    pose proof (leaf_path_nib d _ q k Hwf Hq Hkq) as H2.
    rewrite <- (take_drop_middle _ _ _ H1), <- (take_drop_middle _ _ _ H2).
    assert (Hsame : take k paths = take k pathq).
    { rewrite <- (leaf_nibbles d paths s k Hwf Hs ltac:(lia)).
      rewrite <- (leaf_nibbles d pathq q k Hwf Hq ltac:(lia)).
      apply nibbles_ext. exact Hshare. }
    rewrite Hsame. apply path_lt_app. apply nib_lt. exact Hless.
Qed.

End identifier_order.

(** X21. [enum_subscribers] started at a subscriber of a well-formed
    directory hands the callback that subscriber first, and then exactly the
    subscribers of the directory whose identifier is greater (identifiers
    read as 64 hexadecimal digits), each of them once, until the callback
    returns non-zero: the context it leaves is the one the calls of the
    callback on this list, in order and up to the first non-zero result,
    leave. *)
Theorem enum_subscribers_from_start {C : Type} (d : directory) (s : nat)
    (callback : nat → C → bool * C) (context : C) :
  wf_directory d →
  in_directory d s →
  enum_subscribers d s callback context
  = snd (call_in_turn callback (enumerated d s) context)
  ∧ (∃ rest, enumerated d s = s :: rest)
  ∧ NoDup (enumerated d s)
  ∧ (∀ q, q ∈ enumerated d s
          ↔ in_directory d q
            ∧ (q = s ∨ sid_lt (sid (deref (subscribers d) s))
                              (sid (deref (subscribers d) q)))).
Proof.
  intros Hwf [path Hs].
  pose proof Hwf as [_ Hnode]. pose proof Hnode as (_ & _ & Hleaves).
  destruct (Hleaves _ _ Hs) as (_ & _ & Hdepth). cbn [length Nat.add] in Hdepth.
  destruct (walk_from_leaf s path (root d) (subscribers d) [] 0
              (sid (deref (subscribers d) s)) Hnode Hs ltac:(lia))
    as [Hhead Hmem].
  { intros k Hk. cbn [Nat.add]. apply (leaf_path_nib d path s k Hwf Hs Hk). }
  split; [|split; [exact Hhead|split]].
  - unfold enum_subscribers, enumerated.
    rewrite (proj2 (walk_tree_in_turn callback SID_SIZE None 0 (root d) 0 _ []
                      context)). reflexivity.
  - apply (walk_leaves_NoDup SID_SIZE None 0 (root d) (subscribers d) [] 0 _ Hnode).
  - intros q. unfold enumerated. rewrite Hmem. split.
    + intros (pathq & Hq & [->|Hlt]).
      * split; [eexists; exact Hq|left].
        pose proof (slot_path_functional _ _ _ _ Hq Hs) as Heq. congruence.
      * split; [eexists; exact Hq|right].
        apply (path_lt_sid_lt d s q path pathq Hwf Hs Hq). exact Hlt.
    + intros [[pathq Hq] [->|Hlt]].
      * exists path. split; [exact Hs|left; reflexivity].
      * exists pathq. split; [exact Hq|right].
        apply (path_lt_sid_lt d s q path pathq Hwf Hs Hq). exact Hlt.
Qed.

Lemma enum_subscribers_from_start_witness :
  let d := two_subscriber_directory in
  enum_subscribers d 0 note_subscriber []
  = snd (call_in_turn note_subscriber (enumerated d 0) [])
  ∧ (∃ rest, enumerated d 0 = 0%nat :: rest)
  ∧ NoDup (enumerated d 0)
  ∧ (∀ q, q ∈ enumerated d 0
          ↔ in_directory d q
            ∧ (q = 0%nat ∨ sid_lt (sid (deref (subscribers d) 0))
                                  (sid (deref (subscribers d) q)))).
Proof.
  apply (enum_subscribers_from_start two_subscriber_directory 0 note_subscriber []).
  - apply wf_insert_all. sid_of_ok.
  - exists [1%nat]. constructor. reflexivity.
Defined.

(** X22. [walk_tree] below a well-formed node calls the callback on
    subscribers of the subtree only, on none of them twice, in a fixed order
    that depends on the bounds alone, and stops at the first call that
    returns non-zero, returning 1 then and 0 otherwise.  Without a start and
    without an end it reaches every subscriber of the subtree. *)
Theorem walk_tree_hands_over_leaves {C : Type} (node : tree_node)
    (subs : list subscriber) (prefix : list nat) (pos : nat)
    (start : option (list Z)) (start_len : nat) (end_ : option (list Z))
    (end_len : nat) (callback : nat → C → bool * C) (context : C) :
  wf_node subs prefix node →
  let visited := walk_leaves node pos start start_len end_ end_len in
  walk_tree node pos start start_len end_ end_len callback context
  = call_in_turn callback visited context
  ∧ NoDup visited
  ∧ (∀ q, q ∈ visited → ∃ path, leaf_at node path q)
  ∧ (∀ q path, leaf_at node path q →
               q ∈ walk_leaves node pos None start_len None 0).
Proof.
  intros Hwf visited. split; [|split; [|split]].
  - apply (walk_tree_in_turn callback start_len end_ end_len node pos start []
             context).
  - exact (walk_leaves_NoDup start_len end_ end_len node subs prefix pos start Hwf).
  - intros q Hq. eapply visited_is_leaf. exact Hq.
  - intros q path Hq.
    exact (leaf_visited_unbounded start_len q path node subs prefix pos Hwf Hq).
Qed.

Lemma walk_tree_hands_over_leaves_witness :
  let node := root two_subscriber_directory in
  let visited := walk_leaves node 0 None 0 None 0 in
  walk_tree node 0 None 0 None 0 note_subscriber []
  = call_in_turn note_subscriber visited []
  ∧ NoDup visited
  ∧ (∀ q, q ∈ visited → ∃ path, leaf_at node path q)
  ∧ (∀ q path, leaf_at node path q → q ∈ walk_leaves node 0 None 0 None 0).
Proof.
  apply (walk_tree_hands_over_leaves (root two_subscriber_directory)
           (subscribers two_subscriber_directory) [] 0 None 0 None 0
           note_subscriber []).
  apply (wf_insert_all [sid_of [0x10]; sid_of [0x20]]). sid_of_ok.
Defined.

Section reachability_updates.
Context `{Header}.

Lemma deref_set_reachable_field (subs : list subscriber) (p q : nat) (v : Z) :
  (p < length subs)%nat →
  deref (alter (set_reachable_field v) p subs) q
  = if decide (p = q) then set_reachable_field v (deref subs q) else deref subs q.
Proof. intros Hp. apply deref_alter. exact Hp. Qed.

Lemma deref_set_interface (subs : list subscriber) (p q : nat)
    (i : option overlay_interface) :
  (p < length subs)%nat →
  deref (alter (Routes.set_interface i) p subs) q
  = if decide (p = q) then Routes.set_interface i (deref subs q) else deref subs q.
Proof. intros Hp. apply deref_alter. exact Hp. Qed.

(** What [set_reachable] leaves in the arena and in the further fields. *)
Lemma set_reachable_effect (st : Routes.routes) (p : nat) (v : Z) :
  (p < length (Routes.arena st))%nat →
  let '(r, st') := Routes.set_reachable st p v in
  r = 0
  ∧ deref (Routes.arena st') p = set_reachable_field v (deref (Routes.arena st) p)
  ∧ (∀ q, q ≠ p → deref (Routes.arena st') q = deref (Routes.arena st) q)
  ∧ Routes.links st' = Routes.links st.
Proof.
  intros Hp. unfold Routes.set_reachable.
  destruct (reachable (deref (Routes.arena st) p) =? v) eqn:Hsame.
  - apply Z.eqb_eq in Hsame. subst v. split; [reflexivity|]. split.
    { destruct (deref (Routes.arena st) p). reflexivity. }
    split; reflexivity.
  - cbn [Routes.arena Routes.links].
    rewrite deref_set_reachable_field by exact Hp.
    rewrite decide_True by reflexivity.
    split; [reflexivity|]. split; [reflexivity|]. split; [|reflexivity].
    intros q Hq. rewrite deref_set_reachable_field by exact Hp.
    rewrite decide_False by congruence. reflexivity.
Qed.

End reachability_updates.

(** X23. [set_reachable] always returns 0.  With the state the subscriber
    already has it changes nothing and makes no call.  Otherwise it stores
    the new state in that subscriber and touches no other field and no other
    subscriber; it asks the keyring for the signing key exactly when
    [sas_valid] is not set and the new state has a REACHABLE bit, and
    triggers the directory registration exactly when the subscriber is the
    directory service, in this order.  A second call with the same state
    right after is silent. *)
Theorem set_reachable_stores_and_notifies `{Header} (st : Routes.routes) (p : nat)
    (v : Z) :
  (p < length (Routes.arena st))%nat →
  let '(r, st') := Routes.set_reachable st p v in
  let old := deref (Routes.arena st) p in
  let wanted :=
    (if negb (Routes.sas_valid (Routes.link_of st p)) && negb (Z.land v REACHABLE =? 0)
     then [Routes.keyring_send_sas_request p] else [])
    ++ (if bool_decide (Routes.directory_service st = Some p)
        then [Routes.directory_registration] else []) in
  r = 0
  ∧ reachable (deref (Routes.arena st') p) = v
  ∧ deref (Routes.arena st') p = set_reachable_field v old
  ∧ (∀ q, q ≠ p → deref (Routes.arena st') q = deref (Routes.arena st) q)
  ∧ Routes.links st' = Routes.links st
  ∧ Routes.directory_service st' = Routes.directory_service st
  ∧ Routes.calls st'
    = Routes.calls st ++ (if reachable old =? v then [] else wanted)
  ∧ Routes.set_reachable st' p v = (0, st').
Proof.
  intros Hp. unfold Routes.set_reachable.
  destruct (reachable (deref (Routes.arena st) p) =? v) eqn:Hsame.
  - apply Z.eqb_eq in Hsame. subst v. rewrite Z.eqb_refl.
    split; [reflexivity|]. split; [reflexivity|]. split.
    { destruct (deref (Routes.arena st) p). reflexivity. }
    split; [reflexivity|]. split; [reflexivity|]. split; [reflexivity|].
    split; [rewrite app_nil_r; reflexivity|reflexivity].
  - cbn [Routes.arena Routes.links Routes.directory_service Routes.calls].
    rewrite deref_set_reachable_field by exact Hp.
    rewrite decide_True by reflexivity.
    cbn [reachable set_reachable_field]. rewrite Z.eqb_refl.
    split; [reflexivity|]. split; [reflexivity|]. split; [reflexivity|].
    split.
    { intros q Hq. rewrite deref_set_reachable_field by exact Hp.
      rewrite decide_False by congruence. reflexivity. }
    split; [reflexivity|]. split; [reflexivity|]. split; [|reflexivity].
    destruct (negb _ && negb _); destruct (bool_decide _);
      rewrite <- ?app_assoc, ?app_nil_r; reflexivity.
Qed.

Lemma set_reachable_stores_and_notifies_witness :
  let st := Routes.Routes (subscribers one_subscriber_directory) [Routes.zero_link]
              (Some 0%nat) [] in
  let '(r, st') := Routes.set_reachable (H := serval_header) st 0 4 in
  let old := deref (Routes.arena st) 0 in
  let wanted :=
    (if negb (Routes.sas_valid (Routes.link_of st 0))
        && negb (Z.land 4 (REACHABLE (Header := serval_header)) =? 0)
     then [Routes.keyring_send_sas_request 0] else [])
    ++ (if bool_decide (Routes.directory_service st = Some 0%nat)
        then [Routes.directory_registration] else []) in
  r = 0
  ∧ reachable (deref (Routes.arena st') 0) = 4
  ∧ deref (Routes.arena st') 0 = set_reachable_field 4 old
  ∧ (∀ q, q ≠ 0%nat → deref (Routes.arena st') q = deref (Routes.arena st) q)
  ∧ Routes.links st' = Routes.links st
  ∧ Routes.directory_service st' = Routes.directory_service st
  ∧ Routes.calls st'
    = Routes.calls st ++ (if reachable old =? 4 then [] else wanted)
  ∧ Routes.set_reachable (H := serval_header) st' 0 4 = (0, st').
Proof.
  apply (set_reachable_stores_and_notifies (H := serval_header)
           (Routes.Routes (subscribers one_subscriber_directory) [Routes.zero_link]
              (Some 0%nat) []) 0 4).
  vm_compute. lia.
Defined.

Section unicast.
Context `{Header}.

(** What a call of [reachable_unicast] that is not refused leaves. *)
Lemma reachable_unicast_accepted (AF_INET : Z) (htons : Z → Z) (st : Routes.routes)
    (p : nat) (i : option overlay_interface) (addr port : Z) :
  (p < length (Routes.arena st))%nat →
  Z.land (reachable (deref (Routes.arena st) p)) REACHABLE = 0 →
  Routes.node (Routes.link_of st p) = false →
  ∃ st', Routes.reachable_unicast AF_INET htons st p i addr port = (0, st')
         ∧ deref (Routes.arena st') p
           = set_reachable_field REACHABLE_UNICAST
               (Routes.set_interface i (deref (Routes.arena st) p))
         ∧ (∀ q, q ≠ p → deref (Routes.arena st') q = deref (Routes.arena st) q)
         ∧ Routes.links st'
           = alter (Routes.set_address
                      (Routes.Sockaddr AF_INET addr (htons port))) p (Routes.links st).
Proof.
  intros Hp Hnot Hnode. unfold Routes.reachable_unicast.
  rewrite Hnot, Hnode. cbn [Z.eqb negb].
  set (st1 := Routes.Routes _ _ _ _).
  assert (Hp1 : (p < length (Routes.arena st1))%nat)
    by (subst st1; cbn [Routes.arena]; rewrite length_alter; exact Hp).
  pose proof (set_reachable_effect st1 p REACHABLE_UNICAST Hp1) as Hset.
  destruct (Routes.set_reachable st1 p REACHABLE_UNICAST) as [r st'].
  destruct Hset as (_ & Hstored & Hothers & Hlinks).
  exists st'. split; [reflexivity|]. split.
  - rewrite Hstored. subst st1. cbn [Routes.arena].
    rewrite deref_set_interface by exact Hp. rewrite decide_True by reflexivity.
    reflexivity.
  - split; [|rewrite Hlinks; reflexivity].
    intros q Hq. rewrite (Hothers q Hq). subst st1. cbn [Routes.arena].
    rewrite deref_set_interface by exact Hp. rewrite decide_False by congruence.
    reflexivity.
Qed.

End unicast.

(** X24. [reachable_unicast] refuses, with -1 and without changing
    anything, exactly when the stored state of the subscriber has a REACHABLE
    bit or the subscriber has a routing node.  Otherwise it returns 0, and
    the subscriber has the interface given, the address (AF_INET, addr,
    htons(port)) and the state REACHABLE_UNICAST; no other subscriber
    changes.  As REACHABLE_UNICAST has a REACHABLE bit, a second call for the
    same subscriber is refused. *)
Theorem reachable_unicast_accepts_once `{Header} (AF_INET : Z) (htons : Z → Z)
    (st : Routes.routes) (p : nat) (i : option overlay_interface) (addr port : Z) :
  (p < length (Routes.arena st))%nat →
  (p < length (Routes.links st))%nat →
  Z.land REACHABLE_UNICAST REACHABLE ≠ 0 →
  let '(r, st') := Routes.reachable_unicast AF_INET htons st p i addr port in
  let refused :=
    Z.land (reachable (deref (Routes.arena st) p)) REACHABLE ≠ 0
    ∨ Routes.node (Routes.link_of st p) = true in
  (refused → r = -1 ∧ st' = st)
  ∧ (¬ refused →
     r = 0
     ∧ reachable (deref (Routes.arena st') p) = REACHABLE_UNICAST
     ∧ interface (deref (Routes.arena st') p) = i
     ∧ sid (deref (Routes.arena st') p) = sid (deref (Routes.arena st) p)
     ∧ Routes.address (Routes.link_of st' p)
       = Routes.Sockaddr AF_INET addr (htons port)
     ∧ (∀ q, q ≠ p → deref (Routes.arena st') q = deref (Routes.arena st) q)
     ∧ ∀ i2 addr2 port2,
         Routes.reachable_unicast AF_INET htons st' p i2 addr2 port2 = (-1, st')).
Proof.
  intros Hp Hl Hbit.
  destruct (Z.land (reachable (deref (Routes.arena st) p)) REACHABLE =? 0) eqn:Hreach.
  2:{ unfold Routes.reachable_unicast. rewrite Hreach. cbn [negb].
      apply Z.eqb_neq in Hreach. split; [auto|]. intros Hnot. destruct Hnot. left.
      exact Hreach. }
  apply Z.eqb_eq in Hreach.
  destruct (Routes.node (Routes.link_of st p)) eqn:Hnode.
  { unfold Routes.reachable_unicast. rewrite Hreach, Hnode. cbn [Z.eqb negb].
    split; [auto|]. intros Hnot. destruct Hnot. right. reflexivity. }
  destruct (reachable_unicast_accepted AF_INET htons st p i addr port Hp Hreach Hnode)
    as (st' & -> & Hstored & Hothers & Hlinks).
  split; [intros [Hr|Hn]; [contradiction|discriminate]|].
  intros _. split; [reflexivity|]. rewrite Hstored.
  split; [reflexivity|]. split; [reflexivity|]. split; [reflexivity|]. split.
  { unfold Routes.link_of. rewrite Hlinks, list_lookup_alter_eq.
    destruct (lookup_lt_is_Some_2 _ _ Hl) as [l ->]. reflexivity. }
  split; [exact Hothers|].
  intros i2 addr2 port2. unfold Routes.reachable_unicast. rewrite Hstored.
  cbn [reachable set_reachable_field].
  apply Z.eqb_neq in Hbit. rewrite Hbit. reflexivity.
Qed.

Lemma reachable_unicast_accepts_once_witness :
  let st := Routes.Routes (subscribers one_subscriber_directory) [Routes.zero_link]
              None [] in
  let i := Some (Interface 1) in
  let '(r, st') := Routes.reachable_unicast (H := serval_header) 2 (λ x, x) st 0 i
                     0x7f000001 4110 in
  let refused :=
    Z.land (reachable (deref (Routes.arena st) 0)) (REACHABLE (Header := serval_header))
    ≠ 0
    ∨ Routes.node (Routes.link_of st 0) = true in
  (refused → r = -1 ∧ st' = st)
  ∧ (¬ refused →
     r = 0
     ∧ reachable (deref (Routes.arena st') 0)
       = REACHABLE_UNICAST (Header := serval_header)
     ∧ interface (deref (Routes.arena st') 0) = i
     ∧ sid (deref (Routes.arena st') 0) = sid (deref (Routes.arena st) 0)
     ∧ Routes.address (Routes.link_of st' 0)
       = Routes.Sockaddr 2 0x7f000001 ((λ x, x) 4110)
     ∧ (∀ q, q ≠ 0%nat → deref (Routes.arena st') q = deref (Routes.arena st) q)
     ∧ ∀ i2 addr2 port2,
         Routes.reachable_unicast (H := serval_header) 2 (λ x, x) st' 0 i2 addr2 port2
         = (-1, st')).
Proof.
  apply (reachable_unicast_accepts_once (H := serval_header) 2 (λ x, x)
           (Routes.Routes (subscribers one_subscriber_directory) [Routes.zero_link]
              None []) 0 (Some (Interface 1)) 0x7f000001 4110).
  - vm_compute. lia.
  - vm_compute. lia.
  - vm_compute. discriminate.
Defined.

(** X25. After a call of [reachable_unicast] that is not refused,
    [subscriber_is_reachable] gives REACHABLE_UNICAST when the interface
    given is up, and REACHABLE_NONE when it is down or when no interface was
    given.  (UNICAST is a direct mode: it has a DIRECT bit and is not
    INDIRECT.) *)
Theorem reachable_unicast_then_resolve `{Header} (AF_INET : Z) (htons : Z → Z)
    (st st' : Routes.routes) (p : nat) (i : option overlay_interface)
    (addr port : Z) (fuel : nat) :
  (p < length (Routes.arena st))%nat →
  REACHABLE_UNICAST ≠ REACHABLE_INDIRECT →
  Z.land REACHABLE_UNICAST REACHABLE_DIRECT ≠ 0 →
  Routes.reachable_unicast AF_INET htons st p i addr port = (0, st') →
  subscriber_is_reachable (S fuel) (Routes.arena st') (Some p)
  = Some (match i with
          | Some i' => if state i' =? INTERFACE_STATE_UP
                       then REACHABLE_UNICAST else REACHABLE_NONE
          | None => REACHABLE_NONE
          end).
Proof.
  intros Hp Hmode Hdirect Hrun.
  assert (Hstored : deref (Routes.arena st') p
                    = set_reachable_field REACHABLE_UNICAST
                        (Routes.set_interface i (deref (Routes.arena st) p))).
  { destruct (Z.land (reachable (deref (Routes.arena st) p)) REACHABLE =? 0) eqn:Hreach.
    2:{ unfold Routes.reachable_unicast in Hrun. rewrite Hreach in Hrun.
        cbn [negb] in Hrun. discriminate. }
    apply Z.eqb_eq in Hreach.
    destruct (Routes.node (Routes.link_of st p)) eqn:Hnode.
    { unfold Routes.reachable_unicast in Hrun. rewrite Hreach, Hnode in Hrun.
      cbn [Z.eqb negb] in Hrun. discriminate. }
    destruct (reachable_unicast_accepted AF_INET htons st p i addr port Hp Hreach Hnode)
      as (st'' & Hrun' & Hstored & _).
    rewrite Hrun' in Hrun. injection Hrun as <-. exact Hstored. }
  rewrite resolve_not_indirect by (rewrite Hstored; exact Hmode).
  rewrite Hstored. unfold interface_checked.
  cbn [reachable interface set_reachable_field Routes.set_interface].
  apply Z.eqb_neq in Hdirect. rewrite Hdirect. cbn [negb].
  destruct i as [i'|]; [|reflexivity].
  destruct (state i' =? INTERFACE_STATE_UP); reflexivity.
Qed.

Lemma reachable_unicast_then_resolve_witness :
  let st := Routes.Routes (subscribers one_subscriber_directory) [Routes.zero_link]
              None [] in
  let st' := snd (Routes.reachable_unicast (H := serval_header) 2 (λ x, x) st 0 None
                    0x7f000001 4110) in
  subscriber_is_reachable (H := serval_header) 1 (Routes.arena st') (Some 0%nat)
  = Some (REACHABLE_NONE (Header := serval_header)).
Proof.
  refine (reachable_unicast_then_resolve (H := serval_header) 2 (λ x, x)
            (Routes.Routes (subscribers one_subscriber_directory) [Routes.zero_link]
               None [])
            _ 0 None 0x7f000001 4110 0 _ _ _ _).
  - vm_compute. lia.
  - vm_compute. discriminate.
  - vm_compute. discriminate.
  - vm_compute. reflexivity.
Defined.

Section writing.

(** What was copied can be read back, and the bytes before and after it are
    as they were. *)
Lemma bcopy_at_read (src dst : list Z) (ofs n : nat) :
  (ofs + n <= length dst)%nat → (n <= length src)%nat →
  take n (drop ofs (bcopy_at src dst ofs n)) = take n src
  ∧ take ofs (bcopy_at src dst ofs n) = take ofs dst
  ∧ drop (ofs + n) (bcopy_at src dst ofs n) = drop (ofs + n) dst.
Proof.
  intros Hd Hs. unfold bcopy_at.
  assert (Hl : length (take ofs dst) = ofs) by (rewrite length_take; lia).
  assert (Hn : length (take n src) = n) by (rewrite length_take; lia).
  split; [|split].
  - rewrite <- Hl at 1. rewrite drop_app_length.
    rewrite <- Hn at 1. rewrite take_app_length. reflexivity.
  - rewrite <- Hl at 1. rewrite take_app_length. reflexivity.
  - rewrite app_assoc.
    replace (ofs + n)%nat with (length (take ofs dst ++ take n src)) at 1
      by (rewrite length_app; lia).
    rewrite drop_app_length. reflexivity.
Qed.

End writing.

Section abbreviating.

Variable CACHE_SIZE : Z.
Variable heap : Abbreviate.callocs.
Variable cache : option Abbreviate.overlay_address_cache.
Variable abbrs : option Table.overlay_address_table.
Variables (in_ out : list Z) (ofs : nat).

(** Without a table the address is written out in full. *)
Lemma abbreviate_without_table (was : Z)
    (cache' : option Abbreviate.overlay_address_cache) :
  Abbreviate.overlay_abbreviate_cache_address CACHE_SIZE heap cache in_
  = Ret (was, cache') →
  0x10 <= byte_at in_ 0 →
  table_available heap abbrs = false →
  Table.overlay_abbreviate_address CACHE_SIZE heap cache abbrs in_ out ofs
  = Ret (Table.Abbreviated 0 cache' None (bcopy_at in_ out ofs SID_SIZE)
           (ofs + SID_SIZE)).
Proof.
  intros Hcache Hfirst Hnone.
  unfold Table.overlay_abbreviate_address. rewrite Hcache.
  destruct (byte_at in_ 0 <? 0x10) eqn:Hlow; [apply Z.ltb_lt in Hlow; lia|].
  destruct abbrs as [t|]; [discriminate|]. cbn [table_available] in Hnone.
  cbv zeta. rewrite Hnone. reflexivity.
Qed.

(** The four records [overlay_abbreviate_address] can write on its table for
    an address outside the reserved prefixes, with what each leaves behind. *)
Lemma abbreviate_forms (was : Z) (cache' : option Abbreviate.overlay_address_cache) :
  Abbreviate.overlay_abbreviate_cache_address CACHE_SIZE heap cache in_
  = Ret (was, cache') →
  0x10 <= byte_at in_ 0 →
  table_available heap abbrs = true →
  ∃ r, Table.overlay_abbreviate_address CACHE_SIZE heap cache abbrs in_ out ofs = Ret r
    ∧ Table.result r = 0 ∧ Table.cache_after r = cache'
    ∧ abbreviation_written (table_in_use abbrs) was in_ out ofs r.
Proof.
  intros Hcache Hfirst Htable.
  unfold Table.overlay_abbreviate_address. rewrite Hcache.
  destruct (byte_at in_ 0 <? 0x10) eqn:Hlow; [apply Z.ltb_lt in Hlow; lia|].
  assert (Halloc : match abbrs with
                   | Some t => Some t
                   | None => if Abbreviate.table_block heap
                             then Some (Table.set_next_free 1 Table.zero_table)
                             else None
                   end = Some (table_in_use abbrs)).
  { destruct abbrs as [t|]; [reflexivity|]. cbn [table_available] in Htable.
    rewrite Htable. reflexivity. }
  cbv zeta. rewrite Halloc. set (t := table_in_use abbrs).
  assert (Htail : ∀ i, (i < 2)%nat ∨ i = 2%nat →
    (i = 2%nat ∨ Table.byfirstbyte_at t (byte_at in_ 0) i = 0) →
    ∃ r,
      (if (i <? 2)%nat && negb (Table.next_free t =? 0)
       then Ret (Table.Abbreviated 0 cache'
                   (Some (Table.AddressTable (Table.epoch t)
                      (<[Z.to_nat (Table.next_free t) := take SID_SIZE in_]> (Table.sids t))
                      (<[Z.to_nat (byte_at in_ 0) :=
                           <[i := Table.next_free t]>
                             (default [0; 0]
                                (Table.byfirstbyte t !! Z.to_nat (byte_at in_ 0)))]>
                         (Table.byfirstbyte t))
                      (Z.land (Table.next_free t + 1) 0xff)))
                   (Table.put (bcopy_at in_ (Table.put out ofs 0x08) (ofs + 1) SID_SIZE)
                      (ofs + 1 + SID_SIZE) (Table.next_free t))
                   (ofs + 1 + SID_SIZE + 1))
       else if negb (was =? 0)
       then Ret (Table.Abbreviated 0 cache' (Some t)
                   (bcopy_at in_ (Table.put out ofs 0x06) (ofs + 1) 7) (ofs + 1 + 7))
       else Ret (Table.Abbreviated 0 cache' (Some t) (bcopy_at in_ out ofs SID_SIZE)
                   (ofs + SID_SIZE))) = Ret r
      ∧ Table.result r = 0 ∧ Table.cache_after r = cache'
      ∧ abbreviation_written t was in_ out ofs r).
  { intros i Hi Hstop. unfold abbreviation_written.
    destruct ((i <? 2)%nat && negb (Table.next_free t =? 0)) eqn:Hspare.
    - apply andb_true_iff in Hspare as [Hlt Hfree].
      apply Nat.ltb_lt in Hlt. apply negb_true_iff, Z.eqb_neq in Hfree.
      eexists. split; [reflexivity|]. cbn [Table.result Table.cache_after
        Table.abbrs_after Table.out_after Table.ofs_after].
      split; [reflexivity|]. split; [reflexivity|].
      right. left. exists i.
      repeat split; try assumption; try reflexivity.
      + destruct Hstop as [->|Hz]; [lia|exact Hz].
      + unfold SID_SIZE. lia.
    - destruct (was =? 0) eqn:Hwas; cbn [negb].
      + apply Z.eqb_eq in Hwas.
        eexists. split; [reflexivity|]. cbn [Table.result Table.cache_after
          Table.abbrs_after Table.out_after Table.ofs_after].
        split; [reflexivity|]. split; [reflexivity|].
        right. right. right. repeat split; try assumption; try reflexivity.
      + apply Z.eqb_neq in Hwas.
        eexists. split; [reflexivity|]. cbn [Table.result Table.cache_after
          Table.abbrs_after Table.out_after Table.ofs_after].
        split; [reflexivity|]. split; [reflexivity|].
        right. right. left. repeat split; try assumption; try reflexivity.
        lia. }
  assert (Hhit : ∀ i, (i < 2)%nat →
    memcmp_eq in_ (Table.sid_at t i) SID_SIZE = true →
    ∃ r, Ret (Table.Abbreviated 0 cache' (Some t)
                (Table.put (Table.put out ofs 0x01) (ofs + 1) (Z.of_nat i)) (ofs + 2))
         = Ret r
      ∧ Table.result r = 0 ∧ Table.cache_after r = cache'
      ∧ abbreviation_written t was in_ out ofs r).
  { intros i Hi Hsame. eexists. split; [reflexivity|].
    cbn [Table.result Table.cache_after Table.abbrs_after Table.out_after
         Table.ofs_after].
    split; [reflexivity|]. split; [reflexivity|].
    left. exists i. repeat split; try assumption; reflexivity. }
  cbn [Table.byindex_loop]. unfold Table.overlay_abbreviate_try_byindex.
  destruct (Table.byfirstbyte_at t (byte_at in_ 0) 0 =? 0) eqn:H0; cbn [negb].
  { apply Z.eqb_eq in H0. apply (Htail 0%nat); [left; lia|right; exact H0]. }
  destruct (memcmp_eq in_ (Table.sid_at t 0) SID_SIZE) eqn:Hm0.
  { cbn [Z.eqb]. apply (Hhit 0%nat); [lia|exact Hm0]. }
  cbn [Z.eqb].
  destruct (Table.byfirstbyte_at t (byte_at in_ 0) 1 =? 0) eqn:H1; cbn [negb].
  { apply Z.eqb_eq in H1. apply (Htail 1%nat); [left; lia|right; exact H1]. }
  destruct (memcmp_eq in_ (Table.sid_at t 1) SID_SIZE) eqn:Hm1.
  { cbn [Z.eqb]. apply (Hhit 1%nat); [lia|exact Hm1]. }
  cbn [Z.eqb]. apply (Htail 2%nat); [right; reflexivity|left; reflexivity].
Qed.

End abbreviating.

Section records.

Lemma bcopy_at_splice (src pre mid post : list Z) (ofs n : nat) :
  length pre = ofs → length mid = n → (n <= length src)%nat →
  bcopy_at src (pre ++ mid ++ post) ofs n = pre ++ take n src ++ post.
Proof.
  intros Hpre Hmid Hsrc. unfold bcopy_at.
  rewrite (take_app_length' pre _ ofs) by (symmetry; exact Hpre).
  f_equal. f_equal. rewrite app_assoc.
  apply drop_app_length'. rewrite length_app. lia.
Qed.

Lemma put_splice (pre post : list Z) (b v : Z) (ofs : nat) :
  length pre = ofs →
  Table.put (pre ++ b :: post) ofs v = pre ++ Z.land v 0xff :: post.
Proof.
  intros Hpre. unfold Table.put.
  apply (bcopy_at_splice [Z.land v 0xff] pre [b] post ofs 1);
    [exact Hpre|reflexivity|cbn; lia].
Qed.

(** A buffer with room for [n] bytes at [ofs], cut there. *)
Lemma room_at (out : list Z) (ofs n : nat) :
  (ofs + n <= length out)%nat →
  out = take ofs out ++ take n (drop ofs out) ++ drop (ofs + n) out
  ∧ length (take ofs out) = ofs ∧ length (take n (drop ofs out)) = n.
Proof.
  intros Hroom. split; [|split].
  - rewrite <- drop_drop, take_drop, take_drop. reflexivity.
  - rewrite length_take. lia.
  - rewrite length_take, length_drop. lia.
Qed.

Lemma one_byte (l : list Z) : length l = 1%nat → ∃ b, l = [b].
Proof.
  destruct l as [|b [|? ?]]; cbn; intros H; try discriminate. exists b. reflexivity.
Qed.

(** The two-byte record: the index code and the index. *)
Lemma index_code_written (out : list Z) (ofs : nat) (i : Z) :
  (ofs + 2 <= length out)%nat →
  Table.put (Table.put out ofs 0x01) (ofs + 1) i
  = take ofs out ++ [0x01; Z.land i 0xff] ++ drop (ofs + 2) out.
Proof.
  intros Hroom.
  destruct (room_at out ofs 2 Hroom) as (Hout & Hpre & Hmid).
  destruct (room_at (take 2 (drop ofs out)) 1 1) as (Hcut & H0 & H1); [lia|].
  apply one_byte in H0 as [b0 Hb0]. apply one_byte in H1 as [b1 Hb1].
  rewrite Hb0, Hb1 in Hcut.
  rewrite (drop_ge (take 2 (drop ofs out))) in Hcut by (cbn; lia).
  rewrite Hout at 1. rewrite Hcut. cbn [app].
  rewrite (put_splice (take ofs out) (b1 :: drop (ofs + 2) out) b0 0x01 ofs Hpre).
  change (Z.land 1 255) with 1.
  change (take ofs out ++ 1 :: b1 :: drop (ofs + 2) out)
    with (take ofs out ++ [1] ++ b1 :: drop (ofs + 2) out).
  rewrite (app_assoc (take ofs out) [1]).
  rewrite (put_splice (take ofs out ++ [1]) (drop (ofs + 2) out) b1 i (ofs + 1))
    by (rewrite length_app; cbn; lia).
  rewrite <- app_assoc. reflexivity.
Qed.

(** The record with a newly allocated index: the code, the address, the index. *)
Lemma index_record_written (in_ out : list Z) (ofs : nat) (nf : Z) :
  (ofs + 34 <= length out)%nat → (SID_SIZE <= length in_)%nat →
  Table.put (bcopy_at in_ (Table.put out ofs 0x08) (ofs + 1) SID_SIZE)
    (ofs + 1 + SID_SIZE) nf
  = take ofs out ++ (0x08 :: take SID_SIZE in_ ++ [Z.land nf 0xff])
      ++ drop (ofs + 34) out.
Proof.
  intros Hroom Hin.
  destruct (room_at out ofs 34 Hroom) as (Hout & Hpre & Hmid).
  set (room := take 34 (drop ofs out)) in *.
  destruct (room_at room 1 33) as (Hcut & H0 & Hrest); [lia|].
  apply one_byte in H0 as [b0 Hb0]. rewrite Hb0 in Hcut.
  rewrite (drop_ge room (1 + 33)) in Hcut by lia.
  destruct (room_at (take 33 (drop 1 room)) 32 1) as (Hcut2 & Hm & H33);
    [lia|].
  apply one_byte in H33 as [b33 Hb33]. rewrite Hb33 in Hcut2.
  rewrite (drop_ge _ (32 + 1)) in Hcut2 by lia.
  set (mid := take 32 (take 33 (drop 1 room))) in *.
  rewrite Hcut2 in Hcut. rewrite !app_nil_r in Hcut.
  rewrite Hout at 1. rewrite Hcut. clear Hcut Hcut2 Hout Hb0 Hb33.
  change (([b0] ++ mid ++ [b33]) ++ drop (ofs + 34) out)
    with (b0 :: (mid ++ [b33]) ++ drop (ofs + 34) out).
  rewrite (put_splice (take ofs out) _ b0 0x08 ofs Hpre).
  change (Z.land 8 255) with 8.
  change (take ofs out ++ 8 :: (mid ++ [b33]) ++ drop (ofs + 34) out)
    with (take ofs out ++ [8] ++ (mid ++ [b33]) ++ drop (ofs + 34) out).
  rewrite (app_assoc (take ofs out) [8]). rewrite <- (app_assoc mid).
  rewrite (bcopy_at_splice in_ (take ofs out ++ [8]) mid
             ([b33] ++ drop (ofs + 34) out) (ofs + 1) SID_SIZE);
    [|rewrite length_app; cbn; lia|exact Hm|exact Hin].
  rewrite (app_assoc _ (take SID_SIZE in_)).
  change ([b33] ++ drop (ofs + 34) out) with (b33 :: drop (ofs + 34) out).
  rewrite (put_splice _ (drop (ofs + 34) out) b33 nf (ofs + 1 + SID_SIZE)).
  - rewrite <- !app_assoc. cbn [app]. f_equal. f_equal.
    rewrite <- app_assoc. reflexivity.
  - rewrite !length_app, !length_take. cbn [length]. unfold SID_SIZE in *. lia.
Qed.

(** [bcopy(in, &out[ofs], SID_SIZE)] only looks at the first [SID_SIZE]
    bytes of [in]. *)
Lemma bcopy_at_take (src src' dst : list Z) (ofs n : nat) :
  take n src = take n src' → bcopy_at src dst ofs n = bcopy_at src' dst ofs n.
Proof. intros H. unfold bcopy_at. rewrite H. reflexivity. Qed.

(** A first byte outside the reserved prefixes is no opcode: the address is
    taken as it stands. *)
Lemma expand_verbatim (cache : option Abbreviate.overlay_address_cache)
    (previous_address in_ : list Z) (st : Abbreviate.expand_state) :
  0x10 <= byte_at in_ 0 →
  Abbreviate.overlay_abbreviate_expand_address cache previous_address in_ st
  = Ret (Abbreviate.OA_RESOLVED,
         Abbreviate.ExpandState (Abbreviate.inofs st + SID_SIZE)
           (bcopy_at in_ (Abbreviate.out st) (Abbreviate.ofs st) SID_SIZE)
           (Abbreviate.ofs st)).
Proof.
  intros Hfirst. unfold Abbreviate.overlay_abbreviate_expand_address,
    Abbreviate.is_code.
  cbv zeta.
  assert (Hno : ∀ c, c < 0x10 → (byte_at in_ 0 =? c) = false)
    by (intros c Hc; apply Z.eqb_neq; lia).
  rewrite !Hno by (vm_compute; reflexivity).
  reflexivity.
Qed.

End records.

Section abbreviated_records.

Variable CACHE_SIZE : Z.
Variable heap : Abbreviate.callocs.
Variable cache : option Abbreviate.overlay_address_cache.
Variable abbrs : option Table.overlay_address_table.
Variables (in_ out : list Z) (ofs : nat).

(** A call that returns either refused a reserved first byte, touching
    nothing but the cache, or wrote one of the four records on its table, or
    had no table and wrote the address out in full. *)
Lemma abbreviate_returned (r : Table.abbreviated) :
  Table.overlay_abbreviate_address CACHE_SIZE heap cache abbrs in_ out ofs = Ret r →
  ∃ was,
    Abbreviate.overlay_abbreviate_cache_address CACHE_SIZE heap cache in_
    = Ret (was, Table.cache_after r)
    ∧ ((byte_at in_ 0 < 0x10 ∧ Table.result r = WHY ∧ Table.abbrs_after r = abbrs
        ∧ Table.out_after r = out ∧ Table.ofs_after r = ofs)
       ∨ (0x10 <= byte_at in_ 0 ∧ Table.result r = 0
          ∧ table_available heap abbrs = true
          ∧ abbreviation_written (table_in_use abbrs) was in_ out ofs r)
       ∨ (0x10 <= byte_at in_ 0 ∧ Table.result r = 0
          ∧ table_available heap abbrs = false
          ∧ Table.abbrs_after r = None
          ∧ Table.out_after r = bcopy_at in_ out ofs SID_SIZE
          ∧ Table.ofs_after r = (ofs + 32)%nat)).
Proof.
  intros Hcall.
  destruct (Abbreviate.overlay_abbreviate_cache_address CACHE_SIZE heap cache in_)
    as [[was cache']| |] eqn:Hcache;
    try (unfold Table.overlay_abbreviate_address in Hcall; rewrite Hcache in Hcall;
         discriminate).
  exists was.
  destruct (Z.lt_ge_cases (byte_at in_ 0) 0x10) as [Hlow|Hhigh].
  - unfold Table.overlay_abbreviate_address in Hcall. rewrite Hcache in Hcall.
    apply Z.ltb_lt in Hlow as Hlow'. rewrite Hlow' in Hcall.
    injection Hcall as <-. cbn. split; [reflexivity|]. left. repeat split. exact Hlow.
  - destruct (table_available heap abbrs) eqn:Htable.
    + destruct (abbreviate_forms CACHE_SIZE heap cache abbrs in_ out ofs was cache'
                  Hcache Hhigh Htable) as (r' & Hr' & Hres & Hc & Hform).
      rewrite Hcall in Hr'. injection Hr' as <-.
      rewrite Hc. split; [reflexivity|]. right. left. repeat split; assumption.
    + rewrite (abbreviate_without_table CACHE_SIZE heap cache abbrs in_ out ofs was
                 cache' Hcache Hhigh Htable) in Hcall.
      injection Hcall as <-. cbn. split; [reflexivity|]. right. right.
      repeat split. exact Hhigh.
Qed.

End abbreviated_records.

Section first_bytes.

Lemma first_byte_of_take (a b : list Z) (n : nat) :
  take (S n) a = take (S n) b → byte_at a 0 = byte_at b 0.
Proof.
  intros H. unfold byte_at.
  destruct a as [|x a], b as [|y b]; cbn in H; try discriminate; cbn;
    [reflexivity|congruence].
Qed.

End first_bytes.

(** X26.  [overlay_abbreviate_address], once the address cache has taken the
    address: a first byte below 0x10 is refused with -1 and neither the table,
    the buffer nor the offset change.  Any other address gives 0 and moves
    the offset by 2, 34, 8 or 32 bytes: by 8 only for an address the cache
    already held, and by 32 only for one it did not hold or when there is no
    table.  The call ends without a table exactly when none existed and
    [calloc] failed, and then the address is written out in full. *)
Theorem abbreviate_address_outcome (CACHE_SIZE : Z) (heap : Abbreviate.callocs)
    (cache : option Abbreviate.overlay_address_cache)
    (abbrs : option Table.overlay_address_table) (in_ out : list Z) (ofs : nat)
    (was : Z) (cache' : option Abbreviate.overlay_address_cache) :
  Abbreviate.overlay_abbreviate_cache_address CACHE_SIZE heap cache in_
  = Ret (was, cache') →
  ∃ r, Table.overlay_abbreviate_address CACHE_SIZE heap cache abbrs in_ out ofs = Ret r
    ∧ Table.cache_after r = cache'
    ∧ (byte_at in_ 0 < 0x10 →
       Table.result r = -1 ∧ Table.abbrs_after r = abbrs
       ∧ Table.out_after r = out ∧ Table.ofs_after r = ofs)
    ∧ (0x10 <= byte_at in_ 0 →
       Table.result r = 0
       ∧ (Table.abbrs_after r = None
          ↔ abbrs = None ∧ Abbreviate.table_block heap = false)
       ∧ (Table.abbrs_after r = None →
          Table.out_after r = bcopy_at in_ out ofs SID_SIZE
          ∧ Table.ofs_after r = (ofs + 32)%nat)
       ∧ (Table.ofs_after r = (ofs + 2)%nat
          ∨ Table.ofs_after r = (ofs + 34)%nat
          ∨ (Table.ofs_after r = (ofs + 8)%nat ∧ was ≠ 0)
          ∨ (Table.ofs_after r = (ofs + 32)%nat
             ∧ (was = 0 ∨ Table.abbrs_after r = None)))).
Proof.
  intros Hcache.
  assert (Hnone : table_available heap abbrs = false
                  ↔ abbrs = None ∧ Abbreviate.table_block heap = false).
  { destruct abbrs as [t|]; cbn [table_available].
    - split; [discriminate|intros [Hn _]; discriminate].
    - tauto. }
  destruct (Z.lt_ge_cases (byte_at in_ 0) 0x10) as [Hlow|Hhigh].
  - unfold Table.overlay_abbreviate_address. rewrite Hcache.
    apply Z.ltb_lt in Hlow as Hlow'. rewrite Hlow'.
    eexists. split; [reflexivity|]. cbn. split; [reflexivity|].
    split; [intros _; repeat split|intros Hc; lia].
  - destruct (table_available heap abbrs) eqn:Htable.
    + destruct (abbreviate_forms CACHE_SIZE heap cache abbrs in_ out ofs was cache'
                  Hcache Hhigh Htable) as (r & Hr & Hres & Hc & Hform).
      exists r. split; [exact Hr|]. split; [exact Hc|].
      split; [intros Hlow; lia|]. intros _. split; [exact Hres|].
      assert (Hsome : Table.abbrs_after r ≠ None).
      { destruct Hform as [(i & _ & _ & Ht & _)|[(i & _ & _ & _ & Ht & _)|
          [(_ & Ht & _)|(_ & Ht & _)]]]; rewrite Ht; discriminate. }
      split; [split; [intros Habs; destruct (Hsome Habs)
                     |intros Habs; apply Hnone in Habs; discriminate]|].
      split; [intros Habs; destruct (Hsome Habs)|].
      destruct Hform as [(i & _ & _ & _ & _ & Ho)|[(i & _ & _ & _ & _ & _ & Ho)|
        [(Hw & _ & _ & Ho)|(Hw & _ & _ & Ho)]]]; tauto.
    + exists (Table.Abbreviated 0 cache' None (bcopy_at in_ out ofs SID_SIZE)
                (ofs + SID_SIZE)).
      split; [apply (abbreviate_without_table _ _ _ _ _ _ _ was); assumption|].
      cbn [Table.cache_after Table.result Table.abbrs_after Table.out_after
           Table.ofs_after].
      split; [reflexivity|]. split; [intros Hlow; lia|]. intros _.
      split; [reflexivity|].
      split; [split; [intros _; apply Hnone; reflexivity|reflexivity]|].
      split; [intros _; split; reflexivity|].
      right. right. right. split; [reflexivity|right; reflexivity].
Qed.

Lemma abbreviate_address_outcome_witness :
  ∃ r, Table.overlay_abbreviate_address 0 (Abbreviate.Callocs true true false)
         None None (sid_of [0x20]) (replicate 40 0) 0 = Ret r
    ∧ Table.cache_after r = None
    ∧ (byte_at (sid_of [0x20]) 0 < 0x10 →
       Table.result r = -1 ∧ Table.abbrs_after r = None
       ∧ Table.out_after r = replicate 40 0 ∧ Table.ofs_after r = 0%nat)
    ∧ (0x10 <= byte_at (sid_of [0x20]) 0 →
       Table.result r = 0
       ∧ (Table.abbrs_after r = None
          ↔ @None Table.overlay_address_table = None
            ∧ Abbreviate.table_block (Abbreviate.Callocs true true false)
                          = false)
       ∧ (Table.abbrs_after r = None →
          Table.out_after r = bcopy_at (sid_of [0x20]) (replicate 40 0) 0 SID_SIZE
          ∧ Table.ofs_after r = (0 + 32)%nat)
       ∧ (Table.ofs_after r = (0 + 2)%nat
          ∨ Table.ofs_after r = (0 + 34)%nat
          ∨ (Table.ofs_after r = (0 + 8)%nat ∧ 0 ≠ 0)
          ∨ (Table.ofs_after r = (0 + 32)%nat
             ∧ (0 = 0 ∨ Table.abbrs_after r = None)))).
Proof.
  apply (abbreviate_address_outcome 0 (Abbreviate.Callocs true true false) None None
           (sid_of [0x20]) (replicate 40 0) 0%nat 0 None).
  reflexivity.
Defined.



(** X28.  Round trip of the verbatim form: when [overlay_abbreviate_address]
    writes the address as its 32 bytes (with a table, or for want of one),
    [overlay_abbreviate_expand_address] read at the same offset resolves it,
    copies those 32 bytes to its output and consumes 32 bytes of input. *)
Theorem abbreviate_verbatim_then_expand (CACHE_SIZE : Z)
    (heap : Abbreviate.callocs) (cache : option Abbreviate.overlay_address_cache)
    (abbrs : option Table.overlay_address_table) (in_ out : list Z) (ofs : nat)
    (r : Table.abbreviated)
    (cache2 : option Abbreviate.overlay_address_cache) (previous_address : list Z)
    (st : Abbreviate.expand_state) :
  Table.overlay_abbreviate_address CACHE_SIZE heap cache abbrs in_ out ofs = Ret r →
  Table.ofs_after r = (ofs + 32)%nat →
  (SID_SIZE <= length in_)%nat → (ofs + 32 <= length out)%nat →
  Abbreviate.overlay_abbreviate_expand_address cache2 previous_address
    (drop ofs (Table.out_after r)) st
  = Ret (Abbreviate.OA_RESOLVED,
         Abbreviate.ExpandState (Abbreviate.inofs st + 32)
           (bcopy_at in_ (Abbreviate.out st) (Abbreviate.ofs st) SID_SIZE)
           (Abbreviate.ofs st)).
Proof.
  intros Hcall Hofs Hin Hroom.
  assert (Hverbatim : 0x10 <= byte_at in_ 0
                      ∧ Table.out_after r = bcopy_at in_ out ofs SID_SIZE).
  { destruct (abbreviate_returned _ _ _ _ _ _ _ _ Hcall)
      as (was & _ & [Hrefused|[Hwritten|Hbare]]).
    - destruct Hrefused as (_ & _ & _ & _ & Ho). lia.
    - destruct Hwritten as (Hfirst & _ & _ & Hform).
      destruct Hform as [(i & _ & _ & _ & _ & Ho)|[(i & _ & _ & _ & _ & _ & Ho)|
        [(_ & _ & _ & Ho)|(_ & _ & Hout & _)]]]; try lia.
      split; assumption.
    - destruct Hbare as (Hfirst & _ & _ & _ & Hout & _). split; assumption. }
  destruct Hverbatim as [Hfirst Hout].
  destruct (bcopy_at_read in_ out ofs SID_SIZE) as (Hread & _ & _);
    [unfold SID_SIZE; lia|exact Hin|].
  rewrite <- Hout in Hread.
  rewrite expand_verbatim.
  - rewrite (bcopy_at_take _ in_ _ _ _ Hread). reflexivity.
  - rewrite (first_byte_of_take _ in_ 31 Hread). exact Hfirst.
Qed.

Lemma abbreviate_verbatim_then_expand_witness :
  let b := sid_of [0x20; 1] in
  let t := Table.AddressTable 0
             (<[2%nat := b]> (<[1%nat := b]> (replicate 256 (replicate 32 0))))
             (<[32%nat := [1; 2]]> (replicate 256 [0; 0])) 3 in
  let a := sid_of [0x20; 9] in
  let r := Table.Abbreviated 0 None (Some t) (a ++ replicate 8 0) 32 in
  Abbreviate.overlay_abbreviate_expand_address None (replicate 32 0)
    (drop 0 (Table.out_after r)) (Abbreviate.ExpandState 0 (replicate 32 0) 0)
  = Ret (Abbreviate.OA_RESOLVED,
         Abbreviate.ExpandState (0 + 32)
           (bcopy_at a (replicate 32 0) 0 SID_SIZE) 0).
Proof.
  intros b t a r.
  apply (abbreviate_verbatim_then_expand 0 (Abbreviate.Callocs true true true)
           None (Some t) a (replicate 40 0) 0%nat r
           None (replicate 32 0) (Abbreviate.ExpandState 0 (replicate 32 0) 0)).
  - vm_compute. reflexivity.
  - reflexivity.
  - vm_compute. lia.
  - vm_compute. lia.
Defined.

(** X29.  The form with a newly allocated index does not come back as the
    address: [overlay_abbreviate_expand_address] read at the record resolves
    it, consumes its 33 leading bytes, and copies the record's first 32 bytes
    to its output, that is the code 0x08 followed by the first 31 bytes of
    the address. *)
Theorem abbreviate_indexed_then_expand (CACHE_SIZE : Z)
    (heap : Abbreviate.callocs) (cache : option Abbreviate.overlay_address_cache)
    (abbrs : option Table.overlay_address_table) (in_ out : list Z) (ofs : nat)
    (r : Table.abbreviated)
    (cache2 : option Abbreviate.overlay_address_cache) (previous_address : list Z)
    (st : Abbreviate.expand_state) :
  Table.overlay_abbreviate_address CACHE_SIZE heap cache abbrs in_ out ofs = Ret r →
  Table.ofs_after r = (ofs + 34)%nat →
  (SID_SIZE <= length in_)%nat → (ofs + 34 <= length out)%nat →
  Abbreviate.overlay_abbreviate_expand_address cache2 previous_address
    (drop ofs (Table.out_after r)) st
  = Ret (Abbreviate.OA_RESOLVED,
         Abbreviate.ExpandState (Abbreviate.inofs st + 33)
           (bcopy_at (0x08 :: in_) (Abbreviate.out st) (Abbreviate.ofs st) SID_SIZE)
           (Abbreviate.ofs st)).
Proof.
  intros Hcall Hofs Hin Hroom.
  destruct (abbreviate_returned _ _ _ _ _ _ _ _ Hcall)
    as (was & _ & [Hrefused|[Hwritten|Hbare]]).
  { destruct Hrefused as (_ & _ & _ & _ & Ho). lia. }
  2:{ destruct Hbare as (_ & _ & _ & _ & _ & Ho). lia. }
  destruct Hwritten as (Hfirst & _ & _ & Hform).
  destruct Hform as [(i & _ & _ & _ & _ & Ho)|[(i & _ & _ & _ & _ & Hout & _)|
    [(_ & _ & _ & Ho)|(_ & _ & _ & Ho)]]]; try lia.
  rewrite index_record_written in Hout by assumption.
  rewrite Hout.
  rewrite drop_app_length' by (rewrite length_take; lia).
  set (tail := drop (ofs + 34) out).
  set (nf := Z.land (Table.next_free (table_in_use abbrs)) 255).
  change ((8 :: take SID_SIZE in_ ++ [nf]) ++ tail)
    with (8 :: (take SID_SIZE in_ ++ [nf]) ++ tail).
  unfold Abbreviate.overlay_abbreviate_expand_address.
  change (byte_at (8 :: (take SID_SIZE in_ ++ [nf]) ++ tail) 0) with 8.
  cbv zeta. change (Abbreviate.is_code 8 Abbreviate.OA_CODE_00) with false.
  change (Abbreviate.is_code 8 Abbreviate.OA_CODE_02) with false.
  change (Abbreviate.is_code 8 Abbreviate.OA_CODE_04) with false.
  change (Abbreviate.is_code 8 Abbreviate.OA_CODE_0C) with false.
  change (Abbreviate.is_code 8 Abbreviate.OA_CODE_INDEX) with false.
  change (Abbreviate.is_code 8 Abbreviate.OA_CODE_PREVIOUS) with false.
  change (Abbreviate.is_code 8 Abbreviate.OA_CODE_PREFIX3) with false.
  change (Abbreviate.is_code 8 Abbreviate.OA_CODE_PREFIX3_INDEX1) with false.
  change (Abbreviate.is_code 8 Abbreviate.OA_CODE_PREFIX7) with false.
  change (Abbreviate.is_code 8 Abbreviate.OA_CODE_PREFIX7_INDEX1) with false.
  change (Abbreviate.is_code 8 Abbreviate.OA_CODE_PREFIX11) with false.
  change (Abbreviate.is_code 8 Abbreviate.OA_CODE_PREFIX11_INDEX1) with false.
  change (Abbreviate.is_code 8 Abbreviate.OA_CODE_PREFIX11_INDEX2) with false.
  change (Abbreviate.is_code 8 Abbreviate.OA_CODE_BROADCAST) with false.
  change (Abbreviate.is_code 8 Abbreviate.OA_CODE_FULL_INDEX1) with true.
  change (Abbreviate.is_code 8 Abbreviate.OA_CODE_FULL_INDEX2) with false.
  cbv iota. cbn [orb].
  f_equal. f_equal. f_equal.
  apply bcopy_at_take. unfold SID_SIZE in *. cbn [take]. f_equal.
  rewrite <- app_assoc, take_app_le by (rewrite length_take; lia).
  rewrite take_take. reflexivity.
Qed.

Lemma abbreviate_indexed_then_expand_witness :
  let a := sid_of [0x20; 9] in
  let t := Table.AddressTable 0 (<[1%nat := a]> (replicate 256 (replicate 32 0)))
             (<[32%nat := [1; 0]]> (replicate 256 [0; 0])) 2 in
  let r := Table.Abbreviated 0 None (Some t) (8 :: a ++ 1 :: replicate 6 0) 34 in
  Abbreviate.overlay_abbreviate_expand_address None (replicate 32 0)
    (drop 0 (Table.out_after r)) (Abbreviate.ExpandState 0 (replicate 32 0) 0)
  = Ret (Abbreviate.OA_RESOLVED,
         Abbreviate.ExpandState (0 + 33)
           (bcopy_at (0x08 :: a) (replicate 32 0) 0 SID_SIZE) 0).
Proof.
  intros a t r.
  apply (abbreviate_indexed_then_expand 0 (Abbreviate.Callocs true true true)
           None None a (replicate 40 0) 0%nat r
           None (replicate 32 0) (Abbreviate.ExpandState 0 (replicate 32 0) 0)).
  - vm_compute. reflexivity.
  - reflexivity.
  - vm_compute. lia.
  - vm_compute. lia.
Defined.

(** X30.  The two-byte form: when [overlay_abbreviate_address] moves the
    offset by 2 it has written the code 0x01 and the loop counter 0 or 1, and
    the address agrees with the table entry at that counter;
    [overlay_abbreviate_expand_address] read at the record exits the
    process. *)
Theorem abbreviate_short_then_expand (CACHE_SIZE : Z)
    (heap : Abbreviate.callocs) (cache : option Abbreviate.overlay_address_cache)
    (abbrs : option Table.overlay_address_table) (in_ out : list Z) (ofs : nat)
    (r : Table.abbreviated)
    (cache2 : option Abbreviate.overlay_address_cache) (previous_address : list Z)
    (st : Abbreviate.expand_state) :
  Table.overlay_abbreviate_address CACHE_SIZE heap cache abbrs in_ out ofs = Ret r →
  Table.ofs_after r = (ofs + 2)%nat →
  (ofs + 2 <= length out)%nat →
  (∃ i, (i < 2)%nat
     ∧ take 2 (drop ofs (Table.out_after r)) = [0x01; Z.of_nat i]
     ∧ take SID_SIZE in_ = take SID_SIZE (Table.sid_at (table_in_use abbrs) i))
  ∧ Abbreviate.overlay_abbreviate_expand_address cache2 previous_address
      (drop ofs (Table.out_after r)) st = Exited.
Proof.
  intros Hcall Hofs Hroom.
  destruct (abbreviate_returned _ _ _ _ _ _ _ _ Hcall)
    as (was & _ & [Hrefused|[Hwritten|Hbare]]).
  { destruct Hrefused as (_ & _ & _ & _ & Ho). lia. }
  2:{ destruct Hbare as (_ & _ & _ & _ & _ & Ho). lia. }
  destruct Hwritten as (Hfirst & _ & _ & Hform).
  destruct Hform as [(i & Hi & Hsame & _ & Hout & _)|[(i & _ & _ & _ & _ & _ & Ho)|
    [(_ & _ & _ & Ho)|(_ & _ & _ & Ho)]]]; try lia.
  rewrite index_code_written in Hout by assumption.
  assert (Hbyte : Z.land (Z.of_nat i) 255 = Z.of_nat i).
  { destruct i as [|[|i]]; [reflexivity|reflexivity|lia]. }
  rewrite Hbyte in Hout. rewrite Hout.
  rewrite drop_app_length' by (rewrite length_take; lia).
  split.
  - exists i. split; [exact Hi|]. split; [reflexivity|].
    unfold memcmp_eq in Hsame. apply bool_decide_eq_true in Hsame. exact Hsame.
  - reflexivity.
Qed.

Lemma abbreviate_short_then_expand_witness :
  let a := sid_of [0x20; 9] in
  let t := Table.AddressTable 0
             (<[2%nat := a]> (<[1%nat := a]> (replicate 256 (replicate 32 0))))
             (<[32%nat := [1; 2]]> (replicate 256 [0; 0])) 3 in
  let r := Table.Abbreviated 0 None (Some t) (1 :: 1 :: replicate 38 0) 2 in
  (∃ i, (i < 2)%nat
     ∧ take 2 (drop 0 (Table.out_after r)) = [0x01; Z.of_nat i]
     ∧ take SID_SIZE a = take SID_SIZE (Table.sid_at (table_in_use (Some t)) i))
  ∧ Abbreviate.overlay_abbreviate_expand_address None (replicate 32 0)
      (drop 0 (Table.out_after r)) (Abbreviate.ExpandState 0 (replicate 32 0) 0)
    = Exited.
Proof.
  intros a t r.
  apply (abbreviate_short_then_expand 0 (Abbreviate.Callocs true true true)
           None (Some t) a (replicate 40 0) 0%nat r
           None (replicate 32 0) (Abbreviate.ExpandState 0 (replicate 32 0) 0)).
  - vm_compute. reflexivity.
  - reflexivity.
  - vm_compute. lia.
Defined.
